(** * MuralBot G-code pipeline: a shallow embedding of the JavaScript core

    The pipeline turns a raster image into a command stream for a
    three-cable painting robot.  This development embeds the parts of the
    JavaScript sources that the specification makes promises about and
    proves (or refutes) those promises; for the functions around them
    (the planners, the tracer, the quantizer, the stream generator) it
    proves what the code itself guarantees.

    Conventions of the embedding.
    - A JavaScript [number] has two counterparts.  In most modules it is a
      real number: arithmetic is exact, so the results are those of the
      algorithms as designed, free of IEEE-754 rounding.  Where a statement
      of those modules needs arguments that keep the floating-point
      operations of the code away from overflow, or away from a boundary
      that a rounding could cross, it says so in a hypothesis.  [Infinity],
      where the code uses it as the initial value of a running minimum, is
      [None] in an [option R].  In the modules
      whose names end in 64 a [number] is a binary64 float (the primitive
      floats of the kernel), with [NaN], the infinities, signed zeros and
      correctly rounded operations, as in the engine; these modules carry
      the statements that do hinge on [NaN] or on a rounding.
    - A function that [throw]s returns [None] in an [option]; [null] results
      are [None] as well and are kept apart from exceptions by a sum type
      where both occur.
    - Mutable objects are records threaded through the calls that mutate
      them; loops are folds, or fixpoints over a fuel that is shown to be
      sufficient.
    - [Math.random()] is an oracle: a stream of reals in [0, 1) that the
      caller supplies and that is consumed left to right.
    - Event-bus emissions, console logging and timestamps are left out: they
      do not flow back into any computed value. *)

From Stdlib Require Import Reals Lra Lia List ZArith Bool Arith.
From Stdlib Require String.
From Stdlib Require Floats.
From Stdlib Require Import Permutation.
Import ListNotations.

Local Open Scope R_scope.

(** ** JavaScript numerics over the reals *)

Module Js.

Definition ltb (x y : R) : bool := if Rlt_dec x y then true else false.
Definition leb (x y : R) : bool := if Rle_dec x y then true else false.
Definition gtb (x y : R) : bool := ltb y x.
Definition geb (x y : R) : bool := leb y x.
Definition eqb (x y : R) : bool := if Req_dec_T x y then true else false.

(** [Math.floor], [Math.ceil] and [Math.round] (round half up). *)
Definition floor (x : R) : R := IZR (Zfloor x).
Definition ceil (x : R) : R := - IZR (Zfloor (- x)).
Definition round (x : R) : R := IZR (Zfloor (x + / 2)).

(** The idiom [Math.round(v * 100) / 100] that the sources use to keep two
    decimal places. *)
Definition round2 (v : R) : R := round (v * 100) / 100.

(** [Math.pow(v, 2)]. *)
Definition pow2 (v : R) : R := v * v.

Lemma ltb_spec x y : ltb x y = true <-> x < y.
Proof. unfold ltb; destruct (Rlt_dec x y); split; intros; try easy. Qed.

Lemma ltb_false x y : ltb x y = false <-> y <= x.
Proof.
  unfold ltb; destruct (Rlt_dec x y); split; intros; try easy; lra.
Qed.

Lemma leb_spec x y : leb x y = true <-> x <= y.
Proof. unfold leb; destruct (Rle_dec x y); split; intros; try easy. Qed.

Lemma leb_false x y : leb x y = false <-> y < x.
Proof.
  unfold leb; destruct (Rle_dec x y); split; intros; try easy; lra.
Qed.

Lemma eqb_spec x y : eqb x y = true <-> x = y.
Proof. unfold eqb; destruct (Req_dec_T x y); split; intros; try easy. Qed.

Lemma eqb_refl x : eqb x x = true.
Proof. now apply eqb_spec. Qed.

Lemma round_eq (z : Z) (x : R) :
  IZR z - / 2 <= x < IZR z + / 2 -> round x = IZR z.
Proof.
  intros H. unfold round. f_equal. apply Zfloor_eq. lra.
Qed.

Lemma round_IZR (z : Z) : round (IZR z) = IZR z.
Proof. apply round_eq. lra. Qed.

Lemma round_bound x : x - / 2 < round x <= x + / 2.
Proof.
  unfold round. pose proof (Zfloor_bound (x + / 2)). lra.
Qed.

Lemma round2_bound v : Rabs (round2 v - v) <= / 200.
Proof.
  unfold round2. pose proof (round_bound (v * 100)).
  apply Rabs_le. lra.
Qed.

Lemma round2_eq (z : Z) (v : R) :
  IZR z - / 2 <= v * 100 < IZR z + / 2 -> round2 v = IZR z / 100.
Proof. intros H. unfold round2. now rewrite (round_eq z). Qed.

Lemma sqrt_between (lo hi s : R) :
  0 <= lo -> lo * lo <= s -> 0 <= hi -> s < hi * hi ->
  lo <= sqrt s < hi.
Proof.
  intros Hlo Hlos Hhi Hshi. split.
  - rewrite <- (sqrt_square lo Hlo). apply sqrt_le_1_alt. exact Hlos.
  - rewrite <- (sqrt_square hi Hhi). apply sqrt_lt_1_alt. split; [| exact Hshi].
    apply Rle_trans with (lo * lo); [nra | exact Hlos].
Qed.

End Js.

(** ** Array slices *)

Module Slices.

Lemma firstn_exact {A : Type} (l r : list A) : firstn (length l) (l ++ r) = l.
Proof.
  rewrite <- (Nat.add_0_r (length l)), firstn_app_2. simpl.
  apply app_nil_r.
Qed.

Lemma skipn_exact {A : Type} (l r : list A) : skipn (length l) (l ++ r) = r.
Proof.
  rewrite skipn_app, skipn_all, Nat.sub_diag. reflexivity.
Qed.

End Slices.

(** ** Refill tracker ([gcode/refillTracker.js]) *)

Module RefillTracker.

(** One entry of [_usageHistory] (the wall-clock timestamp is left out). *)
Record usage_event : Type := mkUsage {
  area : R;
  thickness : R;
  volume : R;
  remainingAfter : R
}.

(** The fields of a [RefillTracker] instance. *)
Record tracker : Type := mkTracker {
  paintCapacity : R;
  remainingCapacity : R;
  consumedPaint : R;
  refillCount : nat;
  usageHistory : list usage_event
}.

(** [new RefillTracker()]. *)
Definition new : tracker := mkTracker 0 0 0 0 [].

(** [reset(paintCapacity)]; [None] is the thrown
    "Paint capacity must be a positive number". *)
Definition reset (t : tracker) (capacity : R) : option tracker :=
  if Js.leb capacity 0 then None
  else Some (mkTracker capacity capacity 0 0 []).

(** Default values of the optional parameters. *)
Definition default_thickness : R := / 10.
Definition default_threshold : R := / 10.

(** [needsRefill(threshold)]; [None] is the thrown
    "Threshold must be between 0 and 1". *)
Definition needsRefill (t : tracker) (threshold : R) : option bool :=
  if Js.ltb threshold 0 || Js.gtb threshold 1 then None
  else
    let thresholdCapacity := paintCapacity t * threshold in
    Some (Js.leb (remainingCapacity t) thresholdCapacity).

(** [addUsage(area, thickness)]: the updated tracker and the returned
    refill signal; [None] is the thrown "Area must be a non-negative
    number". *)
Definition addUsage (t : tracker) (a th : R) : option (tracker * bool) :=
  if Js.ltb a 0 then None
  else
    let volumeMm3 := a * th in
    let volumeMl := volumeMm3 / 1000 in
    let remaining := remainingCapacity t - volumeMl in
    let t' := mkTracker (paintCapacity t) remaining
                (consumedPaint t + volumeMl) (refillCount t)
                (usageHistory t ++ [mkUsage a th volumeMl remaining]) in
    match needsRefill t' default_threshold with
    | Some b => Some (t', b)
    | None => None
    end.

(** [addLineUsage(length, width, thickness)]. *)
Definition addLineUsage (t : tracker) (len width th : R)
  : option (tracker * bool) :=
  let a := len * width in
  addUsage t a th.

(** [addDotUsage(diameter, thickness)]. *)
Definition addDotUsage (t : tracker) (diameter th : R)
  : option (tracker * bool) :=
  let radius := diameter / 2 in
  let a := PI * radius * radius in
  addUsage t a th.

(** [refill()]. *)
Definition refill (t : tracker) : tracker :=
  mkTracker (paintCapacity t) (paintCapacity t) (consumedPaint t)
    (S (refillCount t)) (usageHistory t).

(** [getRemainingCapacity()]. *)
Definition getRemainingCapacity (t : tracker) : R :=
  Rmax 0 (remainingCapacity t).

(** The mutating operations of the public interface, as commands. *)
Inductive op : Type :=
| Reset (capacity : R)
| AddUsage (a th : R)
| AddLineUsage (len width th : R)
| AddDotUsage (diameter th : R)
| Refill.

(** One call on the tracker; [None] when the call throws. *)
Definition apply_op (t : tracker) (o : op) : option tracker :=
  match o with
  | Reset c => reset t c
  | AddUsage a th => option_map fst (addUsage t a th)
  | AddLineUsage l w th => option_map fst (addLineUsage t l w th)
  | AddDotUsage d th => option_map fst (addDotUsage t d th)
  | Refill => Some (refill t)
  end.

(** A call that throws does so before it assigns any field, so the object
    is left as it was and the caller may go on using it. *)
Definition step (t : tracker) (o : op) : tracker :=
  match apply_op t o with
  | Some t' => t'
  | None => t
  end.

Definition run (t : tracker) (ops : list op) : tracker :=
  fold_left step ops t.

(** Volume in ml consumed by an [addUsage(area, thickness)] call. *)
Definition usage_volume (u : R * R) : R := fst u * snd u / 1000.

Definition total_volume (us : list (R * R)) : R :=
  fold_right (fun u acc => usage_volume u + acc) 0 us.

(** A run of [addUsage] calls, none of which throws. *)
Fixpoint addUsages (t : tracker) (us : list (R * R)) : option tracker :=
  match us with
  | [] => Some t
  | (a, th) :: us' =>
      match addUsage t a th with
      | Some (t', _) => addUsages t' us'
      | None => None
      end
  end.

(** [getRemainingPercentage()]. *)
Definition getRemainingPercentage (t : tracker) : R :=
  if Js.eqb (paintCapacity t) 0 then 0
  else remainingCapacity t / paintCapacity t * 100.

(** [getRefillCount()], [getTotalConsumed()], [getPaintCapacity()]. *)
Definition getRefillCount (t : tracker) : nat := refillCount t.
Definition getTotalConsumed (t : tracker) : R := consumedPaint t.
Definition getPaintCapacity (t : tracker) : R := paintCapacity t.

(** The paint thickness an operation is called with, if it records usage. *)
Definition op_thickness (o : op) : option R :=
  match o with
  | AddUsage _ th | AddLineUsage _ _ th | AddDotUsage _ th => Some th
  | Reset _ | Refill => None
  end.

Definition is_refill (o : op) : bool :=
  match o with Refill => true | _ => false end.

Definition is_reset (o : op) : bool :=
  match o with Reset _ => true | _ => false end.

(** The volume recorded in the usage history. *)
Definition history_volume (t : tracker) : R :=
  fold_right (fun u acc => volume u + acc) 0 (usageHistory t).

(** A magnitude up to which the products that a usage call forms from its
    arguments stay below the overflow threshold of binary64. *)
Definition arg_limit : R := 10 ^ 150.

(** The numbers a usage call is given are within [arg_limit], and its
    thickness is not negative. *)
Definition moderate (o : op) : Prop :=
  match o with
  | AddUsage a th => a <= arg_limit /\ 0 <= th <= arg_limit
  | AddLineUsage len width th =>
      Rabs len <= arg_limit /\ Rabs width <= arg_limit
      /\ 0 <= th <= arg_limit
  | AddDotUsage diameter th =>
      Rabs diameter <= arg_limit /\ 0 <= th <= arg_limit
  | Reset _ | Refill => True
  end.

End RefillTracker.

Module RefillTrackerFacts.
Import RefillTracker.

Lemma needsRefill_default (t : tracker) :
  needsRefill t default_threshold
  = Some (Js.leb (remainingCapacity t) (paintCapacity t * default_threshold)).
Proof.
  unfold needsRefill, default_threshold, Js.gtb.
  replace (Js.ltb (/ 10) 0) with false
    by (symmetry; apply Js.ltb_false; lra).
  replace (Js.ltb 1 (/ 10)) with false
    by (symmetry; apply Js.ltb_false; lra).
  reflexivity.
Qed.

Lemma addUsage_some (t : tracker) (a th : R) :
  0 <= a ->
  exists t' b,
    addUsage t a th = Some (t', b)
    /\ paintCapacity t' = paintCapacity t
    /\ remainingCapacity t' = remainingCapacity t - usage_volume (a, th).
Proof.
  intros Ha. unfold addUsage.
  replace (Js.ltb a 0) with false by (symmetry; apply Js.ltb_false; lra).
  cbv zeta. rewrite needsRefill_default.
  eexists _, _. split; [reflexivity |]. split; reflexivity.
Qed.

Lemma addUsages_some (us : list (R * R)) :
  Forall (fun u => 0 <= fst u) us ->
  forall t, exists t',
    addUsages t us = Some t'
    /\ paintCapacity t' = paintCapacity t
    /\ remainingCapacity t' = remainingCapacity t - total_volume us.
Proof.
  induction 1 as [| [a th] us Ha Hus IH]; intros t; simpl.
  - exists t. repeat split. lra.
  - destruct (addUsage_some t a th Ha) as (t1 & b & E & Hc & Hr).
    rewrite E. destruct (IH t1) as (t2 & E2 & Hc2 & Hr2).
    exists t2. split; [exact E2 |]. split; [congruence |].
    rewrite Hr2, Hr. lra.
Qed.

Lemma reset_some (t : tracker) (c : R) :
  0 < c -> reset t c = Some (mkTracker c c 0 0 []).
Proof.
  intros Hc. unfold reset.
  replace (Js.leb c 0) with false by (symmetry; apply Js.leb_false; lra).
  reflexivity.
Qed.

(** C5. After [reset(C)] with [C > 0]: (a) [addUsage] calls whose volumes
    add up to exactly [C] all succeed and leave [needsRefill()] true at the
    default threshold of 10%; (b) whatever was consumed by such calls, after
    [refill()] the remaining amount, both the field and the value of
    [getRemainingCapacity()], is the capacity [C]. *)
Theorem reset_usage_refill (t0 : tracker) (C : R) (us : list (R * R)) :
  0 < C ->
  Forall (fun u => 0 <= fst u) us ->
  exists t1 t2,
    reset t0 C = Some t1
    /\ addUsages t1 us = Some t2
    /\ (total_volume us = C -> needsRefill t2 default_threshold = Some true)
    /\ remainingCapacity (refill t2) = C
    /\ getRemainingCapacity (refill t2) = C.
Proof.
  intros HC Hus.
  exists (mkTracker C C 0 0 []).
  destruct (addUsages_some us Hus (mkTracker C C 0 0 [])) as (t2 & E & Hc & Hr).
  simpl in Hc, Hr. exists t2.
  split; [now apply reset_some |]. split; [exact E |].
  split; [| split].
  - intros Htot. rewrite needsRefill_default. f_equal.
    apply Js.leb_spec. rewrite Hr, Hc, Htot. unfold default_threshold. lra.
  - simpl. exact Hc.
  - unfold getRemainingCapacity. simpl. rewrite Hc.
    apply Rmax_right. lra.
Qed.

Lemma reset_usage_refill_witness :
  exists t1 t2,
    reset new 50 = Some t1
    /\ addUsages t1 [(100000, / 10); (400000, / 10)] = Some t2
    /\ (total_volume [(100000, / 10); (400000, / 10)] = 50 ->
        needsRefill t2 default_threshold = Some true)
    /\ remainingCapacity (refill t2) = 50
    /\ getRemainingCapacity (refill t2) = 50.
Proof.
  apply (reset_usage_refill new 50 [(100000, / 10); (400000, / 10)]).
  - lra.
  - repeat constructor; simpl; lra.
Defined.

(** *** Accounting *)

(** The tracker after an accepted usage of area [a] at thickness [th]. *)
Definition used (t : tracker) (a th : R) : tracker :=
  mkTracker (paintCapacity t) (remainingCapacity t - a * th / 1000)
    (consumedPaint t + a * th / 1000) (refillCount t)
    (usageHistory t
     ++ [mkUsage a th (a * th / 1000) (remainingCapacity t - a * th / 1000)]).

Lemma addUsage_cases (t : tracker) (a th : R) :
  (a < 0 /\ addUsage t a th = None)
  \/ (0 <= a /\ exists b, addUsage t a th = Some (used t a th, b)).
Proof.
  unfold addUsage. destruct (Js.ltb a 0) eqn:E.
  - left. split; [apply Js.ltb_spec; exact E | reflexivity].
  - right. split; [apply Js.ltb_false; exact E |].
    cbv zeta. rewrite needsRefill_default. eexists. reflexivity.
Qed.

(** A usage call either throws and leaves the tracker as it was, or
    records an area that is not negative. *)
Lemma step_usage (t : tracker) (o : op) (th : R) :
  op_thickness o = Some th ->
  step t o = t \/ exists a, 0 <= a /\ step t o = used t a th.
Proof.
  intros Ho. unfold step.
  destruct o as [c | a th' | len w th' | d th' |]; try discriminate;
    injection Ho as ->; cbn [apply_op]; unfold addLineUsage, addDotUsage;
    cbv zeta.
  - destruct (addUsage_cases t a th) as [[_ E] | [Ha [b E]]]; rewrite E.
    + left. reflexivity.
    + right. exists a. split; [exact Ha | reflexivity].
  - destruct (addUsage_cases t (len * w) th) as [[_ E] | [Ha [b E]]];
      rewrite E.
    + left. reflexivity.
    + right. exists (len * w). split; [exact Ha | reflexivity].
  - destruct (addUsage_cases t (PI * (d / 2) * (d / 2)) th)
      as [[_ E] | [Ha [b E]]]; rewrite E.
    + left. reflexivity.
    + right. exists (PI * (d / 2) * (d / 2)). split; [exact Ha | reflexivity].
Qed.

Lemma step_reset (t : tracker) (c : R) :
  step t (Reset c) = t \/ (0 < c /\ step t (Reset c) = mkTracker c c 0 0 []).
Proof.
  unfold step, apply_op, reset. destruct (Js.leb c 0) eqn:E.
  - left. reflexivity.
  - right. split; [apply Js.leb_false; exact E | reflexivity].
Qed.

Lemma history_volume_used (t : tracker) (a th : R) :
  history_volume (used t a th) = history_volume t + a * th / 1000.
Proof.
  unfold history_volume, used. cbn [usageHistory].
  induction (usageHistory t) as [|u h IH]; cbn [app fold_right volume].
  - lra.
  - rewrite IH. lra.
Qed.

(** The state a tracker is in once it has been reset. *)
Definition accounted (t : tracker) : Prop :=
  0 < paintCapacity t
  /\ remainingCapacity t <= paintCapacity t
  /\ consumedPaint t = history_volume t
  /\ 0 <= consumedPaint t.

Lemma step_accounted (t : tracker) (o : op) :
  (forall th, op_thickness o = Some th -> 0 <= th) ->
  accounted t -> accounted (step t o).
Proof.
  intros Hth (Hc & Hr & Hv & Hp).
  destruct o as [c | a th | len w th | d th |].
  - destruct (step_reset t c) as [-> | [Hpos ->]].
    + repeat split; assumption.
    + unfold accounted, history_volume. cbn. repeat split; lra.
  - destruct (step_usage t (AddUsage a th) th eq_refl)
      as [-> | (a' & Ha & ->)]; [repeat split; assumption |].
    pose proof (Hth th eq_refl) as H0.
    unfold accounted. rewrite history_volume_used. cbn.
    assert (0 <= a' * th / 1000) by (apply Rmult_le_pos; [nra | lra]).
    repeat split; lra.
  - destruct (step_usage t (AddLineUsage len w th) th eq_refl)
      as [-> | (a' & Ha & ->)]; [repeat split; assumption |].
    pose proof (Hth th eq_refl) as H0.
    unfold accounted. rewrite history_volume_used. cbn.
    assert (0 <= a' * th / 1000) by (apply Rmult_le_pos; [nra | lra]).
    repeat split; lra.
  - destruct (step_usage t (AddDotUsage d th) th eq_refl)
      as [-> | (a' & Ha & ->)]; [repeat split; assumption |].
    pose proof (Hth th eq_refl) as H0.
    unfold accounted. rewrite history_volume_used. cbn.
    assert (0 <= a' * th / 1000) by (apply Rmult_le_pos; [nra | lra]).
    repeat split; lra.
  - unfold accounted, step. cbn [apply_op]. unfold refill, history_volume in *.
    cbn [paintCapacity remainingCapacity consumedPaint usageHistory].
    repeat split; lra.
Qed.

Lemma run_accounted (ops : list op) :
  Forall (fun o => forall th, op_thickness o = Some th -> 0 <= th) ops ->
  forall t, accounted t -> accounted (run t ops).
Proof.
  unfold run. induction 1 as [|o ops Ho _ IH]; intros t Ht; cbn [fold_left].
  - exact Ht.
  - apply IH. apply step_accounted; assumption.
Qed.

Lemma moderate_thickness (o : op) :
  moderate o -> forall th, op_thickness o = Some th -> 0 <= th.
Proof.
  destruct o as [c | a th' | len w th' | d th' |]; cbn;
    intros H th E; try discriminate; injection E as <-; tauto.
Qed.

(** After a successful [reset], whatever sequence of calls follows (further
    resets, refills, usage calls with moderate arguments and a thickness
    that is not negative, calls that throw and are skipped): the capacity is
    positive, the remaining amount never exceeds it, so that the percentage
    is at most 100, and the consumed amount is not negative. *)
Theorem tracker_accounting (t0 : tracker) (C : R) (ops : list op) :
  0 < C ->
  Forall moderate ops ->
  let t := run t0 (Reset C :: ops) in
  0 < getPaintCapacity t
  /\ remainingCapacity t <= getPaintCapacity t
  /\ 0 <= getTotalConsumed t
  /\ getRemainingPercentage t <= 100.
Proof.
  intros HC Hops t.
  assert (Hacc : accounted t).
  { subst t. unfold run. cbn [fold_left].
    apply (run_accounted ops).
    - apply Forall_forall. intros o Ho.
      apply moderate_thickness.
      now apply (proj1 (Forall_forall moderate ops) Hops).
    - unfold step, apply_op. rewrite (reset_some t0 C HC).
      unfold accounted, history_volume. cbn. repeat split; lra. }
  destruct Hacc as (Hc & Hr & Hv & Hp).
  unfold getPaintCapacity, getTotalConsumed, getRemainingPercentage.
  repeat split; try assumption.
  destruct (Js.eqb (paintCapacity t) 0); [lra |].
  assert (remainingCapacity t / paintCapacity t <= 1).
  { apply Rmult_le_reg_r with (paintCapacity t); [exact Hc |].
    unfold Rdiv. rewrite Rmult_assoc, Rinv_l by lra. lra. }
  lra.
Qed.

Lemma arg_limit_large : 1000000 <= arg_limit.
Proof.
  unfold arg_limit. replace 1000000 with (10 ^ 6) by (simpl; lra).
  apply Rle_pow; [lra | lia].
Qed.

Lemma tracker_accounting_witness :
  let t := run new [Reset 50; AddDotUsage 5 (/ 10); Refill;
                    AddUsage (-1) (/ 10); AddLineUsage 50 2 (/ 10)] in
  0 < getPaintCapacity t
  /\ remainingCapacity t <= getPaintCapacity t
  /\ 0 <= getTotalConsumed t
  /\ getRemainingPercentage t <= 100.
Proof.
  pose proof arg_limit_large as HL.
  apply (tracker_accounting new 50
           [AddDotUsage 5 (/ 10); Refill; AddUsage (-1) (/ 10);
            AddLineUsage 50 2 (/ 10)]).
  - lra.
  - repeat (apply Forall_cons;
            [cbn; rewrite ?Rabs_right by lra; repeat split; trivial; lra |]).
    apply Forall_nil.
Defined.

(** The refill signal of a usage call is the answer of [needsRefill()] on
    the updated tracker. *)
Lemma addUsage_signal (t t' : tracker) (a th : R) (b : bool) :
  addUsage t a th = Some (t', b) ->
  t' = used t a th
  /\ b = Js.leb (remainingCapacity t') (paintCapacity t' * default_threshold).
Proof.
  unfold addUsage. destruct (Js.ltb a 0); [discriminate|].
  cbv zeta. rewrite needsRefill_default. intros H.
  injection H as <- <-. split; reflexivity.
Qed.

End RefillTrackerFacts.

(** ** Coordinate transformer ([gcode/coordinateTransformer.js]) *)

Module CoordinateTransformer.

Record point : Type := mkPoint { px : R; py : R }.

Record anchors : Type := mkAnchors {
  topLeft : point;
  topRight : point;
  bottomCenter : point
}.

(** Trilateration coordinates: the distances to the three anchors. *)
Record trilat : Type := mkTrilat { X : R; Y : R; Z : R }.

(** [cartesianToTrilateration(x, y, anchors)].  The two guards of the source
    reject values that are not numbers or anchor objects; they cannot fire on
    the typed arguments here. *)
Definition cartesianToTrilateration (x y : R) (a : anchors) : trilat :=
  let X := sqrt (Js.pow2 (px (topLeft a) - x) + Js.pow2 (py (topLeft a) - y)) in
  let Y := sqrt (Js.pow2 (px (topRight a) - x) + Js.pow2 (py (topRight a) - y)) in
  let Z := sqrt (Js.pow2 (px (bottomCenter a) - x)
                 + Js.pow2 (py (bottomCenter a) - y)) in
  mkTrilat (Js.round2 X) (Js.round2 Y) (Js.round2 Z).

(** What [trilaterationToCartesian] can do: throw, return [null], or return
    a point. *)
Inductive inverse_result : Type :=
| Threw
| NoSolution
| Solution (p : point).

(** [trilaterationToCartesian(X, Y, Z, anchors)].  The check against the
    bottom-centre anchor only logs a warning, so [Z] does not influence the
    result. *)
Definition trilaterationToCartesian (X Y Z : R) (a : anchors) : inverse_result :=
  let d := sqrt (Js.pow2 (px (topRight a) - px (topLeft a))
                 + Js.pow2 (py (topRight a) - py (topLeft a))) in
  if Js.eqb d 0 then Threw
  else
    let x := (X * X - Y * Y + d * d) / (2 * d) in
    let ySquared := X * X - x * x in
    if Js.ltb ySquared 0 then NoSolution
    else
      let y := sqrt ySquared in
      let absX := px (topLeft a) + x in
      let absY := py (topLeft a) + y in
      Solution (mkPoint (Js.round2 absX) (Js.round2 absY)).

(** [scaleToPhysical(pixelX, pixelY, imageWidth, imageHeight,
    physicalWidth, physicalHeight)]; [None] is one of the two thrown
    "... dimensions must be positive". *)
Definition scaleToPhysical (pixelX pixelY imageWidth imageHeight
  physicalWidth physicalHeight : R) : option point :=
  if Js.leb imageWidth 0 || Js.leb imageHeight 0 then None
  else if Js.leb physicalWidth 0 || Js.leb physicalHeight 0 then None
  else
    let scaleX := physicalWidth / imageWidth in
    let scaleY := physicalHeight / imageHeight in
    let x := pixelX * scaleX in
    let y := pixelY * scaleY in
    Some (mkPoint (Js.round2 x) (Js.round2 y)).

(** The canvas part of the application state: size in cm and the four
    anchors, each of which may be missing. *)
Record canvasState : Type := mkCanvas {
  anchorTopLeft : option point;
  anchorTopRight : option point;
  anchorBottomLeft : option point;
  anchorBottomRight : option point;
  width : R;
  height : R
}.

(** [anchor?.coordinate || fallback]: the fallback also replaces a
    coordinate that is 0. *)
Definition or_else (a : option point) (coordinate : point -> R) (fallback : R)
  : R :=
  match a with
  | Some p => if Js.eqb (coordinate p) 0 then fallback else coordinate p
  | None => fallback
  end.

(** [createAnchorConfig(canvasState)]. *)
Definition createAnchorConfig (c : canvasState) : anchors :=
  let bottomCenter :=
    mkPoint ((or_else (anchorBottomLeft c) px 0
              + or_else (anchorBottomRight c) px (width c)) / 2)
            (or_else (anchorBottomLeft c) py (height c)) in
  mkAnchors
    (mkPoint (or_else (anchorTopLeft c) px 0 * 10)
             (or_else (anchorTopLeft c) py 0 * 10))
    (mkPoint (or_else (anchorTopRight c) px (width c) * 10)
             (or_else (anchorTopRight c) py 0 * 10))
    (mkPoint (px bottomCenter * 10) (py bottomCenter * 10)).

(** Euclidean distance between two planar points. *)
Definition dist (p q : point) : R :=
  sqrt ((px p - px q) * (px p - px q) + (py p - py q) * (py p - py q)).

(** The anchors span a triangle of non-zero area. *)
Definition non_degenerate (a : anchors) : Prop :=
  (px (topRight a) - px (topLeft a)) * (py (bottomCenter a) - py (topLeft a))
  - (py (topRight a) - py (topLeft a)) * (px (bottomCenter a) - px (topLeft a))
  <> 0.

(** Forward then inverse gives a point within [tol] of [p]. *)
Definition roundtrip_within (tol : R) (a : anchors) (p : point) : Prop :=
  let t := cartesianToTrilateration (px p) (py p) a in
  exists q, trilaterationToCartesian (X t) (Y t) (Z t) a = Solution q
            /\ dist q p <= tol.

(** The inverse reads the baseline through the two top anchors as the x
    axis: the anchors are level and the right one lies to the right. *)
Definition baseline_aligned (a : anchors) : Prop :=
  py (topRight a) = py (topLeft a) /\ px (topLeft a) < px (topRight a).

(** How far two-decimal rounding of a length [l] can move its square:
    [0.005 * (2 l + 0.005)]. *)
Definition square_error (l : R) : R := (2 * l + / 200) / 200.

(** How far two-decimal rounding of the two upper distances can move the
    recovered baseline coordinate: [0.005 * (X + Y + 0.005) / d]. *)
Definition baseline_error (a : anchors) (p : point) : R :=
  (dist p (topLeft a) + dist p (topRight a) + / 200)
  / (200 * (px (topRight a) - px (topLeft a))).

(** How far it can move [ySquared], the square of the recovered depth. *)
Definition radicand_error (a : anchors) (p : point) : R :=
  let d := px (topRight a) - px (topLeft a) in
  let xr := px p - px (topLeft a) in
  let U := baseline_error a p in
  (square_error (dist p (topLeft a)) * Rabs (d - xr)
   + square_error (dist p (topRight a)) * Rabs xr) / d
  + U * U.

(** How far it can move the recovered depth itself. *)
Definition depth_error (a : anchors) (p : point) : R :=
  let depth := py p - py (topLeft a) in
  depth - sqrt (depth * depth - radicand_error a p).

(** The point lies below the baseline, and far enough below it for the
    rounding to stay within the tolerance: the two recovered coordinates,
    each rounded to two decimals once more, are off by at most
    [baseline_error + 0.005] and [depth_error + 0.005], and these two
    bounds span a distance of at most 0.0999.  (The bounds are those of
    exact arithmetic; the last 0.0001 of the tolerance is left to the
    rounding of the floating-point operations.) *)
Definition well_conditioned (a : anchors) (p : point) : Prop :=
  let depth := py p - py (topLeft a) in
  let U := baseline_error a p in
  let V := depth_error a p in
  0 < depth
  /\ radicand_error a p <= depth * depth
  /\ (U + / 200) * (U + / 200) + (V + / 200) * (V + / 200)
     <= 999 / 10000 * (999 / 10000).

(** The anchors of the examples in the source: a 2000 mm baseline and the
    third anchor 1500 mm below its middle. *)
Definition example_anchors : anchors :=
  mkAnchors (mkPoint 0 0) (mkPoint 2000 0) (mkPoint 1000 1500).

(** [scaleToPixels(physicalX, physicalY, imageWidth, imageHeight,
    physicalWidth, physicalHeight)]; [None] is one of the two thrown
    "... dimensions must be positive". *)
Definition scaleToPixels (physicalX physicalY imageWidth imageHeight
  physicalWidth physicalHeight : R) : option point :=
  if Js.leb physicalWidth 0 || Js.leb physicalHeight 0 then None
  else if Js.leb imageWidth 0 || Js.leb imageHeight 0 then None
  else
    let scaleX := imageWidth / physicalWidth in
    let scaleY := imageHeight / physicalHeight in
    let x := physicalX * scaleX in
    let y := physicalY * scaleY in
    Some (mkPoint (Js.round x) (Js.round y)).

(** [isWithinBounds(x, y, width, height)]. *)
Definition isWithinBounds (x y canvasWidth canvasHeight : R) : bool :=
  Js.geb x 0 && Js.leb x canvasWidth && Js.geb y 0 && Js.leb y canvasHeight.

(** [clampToBounds(x, y, width, height)]. *)
Definition clampToBounds (x y canvasWidth canvasHeight : R) : point :=
  mkPoint (Rmax 0 (Rmin canvasWidth x)) (Rmax 0 (Rmin canvasHeight y)).

End CoordinateTransformer.

Module CoordinateTransformerFacts.
Import CoordinateTransformer.

Lemma sum_sq_nonneg (u v : R) : 0 <= u * u + v * v.
Proof. nra. Qed.

(** Two-decimal rounding of a square root, from a bracket on the radicand. *)
Lemma round2_sqrt (z : BinNums.Z) (s v : R) :
  v = IZR z / 100 ->
  0 <= IZR z - / 2 ->
  (IZR z - / 2) * (IZR z - / 2) <= s * 10000 ->
  s * 10000 < (IZR z + / 2) * (IZR z + / 2) ->
  Js.round2 (sqrt s) = v.
Proof.
  intros -> H0 Hlo Hhi. apply Js.round2_eq.
  assert (Hs : sqrt s * 100 = sqrt (s * 10000)).
  { rewrite sqrt_mult_alt by nra.
    replace 10000 with (100 * 100) by lra.
    now rewrite sqrt_square by lra. }
  rewrite Hs. apply Js.sqrt_between; lra.
Qed.

Lemma forward_example_value :
  cartesianToTrilateration 500 300 example_anchors
  = mkTrilat (58310 / 100) (152971 / 100) 1300.
Proof.
  unfold cartesianToTrilateration, example_anchors, Js.pow2; simpl.
  f_equal.
  - apply (round2_sqrt 58310); lra.
  - apply (round2_sqrt 152971); lra.
  - apply (round2_sqrt 130000); lra.
Qed.

(** C2 (as stated) fails: for the anchors (0,0), (2000,0), (1000,1500) the
    forward transform of (500,300) does not return Y = 1500.00 and
    Z = 538.52; the value it returns for Y is more than 29 mm away. *)
Lemma forward_example_not_documented :
  let t := cartesianToTrilateration 500 300 example_anchors in
  ~ (X t = 58310 / 100 /\ Y t = 1500 /\ Z t = 53852 / 100)
  /\ 29 < Rabs (Y t - 1500) /\ 761 < Rabs (Z t - 53852 / 100).
Proof.
  cbv zeta. rewrite forward_example_value. simpl.
  split; [intros (_ & HY & _); lra |].
  split.
  - rewrite Rabs_right; lra.
  - rewrite Rabs_right; lra.
Qed.

(** C2 (amended). With anchors (0,0), (2000,0), (1000,1500) the forward
    transform of (500,300) returns X = 583.10, Y = 1529.71 and Z = 1300.00:
    the distances to the three anchors, rounded to two decimals. *)
Theorem forward_example :
  let t := cartesianToTrilateration 500 300 example_anchors in
  X t = 58310 / 100 /\ Y t = 152971 / 100 /\ Z t = 1300.
Proof.
  cbv zeta. rewrite forward_example_value. simpl. repeat split; reflexivity.
Qed.

Lemma example_anchors_non_degenerate : non_degenerate example_anchors.
Proof. unfold non_degenerate, example_anchors; simpl. lra. Qed.

Lemma forward_near_baseline :
  cartesianToTrilateration 1000 1 example_anchors = mkTrilat 1000 1000 1499.
Proof.
  unfold cartesianToTrilateration, example_anchors, Js.pow2; simpl.
  f_equal.
  - apply (round2_sqrt 100000); lra.
  - apply (round2_sqrt 100000); lra.
  - apply (round2_sqrt 149900); lra.
Qed.

Lemma inverse_near_baseline :
  trilaterationToCartesian 1000 1000 1499 example_anchors
  = Solution (mkPoint 1000 0).
Proof.
  unfold trilaterationToCartesian, example_anchors, Js.pow2; simpl.
  replace ((2000 - 0) * (2000 - 0) + (0 - 0) * (0 - 0)) with (2000 * 2000)
    by lra.
  rewrite sqrt_square by lra.
  replace (Js.eqb 2000 0) with false
    by (symmetry; unfold Js.eqb; destruct (Req_dec_T 2000 0); [lra | easy]).
  replace ((1000 * 1000 - 1000 * 1000 + 2000 * 2000) / (2 * 2000))
    with 1000 by lra.
  replace (1000 * 1000 - 1000 * 1000) with 0 by lra.
  replace (Js.ltb 0 0) with false by (symmetry; apply Js.ltb_false; lra).
  rewrite sqrt_0.
  f_equal. f_equal.
  - replace (0 + 1000) with (IZR 1000) by lra.
    unfold Js.round2. rewrite <- mult_IZR, Js.round_IZR, mult_IZR. lra.
  - replace (0 + 0) with (IZR 0) by lra.
    unfold Js.round2. rewrite <- mult_IZR, Js.round_IZR, mult_IZR. lra.
Qed.

(** The value of the inverse transform, from the baseline length [d], the
    recovered baseline coordinate [x] and brackets for the two-decimal
    rounding of the result. *)
Lemma inverse_value (Xl Yl Zl : R) (a : anchors) (d x ysq : R)
  (zx zy : BinNums.Z) :
  0 < d ->
  d * d = Js.pow2 (px (topRight a) - px (topLeft a))
          + Js.pow2 (py (topRight a) - py (topLeft a)) ->
  x = (Xl * Xl - Yl * Yl + d * d) / (2 * d) ->
  ysq = Xl * Xl - x * x ->
  0 <= ysq ->
  IZR zx - / 2 <= (px (topLeft a) + x) * 100 < IZR zx + / 2 ->
  IZR zy - / 2 <= (py (topLeft a) + sqrt ysq) * 100 < IZR zy + / 2 ->
  trilaterationToCartesian Xl Yl Zl a
  = Solution (mkPoint (IZR zx / 100) (IZR zy / 100)).
Proof.
  intros Hd Hdd -> -> Hysq Hzx Hzy. unfold trilaterationToCartesian.
  rewrite <- Hdd, sqrt_square by lra.
  replace (Js.eqb d 0) with false
    by (symmetry; unfold Js.eqb; destruct (Req_dec_T d 0); [lra | easy]).
  cbv zeta.
  replace (Js.ltb _ 0) with false by (symmetry; apply Js.ltb_false; exact Hysq).
  f_equal. f_equal; apply Js.round2_eq; assumption.
Qed.

(** The round trip fails at [p] when the inverse transform of the rounded
    lengths is a point [q] more than 0.1 away. *)
Lemma roundtrip_misses (a : anchors) (p q : point) (t : trilat) :
  cartesianToTrilateration (px p) (py p) a = t ->
  trilaterationToCartesian (X t) (Y t) (Z t) a = Solution q ->
  / 100 < (px q - px p) * (px q - px p) + (py q - py p) * (py q - py p) ->
  ~ roundtrip_within (/ 10) a p.
Proof.
  intros Ht Hq Hfar. unfold roundtrip_within. cbv zeta. rewrite Ht, Hq.
  intros (q' & E & Hd). injection E as <-. unfold dist in Hd.
  set (s := (px q - px p) * (px q - px p) + (py q - py p) * (py q - py p))
    in *.
  assert (Hs : 0 <= s) by lra.
  pose proof (sqrt_pos s) as H0. pose proof (sqrt_sqrt s Hs) as H1.
  nra.
Qed.

(** Close to the baseline: (1000,1) is sent to the lengths (1000, 1000,
    1499) and comes back as (1000,0), a full unit away. *)
Lemma fails_near_baseline :
  ~ roundtrip_within (/ 10) example_anchors (mkPoint 1000 1).
Proof.
  apply (roundtrip_misses example_anchors (mkPoint 1000 1) (mkPoint 1000 0)
           (mkTrilat 1000 1000 1499)).
  - exact forward_near_baseline.
  - exact inverse_near_baseline.
  - simpl. lra.
Qed.

(** Fifty units below a baseline of 2000: (1000, 50.513) is sent to the
    lengths (1001.27, 1001.27, 1449.49), the upper two rounded down by
    almost 0.005, and comes back as (1000, 50.41), 0.103 away. *)
Lemma fails_at_depth_50 :
  ~ roundtrip_within (/ 10) example_anchors (mkPoint 1000 (50513 / 1000)).
Proof.
  apply (roundtrip_misses example_anchors (mkPoint 1000 (50513 / 1000))
           (mkPoint (IZR 100000 / 100) (IZR 5041 / 100))
           (mkTrilat (100127 / 100) (100127 / 100) (144949 / 100))).
  - unfold cartesianToTrilateration, example_anchors, Js.pow2; simpl.
    f_equal.
    + apply (round2_sqrt 100127); lra.
    + apply (round2_sqrt 100127); lra.
    + apply (round2_sqrt 144949); lra.
  - cbn [X Y Z].
    apply (inverse_value _ _ _ example_anchors 2000 1000
             (100127 / 100 * (100127 / 100) - 1000 * 1000));
      unfold example_anchors, Js.pow2; simpl; try lra.
    pose proof (Js.sqrt_between (50405 / 1000) (50415 / 1000)
                  (100127 / 100 * (100127 / 100) - 1000 * 1000)) as H.
    lra.
  - simpl. lra.
Qed.

(** A baseline that is not level: with the anchors (0,0), (1920,560),
    (1000,1500), whose top anchors are 2000 apart, the point (0,1000) is
    sent to the lengths (1000, 1969.77, 1118.03) and comes back as
    (280, 960). *)
Definition tilted_anchors : anchors :=
  mkAnchors (mkPoint 0 0) (mkPoint 1920 560) (mkPoint 1000 1500).

Lemma fails_on_tilted_baseline :
  non_degenerate tilted_anchors
  /\ ~ roundtrip_within (/ 10) tilted_anchors (mkPoint 0 1000).
Proof.
  split; [unfold non_degenerate, tilted_anchors; simpl; lra |].
  apply (roundtrip_misses tilted_anchors (mkPoint 0 1000)
           (mkPoint (IZR 28000 / 100) (IZR 96000 / 100))
           (mkTrilat (100000 / 100) (196977 / 100) (111803 / 100))).
  - unfold cartesianToTrilateration, tilted_anchors, Js.pow2; simpl.
    f_equal.
    + apply (round2_sqrt 100000); lra.
    + apply (round2_sqrt 196977); lra.
    + apply (round2_sqrt 111803); lra.
  - cbn [X Y Z].
    set (x := (100000 / 100 * (100000 / 100)
               - 196977 / 100 * (196977 / 100) + 2000 * 2000) / (2 * 2000)).
    assert (Hx : 28000 / 100 <= x <= 280002 / 1000) by (unfold x; lra).
    apply (inverse_value _ _ _ tilted_anchors 2000 x
             (100000 / 100 * (100000 / 100) - x * x));
      unfold tilted_anchors, Js.pow2; simpl; try lra; try reflexivity.
    + nra.
    + pose proof (Js.sqrt_between (959995 / 1000) (960005 / 1000)
                    (100000 / 100 * (100000 / 100) - x * x)) as H.
      assert (959995 / 1000 <= sqrt (100000 / 100 * (100000 / 100) - x * x)
              < 960005 / 1000) by (apply H; nra).
      lra.
  - simpl. lra.
Qed.

(** Top anchors in the other order: with the anchors (2000,0), (0,0),
    (1000,1500) the point (1000,750) comes back as (3000,750). *)
Definition reversed_anchors : anchors :=
  mkAnchors (mkPoint 2000 0) (mkPoint 0 0) (mkPoint 1000 1500).

Lemma fails_on_reversed_baseline :
  non_degenerate reversed_anchors
  /\ ~ roundtrip_within (/ 10) reversed_anchors (mkPoint 1000 750).
Proof.
  split; [unfold non_degenerate, reversed_anchors; simpl; lra |].
  apply (roundtrip_misses reversed_anchors (mkPoint 1000 750)
           (mkPoint (IZR 300000 / 100) (IZR 75000 / 100))
           (mkTrilat (125000 / 100) (125000 / 100) (75000 / 100))).
  - unfold cartesianToTrilateration, reversed_anchors, Js.pow2; simpl.
    f_equal.
    + apply (round2_sqrt 125000); lra.
    + apply (round2_sqrt 125000); lra.
    + apply (round2_sqrt 75000); lra.
  - cbn [X Y Z].
    apply (inverse_value _ _ _ reversed_anchors 2000 1000 (750 * 750));
      unfold reversed_anchors, Js.pow2; simpl; try lra.
    rewrite sqrt_square by lra. lra.
  - simpl. lra.
Qed.

(** A point above the baseline: (1000,-750) comes back as (1000,750). *)
Lemma fails_above_baseline :
  ~ roundtrip_within (/ 10) example_anchors (mkPoint 1000 (-750)).
Proof.
  apply (roundtrip_misses example_anchors (mkPoint 1000 (-750))
           (mkPoint (IZR 100000 / 100) (IZR 75000 / 100))
           (mkTrilat (125000 / 100) (125000 / 100) (225000 / 100))).
  - unfold cartesianToTrilateration, example_anchors, Js.pow2; simpl.
    f_equal.
    + apply (round2_sqrt 125000); lra.
    + apply (round2_sqrt 125000); lra.
    + apply (round2_sqrt 225000); lra.
  - cbn [X Y Z].
    apply (inverse_value _ _ _ example_anchors 2000 1000 (750 * 750));
      unfold example_anchors, Js.pow2; simpl; try lra.
    rewrite sqrt_square by lra. lra.
  - simpl. lra.
Qed.


Lemma abs_le_of_sq (x r y : R) :
  0 <= r -> r * r = x * x + y * y -> - r <= x <= r.
Proof. intros. split; nra. Qed.

Lemma recovered_x_error (d xr y Xe Ye e1 e2 U : R) :
  0 < d -> 0 <= Xe -> 0 <= Ye ->
  Xe * Xe = xr * xr + y * y ->
  Ye * Ye = (xr - d) * (xr - d) + y * y ->
  - / 200 <= e1 <= / 200 -> - / 200 <= e2 <= / 200 ->
  U = (Xe + Ye + / 200) / (200 * d) ->
  let x' := ((Xe + e1) * (Xe + e1) - (Ye + e2) * (Ye + e2) + d * d) / (2 * d) in
  - U <= x' - xr <= U.
Proof.
  intros Hd HX HY HXX HYY He1 He2 HU x'.
  assert (Hx' : x' - xr = (e1 * (2 * Xe + e1) - e2 * (2 * Ye + e2)) / (2 * d)).
  { unfold x'. field_simplify; [| lra | lra].
    replace (Xe ^ 2) with (Xe * Xe) by ring.
    replace (Ye ^ 2) with (Ye * Ye) by ring.
    rewrite HXX, HYY. field. lra. }
  assert (HUd : U * (2 * d) = (Xe + Ye + / 200) / 100).
  { rewrite HU. field. lra. }
  assert (HN1 : - (/ 200 * (2 * Xe + / 200)) <= e1 * (2 * Xe + e1)
                <= / 200 * (2 * Xe + / 200)) by (split; nra).
  assert (HN2 : - (/ 200 * (2 * Ye + / 200)) <= e2 * (2 * Ye + e2)
                <= / 200 * (2 * Ye + / 200)) by (split; nra).
  rewrite Hx'.
  assert (H2d : 0 < 2 * d) by lra.
  split.
  - apply Rmult_le_reg_r with (2 * d); [lra |].
    unfold Rdiv. rewrite Rmult_assoc, Rinv_l by lra. lra.
  - apply Rmult_le_reg_r with (2 * d); [lra |].
    unfold Rdiv. rewrite Rmult_assoc, Rinv_l by lra. lra.
Qed.

Lemma product_bound (E A z t : R) :
  - A <= E <= A -> - t <= z <= t -> - (A * t) <= E * z <= A * t.
Proof. intros HE Hz. split; nra. Qed.

Lemma abs_bounds (z : R) : - Rabs z <= z <= Rabs z.
Proof.
  split; [| apply Rle_abs].
  pose proof (Rle_abs (- z)) as H. rewrite Rabs_Ropp in H. lra.
Qed.

Lemma square_error_bound (l e : R) :
  0 <= l -> - / 200 <= e <= / 200 ->
  - square_error l <= e * (2 * l + e) <= square_error l.
Proof. intros Hl He. unfold square_error. split; nra. Qed.

(** The radicand [ySquared] of the inverse transform, computed from the
    rounded lengths, differs from the square of the depth by at most
    [radicand_error]. *)
Lemma recovered_radicand (d xr y Xe Ye e1 e2 : R) :
  0 < d -> 0 <= Xe -> 0 <= Ye ->
  Xe * Xe = xr * xr + y * y ->
  Ye * Ye = (xr - d) * (xr - d) + y * y ->
  - / 200 <= e1 <= / 200 -> - / 200 <= e2 <= / 200 ->
  let U := (Xe + Ye + / 200) / (200 * d) in
  let x' := ((Xe + e1) * (Xe + e1) - (Ye + e2) * (Ye + e2) + d * d) / (2 * d) in
  let D := (Xe + e1) * (Xe + e1) - x' * x' - y * y in
  let Dmax := (square_error Xe * Rabs (d - xr) + square_error Ye * Rabs xr) / d
              + U * U in
  - Dmax <= D <= Dmax.
Proof.
  intros Hd HX HY HXX HYY He1 He2 U x' D Dmax.
  pose proof (recovered_x_error d xr y Xe Ye e1 e2 U Hd HX HY HXX HYY He1 He2
                eq_refl) as Hu. cbv zeta in Hu. fold x' in Hu.
  set (E1 := e1 * (2 * Xe + e1)). set (E2 := e2 * (2 * Ye + e2)).
  pose proof (square_error_bound Xe e1 HX He1) as HE1. fold E1 in HE1.
  pose proof (square_error_bound Ye e2 HY He2) as HE2. fold E2 in HE2.
  set (u := x' - xr) in *.
  assert (Hud : 2 * d * u = E1 - E2).
  { unfold u, x', E1, E2. field_simplify; [| lra].
    replace (Xe ^ 2) with (Xe * Xe) by ring.
    replace (Ye ^ 2) with (Ye * Ye) by ring.
    rewrite HXX, HYY. field. }
  assert (HD : D * d = E1 * (d - xr) + E2 * xr - u * u * d).
  { assert (Hx' : x' = xr + u) by (unfold u; lra).
    unfold D. rewrite Hx'.
    replace ((Xe + e1) * (Xe + e1)) with (Xe * Xe + E1) by (unfold E1; ring).
    rewrite HXX. nra. }
  pose proof (product_bound E1 (square_error Xe) (d - xr) (Rabs (d - xr)) HE1
                (abs_bounds (d - xr))) as H1.
  pose proof (product_bound E2 (square_error Ye) xr (Rabs xr) HE2
                (abs_bounds xr)) as H2.
  assert (HU0 : 0 <= U) by lra.
  assert (Huu : 0 <= u * u <= U * U) by (split; nra).
  assert (HDm : Dmax * d
                = square_error Xe * Rabs (d - xr) + square_error Ye * Rabs xr
                  + U * U * d).
  { unfold Dmax. field. lra. }
  assert (HUd : 0 <= U * U * d) by (apply Rmult_le_pos; nra).
  assert (Huud : 0 <= u * u * d <= U * U * d) by (split; nra).
  split.
  - apply Rmult_le_reg_r with d; [exact Hd |]. lra.
  - apply Rmult_le_reg_r with d; [exact Hd |]. lra.
Qed.

(** A square root under a perturbation of its radicand. *)
Lemma sqrt_perturbed (y D Dmax : R) :
  0 < y -> - Dmax <= D <= Dmax -> Dmax <= y * y ->
  0 <= y * y + D
  /\ - (y - sqrt (y * y - Dmax)) <= sqrt (y * y + D) - y
     <= y - sqrt (y * y - Dmax).
Proof.
  intros Hy HD Hm.
  assert (H0 : 0 <= y * y - Dmax) by lra.
  assert (H1 : 0 <= y * y + D) by lra.
  split; [exact H1 |].
  pose proof (sqrt_pos (y * y - Dmax)) as Hs0.
  pose proof (sqrt_sqrt (y * y - Dmax) H0) as Hss0.
  pose proof (sqrt_pos (y * y + D)) as Hs.
  pose proof (sqrt_sqrt (y * y + D) H1) as Hss.
  set (s0 := sqrt (y * y - Dmax)) in *. set (s := sqrt (y * y + D)) in *.
  assert (Hs0y : s0 <= y) by nra.
  split; nra.
Qed.

Lemma round2_error (v : R) : - / 200 <= Js.round2 v - v <= / 200.
Proof.
  unfold Js.round2. pose proof (Js.round_bound (v * 100)). lra.
Qed.

Lemma dist_le_of_coords (p q : point) (cx cy t : R) :
  - cx <= px p - px q <= cx -> - cy <= py p - py q <= cy ->
  0 <= t -> cx * cx + cy * cy <= t * t ->
  dist p q <= t.
Proof.
  intros Hx Hy Ht Hc. unfold dist.
  rewrite <- (sqrt_square t Ht). apply sqrt_le_1_alt. nra.
Qed.

Section Roundtrip.

Variables (a : anchors) (p : point).
Hypothesis Haligned : baseline_aligned a.
Hypothesis Hcond : well_conditioned a p.

Let d := px (topRight a) - px (topLeft a).
Let xr := px p - px (topLeft a).
Let depth := py p - py (topLeft a).
Let XX := dist p (topLeft a).
Let YY := dist p (topRight a).
Let U := baseline_error a p.

Local Lemma d_pos : 0 < d.
Proof. unfold d. destruct Haligned. lra. Qed.

Local Lemma XX_sq : XX * XX = xr * xr + depth * depth.
Proof.
  unfold XX, dist, xr, depth.
  rewrite sqrt_sqrt; [lra | apply sum_sq_nonneg].
Qed.

Local Lemma YY_sq : YY * YY = (xr - d) * (xr - d) + depth * depth.
Proof.
  unfold YY, dist, xr, depth, d. destruct Haligned as [Hy _]. rewrite Hy.
  rewrite sqrt_sqrt; [lra | apply sum_sq_nonneg].
Qed.

Local Lemma XX_nonneg : 0 <= XX.
Proof. apply sqrt_pos. Qed.

Local Lemma YY_nonneg : 0 <= YY.
Proof. apply sqrt_pos. Qed.

Local Lemma forward_XY :
  let t := cartesianToTrilateration (px p) (py p) a in
  X t = Js.round2 XX /\ Y t = Js.round2 YY.
Proof.
  unfold cartesianToTrilateration, XX, YY, dist, Js.pow2; simpl. split.
  - do 2 f_equal. lra.
  - do 2 f_equal. lra.
Qed.

Local Lemma baseline_length :
  sqrt (Js.pow2 (px (topRight a) - px (topLeft a))
        + Js.pow2 (py (topRight a) - py (topLeft a))) = d.
Proof.
  pose proof d_pos. destruct Haligned as [Hy _]. rewrite Hy.
  unfold Js.pow2. fold d.
  replace (d * d + (py (topLeft a) - py (topLeft a))
                   * (py (topLeft a) - py (topLeft a))) with (d * d) by lra.
  apply sqrt_square. lra.
Qed.


End Roundtrip.

(** A way to establish [well_conditioned] from upper bounds on the two
    distances and a lower bound [s0] on the square root in
    [depth_error]. *)
Lemma well_conditioned_intro (a : anchors) (p : point) (Xh Yh s0 : R) :
  let d := px (topRight a) - px (topLeft a) in
  let xr := px p - px (topLeft a) in
  let depth := py p - py (topLeft a) in
  let U := (Xh + Yh + / 200) / (200 * d) in
  let Dm := (square_error Xh * Rabs (d - xr) + square_error Yh * Rabs xr) / d
            + U * U in
  0 < d -> 0 < depth ->
  dist p (topLeft a) <= Xh -> dist p (topRight a) <= Yh ->
  0 <= s0 -> s0 * s0 <= depth * depth - Dm ->
  (U + / 200) * (U + / 200) + (depth - s0 + / 200) * (depth - s0 + / 200)
  <= 999 / 10000 * (999 / 10000) ->
  well_conditioned a p.
Proof.
  intros d xr depth U Dm Hd Hdepth HX HY Hs0 Hs0sq Hbudget.
  unfold well_conditioned, depth_error, radicand_error, baseline_error.
  cbv zeta. fold d xr depth.
  pose proof (sqrt_pos ((px p - px (topLeft a)) * (px p - px (topLeft a))
                        + (py p - py (topLeft a)) * (py p - py (topLeft a))))
    as HX0.
  pose proof (sqrt_pos ((px p - px (topRight a)) * (px p - px (topRight a))
                        + (py p - py (topRight a)) * (py p - py (topRight a))))
    as HY0.
  fold (dist p (topLeft a)) in HX0. fold (dist p (topRight a)) in HY0.
  set (XX := dist p (topLeft a)) in *. set (YY := dist p (topRight a)) in *.
  set (U' := (XX + YY + / 200) / (200 * d)).
  assert (HUd : U' * (200 * d) = XX + YY + / 200) by (unfold U'; field; lra).
  assert (HUd' : U * (200 * d) = Xh + Yh + / 200) by (unfold U; field; lra).
  assert (HU' : 0 <= U' <= U) by (split; nra).
  pose proof (Rabs_pos (d - xr)) as Ht1. pose proof (Rabs_pos xr) as Ht2.
  set (t1 := Rabs (d - xr)) in *. set (t2 := Rabs xr) in *.
  set (N' := square_error XX * t1 + square_error YY * t2).
  set (N := square_error Xh * t1 + square_error Yh * t2).
  assert (HN : 0 <= N' <= N) by (unfold N', N, square_error; split; nra).
  assert (HDm : Dm = N / d + U * U) by reflexivity.
  assert (Hq' : 0 <= N' / d <= N / d).
  { assert (Hinv : 0 < / d) by (apply Rinv_0_lt_compat; exact Hd).
    unfold Rdiv. split; nra. }
  set (Dm' := N' / d + U' * U').
  assert (HDm' : 0 <= Dm' <= Dm) by (unfold Dm'; rewrite HDm; split; nra).
  assert (H0 : 0 <= depth * depth - Dm') by nra.
  pose proof (sqrt_pos (depth * depth - Dm')) as Hs.
  pose proof (sqrt_sqrt (depth * depth - Dm') H0) as Hss.
  set (s := sqrt (depth * depth - Dm')) in *.
  assert (Hs1 : s0 <= s) by nra.
  assert (Hs2 : s <= depth) by nra.
  split; [exact Hdepth |]. split; [lra |]. nra.
Qed.


(** *** Cable lengths, bounds and scaling *)

Lemma round2_nonneg (v : R) : 0 <= v -> 0 <= Js.round2 v.
Proof.
  intros Hv. unfold Js.round2, Js.round.
  apply Rmult_le_pos; [| lra].
  apply IZR_le. apply Zfloor_lub. simpl. nra.
Qed.


(** [clampToBounds] puts every point inside a canvas whose sizes are not
    negative, and leaves the points that are inside where they are. *)
Theorem clampToBounds_within (x y w h : R) :
  0 <= w -> 0 <= h ->
  let q := clampToBounds x y w h in
  isWithinBounds (px q) (py q) w h = true
  /\ (isWithinBounds x y w h = true -> q = mkPoint x y).
Proof.
  intros Hw Hh. cbv zeta. unfold clampToBounds, isWithinBounds, Js.geb.
  cbn [px py]. split.
  - rewrite !andb_true_iff, !Js.leb_spec.
    unfold Rmax, Rmin.
    repeat match goal with
           | |- context [Rle_dec ?u ?v] => destruct (Rle_dec u v)
           end; repeat split; lra.
  - rewrite !andb_true_iff, !Js.leb_spec. intros [[[H1 H2] H3] H4].
    rewrite (Rmin_right w x H2), (Rmin_right h y H4).
    rewrite (Rmax_right 0 x H1), (Rmax_right 0 y H3). reflexivity.
Qed.

Lemma clampToBounds_within_witness :
  let q := clampToBounds (-5) 1600 2000 1500 in
  isWithinBounds (px q) (py q) 2000 1500 = true
  /\ (isWithinBounds (-5) 1600 2000 1500 = true -> q = mkPoint (-5) 1600).
Proof.
  apply (clampToBounds_within (-5) 1600 2000 1500); lra.
Defined.

Lemma round_near (z : BinNums.Z) (v : R) :
  Rabs (v - IZR z) < / 2 -> Js.round v = IZR z.
Proof.
  intros H. apply Js.round_eq. apply Rabs_def2 in H. lra.
Qed.

Lemma scale_back (i s r : R) :
  / 100 < s -> Rabs (r - i * s) <= / 200 -> Rabs (r * (1 / s) - i) < / 2.
Proof.
  intros Hs Hr.
  assert (H0 : 0 < s) by lra.
  replace (r * (1 / s) - i) with ((r - i * s) * / s) by (field; lra).
  rewrite Rabs_mult, (Rabs_pos_eq (/ s))
    by (left; apply Rinv_0_lt_compat; exact H0).
  apply Rmult_lt_reg_r with s; [exact H0 |].
  rewrite Rmult_assoc, Rinv_l by lra. lra.
Qed.



(** *** When the inverse transform has a solution *)

Lemma prod_neg (f1 f2 f3 : R) : 0 < f1 -> f2 < 0 -> 0 < f3 -> f1 * f2 * f3 < 0.
Proof.
  intros H1 H2 H3.
  assert (f1 * f2 < 0) by nra. nra.
Qed.

(** The sign of [ySquared]: it is negative exactly when the two lengths
    and the baseline violate the triangle inequality. *)
Lemma ySquared_sign (Xl Yl d : R) :
  0 <= Xl -> 0 <= Yl -> 0 < d ->
  let x := (Xl * Xl - Yl * Yl + d * d) / (2 * d) in
  Xl * Xl - x * x < 0 <-> ~ (Rabs (Xl - Yl) <= d <= Xl + Yl).
Proof.
  intros HX HY Hd x.
  set (f1 := Yl - Xl + d). set (f2 := Yl + Xl - d).
  set (f3 := Xl + d - Yl). set (f4 := Xl + d + Yl).
  assert (E : Xl * Xl - x * x = f1 * f2 * (f3 * f4) * / (4 * d * d))
    by (unfold x, f1, f2, f3, f4; field; lra).
  assert (Hden : 0 < / (4 * d * d))
    by (apply Rinv_0_lt_compat; nra).
  assert (Hs : Xl * Xl - x * x < 0 <-> f1 * f2 * (f3 * f4) < 0).
  { rewrite E. split; intros H.
    - destruct (Rlt_dec (f1 * f2 * (f3 * f4)) 0) as [|Hn]; [assumption |].
      exfalso. apply Rnot_lt_le in Hn.
      pose proof (Rmult_le_pos _ _ Hn (Rlt_le _ _ Hden)). lra.
    - replace 0 with (0 * / (4 * d * d)) by ring.
      apply Rmult_lt_compat_r; assumption. }
  rewrite Hs. clear Hs E. split.
  - intros Hneg [Habs Hhi].
    assert (Hab : - d <= Xl - Yl <= d).
    { unfold Rabs in Habs. destruct (Rcase_abs (Xl - Yl)); lra. }
    assert (H1 : 0 <= f1) by (unfold f1; lra).
    assert (H2 : 0 <= f2) by (unfold f2; lra).
    assert (H3 : 0 <= f3) by (unfold f3; lra).
    assert (H4 : 0 <= f4) by (unfold f4; lra).
    pose proof (Rmult_le_pos _ _ (Rmult_le_pos _ _ H1 H2)
                  (Rmult_le_pos _ _ H3 H4)).
    lra.
  - intros Hn.
    assert (H4 : 0 < f4) by (unfold f4; lra).
    destruct (Rlt_dec (Xl + Yl) d) as [HA | HA].
    { assert (0 < f1) by (unfold f1; lra).
      assert (f2 < 0) by (unfold f2; lra).
      assert (0 < f3) by (unfold f3; lra).
      apply prod_neg; [assumption | assumption | nra]. }
    destruct (Rlt_dec d (Xl - Yl)) as [HB | HB].
    { assert (f1 < 0) by (unfold f1; lra).
      assert (0 < f2) by (unfold f2; lra).
      assert (0 < f3) by (unfold f3; lra).
      rewrite (Rmult_comm f1 f2). apply prod_neg; [assumption | assumption | nra]. }
    destruct (Rlt_dec d (Yl - Xl)) as [HC | HC].
    { assert (0 < f1) by (unfold f1; lra).
      assert (0 < f2) by (unfold f2; lra).
      assert (f3 < 0) by (unfold f3; lra).
      assert (0 < f1 * f2) by nra.
      assert (f3 * f4 < 0) by nra. nra. }
    exfalso. apply Hn. split; [| lra].
    apply Rabs_le. lra.
Qed.

(** In exact arithmetic the outcome follows the triangle inequality to the
    point: with [d <> 0], [null] is returned exactly when it fails. *)
Lemma inverse_outcome_exact (Xl Yl Zl : R) (a : anchors) :
  0 <= Xl -> 0 <= Yl ->
  let d := dist (topRight a) (topLeft a) in
  let r := trilaterationToCartesian Xl Yl Zl a in
  (d = 0 -> r = Threw)
  /\ (d <> 0 -> Rabs (Xl - Yl) <= d <= Xl + Yl -> exists q, r = Solution q)
  /\ (d <> 0 -> ~ (Rabs (Xl - Yl) <= d <= Xl + Yl) -> r = NoSolution).
Proof.
  intros HX HY. cbv zeta.
  unfold trilaterationToCartesian, dist, Js.pow2.
  set (d := sqrt _).
  assert (Hd0 : 0 <= d) by apply sqrt_pos.
  destruct (Js.eqb d 0) eqn:E.
  - apply Js.eqb_spec in E.
    split; [reflexivity |]. split; intros Hne; contradiction.
  - assert (Hd : d <> 0).
    { intros H. rewrite H, Js.eqb_refl in E. discriminate. }
    assert (Hpos : 0 < d) by lra.
    pose proof (ySquared_sign Xl Yl d HX HY Hpos) as Hs. cbv zeta in Hs.
    split; [intros; contradiction |]. split.
    + intros _ Htri.
      replace (Js.ltb _ 0) with false; [eexists; reflexivity |].
      symmetry. apply Js.ltb_false.
      destruct (Rlt_dec (Xl * Xl
                         - (Xl * Xl - Yl * Yl + d * d) / (2 * d)
                           * ((Xl * Xl - Yl * Yl + d * d) / (2 * d))) 0)
        as [Hlt | Hge]; [| lra].
      exfalso. apply (proj1 Hs Hlt). exact Htri.
    + intros _ Htri.
      replace (Js.ltb _ 0) with true; [reflexivity |].
      symmetry. apply Js.ltb_spec. apply (proj2 Hs). exact Htri.
Qed.

Lemma pow10_pos (n : nat) : 0 < 10 ^ n.
Proof. apply pow_lt. lra. Qed.

(** The inverse transform on lengths that are not negative.  It throws when
    the two top anchors coincide.  Otherwise let [d] be the distance between
    the top anchors and [m] a millionth of [X + Y + d]: it returns a point
    when the two upper lengths and [d] satisfy the triangle inequality with
    the margin [m], and [null] when they violate it by more than [m].  (In
    between, and for lengths beyond 1e100 or a baseline below 1e-100, the
    rounding of the floating-point operations decides.)  The third length
    plays no part in the outcome. *)
Theorem inverse_outcome (Xl Yl Zl : R) (a : anchors) :
  0 <= Xl -> 0 <= Yl ->
  let d := dist (topRight a) (topLeft a) in
  let m := (Xl + Yl + d) / 10 ^ 6 in
  let r := trilaterationToCartesian Xl Yl Zl a in
  (topRight a = topLeft a -> r = Threw)
  /\ (/ 10 ^ 100 <= d -> Xl + Yl + d <= 10 ^ 100 ->
      Rabs (Xl - Yl) + m <= d <= Xl + Yl - m ->
      exists q, r = Solution q)
  /\ (/ 10 ^ 100 <= d -> Xl + Yl + d <= 10 ^ 100 ->
      d + m < Rabs (Xl - Yl) \/ Xl + Yl + m < d ->
      r = NoSolution).
Proof.
  intros HX HY d m r.
  destruct (inverse_outcome_exact Xl Yl Zl a HX HY) as (H1 & H2 & H3).
  fold d r in H1, H2, H3.
  assert (Hd0 : 0 <= d) by apply sqrt_pos.
  assert (Hm : 0 <= m).
  { unfold m. apply Rmult_le_pos; [lra |].
    apply Rlt_le, Rinv_0_lt_compat, pow10_pos. }
  assert (Hsmall : 0 < / 10 ^ 100) by apply Rinv_0_lt_compat, pow10_pos.
  split; [| split].
  - intros E. apply H1. unfold d, dist. rewrite E.
    replace ((px (topLeft a) - px (topLeft a)) * (px (topLeft a) - px (topLeft a))
             + (py (topLeft a) - py (topLeft a))
               * (py (topLeft a) - py (topLeft a))) with 0 by ring.
    apply sqrt_0.
  - intros Hlo _ Htri. apply H2; lra.
  - intros Hlo _ Htri. apply H3; [lra |]. intros [Ha Hb]. lra.
Qed.

Lemma inverse_outcome_witness :
  exists q, trilaterationToCartesian 1250 1250 750 example_anchors
            = Solution q.
Proof.
  assert (Hd : dist (topRight example_anchors) (topLeft example_anchors)
               = 2000).
  { unfold dist, example_anchors; simpl.
    replace ((2000 - 0) * (2000 - 0) + (0 - 0) * (0 - 0)) with (2000 * 2000)
      by lra.
    apply sqrt_square. lra. }
  assert (H6 : 10 ^ 6 = 1000000) by (simpl; lra).
  assert (Hbig : 10 ^ 6 <= 10 ^ 100) by (apply Rle_pow; [lra | lia]).
  assert (Hinv : / 10 ^ 100 <= 1).
  { rewrite <- Rinv_1. apply Rinv_le_contravar; lra. }
  apply (proj1 (proj2 (inverse_outcome 1250 1250 750 example_anchors
                         ltac:(lra) ltac:(lra)))).
  - rewrite Hd. lra.
  - rewrite Hd. lra.
  - rewrite Hd, H6. rewrite Rabs_right by lra. lra.
Defined.

End CoordinateTransformerFacts.

(** ** Planar points shared by the planners *)

Module Plane.

(** A point [{x, y}] of the planners. *)
Record pt : Type := mkPt { x : R; y : R }.

Definition origin : pt := mkPt 0 0.

(** The [distance(p1, p2)] helper that [tspSolver.js], [edgeTracer.js] and
    [spatialIndex.js] each define in the same way. *)
Definition distance (p1 p2 : pt) : R :=
  let dx := x p1 - x p2 in
  let dy := y p1 - y p2 in
  sqrt (dx * dx + dy * dy).

(** A running minimum that starts at [Infinity]: [None] is [Infinity]. *)
Definition below (d : R) (best : option R) : bool :=
  match best with
  | None => true
  | Some b => Js.ltb d b
  end.

End Plane.

(** ** Grid spatial index ([algorithms/spatialIndex.js]) *)

Module SpatialIndex.
Import Plane.

(** An entry [{index, point}] of a grid cell. *)
Record item : Type := mkItem { index : nat; point : pt }.

(** A result [{index, point, distance}] of a radius query. *)
Record candidate : Type := mkCandidate {
  cindex : nat;
  cpoint : pt;
  cdistance : R
}.

(** The cell key ["cellX,cellY"] as the pair of integers it prints. *)
Definition cell : Type := (Z * Z)%type.

Definition cell_eqb (a b : cell) : bool :=
  (Z.eqb (fst a) (fst b) && Z.eqb (snd a) (snd b))%bool.

(** The [Map] from cell keys to their entries, in insertion order. *)
Definition grid : Type := list (cell * list item).

Record t : Type := mkIndex {
  points : list pt;
  gridSize : R;
  cells : grid
}.

(** [_calculateOptimalGridSize(points)].  The bounds start at plus and minus
    [Infinity]; the first point replaces them by its own coordinates. *)
Definition calculateOptimalGridSize (pts : list pt) : R :=
  match pts with
  | [] => 10
  | p0 :: rest =>
      let minX := fold_left (fun m p => Rmin m (x p)) rest (x p0) in
      let minY := fold_left (fun m p => Rmin m (y p)) rest (y p0) in
      let maxX := fold_left (fun m p => Rmax m (x p)) rest (x p0) in
      let maxY := fold_left (fun m p => Rmax m (y p)) rest (y p0) in
      let width := maxX - minX in
      let height := maxY - minY in
      let area := width * height in
      let targetCells := sqrt (INR (length pts)) in
      let avgDimension := sqrt area in
      Rmax 1 (avgDimension / targetCells)
  end.

(** [_getCellKey(point)]. *)
Definition getCellKey (g : R) (p : pt) : cell :=
  (Zfloor (x p / g), Zfloor (y p / g)).

Definition grid_get (gr : grid) (k : cell) : option (list item) :=
  option_map snd (find (fun e => cell_eqb (fst e) k) gr).

(** [if (!grid.has(key)) grid.set(key, []); grid.get(key).push(item)]. *)
Definition grid_push (gr : grid) (k : cell) (it : item) : grid :=
  match grid_get gr k with
  | None => gr ++ [(k, [it])]
  | Some _ =>
      map (fun e => if cell_eqb (fst e) k then (fst e, snd e ++ [it]) else e) gr
  end.

(** [_buildIndex()], from entry [i] on. *)
Fixpoint buildIndex_from (g : R) (i : nat) (pts : list pt) (gr : grid) : grid :=
  match pts with
  | [] => gr
  | p :: rest =>
      buildIndex_from g (S i) rest (grid_push gr (getCellKey g p) (mkItem i p))
  end.

(** [new SpatialIndex(points)] with the grid size left to the constructor. *)
Definition create (pts : list pt) : t :=
  let g := calculateOptimalGridSize pts in
  mkIndex pts g (buildIndex_from g 0 pts []).

(** The integers [lo, lo + 1, ..., hi]. *)
Definition Zrange (lo hi : Z) : list Z :=
  map (fun k => (lo + Z.of_nat k)%Z) (seq 0 (Z.to_nat (hi - lo + 1))).

(** [findInRadius(point, radius)]. *)
Definition findInRadius (si : t) (p : pt) (radius : R) : list candidate :=
  let cellX := Zfloor (x p / gridSize si) in
  let cellY := Zfloor (y p / gridSize si) in
  let cellRadius := (- Zfloor (- (radius / gridSize si)))%Z in
  flat_map (fun dx =>
    flat_map (fun dy =>
      match grid_get (cells si) ((cellX + dx)%Z, (cellY + dy)%Z) with
      | None => []
      | Some cellPoints =>
          flat_map (fun it =>
            let d := distance p (point it) in
            if Js.leb d radius then [mkCandidate (index it) (point it) d]
            else []) cellPoints
      end) (Zrange (- cellRadius) cellRadius))
    (Zrange (- cellRadius) cellRadius).

End SpatialIndex.

(** ** Tour planner ([algorithms/tspSolver.js]) *)

Module TspSolver.
Import Plane.

(** [points[i]] for an index that a tour holds.  Tours are built from
    indices of [points]; an index outside would make the source throw, and
    the statements below keep tours within range. *)
Definition at_index (points : list pt) (i : nat) : pt := nth i points origin.

(** [calculateTourLength(tour, points)]: the loop adds the leg from each
    entry to the next one to a total that starts at 0. *)
Fixpoint legs (points : list pt) (tour : list nat) : list R :=
  match tour with
  | a :: (b :: _) as rest =>
      distance (at_index points a) (at_index points b) :: legs points rest
  | _ => []
  end.

Definition calculateTourLength (tour : list nat) (points : list pt) : R :=
  if Nat.ltb (length tour) 2 then 0
  else fold_left Rplus (legs points tour) 0.

(** The [visited] set: insertion keeps one copy of each index. *)
Definition visited_add (i : nat) (v : list nat) : list nat :=
  if existsb (Nat.eqb i) v then v else v ++ [i].

Definition visited_has (v : list nat) (i : nat) : bool := existsb (Nat.eqb i) v.

(** The pair ([nearestIndex], [nearestDistance]); [None] is the initial
    (-1, [Infinity]). *)
Definition nearest : Type := option (nat * R).

Definition nearest_distance (b : nearest) : option R := option_map snd b.

(** Brute-force scan: [for (let i = 0; i < points.length; i++)]. *)
Definition scan_step (points : list pt) (visited : list nat) (cur : pt)
  (best : nearest) (i : nat) : nearest :=
  if visited_has visited i then best
  else
    let dist := distance cur (at_index points i) in
    if below dist (nearest_distance best) then Some (i, dist) else best.

Definition scan (points : list pt) (visited : list nat) (cur : pt) : nearest :=
  fold_left (scan_step points visited cur) (seq 0 (length points)) None.

(** The candidates of one radius query: [for (const candidate of candidates)]. *)
Definition pick_step (visited : list nat) (best : nearest)
  (c : SpatialIndex.candidate) : nearest :=
  if negb (visited_has visited (SpatialIndex.cindex c))
     && below (SpatialIndex.cdistance c) (nearest_distance best)
  then Some (SpatialIndex.cindex c, SpatialIndex.cdistance c)
  else best.

(** [maxRadius] of the expanding search. *)
Definition maxRadius (points : list pt) : R :=
  Rmax (Rabs (fold_left (fun m p => Rmax m (x p)) points 0))
       (Rabs (fold_left (fun m p => Rmax m (y p)) points 0)) * 2.

(** [while (nearestIndex === -1 && searchRadius <= maxRadius)].  The radius
    starts at the grid size, which is at least 1, and doubles, so the loop
    ends within [search_fuel] rounds. *)
Fixpoint search (fuel : nat) (si : SpatialIndex.t) (visited : list nat)
  (cur : pt) (limit searchRadius : R) : nearest :=
  match fuel with
  | O => None
  | S fuel' =>
      if Js.leb searchRadius limit then
        let candidates := SpatialIndex.findInRadius si cur searchRadius in
        match fold_left (pick_step visited) candidates None with
        | Some b => Some b
        | None => search fuel' si visited cur limit (searchRadius * 2)
        end
      else None
  end.

Definition search_fuel (limit : R) : nat := Z.to_nat (Zfloor limit) + 2.

(** The greedy loop [while (visited.size < points.length)].  [None] is a
    [TypeError]: [points[currentIndex]] is [undefined] and a coordinate of it
    is read, by the first distance of the scan (some index is unvisited, or
    the loop would have ended) or by the first radius query (if the search
    loop is entered at all).  That can only happen for the start index: every
    later current index was picked among the points. *)
Fixpoint construct (fuel : nat) (points : list pt) (si : option SpatialIndex.t)
  (visited tour : list nat) (currentIndex : nat) : option (list nat) :=
  match fuel with
  | O => Some tour
  | S fuel' =>
      if Nat.ltb (length visited) (length points) then
        let found :=
          match si, nth_error points currentIndex with
          | None, Some cur => Some (scan points visited cur)
          | None, None => None
          | Some idx, Some cur =>
              let limit := maxRadius points in
              Some (search (search_fuel limit) idx visited cur limit
                      (SpatialIndex.gridSize idx))
          | Some idx, None =>
              if Js.leb (SpatialIndex.gridSize idx) (maxRadius points)
              then None else Some None
          end in
        match found with
        | None => None
        | Some None => Some tour
        | Some (Some (nearestIndex, _)) =>
            construct fuel' points si (visited_add nearestIndex visited)
              (tour ++ [nearestIndex]) nearestIndex
        end
      else Some tour
  end.

(** [nearestNeighbor(points, startIndex)]. *)
Definition nearestNeighbor (points : list pt) (startIndex : nat)
  : option (list nat) :=
  match length points with
  | 0 => Some []
  | 1 => Some [0%nat]
  | n =>
      let useSpatialIndex := Nat.ltb 1000 n in
      let spatialIndex :=
        if useSpatialIndex then Some (SpatialIndex.create points) else None in
      construct n points spatialIndex (visited_add startIndex [])
        [startIndex] startIndex
  end.

(** The index pairs [(i, j)] of one sweep of 2-opt, in loop order. *)
Definition swap_pairs (len : nat) : list (nat * nat) :=
  flat_map (fun i => map (pair i) (seq (S i) (len - 1 - S i)))
           (seq 1 (len - 2 - 1)).

(** [[...t.slice(0, i), ...t.slice(i, j + 1).reverse(), ...t.slice(j + 1)]]. *)
Definition reverse_segment (t : list nat) (i j : nat) : list nat :=
  firstn i t ++ rev (firstn (S j - i) (skipn i t)) ++ skipn (S j) t.

(** The body of the inner loop: the state is ([bestTour], [improved]). *)
Definition try_swap (points : list pt) (st : list nat * bool) (ij : nat * nat)
  : list nat * bool :=
  let '(bestTour, improved) := st in
  let '(i, j) := ij in
  let A := at_index points (nth (i - 1) bestTour 0%nat) in
  let B := at_index points (nth i bestTour 0%nat) in
  let C := at_index points (nth j bestTour 0%nat) in
  let D := at_index points (nth (S j) bestTour 0%nat) in
  let currentDist := distance A B + distance C D in
  let newDist := distance A C + distance B D in
  if Js.ltb newDist currentDist then (reverse_segment bestTour i j, true)
  else (bestTour, improved).

Definition sweep (points : list pt) (len : nat) (bestTour : list nat)
  : list nat * bool :=
  fold_left (try_swap points) (swap_pairs len) (bestTour, false).

(** [while (improved && iterations < maxIterations)]: at most
    [maxIterations] sweeps. *)
Fixpoint improve (maxIterations : nat) (points : list pt) (len : nat)
  (bestTour : list nat) : list nat :=
  match maxIterations with
  | O => bestTour
  | S k =>
      let '(t, improved) := sweep points len bestTour in
      if improved then improve k points len t else t
  end.

(** [twoOpt(tour, points, maxIterations)]. *)
Definition twoOpt (tour : list nat) (points : list pt) (maxIterations : nat)
  : list nat :=
  if Nat.ltb (length tour) 4 then tour
  else improve maxIterations points (length tour) tour.

(** [solveTSP(points, {startIndex, optimize, maxIterations})]. *)
Definition solveTSP (points : list pt) (startIndex : nat) (optimize : bool)
  (maxIterations : nat) : option (list nat) :=
  match nearestNeighbor points startIndex with
  | None => None
  | Some tour =>
      if optimize && Nat.leb 4 (length tour)
      then Some (twoOpt tour points maxIterations)
      else Some tour
  end.

(** The default of [optimize]: only sets of fewer than 500 points. *)
Definition default_optimize (points : list pt) : bool :=
  Nat.ltb (length points) 500.

(** A magnitude up to which the squared coordinate differences that
    [distance] forms stay below the overflow threshold of binary64, so that
    every distance is less than the [Infinity] the scan starts from. *)
Definition coordinate_limit : R := 10 ^ 150.

Definition within_limit (p : pt) : Prop :=
  Rabs (x p) <= coordinate_limit /\ Rabs (y p) <= coordinate_limit.

(** A point set of the examples: the pixel (0,0) and, in the opposite corner
    of a 1201 x 1201 image, 1000 pixels ten apart that fill the first rows of
    a 32 x 32 block. *)
Definition block_point (k : nat) : pt :=
  mkPt (IZR (890 + 10 * Z.of_nat (k mod 32)))
       (IZR (890 + 10 * Z.of_nat (k / 32))).

Definition corner_and_block : list pt :=
  mkPt 0 0 :: map block_point (seq 0 1000).

End TspSolver.

Module TspSolverFacts.
Import Plane TspSolver.

(** *** The visited set *)

Lemma visited_has_In (v : list nat) (i : nat) :
  visited_has v i = true <-> In i v.
Proof.
  unfold visited_has. rewrite existsb_exists. split.
  - intros (j & Hj & E). apply Nat.eqb_eq in E. now subst.
  - intros H. exists i. split; [exact H | apply Nat.eqb_refl].
Qed.

Lemma visited_has_false (v : list nat) (i : nat) :
  visited_has v i = false <-> ~ In i v.
Proof.
  rewrite <- visited_has_In. destruct (visited_has v i); split; intros; easy.
Qed.

Lemma visited_add_new (v : list nat) (i : nat) :
  ~ In i v -> visited_add i v = v ++ [i].
Proof.
  intros H. unfold visited_add. apply visited_has_false in H.
  unfold visited_has in H. now rewrite H.
Qed.

(** *** The brute-force scan *)

Lemma scan_fold_sound points visited cur (l : list nat) (best : nearest) :
  (forall i d, best = Some (i, d) -> ~ In i visited /\ (i < length points)%nat) ->
  (forall i, In i l -> (i < length points)%nat) ->
  forall i d, fold_left (scan_step points visited cur) l best = Some (i, d) ->
              ~ In i visited /\ (i < length points)%nat.
Proof.
  revert best. induction l as [| k l IH]; intros best Hbest Hl i d; simpl.
  - apply Hbest.
  - apply IH.
    + intros i' d'. unfold scan_step.
      destruct (visited_has visited k) eqn:Hk; [apply Hbest |].
      destruct (below _ _); [| apply Hbest].
      intros E. injection E as <- _. split.
      * now apply visited_has_false.
      * apply Hl. now left.
    + intros j Hj. apply Hl. now right.
Qed.

Lemma scan_fold_some points visited cur (l : list nat) (best : nearest) :
  best <> None ->
  fold_left (scan_step points visited cur) l best <> None.
Proof.
  revert best. induction l as [| k l IH]; intros best Hbest; simpl; [easy |].
  apply IH. unfold scan_step.
  destruct (visited_has visited k); [easy |].
  destruct (below _ _); easy.
Qed.

Lemma scan_fold_finds points visited cur (l : list nat) :
  (exists i, In i l /\ ~ In i visited) ->
  fold_left (scan_step points visited cur) l None <> None.
Proof.
  induction l as [| k l IH]; intros (i & Hi & Hv); simpl; [easy |].
  destruct (visited_has visited k) eqn:Hk.
  - unfold scan_step at 2. rewrite Hk. apply IH.
    destruct Hi as [-> | Hi]; [| now exists i].
    apply visited_has_In in Hk. contradiction.
  - apply scan_fold_some. unfold scan_step. rewrite Hk. simpl. easy.
Qed.

(** A list without repetition that is shorter than [n] and holds only
    indices below [n] misses one of them. *)
Lemma unvisited_exists (v : list nat) (n : nat) :
  NoDup v -> (length v < n)%nat ->
  exists i, In i (seq 0 n) /\ ~ In i v.
Proof.
  intros Hnd Hlen.
  destruct (existsb (fun i => negb (visited_has v i)) (seq 0 n)) eqn:E.
  - apply existsb_exists in E. destruct E as (i & Hi & Hn).
    exists i. split; [exact Hi |]. apply visited_has_false.
    now apply negb_true_iff.
  - exfalso.
    assert (Hincl : incl (seq 0 n) v).
    { intros i Hi. apply visited_has_In.
      destruct (visited_has v i) eqn:Hv; [reflexivity |].
      assert (existsb (fun i => negb (visited_has v i)) (seq 0 n) = true).
      { apply existsb_exists. exists i. now rewrite Hv. }
      congruence. }
    pose proof (NoDup_incl_length (seq_NoDup n 0) Hincl) as Hle.
    rewrite length_seq in Hle. lia.
Qed.

Lemma scan_spec points visited cur :
  NoDup visited -> (length visited < length points)%nat ->
  exists i d, scan points visited cur = Some (i, d)
              /\ ~ In i visited /\ (i < length points)%nat.
Proof.
  intros Hnd Hlen. unfold scan.
  destruct (fold_left (scan_step points visited cur) (seq 0 (length points))
              None) as [[i d] |] eqn:E.
  - exists i, d. split; [reflexivity |].
    apply (scan_fold_sound points visited cur (seq 0 (length points)) None)
      with (d := d); [easy | | exact E].
    intros j Hj. apply in_seq in Hj. lia.
  - exfalso. revert E. apply scan_fold_finds.
    now apply unvisited_exists.
Qed.

(** *** The greedy construction without the spatial index *)

Lemma construct_brute (points : list pt) :
  forall (fuel : nat) (tour : list nat) (cur : nat),
    NoDup tour ->
    (forall i, In i tour -> (i < length points)%nat) ->
    (cur < length points)%nat ->
    (length points <= fuel + length tour)%nat ->
    exists tour',
      construct fuel points None tour tour cur = Some tour'
      /\ NoDup tour'
      /\ (forall i, In i tour' -> (i < length points)%nat)
      /\ (length points <= length tour')%nat
      /\ exists rest, tour' = tour ++ rest.
Proof.
  induction fuel as [| fuel IH]; intros tour cur Hnd Hlt Hcur Hfuel.
  - exists tour. simpl. repeat split; try easy.
    exists []. now rewrite app_nil_r.
  - simpl. destruct (Nat.ltb (length tour) (length points)) eqn:Hlen.
    + apply Nat.ltb_lt in Hlen.
      destruct (nth_error points cur) as [c |] eqn:Hc;
        [| apply nth_error_None in Hc; lia].
      destruct (scan_spec points tour c Hnd Hlen) as (i & d & E & Hi & Hin).
      rewrite E. rewrite (visited_add_new tour i Hi).
      destruct (IH (tour ++ [i]) i) as (t' & E' & Hnd' & Hlt' & Hlen' & Hpre).
      * apply NoDup_app; repeat split; try easy.
        -- repeat constructor. easy.
        -- intros j Hj [-> | []]. contradiction.
      * intros j Hj. apply in_app_or in Hj. destruct Hj as [Hj | [<- | []]];
          [now apply Hlt | exact Hin].
      * exact Hin.
      * rewrite length_app. simpl. lia.
      * exists t'. repeat split; try easy.
        destruct Hpre as (rest & ->). exists (i :: rest).
        now rewrite <- app_assoc.
    + apply Nat.ltb_ge in Hlen.
      exists tour. repeat split; try easy.
      exists []. now rewrite app_nil_r.
Qed.

Lemma NoDup_bounded_perm (l : list nat) (n : nat) :
  NoDup l -> (forall i, In i l -> (i < n)%nat) -> (n <= length l)%nat ->
  Permutation l (seq 0 n).
Proof.
  intros Hnd Hlt Hlen. apply NoDup_Permutation_bis; [exact Hnd | |].
  - rewrite length_seq. exact Hlen.
  - intros i Hi. apply in_seq. specialize (Hlt i Hi). lia.
Qed.

Lemma nearestNeighbor_small (points : list pt) (startIndex : nat) :
  (length points <= 1000)%nat -> (startIndex < length points)%nat ->
  exists tour,
    nearestNeighbor points startIndex = Some tour
    /\ Permutation tour (seq 0 (length points))
    /\ hd_error tour = Some startIndex.
Proof.
  intros Hsmall Hstart. unfold nearestNeighbor.
  destruct (length points) as [| [| n]] eqn:Hn; [lia | |].
  - exists [0%nat]. assert (startIndex = 0%nat) as -> by lia. now repeat split.
  - replace (Nat.ltb 1000 (S (S n))) with false
      by (symmetry; apply Nat.ltb_ge; lia).
    unfold visited_add; simpl existsb; cbv iota. simpl app.
    destruct (construct_brute points (S (S n)) [startIndex] startIndex)
      as (tour & E & Hnd & Hlt & Hlen & rest & Hrest).
    + repeat constructor. easy.
    + intros i [<- | []]. lia.
    + lia.
    + simpl. lia.
    + exists tour. split; [exact E |]. split.
      * rewrite <- Hn. apply NoDup_bounded_perm; easy.
      * now rewrite Hrest.
Qed.

(** *** 2-opt keeps the entries of the tour *)

Lemma in_swap_pairs (len i j : nat) :
  In (i, j) (swap_pairs len) -> (1 <= i < j)%nat /\ (S j < len)%nat.
Proof.
  unfold swap_pairs. rewrite in_flat_map. intros (i' & Hi' & Hj).
  apply in_map_iff in Hj. destruct Hj as (j' & E & Hj').
  injection E as -> ->. apply in_seq in Hi', Hj'. lia.
Qed.

Lemma reverse_segment_perm (t : list nat) (i j : nat) :
  (i <= S j)%nat -> Permutation (reverse_segment t i j) t.
Proof.
  intros Hij. unfold reverse_segment.
  rewrite <- (firstn_skipn i t) at 4.
  apply Permutation_app_head.
  rewrite <- (firstn_skipn (S j - i) (skipn i t)) at 2.
  rewrite skipn_skipn. replace (S j - i + i)%nat with (S j) by lia.
  apply Permutation_app_tail. symmetry. apply Permutation_rev.
Qed.

Lemma try_swap_perm points (st : list nat * bool) (ij : nat * nat) :
  (fst ij <= S (snd ij))%nat ->
  Permutation (fst (try_swap points st ij)) (fst st).
Proof.
  destruct st as [t b], ij as [i j]; simpl. intros Hij.
  destruct (Js.ltb _ _); simpl; [now apply reverse_segment_perm | easy].
Qed.

Lemma sweep_fold_perm points (l : list (nat * nat)) (st : list nat * bool) :
  (forall ij, In ij l -> (fst ij <= S (snd ij))%nat) ->
  Permutation (fst (fold_left (try_swap points) l st)) (fst st).
Proof.
  revert st. induction l as [| ij l IH]; intros st Hl; simpl; [easy |].
  rewrite IH by (intros; apply Hl; now right).
  apply try_swap_perm. apply Hl. now left.
Qed.

Lemma sweep_perm points len (t : list nat) :
  Permutation (fst (sweep points len t)) t.
Proof.
  unfold sweep. apply (sweep_fold_perm points _ (t, false)).
  intros [i j] H. apply in_swap_pairs in H. simpl. lia.
Qed.

Lemma improve_perm points len (k : nat) (t : list nat) :
  Permutation (improve k points len t) t.
Proof.
  revert t. induction k as [| k IH]; intros t; simpl; [easy |].
  pose proof (sweep_perm points len t) as H.
  destruct (sweep points len t) as [t' b]; simpl in H.
  destruct b; [now rewrite IH | exact H].
Qed.

Lemma twoOpt_perm (tour : list nat) points (maxIterations : nat) :
  Permutation (twoOpt tour points maxIterations) tour.
Proof.
  unfold twoOpt. destruct (Nat.ltb (length tour) 4); [easy |].
  apply improve_perm.
Qed.

Lemma solveTSP_small (points : list pt) (startIndex : nat) (optimize : bool)
  (maxIterations : nat) :
  (length points <= 1000)%nat -> (startIndex < length points)%nat ->
  exists tour,
    solveTSP points startIndex optimize maxIterations = Some tour
    /\ Permutation tour (seq 0 (length points)).
Proof.
  intros Hsmall Hstart. unfold solveTSP.
  destruct (nearestNeighbor_small points startIndex Hsmall Hstart)
    as (tour & -> & Hperm & _).
  destruct (optimize && Nat.leb 4 (length tour))%bool.
  - eexists. split; [reflexivity |]. now rewrite twoOpt_perm.
  - now exists tour.
Qed.

(** *** 2-opt never lengthens the tour *)

Lemma distance_sym (p q : pt) : distance p q = distance q p.
Proof. unfold distance. f_equal. ring. Qed.

(** Length of the open path through a list of points. *)
Fixpoint path (ps : list pt) : R :=
  match ps with
  | a :: (b :: _) as rest => distance a b + path rest
  | _ => 0
  end.

Lemma fold_left_Rplus (l : list R) (a : R) :
  fold_left Rplus l a = a + fold_right Rplus 0 l.
Proof.
  revert a. induction l as [| v l IH]; intros a; simpl; [lra |].
  rewrite IH. lra.
Qed.

Lemma legs_path points (tour : list nat) :
  fold_right Rplus 0 (legs points tour) = path (map (at_index points) tour).
Proof.
  induction tour as [| a [| b tour] IH]; simpl in *; try reflexivity.
  now rewrite IH.
Qed.

Lemma calculateTourLength_path (tour : list nat) points :
  calculateTourLength tour points = path (map (at_index points) tour).
Proof.
  unfold calculateTourLength. destruct (Nat.ltb (length tour) 2) eqn:E.
  - apply Nat.ltb_lt in E. destruct tour as [| a [| b tour]]; simpl in *;
      try reflexivity; lia.
  - rewrite fold_left_Rplus, legs_path. lra.
Qed.

Lemma path_app (l1 l2 : list pt) (a : pt) :
  path (l1 ++ a :: l2) = path (l1 ++ [a]) + path (a :: l2).
Proof.
  induction l1 as [| u [| v l1] IH].
  - simpl. lra.
  - simpl. destruct l2; lra.
  - change (path ((u :: v :: l1) ++ a :: l2))
      with (distance u v + path ((v :: l1) ++ a :: l2)).
    change (path ((u :: v :: l1) ++ [a]))
      with (distance u v + path ((v :: l1) ++ [a])).
    rewrite IH. lra.
Qed.

Lemma path_rev (l : list pt) : path (rev l) = path l.
Proof.
  induction l as [| a [| b l] IH]; try reflexivity.
  change (rev (a :: b :: l)) with (rev (b :: l) ++ [a]).
  change (rev (b :: l)) with (rev l ++ [b]) at 1.
  rewrite <- app_assoc. simpl app at 2.
  rewrite path_app. change (rev l ++ [b]) with (rev (b :: l)).
  rewrite IH. change (path [b; a]) with (distance b a + 0).
  change (path (a :: b :: l)) with (distance a b + path (b :: l)).
  rewrite (distance_sym b a). lra.
Qed.

Lemma path_shape (l1 : list pt) (a b : pt) (m : list pt) (c e : pt)
  (l2 : list pt) :
  path (l1 ++ a :: b :: m ++ c :: e :: l2)
  = path (l1 ++ [a]) + distance a b + path (b :: m ++ [c]) + distance c e
    + path (e :: l2).
Proof.
  rewrite (path_app l1 (b :: m ++ c :: e :: l2) a).
  change (path (a :: b :: m ++ c :: e :: l2))
    with (distance a b + path ((b :: m) ++ c :: e :: l2)).
  rewrite (path_app (b :: m) (e :: l2) c).
  change (path (c :: e :: l2)) with (distance c e + path (e :: l2)).
  simpl app. lra.
Qed.

(** A tour around the positions [i < j] of a swap: the entry before [i],
    the segment from [i] to [j], and the entry after [j]. *)
Lemma tour_shape (t : list nat) (i j : nat) :
  (1 <= i < j)%nat -> (S j < length t)%nat ->
  exists l1 a b m c e l2,
    t = l1 ++ a :: b :: m ++ c :: e :: l2
    /\ i = S (length l1) /\ j = (i + S (length m))%nat.
Proof.
  intros Hij Hj.
  pose proof (firstn_skipn (i - 1) t) as E1.
  assert (Hl1 : length (firstn (i - 1) t) = (i - 1)%nat)
    by (rewrite length_firstn; lia).
  pose proof (length_skipn (i - 1) t) as Hr1.
  destruct (skipn (i - 1) t) as [| a [| b r2]]; simpl in Hr1; try lia.
  pose proof (firstn_skipn (j - i - 1) r2) as E2.
  assert (Hm : length (firstn (j - i - 1) r2) = (j - i - 1)%nat)
    by (rewrite length_firstn; lia).
  pose proof (length_skipn (j - i - 1) r2) as Hr3.
  destruct (skipn (j - i - 1) r2) as [| c [| e l2]]; simpl in Hr3; try lia.
  exists (firstn (i - 1) t), a, b, (firstn (j - i - 1) r2), c, e, l2.
  rewrite E2, E1. repeat split; lia.
Qed.

Lemma shape_nth (l1 : list nat) (a b : nat) (m : list nat) (c e : nat)
  (l2 : list nat) :
  let t := l1 ++ a :: b :: m ++ c :: e :: l2 in
  let i := S (length l1) in
  let j := (i + S (length m))%nat in
  nth (i - 1) t 0%nat = a /\ nth i t 0%nat = b
  /\ nth j t 0%nat = c /\ nth (S j) t 0%nat = e.
Proof.
  cbv zeta. repeat split.
  - replace (S (length l1) - 1)%nat with (length l1) by lia.
    apply nth_middle.
  - replace (S (length l1)) with (length l1 + 1)%nat by lia.
    now rewrite app_nth2_plus.
  - replace (S (length l1) + S (length m))%nat
      with (length l1 + (2 + length m))%nat by lia.
    rewrite app_nth2_plus. simpl. apply nth_middle.
  - replace (S (S (length l1) + S (length m)))%nat
      with (length l1 + (2 + (length m + 1)))%nat by lia.
    rewrite app_nth2_plus. simpl. now rewrite app_nth2_plus.
Qed.

Lemma reverse_segment_app (l s r : list nat) :
  s <> [] ->
  reverse_segment (l ++ s ++ r) (length l) (length l + length s - 1)
  = l ++ rev s ++ r.
Proof.
  intros Hs. unfold reverse_segment.
  assert (Hlen : (0 < length s)%nat) by (destruct s; simpl; [easy | lia]).
  replace (S (length l + length s - 1))%nat with (length l + length s)%nat
    by lia.
  rewrite Slices.firstn_exact, Slices.skipn_exact.
  replace (length l + length s - length l)%nat with (length s) by lia.
  rewrite Slices.firstn_exact.
  rewrite (app_assoc l s r), <- length_app, Slices.skipn_exact. reflexivity.
Qed.

Lemma shape_reverse (l1 : list nat) (a b : nat) (m : list nat) (c e : nat)
  (l2 : list nat) :
  let t := l1 ++ a :: b :: m ++ c :: e :: l2 in
  let i := S (length l1) in
  let j := (i + S (length m))%nat in
  reverse_segment t i j = l1 ++ a :: c :: rev m ++ b :: e :: l2.
Proof.
  cbv zeta.
  assert (Hj : (S (length l1) + S (length m))%nat
               = (length (l1 ++ [a]) + length (b :: m ++ [c]) - 1)%nat)
    by (simpl; rewrite !length_app; simpl; lia).
  assert (Hi : S (length l1) = length (l1 ++ [a]))
    by (rewrite length_app; simpl; lia).
  assert (Ht : l1 ++ a :: b :: m ++ c :: e :: l2
               = (l1 ++ [a]) ++ (b :: m ++ [c]) ++ e :: l2)
    by (rewrite <- !app_assoc; simpl; now rewrite <- app_assoc).
  rewrite Hj, Hi, Ht, reverse_segment_app by easy.
  simpl rev. rewrite rev_app_distr. simpl.
  rewrite <- !app_assoc. reflexivity.
Qed.

Section Swap.

Variable points : list pt.

Let len_of (t : list nat) : R := path (map (at_index points) t).
Let d (i j : nat) : R := distance (at_index points i) (at_index points j).

Lemma shape_length (l1 : list nat) (a b : nat) (m : list nat) (c e : nat)
  (l2 : list nat) :
  len_of (l1 ++ a :: b :: m ++ c :: e :: l2)
  = path (map (at_index points) (l1 ++ [a])) + d a b
    + path (map (at_index points) (b :: m ++ [c])) + d c e
    + path (map (at_index points) (e :: l2)).
Proof.
  unfold len_of, d. rewrite !map_app. simpl map. rewrite !map_app. simpl map.
  apply path_shape.
Qed.

Lemma shape_swap (l1 : list nat) (a b : nat) (m : list nat) (c e : nat)
  (l2 : list nat) :
  len_of (l1 ++ a :: c :: rev m ++ b :: e :: l2)
  = len_of (l1 ++ a :: b :: m ++ c :: e :: l2)
    + (d a c + d b e) - (d a b + d c e).
Proof.
  rewrite !shape_length.
  assert (E : path (map (at_index points) (c :: rev m ++ [b]))
              = path (map (at_index points) (b :: m ++ [c]))).
  { change (c :: rev m ++ [b]) with ((c :: rev m) ++ [b]).
    replace ((c :: rev m) ++ [b]) with (rev (b :: m ++ [c])).
    - rewrite map_rev. apply path_rev.
    - simpl. rewrite rev_app_distr. reflexivity. }
  rewrite E. lra.
Qed.

Lemma try_swap_length (st : list nat * bool) (i j : nat) :
  (1 <= i < j)%nat -> (S j < length (fst st))%nat ->
  len_of (fst (try_swap points st (i, j))) <= len_of (fst st)
  /\ length (fst (try_swap points st (i, j))) = length (fst st).
Proof.
  destruct st as [t imp]. simpl fst. intros Hij Hj.
  destruct (tour_shape t i j Hij Hj) as (l1 & a & b & m & c & e & l2 & Ht & Hi & Hjj).
  pose proof (shape_nth l1 a b m c e l2) as (Ha & Hb & Hc & He).
  pose proof (shape_reverse l1 a b m c e l2) as Hrev.
  pose proof (shape_swap l1 a b m c e l2) as Hlen.
  cbv zeta in Hrev. rewrite <- Hi, <- Hjj, <- Ht in *.
  unfold try_swap. rewrite Ha, Hb, Hc, He.
  fold (d a b) (d c e) (d a c) (d b e).
  destruct (Js.ltb (d a c + d b e) (d a b + d c e)) eqn:E; simpl fst.
  - apply Js.ltb_spec in E. rewrite Hrev. split; [lra |].
    rewrite <- Hrev. apply Permutation_length, reverse_segment_perm. lia.
  - split; [lra | reflexivity].
Qed.

Lemma sweep_fold_length (l : list (nat * nat)) (st : list nat * bool) :
  (forall i j, In (i, j) l -> (1 <= i < j)%nat /\ (S j < length (fst st))%nat) ->
  len_of (fst (fold_left (try_swap points) l st)) <= len_of (fst st)
  /\ length (fst (fold_left (try_swap points) l st)) = length (fst st).
Proof.
  revert st. induction l as [| [i j] l IH]; intros st Hl; simpl.
  - split; [lra | reflexivity].
  - destruct (Hl i j (or_introl eq_refl)) as [Hij Hj].
    destruct (try_swap_length st i j Hij Hj) as [Hle Hlen].
    destruct (IH (try_swap points st (i, j))) as [Hle' Hlen'].
    + intros i' j' H. rewrite Hlen. apply Hl. now right.
    + split; [lra | congruence].
Qed.

Lemma sweep_length (t : list nat) :
  len_of (fst (sweep points (length t) t)) <= len_of t
  /\ length (fst (sweep points (length t) t)) = length t.
Proof.
  unfold sweep. apply (sweep_fold_length _ (t, false)).
  intros i j H. apply in_swap_pairs in H. simpl. lia.
Qed.

Lemma improve_length (k : nat) (t : list nat) :
  len_of (improve k points (length t) t) <= len_of t.
Proof.
  revert t. induction k as [| k IH]; intros t; simpl; [lra |].
  pose proof (sweep_length t) as [Hle Hlen].
  destruct (sweep points (length t) t) as [t' b]; simpl in Hle, Hlen.
  destruct b; [| exact Hle].
  rewrite <- Hlen. pose proof (IH t'). lra.
Qed.

End Swap.

(** In exact arithmetic the tour that [twoOpt] returns is never longer than
    the tour it started from: a swap is made only when the two new legs are
    together shorter than the two old ones.  (The code compares the rounded
    sums of the legs, and there a tie can count as an improvement: see the
    binary64 embedding of the planner.) *)
Lemma twoOpt_exact_length (points : list pt) (tour : list nat)
  (maxIterations : nat) :
  Forall (fun i => (i < length points)%nat) tour ->
  calculateTourLength (twoOpt tour points maxIterations) points
  <= calculateTourLength tour points.
Proof.
  intros _. rewrite !calculateTourLength_path. unfold twoOpt.
  destruct (Nat.ltb (length tour) 4); [lra |].
  apply improve_length.
Qed.

(** *** The expanding search of the spatial-index path *)

Lemma gridSize_ge_1 (points : list pt) :
  1 <= SpatialIndex.gridSize (SpatialIndex.create points).
Proof.
  unfold SpatialIndex.create, SpatialIndex.calculateOptimalGridSize; simpl.
  destruct points; [lra | apply Rmax_l].
Qed.

(** The fuel of [search] is enough: more fuel does not change the result. *)
Lemma search_fuel_stable si visited cur limit :
  forall (fuel extra : nat) (r : R),
    1 <= r -> limit < r + INR fuel ->
    search (fuel + extra) si visited cur limit r
    = search fuel si visited cur limit r.
Proof.
  induction fuel as [| fuel IH]; intros extra r Hr Hlim.
  - simpl in Hlim. destruct extra; simpl; [reflexivity |].
    replace (Js.leb r limit) with false
      by (symmetry; apply Js.leb_false; lra).
    reflexivity.
  - simpl. destruct (Js.leb r limit); [| reflexivity].
    destruct (fold_left (pick_step visited)
                (SpatialIndex.findInRadius si cur r) None); [reflexivity |].
    apply IH; [lra |]. rewrite S_INR in Hlim. lra.
Qed.

Lemma search_fuel_enough (limit r : R) :
  1 <= r -> limit < r + INR (search_fuel limit).
Proof.
  intros Hr. unfold search_fuel. rewrite plus_INR. simpl INR.
  pose proof (Zfloor_bound limit) as [_ Hub].
  destruct (Z_lt_le_dec (Zfloor limit) 0) as [Hneg | Hpos].
  - assert (IZR (Zfloor limit) <= -1) by (apply IZR_le; lia).
    pose proof (pos_INR (Z.to_nat (Zfloor limit))). lra.
  - rewrite INR_IZR_INZ, Z2Nat.id by exact Hpos. lra.
Qed.

Lemma fold_max_nonpos (f : pt -> R) (points : list pt) :
  (forall p, In p points -> f p <= 0) ->
  fold_left (fun m p => Rmax m (f p)) points 0 = 0.
Proof.
  induction points as [| p points IH]; intros H; simpl; [reflexivity |].
  rewrite Rmax_left by (apply H; now left).
  apply IH. intros q Hq. apply H. now right.
Qed.

Lemma maxRadius_nonpos (points : list pt) :
  (forall p, In p points -> x p <= 0 /\ y p <= 0) ->
  maxRadius points = 0.
Proof.
  intros H. unfold maxRadius.
  rewrite !fold_max_nonpos by (intros p Hp; now apply H).
  rewrite Rabs_R0, Rmax_left; lra.
Qed.

(** With more than 1000 points, none of which has a positive coordinate,
    [maxRadius] is 0 and the grid size at least 1: the search loop is never
    entered, the safety [break] is taken in the first round, and the tour is
    the start index alone. *)
Lemma nearestNeighbor_nonpositive (points : list pt) (startIndex : nat) :
  (1000 < length points)%nat ->
  (forall p, In p points -> x p <= 0 /\ y p <= 0) ->
  nearestNeighbor points startIndex = Some [startIndex].
Proof.
  intros Hn Hneg. unfold nearestNeighbor.
  destruct (length points) as [| [| n]] eqn:Hlen; [lia | lia |].
  replace (Nat.ltb 1000 (S (S n))) with true
    by (symmetry; apply Nat.ltb_lt; lia).
  unfold visited_add; simpl existsb; cbv iota. simpl app.
  cbn [construct]. rewrite Hlen.
  replace (Nat.ltb (length [startIndex]) (S (S n))) with true
    by reflexivity.
  pose proof (gridSize_ge_1 points) as Hg.
  rewrite (maxRadius_nonpos points Hneg).
  destruct (nth_error points startIndex) as [cur |].
  - unfold search_fuel. rewrite Nat.add_comm. cbn [Nat.add search].
    replace (Js.leb (SpatialIndex.gridSize (SpatialIndex.create points)) 0)
      with false by (symmetry; apply Js.leb_false; lra).
    reflexivity.
  - replace (Js.leb (SpatialIndex.gridSize (SpatialIndex.create points)) 0)
      with false by (symmetry; apply Js.leb_false; lra).
    reflexivity.
Qed.

(** *** What a radius query can return *)

Section GridInvariant.

Variable P : SpatialIndex.item -> Prop.

Let all_items (gr : SpatialIndex.grid) : Prop :=
  forall k l it, In (k, l) gr -> In it l -> P it.

Lemma grid_get_items (gr : SpatialIndex.grid) k l it :
  all_items gr -> SpatialIndex.grid_get gr k = Some l -> In it l -> P it.
Proof.
  unfold all_items. intros H. unfold SpatialIndex.grid_get.
  destruct (find _ gr) as [[k' l'] |] eqn:E; [| discriminate].
  simpl. intros [= <-] Hin. apply find_some in E. destruct E as [E _].
  now apply (H k' l').
Qed.

Lemma grid_push_items (gr : SpatialIndex.grid) k it :
  all_items gr -> P it -> all_items (SpatialIndex.grid_push gr k it).
Proof.
  unfold all_items. intros H Hit k' l' it'. unfold SpatialIndex.grid_push.
  destruct (SpatialIndex.grid_get gr k).
  - intros Hin. apply in_map_iff in Hin. destruct Hin as ([k0 l0] & E & Hin).
    simpl in E. destruct (SpatialIndex.cell_eqb k0 k).
    + injection E as <- <-. intros Hi. apply in_app_or in Hi.
      destruct Hi as [Hi | [<- | []]]; [now apply (H k0 l0) | exact Hit].
    + injection E as <- <-. intros Hi. now apply (H k0 l0).
  - intros Hin. apply in_app_or in Hin. destruct Hin as [Hin | [E | []]].
    + intros Hi. now apply (H k' l').
    + injection E as <- <-. intros [<- | []]. exact Hit.
Qed.

Lemma buildIndex_items (g : R) :
  forall (rest : list pt) (i : nat) (gr : SpatialIndex.grid),
    all_items gr ->
    (forall k p, nth_error rest k = Some p -> P (SpatialIndex.mkItem (i + k) p)) ->
    all_items (SpatialIndex.buildIndex_from g i rest gr).
Proof.
  induction rest as [| p rest IH]; intros i gr Hgr Hrest; simpl; [exact Hgr |].
  apply IH.
  - apply grid_push_items; [exact Hgr |].
    specialize (Hrest 0%nat p eq_refl). now rewrite Nat.add_0_r in Hrest.
  - intros k q Hk. replace (S i + k)%nat with (i + S k)%nat by lia.
    now apply Hrest.
Qed.

End GridInvariant.

Lemma findInRadius_sound (points : list pt) (p : pt) (r : R)
  (c : SpatialIndex.candidate) :
  In c (SpatialIndex.findInRadius (SpatialIndex.create points) p r) ->
  nth_error points (SpatialIndex.cindex c) = Some (SpatialIndex.cpoint c)
  /\ SpatialIndex.cdistance c = distance p (SpatialIndex.cpoint c)
  /\ SpatialIndex.cdistance c <= r.
Proof.
  unfold SpatialIndex.findInRadius. rewrite in_flat_map.
  intros (dx & _ & H). rewrite in_flat_map in H. destruct H as (dy & _ & H).
  destruct (SpatialIndex.grid_get _ _) as [l |] eqn:E; [| contradiction].
  rewrite in_flat_map in H. destruct H as (it & Hit & H).
  destruct (Js.leb (distance p (SpatialIndex.point it)) r) eqn:Hle;
    [| contradiction].
  destruct H as [<- | []]. simpl. apply Js.leb_spec in Hle.
  repeat split; try easy.
  revert E Hit.
  apply (grid_get_items
           (fun it => nth_error points (SpatialIndex.index it)
                      = Some (SpatialIndex.point it))).
  unfold SpatialIndex.create; simpl.
  apply buildIndex_items; [intros ? ? ? [] | now intros k q Hk].
Qed.

Lemma pick_fold_none (visited : list nat) (l : list SpatialIndex.candidate) :
  (forall c, In c l -> In (SpatialIndex.cindex c) visited) ->
  fold_left (pick_step visited) l None = None.
Proof.
  induction l as [| c l IH]; intros H; simpl; [reflexivity |].
  unfold pick_step at 2.
  replace (visited_has visited (SpatialIndex.cindex c)) with true
    by (symmetry; apply visited_has_In, H; now left).
  simpl. apply IH. intros c' Hc'. apply H. now right.
Qed.

(** If every radius that the loop can try returns visited points only, the
    search comes back empty-handed. *)
Lemma search_none si visited cur limit :
  forall (fuel : nat) (r : R),
    (forall j c, r * 2 ^ j <= limit ->
                 In c (SpatialIndex.findInRadius si cur (r * 2 ^ j)) ->
                 In (SpatialIndex.cindex c) visited) ->
    search fuel si visited cur limit r = None.
Proof.
  induction fuel as [| fuel IH]; intros r H; simpl; [reflexivity |].
  destruct (Js.leb r limit) eqn:Hle; [| reflexivity].
  apply Js.leb_spec in Hle.
  rewrite pick_fold_none.
  - apply IH. intros j c Hj Hc. apply (H (S j) c).
    + simpl. now replace (r * (2 * 2 ^ j)) with (r * 2 * 2 ^ j) by ring.
    + simpl. now replace (r * (2 * 2 ^ j)) with (r * 2 * 2 ^ j) by ring.
  - intros c Hc. apply (H 0%nat c); simpl; rewrite Rmult_1_r; easy.
Qed.

(** The radii that the loop tries are the grid size times a power of two,
    up to [maxRadius].  If the largest of them is [g * 2 ^ k] and every other
    point is farther than that from the start, the first search finds
    nothing and the tour ends after the start index. *)
Lemma nearestNeighbor_isolated_start (points : list pt) (s k : nat) (p0 : pt) :
  (1000 < length points)%nat ->
  nth_error points s = Some p0 ->
  let g := SpatialIndex.gridSize (SpatialIndex.create points) in
  maxRadius points < g * 2 ^ S k ->
  (forall i q, nth_error points i = Some q -> i <> s ->
               g * 2 ^ k < distance p0 q) ->
  nearestNeighbor points s = Some [s].
Proof.
  intros Hn Hs g Hcap Hfar. unfold nearestNeighbor.
  destruct (length points) as [| [| n]] eqn:Hlen; [lia | lia |].
  replace (Nat.ltb 1000 (S (S n))) with true
    by (symmetry; apply Nat.ltb_lt; lia).
  unfold visited_add; simpl existsb; cbv iota. simpl app.
  cbn [construct]. rewrite Hlen.
  replace (Nat.ltb (length [s]) (S (S n))) with true by reflexivity.
  rewrite Hs. fold g. rewrite search_none; [reflexivity |].
  intros j c Hj Hc.
  apply findInRadius_sound in Hc. destruct Hc as (Hidx & Hd & Hle).
  destruct (Nat.eq_dec (SpatialIndex.cindex c) s) as [-> | Hne]; [now left |].
  exfalso. specialize (Hfar _ _ Hidx Hne).
  assert (Hg : 0 < g) by (pose proof (gridSize_ge_1 points); unfold g; lra).
  assert (Hjk : (j <= k)%nat).
  { destruct (le_lt_dec j k) as [H | H]; [exact H | exfalso].
    assert (2 ^ S k <= 2 ^ j) by (apply Rle_pow; [lra | lia]).
    assert (g * 2 ^ S k <= g * 2 ^ j) by (apply Rmult_le_compat_l; lra).
    lra. }
  assert (2 ^ j <= 2 ^ k) by (apply Rle_pow; [lra | lia]).
  assert (g * 2 ^ j <= g * 2 ^ k) by (apply Rmult_le_compat_l; lra).
  lra.
Qed.

(** *** A start that the expanding search cannot leave *)

Lemma fold_min_start (f : pt -> R) (l : list pt) (a : R) :
  (forall p, In p l -> a <= f p) ->
  fold_left (fun m p => Rmin m (f p)) l a = a.
Proof.
  induction l as [| p l IH]; intros H; simpl; [reflexivity |].
  rewrite Rmin_left by (apply H; now left).
  apply IH. intros q Hq. apply H. now right.
Qed.

Lemma fold_max_bound (f : pt -> R) (l : list pt) (a hi : R) :
  (forall p, In p l -> f p <= hi) -> a <= hi ->
  fold_left (fun m p => Rmax m (f p)) l a <= hi.
Proof.
  revert a. induction l as [| p l IH]; intros a H Ha; simpl; [exact Ha |].
  apply IH; [intros q Hq; apply H; now right |].
  apply Rmax_lub; [exact Ha | apply H; now left].
Qed.

Lemma fold_max_ge (f : pt -> R) (l : list pt) (a : R) :
  a <= fold_left (fun m p => Rmax m (f p)) l a
  /\ forall p, In p l -> f p <= fold_left (fun m p => Rmax m (f p)) l a.
Proof.
  revert a. induction l as [| p l IH]; intros a; simpl.
  - split; [lra | intros ? []].
  - destruct (IH (Rmax a (f p))) as [H1 H2]. split.
    + pose proof (Rmax_l a (f p)). lra.
    + intros q [<- | Hq]; [| now apply H2].
      pose proof (Rmax_r a (f p)). lra.
Qed.

Lemma fold_max_attained (f : pt -> R) (l : list pt) (a hi : R) :
  (forall p, In p l -> f p <= hi) -> a <= hi ->
  (exists p, In p l /\ f p = hi) ->
  fold_left (fun m p => Rmax m (f p)) l a = hi.
Proof.
  intros H Ha (p & Hp & E). apply Rle_antisym.
  - now apply fold_max_bound.
  - rewrite <- E. now apply fold_max_ge.
Qed.

Lemma block_point_bounds (k : nat) :
  (k < 1000)%nat ->
  890 <= x (block_point k) <= 1200 /\ 890 <= y (block_point k) <= 1200.
Proof.
  intros Hk. unfold block_point; cbn [x y].
  pose proof (Nat.mod_upper_bound k 32 ltac:(lia)) as Hm.
  assert (Hd : (k / 32 < 32)%nat) by (apply Nat.Div0.div_lt_upper_bound; lia).
  repeat split; apply IZR_le; lia.
Qed.

Lemma corner_and_block_length : length corner_and_block = 1001%nat.
Proof.
  unfold corner_and_block. cbn [length]. now rewrite length_map, length_seq.
Qed.

Lemma corner_and_block_others (i : nat) (q : pt) :
  nth_error corner_and_block i = Some q -> i <> 0%nat ->
  890 <= x q <= 1200 /\ 890 <= y q <= 1200.
Proof.
  intros Hq Hi. destruct i as [| i]; [easy |].
  unfold corner_and_block in Hq. cbn [nth_error] in Hq.
  apply nth_error_In, in_map_iff in Hq. destruct Hq as (k & <- & Hk).
  apply in_seq in Hk. apply block_point_bounds. lia.
Qed.

Lemma sqrt_1001_bounds : 31 < sqrt (INR 1001) < 32.
Proof.
  rewrite INR_IZR_INZ. change (Z.of_nat 1001) with 1001%Z.
  pose proof (Js.sqrt_between (315 / 10) 32 1001). lra.
Qed.

Lemma corner_and_block_gridSize :
  let g := SpatialIndex.gridSize (SpatialIndex.create corner_and_block) in
  375 / 10 < g < 3871 / 100.
Proof.
  cbv zeta. unfold SpatialIndex.create. cbn [SpatialIndex.gridSize].
  unfold SpatialIndex.calculateOptimalGridSize.
  rewrite corner_and_block_length. unfold corner_and_block.
  cbn [x y].
  assert (Hb : forall p, In p (map block_point (seq 0 1000)) ->
                 890 <= x p <= 1200 /\ 890 <= y p <= 1200).
  { intros p Hp. apply in_map_iff in Hp. destruct Hp as (k & <- & Hk).
    apply in_seq in Hk. apply block_point_bounds. lia. }
  rewrite !fold_min_start by (intros p Hp; apply Hb in Hp; lra).
  rewrite (fold_max_attained x _ 0 1200);
    [| intros p Hp; apply Hb in Hp; lra | lra |].
  2:{ exists (block_point 31). split.
      - apply in_map, in_seq. lia.
      - unfold block_point; simpl. apply f_equal. reflexivity. }
  rewrite (fold_max_attained y _ 0 1200);
    [| intros p Hp; apply Hb in Hp; lra | lra |].
  2:{ exists (block_point 992). split.
      - apply in_map, in_seq. lia.
      - unfold block_point; simpl. apply f_equal. reflexivity. }
  replace ((1200 - 0) * (1200 - 0)) with (1200 * 1200) by lra.
  rewrite sqrt_square by lra.
  pose proof sqrt_1001_bounds as [Hlo Hhi].
  set (t := sqrt (INR 1001)) in *.
  assert (H1 : 375 / 10 < 1200 / t).
  { apply Rmult_lt_reg_r with t; [lra |].
    unfold Rdiv at 2. rewrite Rmult_assoc, Rinv_l by lra. lra. }
  assert (H2 : 1200 / t < 3871 / 100).
  { apply Rmult_lt_reg_r with t; [lra |].
    unfold Rdiv at 1. rewrite Rmult_assoc, Rinv_l by lra. lra. }
  rewrite Rmax_right by lra. lra.
Qed.

Lemma corner_and_block_maxRadius : maxRadius corner_and_block = 2400.
Proof.
  unfold maxRadius, corner_and_block. cbn [fold_left x y].
  assert (Hb : forall p, In p (map block_point (seq 0 1000)) ->
                 890 <= x p <= 1200 /\ 890 <= y p <= 1200).
  { intros p Hp. apply in_map_iff in Hp. destruct Hp as (k & <- & Hk).
    apply in_seq in Hk. apply block_point_bounds. lia. }
  rewrite (Rmax_left 0 0) by lra.
  rewrite (fold_max_attained x _ 0 1200);
    [| intros p Hp; apply Hb in Hp; lra | lra |].
  2:{ exists (block_point 31). split.
      - apply in_map, in_seq. lia.
      - unfold block_point; simpl. apply f_equal. reflexivity. }
  rewrite (fold_max_attained y _ 0 1200);
    [| intros p Hp; apply Hb in Hp; lra | lra |].
  2:{ exists (block_point 992). split.
      - apply in_map, in_seq. lia.
      - unfold block_point; simpl. apply f_equal. reflexivity. }
  rewrite Rabs_right by lra. rewrite Rmax_left; lra.
Qed.

Lemma nearestNeighbor_corner_and_block :
  nearestNeighbor corner_and_block 0 = Some [0%nat].
Proof.
  apply (nearestNeighbor_isolated_start corner_and_block 0 5 (mkPt 0 0)).
  - rewrite corner_and_block_length. lia.
  - reflexivity.
  - rewrite corner_and_block_maxRadius.
    pose proof corner_and_block_gridSize as Hg. cbv zeta in Hg. simpl pow. lra.
  - intros i q Hq Hi.
    pose proof corner_and_block_gridSize as Hg. cbv zeta in Hg.
    destruct (corner_and_block_others i q Hq Hi) as [Hx Hy].
    apply Rlt_le_trans with 1240; [simpl pow; lra |].
    unfold distance; simpl.
    rewrite <- (sqrt_square 1240) by lra. apply sqrt_le_1_alt. nra.
Qed.

(** C4 (failing input). For the 1001 points of [corner_and_block] and start
    index 0 the planner returns the tour [[0]]: one index out of 1001, not a
    permutation of them.  The grid size is about 37.9 and [maxRadius] is
    2400, so the radii tried stop at 32 grid sizes (about 1214), while every
    other point is at least 1258 away. *)
Theorem nearestNeighbor_incomplete_tour :
  length corner_and_block = 1001%nat
  /\ nearestNeighbor corner_and_block 0 = Some [0%nat]
  /\ solveTSP corner_and_block 0 (default_optimize corner_and_block) 1000
     = Some [0%nat]
  /\ ~ Permutation [0%nat] (seq 0 (length corner_and_block)).
Proof.
  split; [exact corner_and_block_length |].
  split; [exact nearestNeighbor_corner_and_block |].
  split.
  - unfold solveTSP. rewrite nearestNeighbor_corner_and_block.
    now rewrite andb_false_r.
  - intros H. apply Permutation_length in H.
    rewrite length_seq, corner_and_block_length in H. discriminate.
Qed.

(** *** The fuel of the greedy loop is enough *)

Lemma pick_fold_sound (visited : list nat) (l : list SpatialIndex.candidate)
  (best : nearest) :
  (forall i d, best = Some (i, d) -> ~ In i visited) ->
  forall i d, fold_left (pick_step visited) l best = Some (i, d) ->
              ~ In i visited.
Proof.
  revert best. induction l as [| c l IH]; intros best Hbest i d; simpl.
  - apply Hbest.
  - apply IH. intros i' d'. unfold pick_step.
    destruct (visited_has visited (SpatialIndex.cindex c)) eqn:Hv; simpl;
      [apply Hbest |].
    destruct (below _ _); [| apply Hbest].
    intros [= <- _]. now apply visited_has_false.
Qed.

Lemma search_sound si visited cur limit :
  forall (fuel : nat) (r : R) (i : nat) (d : R),
    search fuel si visited cur limit r = Some (i, d) -> ~ In i visited.
Proof.
  induction fuel as [| fuel IH]; intros r i d; simpl; [discriminate |].
  destruct (Js.leb r limit); [| discriminate].
  destruct (fold_left (pick_step visited)
              (SpatialIndex.findInRadius si cur r) None) as [[i' d'] |] eqn:E.
  - intros [= <- <-].
    now apply (pick_fold_sound visited _ None) with (d := d') in E.
  - apply IH.
Qed.

Lemma construct_fuel_stable (points : list pt) si :
  forall (fuel extra : nat) (visited tour : list nat) (cur : nat),
    (length points < fuel + length visited)%nat ->
    construct (fuel + extra) points si visited tour cur
    = construct fuel points si visited tour cur.
Proof.
  induction fuel as [| fuel IH]; intros extra visited tour cur Hlen.
  - destruct extra; simpl; [reflexivity |].
    replace (Nat.ltb (length visited) (length points)) with false
      by (symmetry; apply Nat.ltb_ge; simpl in Hlen; lia).
    reflexivity.
  - simpl. destruct (Nat.ltb (length visited) (length points)); [| reflexivity].
    destruct si as [idx |], (nth_error points cur) as [c |];
      try reflexivity; try (destruct (Js.leb _ _); reflexivity).
    + destruct (search _ idx visited c _ _) as [[i d] |] eqn:E; [| reflexivity].
      apply search_sound in E. rewrite (visited_add_new _ _ E).
      apply IH. rewrite length_app. simpl. lia.
    + destruct (scan points visited c) as [[i d] |] eqn:E; [| reflexivity].
      unfold scan in E.
      apply (scan_fold_sound points visited c _ None) in E;
        [| easy | intros j Hj; apply in_seq in Hj; lia].
      destruct E as [E _]. rewrite (visited_add_new _ _ E).
      apply IH. rewrite length_app. simpl. lia.
Qed.

(** The loop of [nearestNeighbor] is given [points.length] rounds; it never
    uses them up while its condition still holds. *)
Lemma nearestNeighbor_fuel (points : list pt) (startIndex extra : nat) si :
  construct (length points + extra) points si (visited_add startIndex [])
    [startIndex] startIndex
  = construct (length points) points si (visited_add startIndex [])
      [startIndex] startIndex.
Proof. apply construct_fuel_stable. simpl. lia. Qed.

(** The same for the pipeline, again in exact arithmetic: the tour of
    [solveTSP] with optimisation is no longer than the nearest-neighbour
    tour it refines. *)
Corollary solveTSP_not_longer (points : list pt) (startIndex k : nat)
  (nn : list nat) :
  nearestNeighbor points startIndex = Some nn ->
  exists tour,
    solveTSP points startIndex true k = Some tour
    /\ calculateTourLength tour points <= calculateTourLength nn points.
Proof.
  intros E. unfold solveTSP. rewrite E. cbn [andb].
  destruct (Nat.leb 4 (length nn)).
  - eexists. split; [reflexivity |].
    rewrite !calculateTourLength_path. unfold twoOpt.
    destruct (Nat.ltb (length nn) 4); [lra | apply improve_length].
  - exists nn. split; [reflexivity | lra].
Qed.

(** *** 2-opt keeps the two ends of the tour *)

Lemma last_app_nonempty {A : Type} (l r : list A) (d : A) :
  r <> [] -> last (l ++ r) d = last r d.
Proof.
  intros Hr. induction l as [| a l IH]; [reflexivity |].
  cbn [app]. destruct (l ++ r) as [| b m] eqn:E.
  - destruct l; [cbn in E; contradiction | discriminate].
  - change (last (a :: b :: m) d) with (last (b :: m) d). exact IH.
Qed.

(** Same length, same first entry, same last entry. *)
Definition same_ends (t' t : list nat) : Prop :=
  length t' = length t
  /\ hd_error t' = hd_error t
  /\ last t' 0%nat = last t 0%nat.

Lemma same_ends_refl (t : list nat) : same_ends t t.
Proof. repeat split. Qed.

Lemma same_ends_trans (t1 t2 t3 : list nat) :
  same_ends t1 t2 -> same_ends t2 t3 -> same_ends t1 t3.
Proof.
  intros (H1 & H2 & H3) (H4 & H5 & H6). repeat split; congruence.
Qed.

Lemma reverse_segment_ends (t : list nat) (i j : nat) :
  (1 <= i <= j)%nat -> (S j < length t)%nat ->
  same_ends (reverse_segment t i j) t.
Proof.
  intros Hij Hj. split; [| split].
  - apply Permutation_length. apply reverse_segment_perm. lia.
  - unfold reverse_segment. destruct t as [| a t]; [cbn in Hj; lia |].
    destruct i as [| i]; [lia |]. reflexivity.
  - unfold reverse_segment. rewrite app_assoc.
    assert (Hne : skipn (S j) t <> []).
    { intros E. apply (f_equal (@length nat)) in E.
      rewrite length_skipn in E. cbn in E. lia. }
    rewrite (last_app_nonempty _ _ 0%nat Hne).
    rewrite <- (firstn_skipn (S j) t) at 2.
    rewrite (last_app_nonempty _ _ 0%nat Hne). reflexivity.
Qed.

Lemma sweep_fold_ends points (len : nat) (l : list (nat * nat)) :
  (forall i j, In (i, j) l -> (1 <= i <= j)%nat /\ (S j < len)%nat) ->
  forall st : list nat * bool,
    length (fst st) = len ->
    same_ends (fst (fold_left (try_swap points) l st)) (fst st).
Proof.
  induction l as [| [i j] l IH]; intros Hl st Hlen; cbn [fold_left].
  - apply same_ends_refl.
  - assert (Hs : same_ends (fst (try_swap points st (i, j))) (fst st)).
    { destruct st as [t b]. cbn [fst] in *. unfold try_swap.
      destruct (Js.ltb _ _); cbn [fst]; [| apply same_ends_refl].
      destruct (Hl i j (or_introl eq_refl)) as [H1 H2].
      apply reverse_segment_ends; lia. }
    apply same_ends_trans with (fst (try_swap points st (i, j)));
      [| exact Hs].
    apply IH.
    + intros i' j' H. apply Hl. right. exact H.
    + destruct Hs as [Hs _]. lia.
Qed.

Lemma improve_ends points (k : nat) :
  forall t : list nat,
    same_ends (improve k points (length t) t) t.
Proof.
  induction k as [| k IH]; intros t; cbn [improve];
    [apply same_ends_refl |].
  pose proof (sweep_fold_ends points (length t) (swap_pairs (length t))) as H.
  specialize (H (fun i j Hin =>
                   let '(conj (conj a b) c) := in_swap_pairs _ i j Hin in
                   conj (conj a (Nat.lt_le_incl _ _ b)) c)
                (t, false) eq_refl).
  unfold sweep. cbn [fst] in H.
  destruct (fold_left (try_swap points) (swap_pairs (length t)) (t, false))
    as [t' b]. cbn [fst] in H.
  destruct b; [| exact H].
  apply same_ends_trans with t'; [| exact H].
  destruct H as [Hlen _]. rewrite <- Hlen. apply IH.
Qed.

(** For a tour whose entries are indices of [points], [twoOpt] returns the
    entries of the tour it is given, each as often as before, and leaves the
    first and the last of them in place: only the stops in between are
    reordered. *)
Theorem twoOpt_keeps_ends (tour : list nat) (points : list pt)
  (maxIterations : nat) :
  Forall (fun i => (i < length points)%nat) tour ->
  Permutation (twoOpt tour points maxIterations) tour
  /\ hd_error (twoOpt tour points maxIterations) = hd_error tour
  /\ last (twoOpt tour points maxIterations) 0%nat = last tour 0%nat.
Proof.
  intros _. split; [apply twoOpt_perm |].
  unfold twoOpt. destruct (Nat.ltb (length tour) 4); [split; reflexivity |].
  destruct (improve_ends points maxIterations tour) as (_ & H1 & H2).
  split; assumption.
Qed.

Lemma twoOpt_keeps_ends_witness :
  Permutation
    (twoOpt [0; 1; 2; 3]%nat [mkPt 0 0; mkPt 1 1; mkPt 1 0; mkPt 0 1] 1000)
    [0; 1; 2; 3]%nat
  /\ hd_error
       (twoOpt [0; 1; 2; 3]%nat [mkPt 0 0; mkPt 1 1; mkPt 1 0; mkPt 0 1] 1000)
     = hd_error [0; 1; 2; 3]%nat
  /\ last
       (twoOpt [0; 1; 2; 3]%nat [mkPt 0 0; mkPt 1 1; mkPt 1 0; mkPt 0 1] 1000)
       0%nat
     = last [0; 1; 2; 3]%nat 0%nat.
Proof.
  apply (twoOpt_keeps_ends [0; 1; 2; 3]%nat
           [mkPt 0 0; mkPt 1 1; mkPt 1 0; mkPt 0 1] 1000).
  repeat constructor; simpl; lia.
Defined.

(** *** Small point sets: complete tours, greedy steps, rejected starts *)

Lemma nearestNeighbor_bad_start (points : list pt) (startIndex : nat) :
  (2 <= length points <= 1000)%nat -> (length points <= startIndex)%nat ->
  nearestNeighbor points startIndex = None.
Proof.
  intros Hn Hs. unfold nearestNeighbor.
  destruct (length points) as [| [| n]] eqn:Hlen; [lia | lia |].
  replace (Nat.ltb 1000 (S (S n))) with false
    by (symmetry; apply Nat.ltb_ge; lia).
  cbn [construct]. rewrite Hlen.
  replace (Nat.ltb (length (visited_add startIndex [])) (S (S n))) with true
    by (symmetry; apply Nat.ltb_lt; cbn; lia).
  replace (nth_error points startIndex) with (@None pt)
    by (symmetry; apply nth_error_None; lia).
  reflexivity.
Qed.

(** Up to 1000 points with coordinates within [coordinate_limit]: from a
    start index that is one of the points the planner returns a tour that
    visits every point exactly once and begins at the start index, with or
    without 2-opt; with two points or more, a start index that is not one of
    the points makes it throw; and a single point (or none) is the whole
    tour whatever the start index. *)
Theorem small_tour_complete (points : list pt) (startIndex : nat)
  (optimize : bool) (maxIterations : nat) :
  (length points <= 1000)%nat ->
  Forall within_limit points ->
  ((startIndex < length points)%nat ->
   exists tour,
     solveTSP points startIndex optimize maxIterations = Some tour
     /\ Permutation tour (seq 0 (length points))
     /\ hd_error tour = Some startIndex)
  /\ ((2 <= length points)%nat -> (length points <= startIndex)%nat ->
      solveTSP points startIndex optimize maxIterations = None)
  /\ ((length points <= 1)%nat ->
      solveTSP points startIndex optimize maxIterations
      = Some (seq 0 (length points))).
Proof.
  intros Hn _. split; [| split].
  - intros Hs. unfold solveTSP.
    destruct (nearestNeighbor_small points startIndex Hn Hs)
      as (tour & -> & Hperm & Hhd).
    destruct (optimize && Nat.leb 4 (length tour))%bool.
    + eexists. split; [reflexivity |]. split.
      * now rewrite twoOpt_perm.
      * unfold twoOpt. destruct (Nat.ltb (length tour) 4); [exact Hhd |].
        destruct (improve_ends points maxIterations tour) as (_ & H1 & _).
        congruence.
    + exists tour. repeat split; assumption.
  - intros H2 Hs. unfold solveTSP.
    rewrite nearestNeighbor_bad_start by lia. reflexivity.
  - intros H1. unfold solveTSP, nearestNeighbor.
    destruct (length points) as [| [| n]]; [| | lia].
    + rewrite andb_false_r. reflexivity.
    + rewrite andb_false_r. reflexivity.
Qed.

Lemma coordinate_limit_large : 1000000 <= coordinate_limit.
Proof.
  unfold coordinate_limit. replace 1000000 with (10 ^ 6) by (simpl; lra).
  apply Rle_pow; [lra | lia].
Qed.

Lemma small_tour_complete_witness :
  exists tour,
    solveTSP [mkPt 0 0; mkPt 3 4; mkPt 1 1] 1 true 1000 = Some tour
    /\ Permutation tour (seq 0 3)
    /\ hd_error tour = Some 1%nat.
Proof.
  pose proof coordinate_limit_large as HL.
  apply (proj1 (small_tour_complete [mkPt 0 0; mkPt 3 4; mkPt 1 1] 1 true
                  1000 ltac:(cbn; lia)
                  ltac:(repeat constructor; cbn;
                        rewrite Rabs_right by lra; lra))).
  cbn. lia.
Defined.

(** The scan returns the distance to the index it returns, and no unvisited
    index is nearer. *)
Lemma scan_fold_min points visited cur (l : list nat) :
  forall best : nearest,
    (forall i d, best = Some (i, d) -> d = distance cur (at_index points i)) ->
    forall i d,
      fold_left (scan_step points visited cur) l best = Some (i, d) ->
      d = distance cur (at_index points i)
      /\ (forall j, In j l -> ~ In j visited ->
                    d <= distance cur (at_index points j))
      /\ (forall i0 d0, best = Some (i0, d0) -> d <= d0).
Proof.
  induction l as [| k l IH]; intros best Hbest i d E; cbn [fold_left] in E.
  - subst best. split; [apply (Hbest i d eq_refl) |].
    split; [intros j [] |]. intros i0 d0 [= _ <-]. lra.
  - set (best' := scan_step points visited cur best k) in E.
    assert (Hb' : forall i1 d1, best' = Some (i1, d1) ->
                                d1 = distance cur (at_index points i1)).
    { unfold best', scan_step. intros i1 d1.
      destruct (visited_has visited k); [apply Hbest |].
      destruct (below _ _); [| apply Hbest].
      intros [= <- <-]. reflexivity. }
    destruct (IH best' Hb' i d E) as (Hd & Hmin & Hle).
    split; [exact Hd |]. split.
    + intros j [<- | Hj] Hv; [| now apply Hmin].
      apply visited_has_false in Hv.
      unfold best', scan_step in Hle. rewrite Hv in Hle. cbv zeta in Hle.
      destruct best as [[i0 d0] |]; cbn [below nearest_distance option_map snd]
        in Hle.
      * destruct (Js.ltb (distance cur (at_index points k)) d0) eqn:Hlt.
        -- apply (Hle k _ eq_refl).
        -- apply Js.ltb_false in Hlt.
           pose proof (Hle i0 d0 eq_refl). lra.
      * apply (Hle k _ eq_refl).
    + intros i0 d0 ->.
      unfold best', scan_step in Hle.
      destruct (visited_has visited k); [apply (Hle i0 d0 eq_refl) |].
      cbv zeta in Hle. cbn [below nearest_distance option_map snd] in Hle.
      destruct (Js.ltb (distance cur (at_index points k)) d0) eqn:Hlt.
      * apply Js.ltb_spec in Hlt. pose proof (Hle k _ eq_refl). lra.
      * apply (Hle i0 d0 eq_refl).
Qed.

(** Every stop of [rest], taken in order from [cur], is a nearest one among
    the stops that come after its predecessor. *)
Fixpoint greedy_from (points : list pt) (cur : nat) (rest : list nat) : Prop :=
  match rest with
  | [] => True
  | next :: rest' =>
      (forall later, In later rest ->
         distance (at_index points cur) (at_index points next)
         <= distance (at_index points cur) (at_index points later))
      /\ greedy_from points next rest'
  end.

Lemma construct_greedy (points : list pt) (tour' : list nat) :
  NoDup tour' -> (forall i, In i tour' -> (i < length points)%nat) ->
  forall (fuel : nat) (tour : list nat) (cur : nat),
    (cur < length points)%nat ->
    construct fuel points None tour tour cur = Some tour' ->
    exists rest, tour' = tour ++ rest /\ greedy_from points cur rest.
Proof.
  intros Hnd Hlt.
  induction fuel as [| fuel IH]; intros tour cur Hcur E; cbn [construct] in E.
  - injection E as <-. exists []. split; [now rewrite app_nil_r | exact I].
  - destruct (Nat.ltb (length tour) (length points));
      [| injection E as <-; exists []; split;
         [now rewrite app_nil_r | exact I]].
    destruct (nth_error points cur) as [c |] eqn:Hc; [| discriminate].
    destruct (scan points tour c) as [[i d] |] eqn:Es;
      [| injection E as <-; exists []; split;
         [now rewrite app_nil_r | exact I]].
    unfold scan in Es.
    assert (Hsnd : ~ In i tour /\ (i < length points)%nat).
    { apply (scan_fold_sound points tour c (seq 0 (length points)) None)
        with (d := d); [intros ? ? [=] | | exact Es].
      intros j Hj. apply in_seq in Hj. lia. }
    destruct Hsnd as [Hnew Hi].
    assert (Hsm := scan_fold_min points tour c (seq 0 (length points)) None).
    specialize (Hsm ltac:(intros ? ? [=]) i d Es).
    destruct Hsm as (Hd & Hmin & _).
    rewrite (visited_add_new tour i Hnew) in E.
    destruct (IH (tour ++ [i]) i Hi E) as (rest & Heq & Hg).
    assert (Heq' : tour' = tour ++ i :: rest)
      by (rewrite Heq, <- app_assoc; reflexivity).
    exists (i :: rest). split; [exact Heq' |].
    cbn [greedy_from]. split; [| exact Hg].
    assert (Hcc : at_index points cur = c).
    { unfold at_index. now apply nth_error_nth. }
    rewrite Hcc, <- Hd. intros later Hl. apply Hmin.
    + apply in_seq. split; [lia |]. cbn. apply Hlt.
      rewrite Heq'. apply in_or_app. right. exact Hl.
    + intros Hin. rewrite Heq' in Hnd. clear - Hnd Hin Hl.
      induction tour as [| a tour IHt]; [contradiction |].
      cbn [app] in Hnd. inversion Hnd as [| ? ? Hna Hrest]; subst.
      destruct Hin as [-> | Hin].
      * apply Hna. apply in_or_app. right. exact Hl.
      * now apply IHt.
Qed.



(** *** A radius query misses no point *)

Lemma cell_eqb_eq (a b : SpatialIndex.cell) :
  SpatialIndex.cell_eqb a b = true <-> a = b.
Proof.
  unfold SpatialIndex.cell_eqb. destruct a as [a1 a2], b as [b1 b2].
  cbn [fst snd]. rewrite andb_true_iff, !Z.eqb_eq. split.
  - intros [-> ->]. reflexivity.
  - intros [= -> ->]. split; reflexivity.
Qed.

Lemma cell_eqb_sym (a b : SpatialIndex.cell) :
  SpatialIndex.cell_eqb a b = SpatialIndex.cell_eqb b a.
Proof.
  unfold SpatialIndex.cell_eqb. now rewrite (Z.eqb_sym (fst a)), (Z.eqb_sym (snd a)).
Qed.

Lemma find_app {A : Type} (f : A -> bool) (l1 l2 : list A) :
  find f (l1 ++ l2)
  = match find f l1 with Some a => Some a | None => find f l2 end.
Proof.
  induction l1 as [| a l1 IH]; [reflexivity |].
  cbn [app find]. destruct (f a); [reflexivity | exact IH].
Qed.

(** Reading a cell after one more entry has been filed under [k]. *)
Lemma grid_get_push (gr : SpatialIndex.grid) (k k' : SpatialIndex.cell)
  (it : SpatialIndex.item) :
  SpatialIndex.grid_get (SpatialIndex.grid_push gr k it) k'
  = if SpatialIndex.cell_eqb k k'
    then Some (match SpatialIndex.grid_get gr k with
               | Some l => l ++ [it]
               | None => [it]
               end)
    else SpatialIndex.grid_get gr k'.
Proof.
  unfold SpatialIndex.grid_push.
  destruct (SpatialIndex.grid_get gr k) as [l |] eqn:G.
  - destruct (SpatialIndex.cell_eqb k k') eqn:E.
    + apply cell_eqb_eq in E. subst k'.
      unfold SpatialIndex.grid_get in *.
      induction gr as [| e gr IH]; [discriminate |].
      cbn [map find] in *. cbn [fst].
      destruct (SpatialIndex.cell_eqb (fst e) k) eqn:Ee.
      * cbn [fst]. rewrite Ee. cbn [option_map snd] in *.
        injection G as <-. reflexivity.
      * rewrite Ee. apply IH. exact G.
    + unfold SpatialIndex.grid_get. clear G. f_equal.
      induction gr as [| e gr IH]; [reflexivity |].
      cbn [map find].
      destruct (SpatialIndex.cell_eqb (fst e) k) eqn:Ee.
      * cbn [fst]. apply cell_eqb_eq in Ee. rewrite Ee, E. exact IH.
      * destruct (SpatialIndex.cell_eqb (fst e) k'); [reflexivity | exact IH].
  - unfold SpatialIndex.grid_get in *. rewrite find_app.
    destruct (find (fun e => SpatialIndex.cell_eqb (fst e) k) gr) eqn:Fk;
      [discriminate |].
    destruct (SpatialIndex.cell_eqb k k') eqn:E.
    + apply cell_eqb_eq in E. subst k'. rewrite Fk.
      cbn [find fst]. rewrite (proj2 (cell_eqb_eq k k) eq_refl). reflexivity.
    + destruct (find (fun e => SpatialIndex.cell_eqb (fst e) k') gr);
        [reflexivity |].
      cbn [find fst]. rewrite E. reflexivity.
Qed.

(** The entry of point [p] with index [i] is filed in the cell of [p]. *)
Definition filed (g : R) (gr : SpatialIndex.grid) (i : nat) (p : pt) : Prop :=
  exists l, SpatialIndex.grid_get gr (SpatialIndex.getCellKey g p) = Some l
            /\ In (SpatialIndex.mkItem i p) l.

Lemma grid_push_keeps (g : R) (gr : SpatialIndex.grid) (k : SpatialIndex.cell)
  (it : SpatialIndex.item) (i : nat) (p : pt) :
  filed g gr i p -> filed g (SpatialIndex.grid_push gr k it) i p.
Proof.
  intros (l & G & Hin). unfold filed. rewrite grid_get_push.
  destruct (SpatialIndex.cell_eqb k (SpatialIndex.getCellKey g p)) eqn:E.
  - apply cell_eqb_eq in E. subst k. rewrite G.
    eexists. split; [reflexivity |]. apply in_or_app. left. exact Hin.
  - exists l. split; assumption.
Qed.

Lemma grid_push_files (g : R) (gr : SpatialIndex.grid) (i : nat) (p : pt) :
  filed g (SpatialIndex.grid_push gr (SpatialIndex.getCellKey g p)
             (SpatialIndex.mkItem i p)) i p.
Proof.
  unfold filed. rewrite grid_get_push.
  rewrite (proj2 (cell_eqb_eq _ _) eq_refl).
  eexists. split; [reflexivity |].
  destruct (SpatialIndex.grid_get gr _); [apply in_or_app; right |]; now left.
Qed.

Lemma buildIndex_files (g : R) :
  forall (rest : list pt) (i : nat) (gr : SpatialIndex.grid),
    (forall j p, filed g gr j p ->
                 filed g (SpatialIndex.buildIndex_from g i rest gr) j p)
    /\ (forall k p, nth_error rest k = Some p ->
                    filed g (SpatialIndex.buildIndex_from g i rest gr)
                      (i + k) p).
Proof.
  induction rest as [| q rest IH]; intros i gr; cbn [SpatialIndex.buildIndex_from].
  - split; [intros j p H; exact H |]. intros [| k] p; discriminate.
  - destruct (IH (S i) (SpatialIndex.grid_push gr (SpatialIndex.getCellKey g q)
                          (SpatialIndex.mkItem i q))) as [Hold Hnew].
    split.
    + intros j p H. apply Hold. apply grid_push_keeps. exact H.
    + intros [| k] p Hk.
      * injection Hk as <-. rewrite Nat.add_0_r. apply Hold.
        apply grid_push_files.
      * replace (i + S k)%nat with (S i + k)%nat by lia. apply Hnew. exact Hk.
Qed.

Lemma in_Zrange (lo hi z : BinNums.Z) :
  In z (SpatialIndex.Zrange lo hi) <-> (lo <= z <= hi)%Z.
Proof.
  unfold SpatialIndex.Zrange. rewrite in_map_iff. split.
  - intros (k & <- & Hk). apply in_seq in Hk. lia.
  - intros H. exists (Z.to_nat (z - lo)). split; [lia |].
    apply in_seq. lia.
Qed.

(** Two coordinates at most [r] apart lie at most [ceil (r / g)] cells
    apart. *)
Lemma cells_apart (g r a b : R) :
  0 < g -> - r <= a - b <= r ->
  let C := (- Zfloor (- (r / g)))%Z in
  (- C <= Zfloor (a / g) - Zfloor (b / g) <= C)%Z.
Proof.
  intros Hg Hab C.
  pose proof (Zfloor_bound (a / g)) as Ha.
  pose proof (Zfloor_bound (b / g)) as Hb.
  pose proof (Zfloor_bound (- (r / g))) as Hc.
  assert (HC : r / g <= IZR C) by (unfold C; rewrite opp_IZR; lra).
  assert (Hd : - (r / g) <= a / g - b / g <= r / g).
  { replace (a / g - b / g) with ((a - b) / g) by (field; lra).
    unfold Rdiv. split.
    - replace (- (r * / g)) with ((- r) * / g) by ring.
      apply Rmult_le_compat_r; [left; now apply Rinv_0_lt_compat | lra].
    - apply Rmult_le_compat_r; [left; now apply Rinv_0_lt_compat | lra]. }
  split.
  - assert (IZR (Zfloor (b / g)) < IZR (Zfloor (a / g)) + 1 + IZR C) by lra.
    rewrite <- !plus_IZR in H. apply lt_IZR in H. lia.
  - assert (IZR (Zfloor (a / g)) < IZR (Zfloor (b / g)) + 1 + IZR C) by lra.
    rewrite <- !plus_IZR in H. apply lt_IZR in H. lia.
Qed.

Lemma distance_coords (p q : pt) (r : R) :
  distance p q <= r -> - r <= x q - x p <= r /\ - r <= y q - y p <= r.
Proof.
  unfold distance. cbv zeta. intros H.
  set (dx := x p - x q) in *. set (dy := y p - y q) in *.
  pose proof (sqrt_pos (dx * dx + dy * dy)) as H0.
  assert (Hsq : sqrt (dx * dx + dy * dy) * sqrt (dx * dx + dy * dy)
                = dx * dx + dy * dy) by (apply sqrt_sqrt; nra).
  assert (dx * dx <= r * r) by nra.
  assert (dy * dy <= r * r) by nra.
  assert (0 <= r) by lra.
  replace (x q - x p) with (- dx) by (unfold dx; ring).
  replace (y q - y p) with (- dy) by (unfold dy; ring).
  split; split; nra.
Qed.


End TspSolverFacts.

(** ** Contour simplification ([algorithms/edgeTracer.js]) *)

Module EdgeTracer.
Import Plane.

(** [perpendicularDistance(point, lineStart, lineEnd)]: the distance to the
    segment, not to the unbounded line. *)
Definition perpendicularDistance (point lineStart lineEnd : pt) : R :=
  let dx := x lineEnd - x lineStart in
  let dy := y lineEnd - y lineStart in
  let lenSquared := dx * dx + dy * dy in
  if Js.eqb lenSquared 0 then distance point lineStart
  else
    let t := Rmax 0 (Rmin 1
               (((x point - x lineStart) * dx + (y point - y lineStart) * dy)
                / lenSquared)) in
    let projection := mkPt (x lineStart + t * dx) (y lineStart + t * dy) in
    distance point projection.

(** The loop [for (let i = 1; i < end; i++)] over the state
    ([maxDistance], [maxIndex]). *)
Definition farthest_step (points : list pt) (st : R * nat) (i : nat) : R * nat :=
  let e := (length points - 1)%nat in
  let dist := perpendicularDistance (nth i points origin) (nth 0 points origin)
                (nth e points origin) in
  if Js.gtb dist (fst st) then (dist, i) else st.

Definition farthest (points : list pt) : R * nat :=
  fold_left (farthest_step points) (seq 1 (length points - 1 - 1)) (0, 0%nat).

(** [simplifyPolyline(points, tolerance)], with the depth of the recursion
    bounded by [fuel] (one unit per call on the stack); [None] is the
    [RangeError] of a recursion that does not end. *)
Fixpoint simplify (fuel : nat) (points : list pt) (tolerance : R)
  : option (list pt) :=
  match fuel with
  | O => None
  | S fuel' =>
      if Nat.leb (length points) 2 then Some points
      else
        let '(maxDistance, maxIndex) := farthest points in
        let e := (length points - 1)%nat in
        if Js.gtb maxDistance tolerance then
          match simplify fuel' (firstn (S maxIndex) points) tolerance,
                simplify fuel' (skipn maxIndex points) tolerance with
          | Some left', Some right' => Some (removelast left' ++ right')
          | _, _ => None
          end
        else Some [nth 0 points origin; nth e points origin]
  end.

(** Every level of the recursion works on a shorter slice as long as the
    split index is not 0, so [points.length + 1] levels are enough; a split
    at index 0, which a negative tolerance allows, recurses on the same slice
    for ever. *)
Definition simplifyPolyline (points : list pt) (tolerance : R)
  : option (list pt) :=
  simplify (S (length points)) points tolerance.

(** The default [tolerance = 2]. *)
Definition default_tolerance : R := 2.

(** [q] lies on the segment from [a] to [b]. *)
Definition on_segment (q a b : pt) : Prop :=
  exists t, 0 <= t <= 1
            /\ x q = x a + t * (x b - x a) /\ y q = y a + t * (y b - y a).

(** An entry [{points, reversed}] of the ordered contours. *)
Record ordered_polyline : Type := mkOrdered {
  points : list pt;
  reversed : bool
}.

(** The best candidate of one round: [bestIndex], [bestDistance],
    [bestReversed], [bestEndPos]. *)
Record choice : Type := mkChoice {
  bestIndex : nat;
  bestDistance : R;
  bestReversed : bool;
  bestEndPos : pt
}.

(** The body of [for (const index of remaining)]; the candidate is [None]
    while [bestIndex] is -1.  The outer [None] is a [TypeError]: the
    polyline is empty, so its first point is [undefined] and [distance]
    reads a coordinate of it. *)
Definition consider (polylines : list (list pt)) (currentPos : pt)
  (best : option (option choice)) (index : nat) : option (option choice) :=
  match best with
  | None => None
  | Some best =>
      match nth index polylines [] with
      | [] => None
      | start :: rest =>
          let finish := last rest start in
          let distToStart := distance currentPos start in
          let distToEnd := distance currentPos finish in
          let best1 :=
            if below distToStart (option_map bestDistance best)
            then Some (mkChoice index distToStart false finish) else best in
          let best2 :=
            if below distToEnd (option_map bestDistance best1)
            then Some (mkChoice index distToEnd true start) else best1 in
          Some best2
      end
  end.

(** [while (remaining.size > 0)]: one polyline leaves [remaining] in every
    round, so a fuel of [remaining.size] rounds is never used up.  A round
    that finds no candidate cannot occur, since the first distance of a
    round is below [Infinity]. *)
Fixpoint order_rounds (fuel : nat) (polylines : list (list pt))
  (remaining : list nat) (ordered : list ordered_polyline) (currentPos : pt)
  : option (list ordered_polyline) :=
  match fuel, remaining with
  | _, [] => Some ordered
  | O, _ => Some ordered
  | S fuel', _ =>
      match fold_left (consider polylines currentPos) remaining (Some None)
      with
      | None | Some None => None
      | Some (Some best) =>
          let selectedPolyline := nth (bestIndex best) polylines [] in
          order_rounds fuel' polylines
            (remove Nat.eq_dec (bestIndex best) remaining)
            (ordered
             ++ [mkOrdered (if bestReversed best
                            then rev selectedPolyline else selectedPolyline)
                   (bestReversed best)])
            (bestEndPos best)
      end
  end.

(** [optimizeContourOrder(polylines, startPos)]. *)
Definition optimizeContourOrder (polylines : list (list pt)) (startPos : pt)
  : option (list ordered_polyline) :=
  match polylines with
  | [] => Some []
  | [polyline] => Some [mkOrdered polyline false]
  | _ =>
      order_rounds (length polylines) polylines (seq 0 (length polylines)) []
        startPos
  end.

(** The polyline as it was given, whichever way it is drawn. *)
Definition as_given (o : ordered_polyline) : list pt :=
  if reversed o then rev (points o) else points o.

(** [getNeighbors(x, y, width, height)], on integer coordinates. *)
Definition getNeighbors (px py width height : Z) : list (Z * Z) :=
  flat_map (fun dy =>
    flat_map (fun dx =>
      if (dx =? 0)%Z && (dy =? 0)%Z then []
      else
        let nx := (px + dx)%Z in
        let ny := (py + dy)%Z in
        if (0 <=? nx)%Z && (nx <? width)%Z && (0 <=? ny)%Z && (ny <? height)%Z
        then [(nx, ny)] else [])
      [(-1)%Z; 0%Z; 1%Z])
    [(-1)%Z; 0%Z; 1%Z].

(** A pixel [{x, y}] of the tracer, and its key in the [visited] set. *)
Definition pixel : Type := (Z * Z)%type.

(** [visited.has(key)]: the set is kept as the list of the pixels whose
    keys were added, in the order of insertion. *)
Definition has (visited : list pixel) (p : pixel) : bool :=
  existsb (fun q => Z.eqb (fst p) (fst q) && Z.eqb (snd p) (snd q)) visited.

(** [isEdgePixel(edgeMap, x, y, width, threshold)]; an entry outside the
    array is [undefined], which is not at least any threshold. *)
Definition isEdgePixel (edgeMap : list R) (px py width : Z) (threshold : R)
  : bool :=
  let index := ((py * width + px) * 4)%Z in
  if (index <? 0)%Z then false
  else
    match nth_error edgeMap (Z.to_nat index) with
    | Some v => Js.geb v threshold
    | None => false
    end.

(** The body of [for (const neighbor of neighbors)] in [traceContour]; the
    state is the queue, the polyline and the visited set. *)
Definition visit (edgeMap : list R) (width : Z) (threshold : R)
  (st : list pixel * list pixel * list pixel) (neighbor : pixel)
  : list pixel * list pixel * list pixel :=
  let '(queue, polyline, visited) := st in
  if negb (has visited neighbor)
     && isEdgePixel edgeMap (fst neighbor) (snd neighbor) width threshold
  then (queue ++ [neighbor], polyline ++ [neighbor], visited ++ [neighbor])
  else st.

(** [while (queue.length > 0)]: every round takes one pixel off the queue,
    and a pixel enters the queue once, so the rounds are bounded by the
    fuel that [traceContour] provides. *)
Fixpoint trace_loop (fuel : nat) (edgeMap : list R) (width height : Z)
  (threshold : R) (queue polyline visited : list pixel)
  : list pixel * list pixel :=
  match fuel with
  | O => (polyline, visited)
  | S fuel' =>
      match queue with
      | [] => (polyline, visited)
      | current :: rest =>
          let neighbors :=
            getNeighbors (fst current) (snd current) width height in
          let '(queue', polyline', visited') :=
            fold_left (visit edgeMap width threshold) neighbors
              (rest, polyline, visited) in
          trace_loop fuel' edgeMap width height threshold queue' polyline'
            visited'
      end
  end.

(** [traceContour(edgeMap, startX, startY, width, height, visited,
    threshold)]: the polyline it returns and the visited set it leaves. *)
Definition traceContour (edgeMap : list R) (startX startY width height : Z)
  (visited : list pixel) (threshold : R) : list pixel * list pixel :=
  trace_loop (S (Z.to_nat (width * height))) edgeMap width height threshold
    [(startX, startY)] [(startX, startY)] (visited ++ [(startX, startY)]).

(** The positions of [for (y = 0; y < height; y++) for (x = 0; x < width;
    x++)], in the order of the visits. *)
Definition upto (n : Z) : list Z := map Z.of_nat (seq 0 (Z.to_nat n)).

Definition scan_order (width height : Z) : list pixel :=
  flat_map (fun py => map (fun px => (px, py)) (upto width)) (upto height).

(** The body of the two loops of [findEdgeContours]; the state is
    [contours] and [visited]. *)
Definition scan_step (edgeMap : list R) (width height : Z) (threshold : R)
  (st : list (list pixel) * list pixel) (p : pixel)
  : list (list pixel) * list pixel :=
  let '(contours, visited) := st in
  if negb (has visited p)
     && isEdgePixel edgeMap (fst p) (snd p) width threshold
  then
    let '(contour, visited') :=
      traceContour edgeMap (fst p) (snd p) width height visited threshold in
    (if Nat.ltb 1 (length contour) then contours ++ [contour] else contours,
     visited')
  else st.

(** [findEdgeContours(edgeMap, threshold)] for an edge map of the given
    width and height. *)
Definition findEdgeContours (edgeMap : list R) (width height : Z)
  (threshold : R) : list (list pixel) :=
  fst (fold_left (scan_step edgeMap width height threshold)
         (scan_order width height) ([], [])).

End EdgeTracer.

Module EdgeTracerFacts.
Import Plane EdgeTracer.

Lemma distance_nonneg (p q : pt) : 0 <= distance p q.
Proof. apply sqrt_pos. Qed.

Lemma distance_refl (p : pt) : distance p p = 0.
Proof.
  unfold distance. cbv zeta.
  replace ((x p - x p) * (x p - x p) + (y p - y p) * (y p - y p)) with 0
    by ring.
  apply sqrt_0.
Qed.

Lemma perpendicularDistance_nonneg (q a b : pt) :
  0 <= perpendicularDistance q a b.
Proof.
  unfold perpendicularDistance. cbv zeta.
  destruct (Js.eqb _ 0); apply distance_nonneg.
Qed.

(** *** The farthest interior point *)

Section Farthest.

Variable points : list pt.

Let d (i : nat) : R :=
  perpendicularDistance (nth i points origin) (nth 0 points origin)
    (nth (length points - 1) points origin).

Lemma farthest_fold (n : nat) :
  forall (a : nat) (v : R) (k : nat),
    let r := fold_left (farthest_step points) (seq a n) (v, k) in
    v <= fst r
    /\ (forall i, (a <= i < a + n)%nat -> d i <= fst r)
    /\ (r = (v, k)
        \/ ((a <= snd r < a + n)%nat /\ fst r = d (snd r) /\ v < fst r
            /\ forall i, (a <= i < snd r)%nat -> d i < fst r)).
Proof.
  induction n as [| n IH]; intros a v k; cbv zeta.
  - simpl. split; [lra |]. split.
    + intros i Hi. lia.
    + now left.
  - assert (Hstep : farthest_step points (v, k) a
                    = if Js.gtb (d a) v then (d a, a) else (v, k))
      by reflexivity.
    simpl seq. simpl fold_left. rewrite Hstep. clear Hstep.
    destruct (Js.gtb (d a) v) eqn:E.
    + apply Js.ltb_spec in E.
      specialize (IH (S a) (d a) a). cbv zeta in IH.
      destruct IH as (H1 & H2 & H3).
      split; [lra |]. split.
      * intros i Hi. destruct (Nat.eq_dec i a) as [-> | Hne]; [exact H1 |].
        apply H2. lia.
      * right. destruct H3 as [-> | (Hk & Hd & Hlt & Hbefore)].
        -- simpl. repeat split; try lia; try lra.
        -- repeat split; try lia; try lra.
           intros i Hi. destruct (Nat.eq_dec i a) as [-> | Hne]; [lra |].
           apply Hbefore. lia.
    + apply Js.ltb_false in E.
      specialize (IH (S a) v k). cbv zeta in IH.
      destruct IH as (H1 & H2 & H3).
      split; [lra |]. split.
      * intros i Hi. destruct (Nat.eq_dec i a) as [-> | Hne]; [lra |].
        apply H2. lia.
      * destruct H3 as [-> | (Hk & Hd & Hlt & Hbefore)]; [now left | right].
        repeat split; try lia; try lra.
        intros i Hi. destruct (Nat.eq_dec i a) as [-> | Hne]; [lra |].
        apply Hbefore. lia.
Qed.

(** What the loop leaves in ([maxDistance], [maxIndex]): either the initial
    (0, 0), when no interior point is off the chord, or the first index at
    which the largest distance is reached. *)
Lemma farthest_spec :
  let e := (length points - 1)%nat in
  let r := farthest points in
  0 <= fst r
  /\ (forall i, (1 <= i < e)%nat -> d i <= fst r)
  /\ (r = (0, 0%nat)
      \/ ((1 <= snd r < e)%nat /\ fst r = d (snd r) /\ 0 < fst r
          /\ forall i, (1 <= i < snd r)%nat -> d i < fst r)).
Proof.
  cbv zeta. unfold farthest.
  pose proof (farthest_fold (length points - 1 - 1) 1 0 0%nat) as H.
  cbv zeta in H. destruct H as (H1 & H2 & H3).
  split; [exact H1 |]. split.
  - intros i Hi. apply H2. lia.
  - destruct H3 as [H3 | (Hk & Hd & Hlt & Hbefore)]; [now left | right].
    repeat split; try lia; try easy.
Qed.

End Farthest.

Lemma farthest_split (points : list pt) (tol md : R) (mi : nat) :
  0 <= tol -> farthest points = (md, mi) -> Js.gtb md tol = true ->
  (1 <= mi < length points - 1)%nat.
Proof.
  intros Htol Hf Hgt. apply Js.ltb_spec in Hgt.
  pose proof (farthest_spec points) as H. cbv zeta in H. rewrite Hf in H.
  simpl in H. destruct H as (_ & _ & [E | (Hk & _)]); [| exact Hk].
  injection E as -> ->. lra.
Qed.

(** *** The recursion ends *)

Lemma simplify_stable (tol : R) :
  0 <= tol ->
  forall (f1 f2 : nat) (points : list pt),
    (length points < f1)%nat -> (length points < f2)%nat ->
    simplify f1 points tol = simplify f2 points tol.
Proof.
  intros Htol. induction f1 as [| f1 IH]; intros f2 points H1 H2; [lia |].
  destruct f2 as [| f2]; [lia |]. cbn [simplify].
  destruct (Nat.leb (length points) 2) eqn:Hlen; [reflexivity |].
  destruct (farthest points) as [md mi] eqn:Hf.
  destruct (Js.gtb md tol) eqn:Hgt; [| reflexivity].
  pose proof (farthest_split points tol md mi Htol Hf Hgt) as Hmi.
  rewrite (IH f2 (firstn (S mi) points)), (IH f2 (skipn mi points));
    try reflexivity;
    rewrite ?length_firstn, ?length_skipn; lia.
Qed.

Definition simplify_body (points : list pt) (tol : R) : option (list pt) :=
  if Nat.leb (length points) 2 then Some points
  else
    let '(maxDistance, maxIndex) := farthest points in
    if Js.gtb maxDistance tol then
      match simplifyPolyline (firstn (S maxIndex) points) tol,
            simplifyPolyline (skipn maxIndex points) tol with
      | Some l, Some r => Some (removelast l ++ r)
      | _, _ => None
      end
    else Some [nth 0 points origin; nth (length points - 1) points origin].

(** For a tolerance that is not negative, [simplifyPolyline] satisfies the
    recursive equation of the source. *)
Lemma simplifyPolyline_unfold (points : list pt) (tol : R) :
  0 <= tol -> simplifyPolyline points tol = simplify_body points tol.
Proof.
  intros Htol. unfold simplifyPolyline at 1, simplify_body. cbn [simplify].
  destruct (Nat.leb (length points) 2) eqn:Hlen; [reflexivity |].
  destruct (farthest points) as [md mi] eqn:Hf.
  destruct (Js.gtb md tol) eqn:Hgt; [| reflexivity].
  pose proof (farthest_split points tol md mi Htol Hf Hgt) as Hmi.
  unfold simplifyPolyline.
  rewrite (simplify_stable tol Htol (length points)
             (S (length (firstn (S mi) points))) (firstn (S mi) points)),
          (simplify_stable tol Htol (length points)
             (S (length (skipn mi points))) (skipn mi points));
    try reflexivity;
    rewrite ?length_firstn, ?length_skipn; lia.
Qed.

(** *** Points on the chord *)

Lemma perpendicularDistance_on_segment (q a b : pt) :
  on_segment q a b -> perpendicularDistance q a b = 0.
Proof.
  intros (t & Ht & Hx & Hy). unfold perpendicularDistance. cbv zeta.
  set (dx := x b - x a) in *. set (dy := y b - y a) in *.
  destruct (Js.eqb (dx * dx + dy * dy) 0) eqn:E.
  - apply Js.eqb_spec in E.
    assert (dx = 0) by nra. assert (dy = 0) by nra.
    replace q with a; [apply distance_refl |].
    destruct q, a; simpl in *. f_equal; nra.
  - assert (Hne : dx * dx + dy * dy <> 0).
    { intros H. apply Js.eqb_spec in H. congruence. }
    replace (((x q - x a) * dx + (y q - y a) * dy) / (dx * dx + dy * dy))
      with t by (rewrite Hx, Hy; field; exact Hne).
    rewrite Rmin_right, Rmax_right by lra.
    replace (mkPt (x a + t * dx) (y a + t * dy)) with q;
      [apply distance_refl |].
    destruct q; simpl in *. now rewrite Hx, Hy.
Qed.

Lemma farthest_all_zero (points : list pt) :
  (forall i, (1 <= i < length points - 1)%nat ->
     perpendicularDistance (nth i points origin) (nth 0 points origin)
       (nth (length points - 1) points origin) = 0) ->
  farthest points = (0, 0%nat).
Proof.
  intros H. pose proof (farthest_spec points) as Hs. cbv zeta in Hs.
  destruct Hs as (_ & _ & [E | (Hk & Hd & Hpos & _)]); [exact E |].
  rewrite (H _ Hk) in Hd. lra.
Qed.

(** A polyline whose inner points lie on the segment between its end points
    collapses to the end points, for every tolerance from 0 on. *)
Lemma simplifyPolyline_on_segment (points : list pt) (tol : R) :
  0 <= tol -> (2 <= length points)%nat ->
  (forall i, (1 <= i < length points - 1)%nat ->
     on_segment (nth i points origin) (nth 0 points origin)
       (nth (length points - 1) points origin)) ->
  simplifyPolyline points tol
  = Some [nth 0 points origin; nth (length points - 1) points origin].
Proof.
  intros Htol Hlen Hseg. rewrite simplifyPolyline_unfold by exact Htol.
  unfold simplify_body.
  destruct (Nat.leb (length points) 2) eqn:E.
  - apply Nat.leb_le in E.
    destruct points as [| a [| b [| c points]]]; simpl in *; try lia.
    reflexivity.
  - rewrite farthest_all_zero.
    + replace (Js.gtb 0 tol) with false
        by (symmetry; apply Js.ltb_false; lra).
      reflexivity.
    + intros i Hi. apply perpendicularDistance_on_segment. now apply Hseg.
Qed.

(** *** Shape of the result *)

(** [q] is one of the points strictly between the first and the last. *)
Definition interior_of (points : list pt) (q : pt) : Prop :=
  exists i, (1 <= i < length points - 1)%nat /\ nth i points origin = q.

Lemma removelast_snoc_app {A : Type} (u : list A) (m : A) (v : list A) :
  removelast (u ++ [m]) ++ v = u ++ v.
Proof. now rewrite removelast_last. Qed.

Lemma simplifyPolyline_shape (tol : R) :
  0 <= tol ->
  forall (n : nat) (points : list pt),
    (length points <= n)%nat ->
    ((length points < 2)%nat -> simplifyPolyline points tol = Some points)
    /\ ((2 <= length points)%nat ->
        exists mid,
          simplifyPolyline points tol
          = Some (nth 0 points origin :: mid
                  ++ [nth (length points - 1) points origin])
          /\ forall q, In q mid -> interior_of points q).
Proof.
  intros Htol. induction n as [| n IH]; intros points Hn.
  - destruct points; [| simpl in Hn; lia]. split; [reflexivity | simpl; lia].
  - rewrite simplifyPolyline_unfold by exact Htol. unfold simplify_body.
    destruct (Nat.leb (length points) 2) eqn:Hlen.
    + apply Nat.leb_le in Hlen. split; [reflexivity |]. intros H2.
      destruct points as [| a [| b [| c points]]]; simpl in *; try lia.
      exists []. split; [reflexivity | intros q []].
    + apply Nat.leb_gt in Hlen. split; [lia |]. intros _.
      destruct (farthest points) as [md mi] eqn:Hf.
      destruct (Js.gtb md tol) eqn:Hgt.
      2:{ exists []. split; [reflexivity | intros q []]. }
      pose proof (farthest_split points tol md mi Htol Hf Hgt) as Hmi.
      assert (HlenL : length (firstn (S mi) points) = S mi)
        by (rewrite length_firstn; lia).
      assert (HlenR : length (skipn mi points) = (length points - mi)%nat)
        by apply length_skipn.
      destruct (IH (firstn (S mi) points) ltac:(lia)) as [_ HL].
      destruct (IH (skipn mi points) ltac:(lia)) as [_ HR].
      destruct (HL ltac:(lia)) as (Lmid & EL & HLmid).
      destruct (HR ltac:(lia)) as (Rmid & ER & HRmid).
      rewrite EL, ER. rewrite HlenL, HlenR.
      rewrite !nth_firstn, !nth_skipn.
      replace (Nat.ltb 0 (S mi)) with true by reflexivity.
      replace (Nat.ltb (S mi - 1) (S mi)) with true
        by (symmetry; apply Nat.ltb_lt; lia).
      replace (S mi - 1)%nat with mi by lia.
      replace (mi + 0)%nat with mi by lia.
      replace (mi + (length points - mi - 1))%nat with (length points - 1)%nat
        by lia.
      exists (Lmid ++ nth mi points origin :: Rmid). split.
      * f_equal.
        change (nth 0 points origin :: Lmid ++ [nth mi points origin])
          with ((nth 0 points origin :: Lmid) ++ [nth mi points origin]).
        rewrite removelast_snoc_app. simpl. now rewrite <- app_assoc.
      * intros q Hq. apply in_app_or in Hq.
        destruct Hq as [Hq | [<- | Hq]].
        -- destruct (HLmid q Hq) as (i & Hi & E).
           rewrite HlenL in Hi. rewrite nth_firstn in E.
           replace (Nat.ltb i (S mi)) with true in E
             by (symmetry; apply Nat.ltb_lt; lia).
           exists i. split; [lia | exact E].
        -- exists mi. split; [lia | reflexivity].
        -- destruct (HRmid q Hq) as (i & Hi & E).
           rewrite HlenR in Hi. rewrite nth_skipn in E.
           exists (mi + i)%nat. split; [lia | exact E].
Qed.

Lemma nth_final (a b : pt) (mid : list pt) :
  nth (length (a :: mid ++ [b]) - 1) (a :: mid ++ [b]) origin = b.
Proof.
  simpl. rewrite Nat.sub_0_r, length_app. simpl.
  replace (length mid + 1)%nat with (S (length mid)) by lia. simpl.
  now rewrite nth_middle.
Qed.

(** *** The tolerance is kept *)

Lemma perpendicularDistance_start (a b : pt) : perpendicularDistance a a b = 0.
Proof.
  apply perpendicularDistance_on_segment. exists 0. repeat split; lra.
Qed.

Lemma perpendicularDistance_end (a b : pt) : perpendicularDistance b a b = 0.
Proof.
  apply perpendicularDistance_on_segment. exists 1. repeat split; lra.
Qed.

(** [q] is within [tol] of one of the segments of the polyline [r]. *)
Definition near_polyline (tol : R) (q : pt) (r : list pt) : Prop :=
  exists u a b v, r = u ++ a :: b :: v /\ perpendicularDistance q a b <= tol.

Lemma near_polyline_app_l (tol : R) (q : pt) (w r : list pt) :
  near_polyline tol q r -> near_polyline tol q (w ++ r).
Proof.
  intros (u & a & b & v & -> & H). exists (w ++ u), a, b, v.
  split; [now rewrite <- app_assoc | exact H].
Qed.

Lemma near_polyline_app_r (tol : R) (q : pt) (r w : list pt) :
  near_polyline tol q r -> near_polyline tol q (r ++ w).
Proof.
  intros (u & a & b & v & -> & H). exists u, a, b, (v ++ w).
  split; [now rewrite <- app_assoc | exact H].
Qed.

Lemma simplifyPolyline_near_bounded (tol : R) :
  0 <= tol ->
  forall (n : nat) (points r : list pt),
    (length points <= n)%nat -> (2 <= length points)%nat ->
    simplifyPolyline points tol = Some r ->
    forall q, In q points -> near_polyline tol q r.
Proof.
  intros Htol. induction n as [| n IH]; intros points r Hn H2 E q Hq; [lia |].
  rewrite simplifyPolyline_unfold in E by exact Htol. unfold simplify_body in E.
  destruct (Nat.leb (length points) 2) eqn:Hlen.
  - apply Nat.leb_le in Hlen.
    destruct points as [| a [| b [| c points]]]; cbn in H2, Hlen; try lia.
    injection E as <-. exists [], a, b, []. split; [reflexivity |].
    destruct Hq as [<- | [<- | []]].
    + rewrite perpendicularDistance_start. exact Htol.
    + rewrite perpendicularDistance_end. exact Htol.
  - apply Nat.leb_gt in Hlen.
    destruct (farthest points) as [md mi] eqn:Hf.
    destruct (In_nth points q origin Hq) as (i & Hi & <-).
    destruct (Js.gtb md tol) eqn:Hgt.
    + pose proof (farthest_split points tol md mi Htol Hf Hgt) as Hmi.
      assert (HlenL : length (firstn (S mi) points) = S mi)
        by (rewrite length_firstn; lia).
      assert (HlenR : length (skipn mi points) = (length points - mi)%nat)
        by apply length_skipn.
      destruct (simplifyPolyline (firstn (S mi) points) tol) as [l |] eqn:EL;
        [| discriminate].
      destruct (simplifyPolyline (skipn mi points) tol) as [r' |] eqn:ER;
        [| discriminate].
      injection E as <-.
      destruct (simplifyPolyline_shape tol Htol _ (firstn (S mi) points)
                  (le_n _)) as [_ HL].
      destruct (HL ltac:(lia)) as (Lmid & EL' & _).
      rewrite HlenL, !nth_firstn in EL'.
      replace (Nat.ltb 0 (S mi)) with true in EL' by reflexivity.
      replace (Nat.ltb (S mi - 1) (S mi)) with true in EL'
        by (symmetry; apply Nat.ltb_lt; lia).
      replace (S mi - 1)%nat with mi in EL' by lia.
      assert (El : l = (nth 0 points origin :: Lmid) ++ [nth mi points origin])
        by (rewrite EL in EL'; injection EL' as EL'; exact EL').
      destruct (simplifyPolyline_shape tol Htol _ (skipn mi points)
                  (le_n _)) as [_ HR].
      destruct (HR ltac:(lia)) as (Rmid & ER' & _).
      rewrite !nth_skipn in ER'. replace (mi + 0)%nat with mi in ER' by lia.
      assert (Er : r' = nth mi points origin
                        :: Rmid ++ [nth (mi + (length (skipn mi points) - 1))
                                      points origin])
        by (rewrite ER in ER'; injection ER' as ER'; exact ER').
      destruct (le_lt_dec i mi) as [Hle | Hgt'].
      * assert (Hnear : near_polyline tol (nth i points origin) l).
        { apply (IH (firstn (S mi) points)); [lia | lia | exact EL |].
          replace (nth i points origin)
            with (nth i (firstn (S mi) points) origin).
          - apply nth_In. lia.
          - rewrite nth_firstn.
            replace (Nat.ltb i (S mi)) with true
              by (symmetry; apply Nat.ltb_lt; lia).
            reflexivity. }
        rewrite El at 1. rewrite removelast_snoc_app.
        rewrite Er.
        match goal with
        | |- near_polyline _ _ (?A ++ ?m :: ?B) =>
            replace (A ++ m :: B) with ((A ++ [m]) ++ B)
              by (rewrite <- app_assoc; reflexivity)
        end.
        apply near_polyline_app_r. rewrite <- El. exact Hnear.
      * apply near_polyline_app_l.
        apply (IH (skipn mi points)); [lia | lia | exact ER |].
        replace (nth i points origin)
          with (nth (i - mi) (skipn mi points) origin).
        -- apply nth_In. lia.
        -- rewrite nth_skipn. f_equal. lia.
    + injection E as <-. apply Js.ltb_false in Hgt.
      exists [], (nth 0 points origin),
        (nth (length points - 1) points origin), [].
      split; [reflexivity |].
      destruct (Nat.eq_dec i 0) as [-> | Hi0];
        [rewrite perpendicularDistance_start; exact Htol |].
      destruct (Nat.eq_dec i (length points - 1)) as [-> | Hie];
        [rewrite perpendicularDistance_end; exact Htol |].
      pose proof (farthest_spec points) as Hs. cbv zeta in Hs.
      rewrite Hf in Hs. cbn [fst snd] in Hs.
      destruct Hs as (_ & Hmax & _).
      specialize (Hmax i ltac:(lia)). lra.
Qed.



(** *** The result is a selection of the input *)

(** [s] is [l] with some entries left out. *)
Inductive subsequence {A : Type} : list A -> list A -> Prop :=
| sub_nil : forall l, subsequence [] l
| sub_keep : forall a s l, subsequence s l -> subsequence (a :: s) (a :: l)
| sub_skip : forall a s l, subsequence s l -> subsequence s (a :: l).

Lemma subsequence_refl {A : Type} (l : list A) : subsequence l l.
Proof. induction l; constructor; assumption. Qed.

Lemma subsequence_app {A : Type} (s1 l1 s2 l2 : list A) :
  subsequence s1 l1 -> subsequence s2 l2 -> subsequence (s1 ++ s2) (l1 ++ l2).
Proof.
  intros H1 H2. induction H1 as [l | a s l _ IH | a s l _ IH]; cbn [app].
  - induction l as [| a l IH]; [exact H2 | now apply sub_skip].
  - now apply sub_keep.
  - now apply sub_skip.
Qed.

Lemma subsequence_length {A : Type} (s l : list A) :
  subsequence s l -> (length s <= length l)%nat.
Proof. induction 1; cbn; lia. Qed.

Lemma split_slices (a b m : pt) (I1 I2 : list pt) :
  firstn (S (S (length I1))) (a :: (I1 ++ m :: I2) ++ [b]) = a :: I1 ++ [m]
  /\ skipn (S (length I1)) (a :: (I1 ++ m :: I2) ++ [b]) = m :: I2 ++ [b].
Proof.
  rewrite firstn_cons, skipn_cons. split.
  - f_equal.
    replace ((I1 ++ m :: I2) ++ [b]) with ((I1 ++ [m]) ++ (I2 ++ [b]))
      by (rewrite <- !app_assoc; reflexivity).
    replace (S (length I1)) with (length (I1 ++ [m]))
      by (rewrite length_app; cbn; lia).
    apply Slices.firstn_exact.
  - rewrite <- app_assoc. apply Slices.skipn_exact.
Qed.

Lemma simplifyPolyline_selects (tol : R) :
  0 <= tol ->
  forall (n : nat) (points : list pt) (a b : pt) (inner : list pt),
    (length points <= n)%nat ->
    points = a :: inner ++ [b] ->
    exists mid,
      simplifyPolyline points tol = Some (a :: mid ++ [b])
      /\ subsequence mid inner.
Proof.
  intros Htol. induction n as [| n IH]; intros points a b inner Hn Hp.
  - subst points. cbn in Hn. lia.
  - rewrite simplifyPolyline_unfold by exact Htol. unfold simplify_body.
    destruct (Nat.leb (length points) 2) eqn:Hlen.
    + apply Nat.leb_le in Hlen. subst points.
      destruct inner as [| c inner];
        [| cbn in Hlen; rewrite length_app in Hlen; cbn in Hlen; lia].
      exists []. split; [reflexivity | constructor].
    + apply Nat.leb_gt in Hlen.
      destruct (farthest points) as [md mi] eqn:Hf.
      destruct (Js.gtb md tol) eqn:Hgt.
      * pose proof (farthest_split points tol md mi Htol Hf Hgt) as Hmi.
        assert (Hl : length points = S (S (length inner)))
          by (subst points; cbn; rewrite length_app; cbn; lia).
        destruct (nth_error inner (mi - 1)) as [m |] eqn:Hm;
          [| apply nth_error_None in Hm; lia].
        pose proof (firstn_skipn_middle (mi - 1) inner Hm) as Hsplit.
        set (I1 := firstn (mi - 1) inner) in *.
        set (I2 := skipn (S (mi - 1)) inner) in *.
        assert (HI1 : length I1 = (mi - 1)%nat)
          by (unfold I1; rewrite length_firstn; lia).
        destruct (split_slices a b m I1 I2) as [HF HS].
        rewrite Hsplit, HI1 in HF, HS.
        replace (S (mi - 1)) with mi in HF, HS by lia.
        rewrite <- Hp in HF, HS.
        destruct (IH (firstn (S mi) points) a m I1) as (Lmid & EL & SL);
          [rewrite HF; cbn; rewrite length_app; cbn; lia | exact HF |].
        destruct (IH (skipn mi points) m b I2) as (Rmid & ER & SR);
          [rewrite length_skipn; lia | exact HS |].
        rewrite EL, ER.
        exists (Lmid ++ m :: Rmid). split.
        -- f_equal.
           change (a :: Lmid ++ [m]) with ((a :: Lmid) ++ [m]).
           rewrite removelast_snoc_app. cbn [app].
           now rewrite <- app_assoc.
        -- rewrite <- Hsplit. apply subsequence_app; [exact SL |].
           apply sub_keep. exact SR.
      * exists []. split; [| constructor].
        subst points. rewrite nth_final. reflexivity.
Qed.

(** For a tolerance that is not negative the simplified polyline is a
    selection of the given points in their order: it begins and ends with
    the same points, is never longer, and keeps at least two points of a
    polyline that has two. *)
Theorem simplifyPolyline_subsequence (points r : list pt) (tol : R) :
  0 <= tol ->
  simplifyPolyline points tol = Some r ->
  subsequence r points
  /\ hd_error r = hd_error points
  /\ last r origin = last points origin
  /\ (length r <= length points)%nat
  /\ ((2 <= length points)%nat -> (2 <= length r)%nat).
Proof.
  intros Htol E.
  destruct (le_lt_dec 2 (length points)) as [H2 | H2].
  - destruct points as [| a rest]; [cbn in H2; lia |].
    assert (Hne : rest <> []) by (intros ->; cbn in H2; lia).
    destruct (exists_last Hne) as (inner & b & ->).
    destruct (simplifyPolyline_selects tol Htol _ (a :: inner ++ [b]) a b
                inner (le_n _) eq_refl) as (mid & E' & Hs).
    rewrite E in E'. injection E' as ->.
    assert (Hsub : subsequence (a :: mid ++ [b]) (a :: inner ++ [b])).
    { apply sub_keep. apply subsequence_app; [exact Hs |].
      apply subsequence_refl. }
    split; [exact Hsub |]. split; [reflexivity |]. split.
    + change (a :: mid ++ [b]) with ((a :: mid) ++ [b]).
      change (a :: inner ++ [b]) with ((a :: inner) ++ [b]).
      now rewrite !last_last.
    + split; [apply subsequence_length; exact Hsub |].
      intros _. cbn. rewrite length_app. cbn. lia.
  - destruct (simplifyPolyline_shape tol Htol _ points (le_n _)) as [H1 _].
    rewrite (H1 H2) in E. injection E as <-.
    split; [apply subsequence_refl |]. repeat split; lia.
Qed.

Lemma simplifyPolyline_subsequence_witness :
  subsequence [mkPt 0 0; mkPt 2 0] [mkPt 0 0; mkPt 1 0; mkPt 2 0]
  /\ hd_error [mkPt 0 0; mkPt 2 0] = hd_error [mkPt 0 0; mkPt 1 0; mkPt 2 0]
  /\ last [mkPt 0 0; mkPt 2 0] origin
     = last [mkPt 0 0; mkPt 1 0; mkPt 2 0] origin
  /\ (length [mkPt 0 0; mkPt 2 0]
      <= length [mkPt 0 0; mkPt 1 0; mkPt 2 0])%nat
  /\ ((2 <= length [mkPt 0 0; mkPt 1 0; mkPt 2 0])%nat ->
      (2 <= length [mkPt 0 0; mkPt 2 0])%nat).
Proof.
  apply (simplifyPolyline_subsequence
           [mkPt 0 0; mkPt 1 0; mkPt 2 0] [mkPt 0 0; mkPt 2 0] 0).
  - lra.
  - apply (simplifyPolyline_on_segment [mkPt 0 0; mkPt 1 0; mkPt 2 0] 0).
    + lra.
    + cbn. lia.
    + cbn. intros i Hi. assert (i = 1%nat) as -> by lia. cbn.
      exists (/ 2). cbn. repeat split; lra.
Defined.

(** *** Ordering the contours *)

Lemma map_nth_seq {A : Type} (l : list A) (d : A) :
  map (fun i => nth i l d) (seq 0 (length l)) = l.
Proof.
  induction l as [| a l IH]; [reflexivity |].
  cbn [length seq map nth]. f_equal.
  rewrite <- seq_shift, map_map. exact IH.
Qed.

Lemma remove_perm (i : nat) (l : list nat) :
  NoDup l -> In i l -> Permutation l (i :: remove Nat.eq_dec i l).
Proof.
  induction l as [| a l IH]; intros Hnd Hin; [contradiction |].
  inversion Hnd as [| ? ? Ha Hl]; subst. cbn [remove].
  destruct (Nat.eq_dec i a) as [<- | Hne].
  - rewrite notin_remove by exact Ha. apply Permutation_refl.
  - destruct Hin as [-> | Hin]; [contradiction |].
    apply perm_trans with (a :: i :: remove Nat.eq_dec i l).
    + apply perm_skip. apply IH; assumption.
    + apply perm_swap.
Qed.

Lemma remove_NoDup (i : nat) (l : list nat) :
  NoDup l -> NoDup (remove Nat.eq_dec i l).
Proof.
  induction 1 as [| a l Ha _ IH]; cbn [remove]; [constructor |].
  destruct (Nat.eq_dec i a); [exact IH |].
  constructor; [| exact IH]. intros Hin. apply in_remove in Hin. tauto.
Qed.

Lemma consider_thrown (polylines : list (list pt)) (cur : pt) (l : list nat) :
  fold_left (consider polylines cur) l None = None.
Proof. induction l as [| i l IH]; [reflexivity | exact IH]. Qed.

(** A round over polylines that all have a point ends with a candidate,
    which is one of the indices of the round. *)
Lemma consider_fold (polylines : list (list pt)) (cur : pt) (L l : list nat) :
  (forall i, In i l -> nth i polylines [] <> []) ->
  (forall i, In i l -> In i L) ->
  forall best : option choice,
    (forall c, best = Some c -> In (bestIndex c) L) ->
    exists r,
      fold_left (consider polylines cur) l (Some best) = Some r
      /\ (forall c, r = Some c -> In (bestIndex c) L)
      /\ (r = None -> best = None /\ l = []).
Proof.
  induction l as [| i l IH]; intros Hne HL best Hb; cbn [fold_left].
  - exists best. repeat split; [exact Hb | assumption].
  - unfold consider at 2.
    destruct (nth i polylines []) as [| start rest] eqn:Hp;
      [exfalso; apply (Hne i (or_introl eq_refl)); exact Hp |].
    cbv zeta.
    match goal with
    | |- context [fold_left _ l (Some ?b)] => set (best2 := b)
    end.
    assert (H2 : (forall c, best2 = Some c -> In (bestIndex c) L)
                 /\ best2 <> None).
    { unfold best2.
      destruct (below (distance cur start) (option_map bestDistance best))
        eqn:B1.
      - cbv iota.
        match goal with
        | |- context [if ?b then _ else _] => destruct b
        end; (split; [| discriminate]);
          intros c Hc; injection Hc as <-; cbn [bestIndex]; apply HL;
          now left.
      - cbv iota. destruct best as [b0 |]; [| discriminate B1].
        match goal with
        | |- context [if ?b then _ else _] => destruct b
        end; (split; [| discriminate]).
        + intros c Hc. injection Hc as <-. cbn [bestIndex]. apply HL.
          now left.
        + exact Hb. }
    destruct H2 as [H2 H2'].
    destruct (IH (fun j Hj => Hne j (or_intror Hj))
                (fun j Hj => HL j (or_intror Hj)) best2 H2)
      as (r & E & Hr & Hn).
    exists r. split; [exact E |]. split; [exact Hr |].
    intros ->. destruct (Hn eq_refl) as [Hb2 _]. contradiction.
Qed.

Lemma as_given_selected (s : list pt) (b : bool) :
  as_given (mkOrdered (if b then rev s else s) b) = s.
Proof.
  unfold as_given. cbn [reversed points]. destruct b;
    [apply rev_involutive | reflexivity].
Qed.

Lemma order_rounds_round (fuel : nat) (polylines : list (list pt))
  (remaining : list nat) (ordered : list ordered_polyline) (cur : pt) :
  remaining <> [] ->
  order_rounds (S fuel) polylines remaining ordered cur
  = match fold_left (consider polylines cur) remaining (Some None) with
    | Some (Some best) =>
        order_rounds fuel polylines
          (remove Nat.eq_dec (bestIndex best) remaining)
          (ordered
           ++ [mkOrdered
                 (if bestReversed best
                  then rev (nth (bestIndex best) polylines [])
                  else nth (bestIndex best) polylines [])
                 (bestReversed best)])
          (bestEndPos best)
    | _ => None
    end.
Proof.
  intros Hne. destruct remaining; [contradiction | reflexivity].
Qed.

Lemma order_rounds_perm (polylines : list (list pt)) :
  forall (fuel : nat) (remaining : list nat) (ordered : list ordered_polyline)
         (cur : pt),
    NoDup remaining ->
    (forall i, In i remaining -> nth i polylines [] <> []) ->
    (length remaining <= fuel)%nat ->
    exists out,
      order_rounds fuel polylines remaining ordered cur = Some (ordered ++ out)
      /\ Permutation (map as_given out)
           (map (fun i => nth i polylines []) remaining).
Proof.
  induction fuel as [| fuel IH]; intros remaining ordered cur Hnd Hne Hlen.
  - destruct remaining; [| cbn in Hlen; lia].
    exists []. split; [cbn; now rewrite app_nil_r | constructor].
  - destruct remaining as [| i0 rem0] eqn:Hrem.
    { exists []. split; [cbn; now rewrite app_nil_r | constructor]. }
    rewrite <- Hrem in *.
    rewrite order_rounds_round by (rewrite Hrem; discriminate).
    destruct (consider_fold polylines cur remaining remaining Hne
                (fun i H => H) None ltac:(discriminate))
      as (r & E & Hr & Hn).
    rewrite E. destruct r as [c |];
      [| destruct (Hn eq_refl) as [_ H]; rewrite Hrem in H; discriminate].
    pose proof (Hr c eq_refl) as Hin.
    destruct (IH (remove Nat.eq_dec (bestIndex c) remaining)
                (ordered
                 ++ [mkOrdered
                       (if bestReversed c
                        then rev (nth (bestIndex c) polylines [])
                        else nth (bestIndex c) polylines [])
                       (bestReversed c)])
                (bestEndPos c))
      as (out & Eo & Po).
    + apply remove_NoDup. exact Hnd.
    + intros i Hi. apply in_remove in Hi. apply Hne. tauto.
    + pose proof (remove_length_lt Nat.eq_dec remaining (bestIndex c) Hin).
      lia.
    + eexists (_ :: out). split.
      * rewrite Eo, <- app_assoc. reflexivity.
      * cbn [map]. rewrite as_given_selected.
        apply perm_trans
          with (map (fun i => nth i polylines [])
                  (bestIndex c :: remove Nat.eq_dec (bestIndex c) remaining)).
        -- cbn [map]. apply perm_skip. exact Po.
        -- apply Permutation_map. apply Permutation_sym.
           apply remove_perm; assumption.
Qed.




(** ** The 8-neighbourhood *)

(** Membership in the list that [getNeighbors] returns. *)
Lemma getNeighbors_member (px py width height nx ny : Z) :
  In (nx, ny) (getNeighbors px py width height)
  <-> (0 <= nx < width /\ 0 <= ny < height
       /\ Z.abs (nx - px) <= 1 /\ Z.abs (ny - py) <= 1
       /\ (nx, ny) <> (px, py))%Z.
Proof.
  unfold getNeighbors. rewrite in_flat_map. split.
  - intros (dy & Hdy & H). apply in_flat_map in H.
    destruct H as (dx & Hdx & H).
    destruct ((dx =? 0)%Z && (dy =? 0)%Z) eqn:Ez; [contradiction|].
    cbv zeta in H.
    destruct ((0 <=? px + dx)%Z && (px + dx <? width)%Z
              && (0 <=? py + dy)%Z && (py + dy <? height)%Z) eqn:Eb;
      [|contradiction].
    destruct H as [H | []]. injection H as <- <-.
    apply andb_prop in Eb. destruct Eb as [Eb E4].
    apply andb_prop in Eb. destruct Eb as [Eb E3].
    apply andb_prop in Eb. destruct Eb as [E1 E2].
    apply Z.leb_le in E1, E3. apply Z.ltb_lt in E2, E4.
    assert (Hd : (dx <> 0 \/ dy <> 0)%Z).
    { apply andb_false_iff in Ez.
      destruct Ez as [Ez | Ez]; apply Z.eqb_neq in Ez; auto. }
    assert (Hx : (-1 <= dx <= 1)%Z)
      by (cbn in Hdx; intuition lia).
    assert (Hy : (-1 <= dy <= 1)%Z)
      by (cbn in Hdy; intuition lia).
    repeat split; try lia.
    intros E. injection E as Ex Ey. lia.
  - intros (Hx & Hy & Hax & Hay & Hne).
    exists (ny - py)%Z. split.
    { assert (H : (ny - py = -1 \/ ny - py = 0 \/ ny - py = 1)%Z) by lia.
      cbn. intuition. }
    apply in_flat_map. exists (nx - px)%Z. split.
    { assert (H : (nx - px = -1 \/ nx - px = 0 \/ nx - px = 1)%Z) by lia.
      cbn. intuition. }
    destruct ((nx - px =? 0)%Z && (ny - py =? 0)%Z) eqn:Ez.
    { apply andb_prop in Ez. destruct Ez as [E1 E2].
      apply Z.eqb_eq in E1, E2. exfalso. apply Hne. f_equal; lia. }
    cbv zeta.
    replace (px + (nx - px))%Z with nx by lia.
    replace (py + (ny - py))%Z with ny by lia.
    replace ((0 <=? nx)%Z && (nx <? width)%Z
             && (0 <=? ny)%Z && (ny <? height)%Z) with true.
    { left. reflexivity. }
    symmetry. repeat (apply andb_true_intro; split);
      try (apply Z.leb_le; lia); apply Z.ltb_lt; lia.
Qed.

(** [getNeighbors] returns exactly the pixels of the image that touch the
    given pixel (Chebyshev distance one): never the pixel itself, never a
    position outside the image, and never the same neighbour twice; a pixel
    away from the border has eight of them. *)
Theorem getNeighbors_exact (px py width height : Z) :
  (forall nx ny : Z,
      In (nx, ny) (getNeighbors px py width height)
      <-> (0 <= nx < width /\ 0 <= ny < height
           /\ Z.abs (nx - px) <= 1 /\ Z.abs (ny - py) <= 1
           /\ (nx, ny) <> (px, py))%Z)
  /\ NoDup (getNeighbors px py width height)
  /\ ((0 < px < width - 1 /\ 0 < py < height - 1)%Z ->
      length (getNeighbors px py width height) = 8%nat).
Proof.
  split; [|split].
  - intros nx ny. apply getNeighbors_member.
  - unfold getNeighbors. cbn [flat_map app Z.eqb andb].
    cbv zeta.
    repeat match goal with
           | |- context [if ?b then _ else _] => destruct b
           end;
      cbn [app];
      repeat (apply NoDup_cons;
              [cbn [In]; intros H;
               repeat (destruct H as [H | H];
                       [injection H; intros; lia | ]);
               contradiction
              | ]);
      try apply NoDup_nil.
  - intros [Hx Hy]. unfold getNeighbors. cbn [flat_map app Z.eqb andb].
    cbv zeta.
    repeat match goal with
           | |- context [if ?b then _ else _] =>
               replace b with true
                 by (symmetry; repeat (apply andb_true_intro; split);
                     try (apply Z.leb_le; lia); apply Z.ltb_lt; lia)
           end.
    reflexivity.
Qed.


(** ** Contours as connected components *)

Lemma has_In (visited : list pixel) (p : pixel) :
  has visited p = true <-> In p visited.
Proof.
  unfold has. rewrite existsb_exists. split.
  - intros (q & Hin & E). apply andb_prop in E. destruct E as [E1 E2].
    apply Z.eqb_eq in E1, E2. destruct p, q. cbn [fst snd] in *. subst.
    exact Hin.
  - intros Hin. exists p. split; [exact Hin|].
    rewrite !Z.eqb_refl. reflexivity.
Qed.

Lemma has_false (visited : list pixel) (p : pixel) :
  has visited p = false <-> ~ In p visited.
Proof.
  rewrite <- has_In. destruct (has visited p); split; intros H;
    try reflexivity; try discriminate; try (intros H'; discriminate).
  exfalso. apply H. reflexivity.
Qed.

Lemma filter_length_lt (A : Type) (P Q : A -> bool) (l : list A) (a : A) :
  In a l -> P a = true -> Q a = false ->
  (forall b, Q b = true -> P b = true) ->
  (length (filter Q l) < length (filter P l))%nat.
Proof.
  intros Hin HP HQ Himp.
  assert (Hle : forall l', (length (filter Q l') <= length (filter P l'))%nat).
  { induction l' as [|b l' IH]; [cbn; lia|]. cbn [filter].
    destruct (Q b) eqn:Eq.
    - rewrite (Himp b Eq). cbn [length]. lia.
    - destruct (P b); cbn [length]; lia. }
  induction l as [|b l IH]; [contradiction|].
  cbn [filter]. destruct Hin as [-> | Hin].
  - rewrite HP, HQ. cbn [length]. specialize (Hle l). lia.
  - specialize (IH Hin). destruct (Q b) eqn:Eq.
    + rewrite (Himp b Eq). cbn [length]. lia.
    + destruct (P b); cbn [length]; lia.
Qed.

Lemma NoDup_app_disjoint (A : Type) (l r : list A) (a : A) :
  NoDup (l ++ r) -> In a l -> In a r -> False.
Proof.
  induction l as [|b l IH]; intros Hnd Hl Hr; [contradiction|].
  cbn [app] in Hnd. inversion Hnd as [|? ? Hb Hnd']; subst.
  destruct Hl as [-> | Hl].
  - apply Hb. apply in_or_app. right. exact Hr.
  - exact (IH Hnd' Hl Hr).
Qed.

Section Contours.

Variables (edgeMap : list R) (width height : Z) (threshold : R).

(** A pixel of the image, an edge pixel, and two pixels that touch. *)
Definition in_image (p : pixel) : Prop :=
  (0 <= fst p < width /\ 0 <= snd p < height)%Z.

Definition edge (p : pixel) : Prop :=
  in_image p /\ isEdgePixel edgeMap (fst p) (snd p) width threshold = true.

Definition touches (p q : pixel) : Prop :=
  In q (getNeighbors (fst p) (snd p) width height).

(** Every pixel of [l] touches a pixel of [seen] or a pixel that comes
    before it in [l]. *)
Fixpoint grown (seen l : list pixel) : Prop :=
  match l with
  | [] => True
  | n :: l' => (exists p, In p seen /\ touches p n) /\ grown (seen ++ [n]) l'
  end.

(** A polyline each of whose pixels, after the first, touches an earlier
    one. *)
Definition linked (c : list pixel) : Prop :=
  exists s more, c = s :: more /\ grown [s] more.

Lemma touches_spec (p q : pixel) :
  touches p q
  <-> (in_image q /\ Z.abs (fst q - fst p) <= 1 /\ Z.abs (snd q - snd p) <= 1
       /\ q <> p)%Z.
Proof.
  unfold touches, in_image. destruct p as [px py], q as [qx qy].
  cbn [fst snd]. rewrite getNeighbors_member. tauto.
Qed.

Lemma touches_sym (p q : pixel) : in_image p -> touches p q -> touches q p.
Proof.
  intros Hp H. apply touches_spec in H. apply touches_spec.
  destruct H as (_ & H1 & H2 & H3).
  split; [exact Hp|]. split; [lia|]. split; [lia|].
  intros E. apply H3. symmetry. exact E.
Qed.

Lemma touches_irrefl (p : pixel) : ~ touches p p.
Proof. intros H. apply touches_spec in H. tauto. Qed.

Lemma grown_mono (l : list pixel) :
  forall seen seen',
    (forall p, In p seen -> In p seen') -> grown seen l -> grown seen' l.
Proof.
  induction l as [|n l IH]; intros seen seen' Hsub H; [exact I|].
  cbn [grown] in *. destruct H as [(p & Hp & Ht) Hg]. split.
  - exists p. split; [apply Hsub; exact Hp | exact Ht].
  - apply (IH (seen ++ [n])); [|exact Hg].
    intros q Hq. apply in_app_or in Hq. apply in_or_app.
    destruct Hq as [Hq | Hq]; [left; apply Hsub; exact Hq | right; exact Hq].
Qed.

Lemma grown_app (a : list pixel) :
  forall seen b, grown seen a -> grown (seen ++ a) b -> grown seen (a ++ b).
Proof.
  induction a as [|n a IH]; intros seen b Ha Hb.
  - rewrite app_nil_r in Hb. exact Hb.
  - cbn [app grown] in *. destruct Ha as [Hn Ha]. split; [exact Hn|].
    apply IH; [exact Ha|]. rewrite <- app_assoc. exact Hb.
Qed.

(** *** The positions of the scan *)

Lemma in_upto (n v : Z) : In v (upto n) <-> (0 <= v < n)%Z.
Proof.
  unfold upto. rewrite in_map_iff. split.
  - intros (k & <- & Hk). apply in_seq in Hk. lia.
  - intros Hv. exists (Z.to_nat v). split; [lia|]. apply in_seq. lia.
Qed.

Lemma in_scan_order (p : pixel) : In p (scan_order width height) <-> in_image p.
Proof.
  unfold scan_order, in_image. rewrite in_flat_map. split.
  - intros (py & Hy & H). apply in_map_iff in H.
    destruct H as (px & <- & Hx). cbn [fst snd].
    apply in_upto in Hx, Hy. tauto.
  - intros [Hx Hy]. exists (snd p). split; [apply in_upto; exact Hy|].
    apply in_map_iff. exists (fst p). split; [destruct p; reflexivity|].
    apply in_upto. exact Hx.
Qed.

Lemma scan_order_length :
  (length (scan_order width height) <= Z.to_nat (width * height))%nat.
Proof.
  unfold scan_order.
  assert (H : forall l : list Z,
             length (flat_map (fun py => map (fun px => (px, py))
                                           (upto width)) l)
             = (length l * Z.to_nat width)%nat).
  { induction l as [|a l IH]; [reflexivity|].
    cbn [flat_map length]. rewrite length_app, IH, length_map.
    unfold upto at 1. rewrite length_map, length_seq. lia. }
  rewrite H. unfold upto. rewrite length_map, length_seq.
  destruct (Z_lt_le_dec width 0) as [Hw | Hw].
  - replace (Z.to_nat width) with 0%nat by lia. lia.
  - destruct (Z_lt_le_dec height 0) as [Hh | Hh].
    + replace (Z.to_nat height) with 0%nat by lia. lia.
    + rewrite Z2Nat.inj_mul by assumption. lia.
Qed.

(** The pixels of the image that are not in the visited set. *)
Definition unseen (visited : list pixel) : nat :=
  length (filter (fun p => negb (has visited p)) (scan_order width height)).

Lemma unseen_bound (visited : list pixel) :
  (unseen visited <= Z.to_nat (width * height))%nat.
Proof.
  unfold unseen. etransitivity; [apply filter_length_le|].
  apply scan_order_length.
Qed.

Lemma unseen_add (added : list pixel) :
  forall visited,
    NoDup added ->
    (forall n, In n added -> in_image n /\ ~ In n visited) ->
    (unseen (visited ++ added) + length added <= unseen visited)%nat.
Proof.
  induction added as [|n added IH]; intros visited Hnd Hall.
  - rewrite app_nil_r. cbn [length]. lia.
  - inversion Hnd as [|? ? Hn Hnd']; subst.
    destruct (Hall n (or_introl eq_refl)) as [Himg Hnew].
    assert (H1 : (unseen (visited ++ [n]) < unseen visited)%nat).
    { unfold unseen. apply filter_length_lt with (a := n).
      - apply in_scan_order. exact Himg.
      - apply negb_true_iff. apply has_false. exact Hnew.
      - apply negb_false_iff. apply has_In. apply in_or_app. right.
        left. reflexivity.
      - intros b Hb. apply negb_true_iff in Hb. apply has_false in Hb.
        apply negb_true_iff. apply has_false. intros Hin. apply Hb.
        apply in_or_app. left. exact Hin. }
    specialize (IH (visited ++ [n]) Hnd').
    replace (visited ++ n :: added) with ((visited ++ [n]) ++ added)
      by (rewrite <- app_assoc; reflexivity).
    cbn [length].
    assert (H2 : (unseen ((visited ++ [n]) ++ added) + length added
                  <= unseen (visited ++ [n]))%nat).
    { apply IH. intros m Hm.
      destruct (Hall m (or_intror Hm)) as [Hi Hv]. split; [exact Hi|].
      intros Hin. apply in_app_or in Hin. destruct Hin as [Hin | [<- | []]].
      - exact (Hv Hin).
      - exact (Hn Hm). }
    lia.
Qed.

Lemma grown_touching (added : list pixel) (cur : pixel) :
  forall seen,
    In cur seen -> (forall n, In n added -> touches cur n) ->
    grown seen added.
Proof.
  induction added as [|n added IH]; intros seen Hc Hall; [exact I|].
  cbn [grown]. split.
  - exists cur. split; [exact Hc | apply Hall; left; reflexivity].
  - apply IH; [apply in_or_app; left; exact Hc|].
    intros m Hm. apply Hall. right. exact Hm.
Qed.

(** *** One pixel off the queue *)

Lemma visit_fold (ns : list pixel) :
  forall queue polyline visited,
    exists added,
      fold_left (visit edgeMap width threshold) ns (queue, polyline, visited)
      = (queue ++ added, polyline ++ added, visited ++ added)
      /\ NoDup added
      /\ (forall n, In n added ->
            In n ns /\ ~ In n visited
            /\ isEdgePixel edgeMap (fst n) (snd n) width threshold = true)
      /\ (forall n, In n ns ->
            isEdgePixel edgeMap (fst n) (snd n) width threshold = true ->
            In n (visited ++ added)).
Proof.
  induction ns as [|n ns IH]; intros queue polyline visited;
    cbn [fold_left].
  - exists []. rewrite !app_nil_r. split; [reflexivity|].
    split; [constructor|]. split; intros n [].
  - unfold visit at 2.
    destruct (negb (has visited n)
              && isEdgePixel edgeMap (fst n) (snd n) width threshold) eqn:E.
    + apply andb_prop in E. destruct E as [E1 E2].
      apply negb_true_iff in E1. apply has_false in E1.
      destruct (IH (queue ++ [n]) (polyline ++ [n]) (visited ++ [n]))
        as (added & Ef & Hnd & Hadd & Hall).
      exists (n :: added). rewrite Ef, <- !app_assoc. cbn [app].
      split; [reflexivity|]. split.
      * constructor; [|exact Hnd]. intros Hin.
        destruct (Hadd n Hin) as (_ & Hv & _). apply Hv.
        apply in_or_app. right. left. reflexivity.
      * split.
        -- intros m [<- | Hm]; [split; [left; reflexivity | split; assumption]|].
           destruct (Hadd m Hm) as (H1 & H2 & H3).
           split; [right; exact H1|]. split; [|exact H3].
           intros Hin. apply H2. apply in_or_app. left. exact Hin.
        -- intros m [<- | Hm] He.
           ++ apply in_or_app. right. left. reflexivity.
           ++ specialize (Hall m Hm He). rewrite <- app_assoc in Hall.
              exact Hall.
    + destruct (IH queue polyline visited) as (added & Ef & Hnd & Hadd & Hall).
      exists added. split; [exact Ef|]. split; [exact Hnd|]. split.
      * intros m Hm. destruct (Hadd m Hm) as (H1 & H2 & H3).
        split; [right; exact H1 | split; assumption].
      * intros m [<- | Hm] He; [|apply Hall; assumption].
        rewrite He, andb_true_r in E. apply negb_false_iff in E.
        apply has_In in E. apply in_or_app. left. exact E.
Qed.

(** *** The loop of [traceContour] *)

Lemma trace_loop_spec (fuel : nat) :
  forall queue processed visited,
    (length queue + unseen visited <= fuel)%nat ->
    exists more,
      trace_loop fuel edgeMap width height threshold queue
        (processed ++ queue) visited
      = (processed ++ queue ++ more, visited ++ more)
      /\ NoDup more
      /\ (forall n, In n more ->
            in_image n /\ ~ In n visited
            /\ isEdgePixel edgeMap (fst n) (snd n) width threshold = true)
      /\ (forall p q, In p (queue ++ more) -> touches p q ->
            isEdgePixel edgeMap (fst q) (snd q) width threshold = true ->
            In q (visited ++ more))
      /\ grown (processed ++ queue) more.
Proof.
  induction fuel as [|fuel IH]; intros queue processed visited Hfuel.
  - destruct queue; [|cbn [length] in Hfuel; lia].
    exists []. cbn [trace_loop]. rewrite !app_nil_r.
    split; [reflexivity|]. split; [constructor|].
    split; [intros n []|]. split; [intros p q []|exact I].
  - destruct queue as [|cur rest].
    + exists []. cbn [trace_loop]. rewrite !app_nil_r.
      split; [reflexivity|]. split; [constructor|].
      split; [intros n []|]. split; [intros p q []|exact I].
    + cbn [trace_loop]. cbv zeta.
      destruct (visit_fold (getNeighbors (fst cur) (snd cur) width height)
                  rest (processed ++ cur :: rest) visited)
        as (added & Ef & Hnd & Hadd & Hall).
      rewrite Ef.
      assert (Himg : forall n, In n added -> in_image n /\ ~ In n visited).
      { intros n Hn. destruct (Hadd n Hn) as (H1 & H2 & _).
        split; [|exact H2].
        apply (touches_spec cur n) in H1. tauto. }
      pose proof (unseen_add added visited Hnd Himg) as Hun.
      destruct (IH (rest ++ added) (processed ++ [cur]) (visited ++ added))
        as (more & Em & Hndm & Hm & Hclosed & Hgrown).
      { rewrite length_app. cbn [length] in Hfuel. lia. }
      replace ((processed ++ cur :: rest) ++ added)
        with ((processed ++ [cur]) ++ rest ++ added)
        by (rewrite <- !app_assoc; reflexivity).
      rewrite Em. exists (added ++ more).
      split; [rewrite <- !app_assoc; reflexivity|]. split.
      * apply NoDup_app; [exact Hnd | exact Hndm |].
        intros n Hn Hn'. destruct (Hm n Hn') as (_ & Hv & _). apply Hv.
        apply in_or_app. right. exact Hn.
      * split.
        -- intros n Hn. apply in_app_or in Hn. destruct Hn as [Hn | Hn].
           ++ destruct (Hadd n Hn) as (_ & H2 & H3).
              split; [apply Himg; exact Hn | split; assumption].
           ++ destruct (Hm n Hn) as (H1 & H2 & H3).
              split; [exact H1|]. split; [|exact H3].
              intros Hin. apply H2. apply in_or_app. left. exact Hin.
        -- split.
           ++ intros p q Hp Ht He. rewrite app_assoc.
              cbn [app] in Hp. destruct Hp as [<- | Hp].
              ** apply in_or_app. left. apply Hall; assumption.
              ** apply (Hclosed p q); [|assumption|assumption].
                 rewrite <- app_assoc. exact Hp.
           ++ apply grown_app.
              ** apply grown_touching with (cur := cur).
                 --- apply in_or_app. right. left. reflexivity.
                 --- intros n Hn. apply (Hadd n Hn).
              ** replace ((processed ++ cur :: rest) ++ added)
                   with ((processed ++ [cur]) ++ rest ++ added)
                   by (rewrite <- !app_assoc; reflexivity).
                 exact Hgrown.
Qed.

(** [traceContour] from an edge pixel of the image that has not been
    visited: the polyline begins with that pixel, holds new edge pixels
    only, each once and each after the first touching an earlier one; all
    of them are visited afterwards, and so is every edge pixel that touches
    one of them. *)
Lemma traceContour_spec (start : pixel) (visited : list pixel) :
  in_image start -> ~ In start visited ->
  isEdgePixel edgeMap (fst start) (snd start) width threshold = true ->
  exists more,
    traceContour edgeMap (fst start) (snd start) width height visited
      threshold
    = (start :: more, visited ++ start :: more)
    /\ NoDup (start :: more)
    /\ (forall n, In n (start :: more) -> edge n /\ ~ In n visited)
    /\ (forall p q, In p (start :: more) -> touches p q ->
          isEdgePixel edgeMap (fst q) (snd q) width threshold = true ->
          In q (visited ++ start :: more))
    /\ grown [start] more.
Proof.
  intros Himg Hnew Hedge. unfold traceContour.
  rewrite <- (surjective_pairing start).
  destruct (trace_loop_spec (S (Z.to_nat (width * height))) [start] []
              (visited ++ [start]))
    as (more & E & Hnd & Hm & Hclosed & Hgrown).
  { cbn [length]. pose proof (unseen_bound (visited ++ [start])). lia. }
  cbn [app] in E, Hclosed, Hgrown. exists more.
  split; [rewrite <- app_assoc in E; exact E|]. split.
  - constructor; [|exact Hnd]. intros Hin.
    destruct (Hm start Hin) as (_ & Hv & _). apply Hv.
    apply in_or_app. right. left. reflexivity.
  - split.
    + intros n [<- | Hn]; [split; [split; assumption | exact Hnew]|].
      destruct (Hm n Hn) as (H1 & H2 & H3). split; [split; assumption|].
      intros Hin. apply H2. apply in_or_app. left. exact Hin.
    + split; [|exact Hgrown].
      intros p q Hp Ht He. specialize (Hclosed p q Hp Ht He).
      rewrite <- app_assoc in Hclosed. exact Hclosed.
Qed.

(** *** The scan of [findEdgeContours] *)

(** The polylines that were traced so far, the short ones included. *)
Record traced (visited : list pixel) (traces : list (list pixel)) : Prop :=
  mkTraced {
  tr_visited : forall p, In p visited <-> In p (concat traces);
  tr_once : NoDup (concat traces);
  tr_edge : forall p, In p (concat traces) -> edge p;
  tr_closed :
    forall c, In c traces ->
    forall p q, In p c -> touches p q -> edge q -> In q c;
  tr_linked : forall c, In c traces -> linked c
}.

Definition kept (c : list pixel) : bool := Nat.ltb 1 (length c).

Lemma scan_step_traced (contours : list (list pixel)) (visited : list pixel)
  (traces : list (list pixel)) (p : pixel) :
  traced visited traces -> contours = filter kept traces -> in_image p ->
  exists contours' visited' traces',
    scan_step edgeMap width height threshold (contours, visited) p
    = (contours', visited')
    /\ traced visited' traces'
    /\ contours' = filter kept traces'
    /\ (forall q, In q visited -> In q visited')
    /\ (isEdgePixel edgeMap (fst p) (snd p) width threshold = true ->
        In p visited').
Proof.
  intros [Hv Honce Hedge Hclosed Hlinked] Hc Himg. unfold scan_step.
  destruct (negb (has visited p)
            && isEdgePixel edgeMap (fst p) (snd p) width threshold) eqn:E.
  - apply andb_prop in E. destruct E as [E1 E2].
    apply negb_true_iff in E1. apply has_false in E1.
    destruct (traceContour_spec p visited Himg E1 E2)
      as (more & Et & Hnd & Hm & Hcl & Hg).
    rewrite Et.
    exists (if Nat.ltb 1 (length (p :: more))
            then contours ++ [p :: more] else contours),
           (visited ++ p :: more), (traces ++ [p :: more]).
    split; [reflexivity|]. split; [|split; [|split]].
    + constructor.
      * intros q. rewrite concat_app. cbn [concat]. rewrite app_nil_r.
        rewrite !in_app_iff, Hv. tauto.
      * rewrite concat_app. cbn [concat]. rewrite app_nil_r.
        apply NoDup_app; [exact Honce | exact Hnd |].
        intros q Hq Hq'. destruct (Hm q Hq') as [_ Hnv]. apply Hnv.
        apply Hv. exact Hq.
      * intros q. rewrite concat_app. cbn [concat]. rewrite app_nil_r.
        intros Hq. apply in_app_or in Hq. destruct Hq as [Hq | Hq];
          [apply Hedge; exact Hq | apply (Hm q Hq)].
      * intros c Hcin q r Hq Ht Hr. apply in_app_or in Hcin.
        destruct Hcin as [Hcin | [<- | []]];
          [apply (Hclosed c Hcin q r); assumption|].
        specialize (Hcl q r Hq Ht (proj2 Hr)).
        apply in_app_or in Hcl. destruct Hcl as [Hold | Hin]; [|exact Hin].
        exfalso. apply Hv in Hold. apply in_concat in Hold.
        destruct Hold as (c' & Hc' & Hrc').
        assert (Hq' : In q c').
        { apply (Hclosed c' Hc' r q Hrc').
          - apply touches_sym; [apply (Hm q Hq) | exact Ht].
          - apply (Hm q Hq). }
        destruct (Hm q Hq) as [_ Hnv]. apply Hnv. apply Hv.
        apply in_concat. exists c'. split; assumption.
      * intros c Hcin. apply in_app_or in Hcin.
        destruct Hcin as [Hcin | [<- | []]]; [apply Hlinked; exact Hcin|].
        exists p, more. split; [reflexivity | exact Hg].
    + rewrite filter_app, <- Hc. cbn [filter]. unfold kept.
      destruct (Nat.ltb 1 (length (p :: more))); [reflexivity|].
      rewrite app_nil_r. reflexivity.
    + intros q Hq. apply in_or_app. left. exact Hq.
    + intros _. apply in_or_app. right. left. reflexivity.
  - exists contours, visited, traces. split; [reflexivity|].
    split; [constructor; assumption|]. split; [exact Hc|].
    split; [intros q Hq; exact Hq|].
    intros He. rewrite He, andb_true_r in E. apply negb_false_iff in E.
    apply has_In. exact E.
Qed.

Lemma scan_fold_traced (l : list pixel) :
  forall contours visited traces,
    traced visited traces -> contours = filter kept traces ->
    (forall p, In p l -> in_image p) ->
    exists visited' traces',
      fold_left (scan_step edgeMap width height threshold) l
        (contours, visited)
      = (filter kept traces', visited')
      /\ traced visited' traces'
      /\ (forall q, In q visited -> In q visited')
      /\ (forall p, In p l ->
            isEdgePixel edgeMap (fst p) (snd p) width threshold = true ->
            In p visited').
Proof.
  induction l as [|p l IH]; intros contours visited traces Ht Hc Himg;
    cbn [fold_left].
  - exists visited, traces. rewrite Hc. split; [reflexivity|].
    split; [exact Ht|]. split; [intros q Hq; exact Hq | intros p []].
  - destruct (scan_step_traced contours visited traces p Ht Hc
                (Himg p (or_introl eq_refl)))
      as (contours1 & visited1 & traces1 & E1 & Ht1 & Hc1 & Hmono1 & Hp1).
    rewrite E1.
    destruct (IH contours1 visited1 traces1 Ht1 Hc1
                (fun q Hq => Himg q (or_intror Hq)))
      as (visited2 & traces2 & E2 & Ht2 & Hmono2 & Hall2).
    exists visited2, traces2. split; [exact E2|]. split; [exact Ht2|].
    split; [intros q Hq; apply Hmono2, Hmono1; exact Hq|].
    intros q [<- | Hq] He; [apply Hmono2, Hp1; exact He|].
    apply Hall2; assumption.
Qed.

Lemma NoDup_concat_filter (f : list pixel -> bool)
  (traces : list (list pixel)) :
  NoDup (concat traces) -> NoDup (concat (filter f traces)).
Proof.
  induction traces as [|c traces IH]; intros H; [constructor|].
  cbn [concat] in H. cbn [filter].
  pose proof (NoDup_app_remove_l _ _ H) as Hr.
  destruct (f c); [|apply IH; exact Hr].
  cbn [concat]. apply NoDup_app.
  - apply (NoDup_app_remove_r _ _ H).
  - apply IH. exact Hr.
  - intros a Ha Ha'. apply (NoDup_app_disjoint _ c (concat traces) a H Ha).
    apply in_concat in Ha'. destruct Ha' as (c' & Hc' & Hac').
    apply in_concat. exists c'. split; [|exact Hac'].
    apply filter_In in Hc'. tauto.
Qed.

End Contours.

(** [findEdgeContours] returns the groups of touching edge pixels.  No
    pixel is listed twice, in one contour or in two.  A contour has at
    least two pixels, all of them edge pixels of the image; it holds every
    edge pixel that touches one of its pixels, and each of its pixels after
    the first touches an earlier one.  Every edge pixel that touches
    another edge pixel is in a contour. *)
Theorem findEdgeContours_components (edgeMap : list R) (width height : Z)
  (threshold : R) :
  let contours := findEdgeContours edgeMap width height threshold in
  let edge := edge edgeMap width height threshold in
  let touches := touches width height in
  NoDup (concat contours)
  /\ (forall c, In c contours ->
        (2 <= length c)%nat
        /\ (forall p, In p c -> edge p)
        /\ (forall p q, In p c -> touches p q -> edge q -> In q c)
        /\ linked width height c)
  /\ (forall p q, edge p -> edge q -> touches p q ->
        exists c, In c contours /\ In p c).
Proof.
  cbv zeta. unfold findEdgeContours.
  destruct (scan_fold_traced edgeMap width height threshold
              (scan_order width height) [] [] [])
    as (visited & traces & E & [Hv Honce Hedge Hclosed Hlinked] & _ & Hall).
  - constructor.
    + intros p. cbn. tauto.
    + constructor.
    + intros p [].
    + intros c [].
    + intros c [].
  - reflexivity.
  - intros p Hp. apply in_scan_order. exact Hp.
  - rewrite E. cbn [fst]. split; [|split].
    + apply NoDup_concat_filter. exact Honce.
    + intros c Hc. apply filter_In in Hc. destruct Hc as [Hc Hk].
      unfold kept in Hk. apply Nat.ltb_lt in Hk. split; [lia|].
      split; [|split].
      * intros p Hp. apply Hedge. apply in_concat. exists c.
        split; assumption.
      * apply Hclosed. exact Hc.
      * apply Hlinked. exact Hc.
    + intros p q Hp Hq Ht.
      assert (Hin : In p visited).
      { apply Hall; [apply in_scan_order; apply Hp | apply Hp]. }
      apply Hv in Hin. apply in_concat in Hin.
      destruct Hin as (c & Hc & Hpc).
      exists c. split; [|exact Hpc].
      apply filter_In. split; [exact Hc|].
      pose proof (Hclosed c Hc p q Hpc Ht Hq) as Hqc.
      assert (Hne : p <> q).
      { intros ->. exact (touches_irrefl width height q Ht). }
      unfold kept. apply Nat.ltb_lt.
      destruct c as [|a [|b c']]; cbn [length]; try lia.
      * contradiction.
      * destruct Hpc as [<- | []]. destruct Hqc as [-> | []].
        contradiction.
Qed.

End EdgeTracerFacts.

(** ** Colour utilities ([algorithms/colorUtils.js]) *)

Module ColorUtils.

(** A colour [{r, g, b}]; the channels of a centroid are means and need not
    be integers. *)
Record color : Type := mkColor { r : R; g : R; b : R }.

(** [rgbDistance(color1, color2)]. *)
Definition rgbDistance (color1 color2 : color) : R :=
  let rDiff := r color1 - r color2 in
  let gDiff := g color1 - g color2 in
  let bDiff := b color1 - b color2 in
  sqrt (rDiff * rDiff + gDiff * gDiff + bDiff * bDiff).

(** [clampRgb(color)]. *)
Definition clampRgb (c : color) : color :=
  mkColor (Rmax 0 (Rmin 255 (Js.round (r c))))
          (Rmax 0 (Rmin 255 (Js.round (g c))))
          (Rmax 0 (Rmin 255 (Js.round (b c)))).

End ColorUtils.

(** ** Colour quantizer ([algorithms/kMeans.js]) *)

Module KMeans.
Import ColorUtils.

(** One pixel of an [ImageData]: four consecutive entries of [data]. *)
Record rgba : Type := mkRgba { red : R; green : R; blue : R; alpha : R }.

(** The sequence that successive calls of [Math.random()] return, and the
    number of calls made so far. *)
Definition oracle : Type := nat -> R.

Definition random_ok (rand : oracle) : Prop := forall n, 0 <= rand n < 1.

(** Every [step]-th element, starting with the first: the loop
    [for (i = 0; i < data.length; i += 4 * step)]. *)
Fixpoint every (A : Type) (step skip : nat) (l : list A) : list A :=
  match l with
  | [] => []
  | a :: l' =>
      match skip with
      | O => a :: every A step (step - 1) l'
      | S s => every A step s l'
      end
  end.
Arguments every {A} step skip l.

(** [_extractColorSamples(imageData, sampleRate)]. *)
Definition extractColorSamples (image : list rgba) (sampleRate : R)
  : list color :=
  let step := Nat.max 1 (Z.to_nat (Zfloor sampleRate)) in
  map (fun p => mkColor (red p) (green p) (blue p))
      (filter (fun p => negb (Js.eqb (alpha p) 0)) (every step 0 image)).

(** Distance from a sample to the nearest centroid; the running minimum
    starts at [Infinity] and the list of centroids is never empty. *)
Definition nearest_centroid_distance (sample c0 : color) (rest : list color)
  : R :=
  fold_left (fun minDist c => Rmin minDist (rgbDistance sample c)) rest
            (rgbDistance sample c0).

(** The roulette loop [for (let j = 0; j < samples.length; j++)]: the index
    at which [random] drops to 0 or below. *)
Fixpoint roulette (distances : list R) (random : R) (j : nat) : option nat :=
  match distances with
  | [] => None
  | d :: rest =>
      let random' := random - d in
      if Js.leb random' 0 then Some j else roulette rest random' (S j)
  end.

Definition black : color := mkColor 0 0 0.

(** One round of [for (let i = 1; i < k; i++)]. *)
Definition plusplus_step (samples : list color) (rand : oracle)
  (st : list color * nat) : list color * nat :=
  let '(centroids, calls) := st in
  match centroids with
  | [] => st
  | c0 :: rest =>
      let distances :=
        map (fun sample =>
               let minDist := nearest_centroid_distance sample c0 rest in
               minDist * minDist) samples in
      let totalDistance := fold_left Rplus distances 0 in
      let random := rand calls * totalDistance in
      match roulette distances random 0 with
      | Some j => (centroids ++ [nth j samples black], S calls)
      | None => (centroids, S calls)
      end
  end.

(** [_kMeansPlusPlus(samples, k)]. *)
Definition kMeansPlusPlus (samples : list color) (k : nat) (rand : oracle)
  (calls : nat) : list color * nat :=
  let firstIndex := Z.to_nat (Zfloor (rand calls * INR (length samples))) in
  let centroids := [nth firstIndex samples black] in
  fold_left (fun st _ => plusplus_step samples rand st) (seq 1 (k - 1))
            (centroids, S calls).

(** The inner loop of [_assignToClusters]: ([minDist], [nearestCluster]),
    with [None] for [Infinity]. *)
Definition nearest_step (sample : color) (st : option R * nat)
  (ic : nat * color) : option R * nat :=
  let dist := rgbDistance sample (snd ic) in
  if Plane.below dist (fst st) then (Some dist, fst ic) else st.

Definition nearestCluster (sample : color) (centroids : list color) : nat :=
  snd (fold_left (nearest_step sample)
         (combine (seq 0 (length centroids)) centroids) (None, 0%nat)).

(** [clusters[i].push(sample)]. *)
Definition push_at (i : nat) (sample : color) (clusters : list (list color))
  : list (list color) :=
  firstn i clusters
  ++ match skipn i clusters with
     | [] => []
     | cluster :: rest => (cluster ++ [sample]) :: rest
     end.

(** [_assignToClusters(samples, centroids)]. *)
Definition assignToClusters (samples centroids : list color)
  : list (list color) :=
  fold_left (fun clusters sample =>
               push_at (nearestCluster sample centroids) sample clusters)
            samples (repeat [] (length centroids)).

Definition sum_colors (cluster : list color) : color :=
  fold_left (fun acc c => mkColor (r acc + r c) (g acc + g c) (b acc + b c))
            cluster (mkColor 0 0 0).

(** The callback of [clusters.map] in [_calculateCentroids]: an empty
    cluster is replaced by a random colour, at the cost of three calls. *)
Definition centroid_of (rand : oracle) (cluster : list color) (calls : nat)
  : color * nat :=
  match cluster with
  | [] =>
      (mkColor (Js.floor (rand calls * 256))
               (Js.floor (rand (S calls) * 256))
               (Js.floor (rand (S (S calls)) * 256)),
       S (S (S calls)))
  | _ =>
      let sum := sum_colors cluster in
      let n := INR (length cluster) in
      (mkColor (r sum / n) (g sum / n) (b sum / n), calls)
  end.

(** [_calculateCentroids(clusters)]. *)
Definition calculateCentroids (rand : oracle) (clusters : list (list color))
  (calls : nat) : list color * nat :=
  fold_left (fun st cluster =>
               let '(c, calls') := centroid_of rand cluster (snd st) in
               (fst st ++ [c], calls'))
            clusters ([], calls).

(** [_checkConvergence(oldCentroids, newCentroids, threshold)]. *)
Definition checkConvergence (oldCentroids newCentroids : list color)
  (threshold : R) : bool :=
  forallb (fun i =>
             negb (Js.gtb (rgbDistance (nth i oldCentroids black)
                                       (nth i newCentroids black))
                          threshold))
          (seq 0 (length oldCentroids)).

Definition convergenceThreshold : R := 1.

(** [while (iteration < maxIterations && !hasConverged)]: [budget] is what
    is left of [maxIterations]; the result is the final centroids, the number
    of iterations and the number of calls of [Math.random()]. *)
Fixpoint iterate (budget : nat) (rand : oracle) (samples centroids : list color)
  (iteration calls : nat) : list color * nat * nat :=
  match budget with
  | O => (centroids, iteration, calls)
  | S budget' =>
      let clusters := assignToClusters samples centroids in
      let '(newCentroids, calls') := calculateCentroids rand clusters calls in
      let hasConverged :=
        checkConvergence centroids newCentroids convergenceThreshold in
      if hasConverged then (newCentroids, S iteration, calls')
      else iterate budget' rand samples newCentroids (S iteration) calls'
  end.

(** How the promise of [findDominantColors] settles.  [iterations] is the
    count reported with the [CLUSTERING_COMPLETE] event. *)
Inductive outcome : Type :=
| Rejected
| Resolved (colors : list color) (iterations : nat).

(** [findDominantColors(imageData, numColors, maxIterations, sampleRate)]. *)
Definition findDominantColors (image : list rgba) (numColors maxIterations : nat)
  (sampleRate : R) (rand : oracle) : outcome :=
  let samples := extractColorSamples image sampleRate in
  if Nat.eqb (length samples) 0 then Rejected
  else if Nat.leb (length samples) numColors
  then Resolved (firstn numColors samples) 0
  else
    let '(centroids, calls) := kMeansPlusPlus samples numColors rand 0 in
    let '(final, iteration, _) :=
      iterate maxIterations rand samples centroids 0 calls in
    Resolved (map clampRgb final) iteration.

(** The defaults [maxIterations = 50] and [sampleRate = 1]. *)
Definition default_maxIterations : nat := 50.
Definition default_sampleRate : R := 1.

(** A colour with 8-bit channels. *)
Definition is_byte (v : R) : Prop := exists z : Z, v = IZR z /\ (0 <= z <= 255)%Z.

Definition byte_color (c : color) : Prop :=
  is_byte (r c) /\ is_byte (g c) /\ is_byte (b c).

(** Inputs of the examples: an opaque pixel of the colour (10, 20, 30) and
    the oracle whose every answer is 0. *)
Definition teal : color := mkColor 10 20 30.
Definition teal_pixel : rgba := mkRgba 10 20 30 255.
Definition zero_oracle : oracle := fun _ => 0.

(** [_findNearestColor(pixel, palette)]: the running ([minDist], [nearest]);
    [nearest] starts as [palette[0]], which is [undefined] ([None]) for an
    empty palette. *)
Definition nearest_color_step (pixel : color) (st : option R * option color)
  (c : color) : option R * option color :=
  let dist := rgbDistance pixel c in
  if Plane.below dist (fst st) then (Some dist, Some c) else st.

Definition findNearestColor (pixel : color) (palette : list color)
  : option color :=
  snd (fold_left (nearest_color_step pixel) palette (None, hd_error palette)).

(** A store into a [Uint8ClampedArray]: the value is clamped to [0, 255]
    and rounded to the nearest integer, a tie going to the even one. *)
Definition toUint8Clamp (v : R) : R :=
  if Js.leb v 0 then 0
  else if Js.leb 255 v then 255
  else
    let f := Js.floor v in
    if Js.ltb (f + / 2) v then f + 1
    else if Js.ltb v (f + / 2) then f
    else if Z.even (Zfloor v) then f else f + 1.

(** The body of the loop of [quantizeImage]; [None] is the [TypeError] of
    reading [r] from an [undefined] nearest colour. *)
Definition quantize_pixel (palette : list color) (p : rgba) : option rgba :=
  let pixel := mkColor (red p) (green p) (blue p) in
  match findNearestColor pixel palette with
  | None => None
  | Some nearestColor =>
      Some (mkRgba (toUint8Clamp (r nearestColor))
                   (toUint8Clamp (g nearestColor))
                   (toUint8Clamp (b nearestColor))
                   (toUint8Clamp (alpha p)))
  end.

(** [quantizeImage(imageData, palette)], pixel by pixel. *)
Fixpoint quantizeImage (image : list rgba) (palette : list color)
  : option (list rgba) :=
  match image with
  | [] => Some []
  | p :: rest =>
      match quantize_pixel palette p with
      | None => None
      | Some q =>
          match quantizeImage rest palette with
          | None => None
          | Some qs => Some (q :: qs)
          end
      end
  end.

(** A pixel as an [ImageData] holds it: four bytes. *)
Definition byte_pixel (p : rgba) : Prop :=
  is_byte (red p) /\ is_byte (green p) /\ is_byte (blue p)
  /\ is_byte (alpha p).

Definition color_of (p : rgba) : color := mkColor (red p) (green p) (blue p).

End KMeans.

Module KMeansFacts.
Import ColorUtils KMeans.

Lemma rgbDistance_refl (c : color) : rgbDistance c c = 0.
Proof.
  unfold rgbDistance. cbv zeta.
  replace ((r c - r c) * (r c - r c) + (g c - g c) * (g c - g c)
           + (b c - b c) * (b c - b c)) with 0 by ring.
  apply sqrt_0.
Qed.

Lemma rgbDistance_nonneg (c1 c2 : color) : 0 <= rgbDistance c1 c2.
Proof. apply sqrt_pos. Qed.

Lemma clampRgb_byte (c : color) : byte_color c -> clampRgb c = c.
Proof.
  intros ((zr & Hr & Hzr) & (zg & Hg & Hzg) & (zb & Hb & Hzb)).
  destruct c as [cr cg cb]; simpl in *. subst. unfold clampRgb; simpl.
  rewrite !Js.round_IZR.
  assert (H : forall z, (0 <= z <= 255)%Z -> Rmax 0 (Rmin 255 (IZR z)) = IZR z).
  { intros z Hz. assert (0 <= IZR z <= 255) by (split; apply IZR_le; lia).
    rewrite Rmin_right, Rmax_right; lra. }
  now rewrite !H.
Qed.

(** *** Assignment when the first centroid is the colour of every sample *)

Lemma nearest_fold_stays (sample : color) (l : list (nat * color)) :
  fold_left (nearest_step sample) l (Some 0, 0%nat) = (Some 0, 0%nat).
Proof.
  induction l as [| ic l IH]; simpl; [reflexivity |].
  unfold nearest_step at 2. simpl.
  replace (Js.ltb (rgbDistance sample (snd ic)) 0) with false
    by (symmetry; apply Js.ltb_false, rgbDistance_nonneg).
  exact IH.
Qed.

Lemma nearestCluster_first (c : color) (others : list color) :
  nearestCluster c (c :: others) = 0%nat.
Proof.
  unfold nearestCluster. simpl. unfold nearest_step at 2. simpl.
  rewrite rgbDistance_refl, nearest_fold_stays. reflexivity.
Qed.

Lemma assign_fold_first (c : color) (others : list color) (n : nat) :
  forall (acc : list color) (rest : list (list color)),
    fold_left (fun clusters sample =>
                 push_at (nearestCluster sample (c :: others)) sample clusters)
              (repeat c n) (acc :: rest)
    = (acc ++ repeat c n) :: rest.
Proof.
  induction n as [| n IH]; intros acc rest; simpl.
  - now rewrite app_nil_r.
  - rewrite nearestCluster_first. unfold push_at. simpl.
    rewrite IH, <- app_assoc. reflexivity.
Qed.

Lemma assignToClusters_single (c : color) (others : list color) (n : nat) :
  assignToClusters (repeat c n) (c :: others)
  = repeat c n :: repeat [] (length others).
Proof.
  unfold assignToClusters. simpl. now rewrite assign_fold_first.
Qed.

(** *** New centroids *)

Lemma sum_colors_fold (c : color) (n : nat) (acc : color) :
  fold_left (fun acc c => mkColor (r acc + r c) (g acc + g c) (b acc + b c))
            (repeat c n) acc
  = mkColor (r acc + INR n * r c) (g acc + INR n * g c) (b acc + INR n * b c).
Proof.
  revert acc. induction n as [| n IH]; intros acc.
  - simpl. destruct acc; simpl. f_equal; lra.
  - simpl repeat. simpl fold_left. rewrite IH. rewrite S_INR. simpl.
    f_equal; lra.
Qed.

Lemma centroid_of_repeat (rand : oracle) (c : color) (n calls : nat) :
  centroid_of rand (repeat c (S n)) calls = (c, calls).
Proof.
  unfold centroid_of. simpl repeat. cbv iota beta.
  change (c :: repeat c n) with (repeat c (S n)).
  unfold sum_colors. rewrite sum_colors_fold, repeat_length. simpl r; simpl g;
    simpl b.
  assert (Hn : INR (S n) <> 0) by (apply not_0_INR; lia).
  f_equal. destruct c as [cr cg cb]; simpl. f_equal; field; exact Hn.
Qed.

(** The colours that reseed [m] empty clusters from call [calls] on. *)
Fixpoint reseeds (rand : oracle) (m calls : nat) : list color :=
  match m with
  | O => []
  | S m' =>
      mkColor (Js.floor (rand calls * 256)) (Js.floor (rand (S calls) * 256))
              (Js.floor (rand (S (S calls)) * 256))
      :: reseeds rand m' (S (S (S calls)))
  end.

Lemma reseeds_length (rand : oracle) (m calls : nat) :
  length (reseeds rand m calls) = m.
Proof.
  revert calls. induction m as [| m IH]; intros calls; simpl;
    [reflexivity | now rewrite IH].
Qed.

Lemma calculateCentroids_empty (rand : oracle) (m : nat) :
  forall (acc : list color) (calls : nat),
    fold_left (fun st cluster =>
                 let '(c, calls') := centroid_of rand cluster (snd st) in
                 (fst st ++ [c], calls'))
              (repeat [] m) (acc, calls)
    = (acc ++ reseeds rand m calls, (calls + 3 * m)%nat).
Proof.
  induction m as [| m IH]; intros acc calls; simpl.
  - rewrite app_nil_r. f_equal. lia.
  - rewrite IH, <- app_assoc. simpl. f_equal. lia.
Qed.

Lemma calculateCentroids_single (rand : oracle) (c : color) (n m calls : nat) :
  calculateCentroids rand (repeat c (S n) :: repeat [] m) calls
  = (c :: reseeds rand m calls, (calls + 3 * m)%nat).
Proof.
  unfold calculateCentroids. cbn [fold_left snd fst].
  rewrite centroid_of_repeat. cbn [app].
  now rewrite calculateCentroids_empty.
Qed.

(** *** The iteration *)

Lemma iterate_single (rand : oracle) (c : color) (n : nat) :
  forall (budget : nat) (others : list color) (iteration calls : nat),
    (1 <= budget)%nat ->
    exists others' iteration' calls',
      iterate budget rand (repeat c (S n)) (c :: others) iteration calls
      = (c :: others', iteration', calls')
      /\ length others' = length others
      /\ (iteration < iteration' <= iteration + budget)%nat
      /\ (others = [] -> iteration' = S iteration).
Proof.
  induction budget as [| budget IH]; intros others iteration calls Hb; [lia |].
  cbn [iterate]. rewrite assignToClusters_single, calculateCentroids_single.
  destruct (checkConvergence _ _ _) eqn:Hconv.
  - eexists _, _, _. split; [reflexivity |].
    rewrite reseeds_length. repeat split; try lia.
  - destruct budget as [| budget].
    + cbn [iterate]. eexists _, _, _. split; [reflexivity |].
      rewrite reseeds_length. repeat split; lia.
    + destruct (IH (reseeds rand (length others) calls) (S iteration)
                  (calls + 3 * length others)%nat ltac:(lia))
        as (o' & it' & c' & E & Hlen & Hit & Hnil).
      exists o', it', c'. split; [exact E |].
      rewrite Hlen, reseeds_length. repeat split; try lia.
      intros ->. simpl in Hconv. unfold checkConvergence in Hconv.
      simpl in Hconv. rewrite rgbDistance_refl in Hconv.
      unfold convergenceThreshold in Hconv.
      replace (Js.gtb 0 1) with false in Hconv
        by (symmetry; apply Js.ltb_false; lra).
      discriminate.
Qed.

(** *** Initialisation *)

Lemma nearest_centroid_distance_same (c : color) (m : nat) :
  nearest_centroid_distance c c (repeat c m) = 0.
Proof.
  unfold nearest_centroid_distance. rewrite rgbDistance_refl.
  induction m as [| m IH]; simpl; [reflexivity |].
  rewrite rgbDistance_refl, Rmin_left by lra. exact IH.
Qed.

Lemma fold_left_Rplus_zero (n : nat) : fold_left Rplus (repeat 0 n) 0 = 0.
Proof.
  induction n as [| n IH]; simpl; [reflexivity |].
  now rewrite Rplus_0_l.
Qed.

Lemma plusplus_step_single (rand : oracle) (c : color) (n m calls : nat) :
  plusplus_step (repeat c (S n)) rand (repeat c (S m), calls)
  = (repeat c (S (S m)), S calls).
Proof.
  assert (Hd : map (fun sample =>
                      nearest_centroid_distance sample c (repeat c m)
                      * nearest_centroid_distance sample c (repeat c m))
                   (repeat c (S n))
               = repeat 0 (S n)).
  { rewrite map_repeat. rewrite nearest_centroid_distance_same.
    now rewrite Rmult_0_l. }
  change (repeat c (S m)) with (c :: repeat c m).
  unfold plusplus_step. rewrite Hd, fold_left_Rplus_zero, Rmult_0_r.
  cbn [repeat roulette].
  replace (Js.leb (0 - 0) 0) with true by (symmetry; apply Js.leb_spec; lra).
  cbn [nth]. f_equal.
  change (c :: repeat c m) with (repeat c (S m)).
  rewrite <- repeat_cons. reflexivity.
Qed.

Lemma plusplus_fold_single (rand : oracle) (c : color) (n : nat) (l : list nat) :
  forall (m calls : nat),
    fold_left (fun st _ => plusplus_step (repeat c (S n)) rand st) l
              (repeat c (S m), calls)
    = (repeat c (S m + length l), (calls + length l)%nat).
Proof.
  induction l as [| i l IH]; intros m calls; cbn [fold_left].
  - simpl length. now rewrite !Nat.add_0_r.
  - rewrite plusplus_step_single, IH. simpl length.
    replace (S m + S (length l))%nat with (S (S m) + length l)%nat by lia.
    replace (calls + S (length l))%nat with (S calls + length l)%nat by lia.
    reflexivity.
Qed.

Lemma kMeansPlusPlus_single (rand : oracle) (c : color) (n k calls : nat) :
  random_ok rand ->
  exists calls',
    kMeansPlusPlus (repeat c (S n)) k rand calls
    = (c :: repeat c (k - 1), calls').
Proof.
  intros Hrand. unfold kMeansPlusPlus. rewrite repeat_length.
  set (firstIndex := Z.to_nat (Zfloor (rand calls * INR (S n)))).
  assert (Hfirst : nth firstIndex (repeat c (S n)) black = c).
  { assert (Hlt : (firstIndex < S n)%nat).
    { unfold firstIndex. destruct (Hrand calls) as [H0 H1].
      pose proof (pos_INR (S n)) as Hn.
      assert (HnS : 0 < INR (S n)) by (apply lt_0_INR; lia).
      pose proof (Zfloor_bound (rand calls * INR (S n))) as [Hlo Hhi].
      assert (Hz : (0 <= Zfloor (rand calls * INR (S n)))%Z)
        by (apply Zfloor_lub; apply Rmult_le_pos; lra).
      assert (Hup : IZR (Zfloor (rand calls * INR (S n)))
                    < IZR (Z.of_nat (S n))).
      { rewrite <- INR_IZR_INZ.
        apply Rle_lt_trans with (rand calls * INR (S n)); [exact Hlo |].
        rewrite <- (Rmult_1_l (INR (S n))) at 2.
        apply Rmult_lt_compat_r; lra. }
      apply lt_IZR in Hup. lia. }
    rewrite (nth_indep _ black c) by (rewrite repeat_length; exact Hlt).
    apply nth_repeat. }
  cbv zeta. rewrite Hfirst.
  change [c] with (repeat c 1).
  rewrite plusplus_fold_single, length_seq.
  eexists. reflexivity.
Qed.

(** What the code does on an image of one colour.  Let every sampled pixel
    have the colour [c], and let there be [n >= 1] samples.  If [n <= k] the
    quantizer resolves with exactly those [n] samples, all equal to [c],
    after zero iterations.  If [n > k] (and at least one iteration is
    allowed) it goes through the clustering and resolves with [k] colours of
    which the first is [c] as rounded and clamped by [clampRgb]; at least
    one iteration is made, and exactly one when [k = 1], in which case the
    palette is that single colour. *)
Lemma findDominantColors_single_color (image : list rgba)
  (k maxIterations : nat) (sampleRate : R) (rand : oracle) (c : color) :
  random_ok rand ->
  (1 <= k <= 10)%nat ->
  extractColorSamples image sampleRate <> [] ->
  (forall s, In s (extractColorSamples image sampleRate) -> s = c) ->
  let n := length (extractColorSamples image sampleRate) in
  ((n <= k)%nat ->
   findDominantColors image k maxIterations sampleRate rand
   = Resolved (repeat c n) 0)
  /\ ((k < n)%nat -> (1 <= maxIterations)%nat ->
      exists others iterations,
        findDominantColors image k maxIterations sampleRate rand
        = Resolved (clampRgb c :: others) iterations
        /\ length others = (k - 1)%nat
        /\ (1 <= iterations <= maxIterations)%nat
        /\ (k = 1%nat -> iterations = 1%nat)).
Proof.
  intros Hrand Hk Hne Hall n.
  assert (Hsamples : extractColorSamples image sampleRate = repeat c n).
  { unfold n. apply Forall_eq_repeat. apply Forall_forall.
    intros s Hs. symmetry. now apply Hall. }
  assert (Hn : (1 <= n)%nat).
  { unfold n. destruct (extractColorSamples image sampleRate); [easy |].
    simpl. lia. }
  unfold findDominantColors. rewrite Hsamples, repeat_length.
  replace (Nat.eqb n 0) with false by (symmetry; apply Nat.eqb_neq; lia).
  split.
  - intros Hle. replace (Nat.leb n k) with true
      by (symmetry; apply Nat.leb_le; exact Hle).
    f_equal. apply firstn_all2. rewrite repeat_length. exact Hle.
  - intros Hlt Hmax. replace (Nat.leb n k) with false
      by (symmetry; apply Nat.leb_gt; exact Hlt).
    destruct n as [| n']; [lia |].
    destruct (kMeansPlusPlus_single rand c n' k 0 Hrand) as (calls & ->).
    destruct (iterate_single rand c n' maxIterations (repeat c (k - 1)) 0 calls
                Hmax) as (others & its & calls' & -> & Hlen & Hits & Hnil).
    exists (map clampRgb others), its. split; [reflexivity |].
    rewrite length_map, Hlen, repeat_length. repeat split; try lia.
    intros ->. now apply Hnil.
Qed.

Lemma extract_teal (n : nat) :
  extractColorSamples (repeat teal_pixel n) 1 = repeat teal n.
Proof.
  unfold extractColorSamples. change 1 with (IZR 1). rewrite ZfloorZ.
  change (Nat.max 1 (Z.to_nat 1)) with 1%nat.
  induction n as [| n IH]; [reflexivity |].
  cbn [repeat every Nat.sub filter]. cbn [alpha teal_pixel].
  replace (Js.eqb 255 0) with false
    by (symmetry; unfold Js.eqb; destruct (Req_dec_T 255 0); [lra | easy]).
  cbn [negb map]. now rewrite IH.
Qed.

Lemma zero_oracle_ok : random_ok zero_oracle.
Proof. intros n. unfold zero_oracle. lra. Qed.

Lemma findDominantColors_three_teal :
  let n := length (extractColorSamples (repeat teal_pixel 3) 1) in
  ((n <= 2)%nat ->
   findDominantColors (repeat teal_pixel 3) 2 50 1 zero_oracle
   = Resolved (repeat teal n) 0)
  /\ ((2 < n)%nat -> (1 <= 50)%nat ->
      exists others iterations,
        findDominantColors (repeat teal_pixel 3) 2 50 1 zero_oracle
        = Resolved (clampRgb teal :: others) iterations
        /\ length others = (2 - 1)%nat
        /\ (1 <= iterations <= 50)%nat
        /\ (2%nat = 1%nat -> iterations = 1%nat)).
Proof.
  apply (findDominantColors_single_color (repeat teal_pixel 3) 2 50 1
           zero_oracle teal).
  - exact zero_oracle_ok.
  - lia.
  - rewrite extract_teal. discriminate.
  - rewrite extract_teal. intros s Hs. now apply repeat_spec in Hs.
Defined.

Lemma teal_byte : byte_color teal.
Proof.
  repeat split; [exists 10%Z | exists 20%Z | exists 30%Z]; simpl;
    (split; [reflexivity | lia]).
Qed.

Lemma black_byte : byte_color black.
Proof. repeat split; exists 0%Z; simpl; (split; [reflexivity | lia]). Qed.

Lemma reseeds_zero (calls : nat) : reseeds zero_oracle 1 calls = [black].
Proof.
  simpl. unfold zero_oracle, Js.floor. rewrite Rmult_0_l.
  change 0 with (IZR 0). now rewrite ZfloorZ.
Qed.

Lemma teal_far_from_black : 1 < rgbDistance teal black.
Proof.
  unfold rgbDistance, teal, black; simpl.
  pose proof (Js.sqrt_between 2 40
                ((10 - 0) * (10 - 0) + (20 - 0) * (20 - 0)
                 + (30 - 0) * (30 - 0))). lra.
Qed.

(** C3 fails in the code.  The early return, which its comment reserves for
    "fewer unique colors than requested", tests the number of samples, not
    the number of distinct colours.  So one opaque pixel and [k = 3] give a
    palette of one colour, not three; and three pixels of one colour with
    [k = 2] are clustered: whatever [Math.random] returns, at least one
    iteration is made, the second cluster is empty and is reseeded with a
    random colour; with the oracle that always answers 0 the palette is that
    colour and black, after two iterations. *)
Theorem findDominantColors_single_color_clustered :
  findDominantColors (repeat teal_pixel 1) 3 50 1 zero_oracle
  = Resolved [teal] 0
  /\ (forall rand, random_ok rand ->
      exists others iterations,
        findDominantColors (repeat teal_pixel 3) 2 50 1 rand
        = Resolved (teal :: others) iterations
        /\ length others = 1%nat /\ (1 <= iterations)%nat)
  /\ findDominantColors (repeat teal_pixel 3) 2 50 1 zero_oracle
     = Resolved [teal; black] 2
  /\ teal <> black.
Proof.
  split; [| split; [| split]].
  2:{ intros rand Hrand.
      destruct (findDominantColors_single_color (repeat teal_pixel 3) 2 50 1
                  rand teal Hrand) as [_ H].
      - lia.
      - rewrite extract_teal. discriminate.
      - rewrite extract_teal. intros s Hs. now apply repeat_spec in Hs.
      - rewrite extract_teal, repeat_length in H.
        destruct (H ltac:(lia) ltac:(lia))
          as (others & its & E & Hlen & Hits & _).
        exists others, its. rewrite E, (clampRgb_byte teal teal_byte).
        split; [reflexivity |]. split; [exact Hlen | lia]. }
  - unfold findDominantColors. rewrite extract_teal. reflexivity.
  - unfold findDominantColors. rewrite extract_teal.
    cbn [repeat length Nat.eqb Nat.leb].
    change [teal; teal; teal] with (repeat teal 3).
    destruct (kMeansPlusPlus_single zero_oracle teal 2 2 0 zero_oracle_ok)
      as (calls & ->).
    cbn [Nat.sub repeat iterate].
    change [teal; teal; teal] with (repeat teal 3).
    rewrite assignToClusters_single. cbn [length repeat].
    change [teal; teal; teal] with (repeat teal 3).
    change [[]] with (repeat (@nil color) 1).
    rewrite calculateCentroids_single, reseeds_zero.
    assert (H1 : checkConvergence [teal; teal] [teal; black]
                   convergenceThreshold = false).
    { unfold checkConvergence, convergenceThreshold.
      cbn [length seq forallb nth].
      rewrite rgbDistance_refl.
      replace (Js.gtb 0 1) with false by (symmetry; apply Js.ltb_false; lra).
      replace (Js.gtb (rgbDistance teal black) 1) with true
        by (symmetry; apply Js.ltb_spec, teal_far_from_black).
      reflexivity. }
    rewrite H1.
    rewrite assignToClusters_single. cbn [length repeat].
    change [teal; teal; teal] with (repeat teal 3).
    change [[]] with (repeat (@nil color) 1).
    rewrite calculateCentroids_single, reseeds_zero.
    assert (H2 : checkConvergence [teal; black] [teal; black]
                   convergenceThreshold = true).
    { unfold checkConvergence, convergenceThreshold.
      cbn [length seq forallb nth].
      rewrite !rgbDistance_refl.
      replace (Js.gtb 0 1) with false by (symmetry; apply Js.ltb_false; lra).
      reflexivity. }
    rewrite H2. cbn [map].
    now rewrite (clampRgb_byte teal teal_byte), (clampRgb_byte black black_byte).
  - unfold teal, black. intros [=]. lra.
Qed.


(** ** The size of the palette *)

Lemma fold_left_Rplus_acc (ds : list R) :
  forall a, fold_left Rplus ds a = a + fold_left Rplus ds 0.
Proof.
  induction ds as [|d ds IH]; intros a; cbn [fold_left]; [lra|].
  rewrite (IH (a + d)), (IH (0 + d)). lra.
Qed.

Lemma fold_left_Rplus_nonneg (ds : list R) :
  Forall (fun d => 0 <= d) ds -> 0 <= fold_left Rplus ds 0.
Proof.
  induction 1 as [|d ds Hd _ IH]; cbn [fold_left]; [lra|].
  rewrite fold_left_Rplus_acc. lra.
Qed.

(** The roulette stops inside a non-empty list when the ticket does not
    exceed the sum of the weights. *)
Lemma roulette_some (ds : list R) :
  ds <> [] ->
  forall random j0,
    random <= fold_left Rplus ds 0 ->
    exists j, roulette ds random j0 = Some j.
Proof.
  induction ds as [|d ds IH]; intros Hne random j0 H; [contradiction|].
  cbn [roulette]. cbv zeta.
  destruct (Js.leb (random - d) 0) eqn:E; [eexists; reflexivity|].
  apply Js.leb_false in E.
  cbn [fold_left] in H. rewrite fold_left_Rplus_acc in H.
  destruct ds as [|d' ds'].
  - cbn [fold_left] in H. lra.
  - apply IH; [discriminate | lra].
Qed.

Lemma plusplus_step_length (samples : list color) (rand : oracle)
  (centroids : list color) (calls : nat) :
  random_ok rand -> samples <> [] -> centroids <> [] ->
  exists centroids' calls',
    plusplus_step samples rand (centroids, calls) = (centroids', calls')
    /\ length centroids' = S (length centroids).
Proof.
  intros Hrand Hs Hc. unfold plusplus_step.
  destruct centroids as [|c0 rest]; [contradiction|]. cbv zeta.
  set (distances := map (fun sample =>
         nearest_centroid_distance sample c0 rest
         * nearest_centroid_distance sample c0 rest) samples).
  assert (Hpos : 0 <= fold_left Rplus distances 0).
  { apply fold_left_Rplus_nonneg. unfold distances. apply Forall_forall.
    intros d Hd. apply in_map_iff in Hd. destruct Hd as (s & <- & _).
    apply Rle_0_sqr. }
  destruct (roulette_some distances) with
    (random := rand calls * fold_left Rplus distances 0) (j0 := 0%nat)
    as (j & E).
  - unfold distances. destruct samples; [contradiction | discriminate].
  - destruct (Hrand calls) as [H0 H1]. nra.
  - rewrite E. eexists _, _. split; [reflexivity|].
    rewrite length_app. cbn [length]. lia.
Qed.

Lemma plusplus_fold_length (samples : list color) (rand : oracle)
  (l : list nat) :
  random_ok rand -> samples <> [] ->
  forall centroids calls,
    centroids <> [] ->
    length (fst (fold_left (fun st _ => plusplus_step samples rand st) l
                   (centroids, calls)))
    = (length centroids + length l)%nat.
Proof.
  intros Hrand Hs. induction l as [|i l IH]; intros centroids calls Hc;
    cbn [fold_left length]; [cbn [fst]; lia|].
  destruct (plusplus_step_length samples rand centroids calls Hrand Hs Hc)
    as (centroids' & calls' & -> & Hlen).
  rewrite IH by (destruct centroids'; [discriminate Hlen | discriminate]).
  lia.
Qed.

Lemma kMeansPlusPlus_length (samples : list color) (k : nat) (rand : oracle)
  (calls : nat) :
  random_ok rand -> samples <> [] ->
  length (fst (kMeansPlusPlus samples k rand calls)) = Nat.max 1 k.
Proof.
  intros Hrand Hs. unfold kMeansPlusPlus. cbv zeta.
  rewrite plusplus_fold_length by (assumption || discriminate).
  rewrite length_seq. cbn [length]. lia.
Qed.

Lemma push_at_length (i : nat) (sample : color) (clusters : list (list color)) :
  length (push_at i sample clusters) = length clusters.
Proof.
  unfold push_at. rewrite <- (firstn_skipn i clusters) at 3.
  rewrite !length_app. f_equal.
  destruct (skipn i clusters); reflexivity.
Qed.

Lemma assign_fold_length (centroids samples : list color) :
  forall clusters,
    length (fold_left (fun clusters sample =>
                         push_at (nearestCluster sample centroids) sample
                           clusters) samples clusters)
    = length clusters.
Proof.
  induction samples as [|s samples IH]; intros clusters; cbn [fold_left];
    [reflexivity|].
  rewrite IH. apply push_at_length.
Qed.

Lemma assignToClusters_length (samples centroids : list color) :
  length (assignToClusters samples centroids) = length centroids.
Proof.
  unfold assignToClusters. rewrite assign_fold_length. apply repeat_length.
Qed.

Lemma calculateCentroids_fold_length (rand : oracle)
  (clusters : list (list color)) :
  forall acc calls,
    length (fst (fold_left (fun st cluster =>
                              let '(c, calls') :=
                                centroid_of rand cluster (snd st) in
                              (fst st ++ [c], calls'))
                   clusters (acc, calls)))
    = (length acc + length clusters)%nat.
Proof.
  induction clusters as [|cl clusters IH]; intros acc calls;
    cbn [fold_left length]; [cbn [fst]; lia|].
  cbn [fst snd]. destruct (centroid_of rand cl calls) as [c calls'].
  rewrite IH, length_app. cbn [length]. lia.
Qed.

Lemma calculateCentroids_length (rand : oracle) (clusters : list (list color))
  (calls : nat) :
  length (fst (calculateCentroids rand clusters calls)) = length clusters.
Proof.
  unfold calculateCentroids. rewrite calculateCentroids_fold_length.
  reflexivity.
Qed.

Lemma iterate_length (rand : oracle) (samples : list color) (budget : nat) :
  forall centroids iteration calls,
    exists final iteration' calls',
      iterate budget rand samples centroids iteration calls
      = (final, iteration', calls')
      /\ length final = length centroids
      /\ (iteration <= iteration' <= iteration + budget)%nat.
Proof.
  induction budget as [|budget IH]; intros centroids iteration calls;
    cbn [iterate].
  - exists centroids, iteration, calls. repeat split; lia.
  - cbv zeta.
    pose proof (calculateCentroids_length rand
                  (assignToClusters samples centroids) calls) as Hlen.
    rewrite assignToClusters_length in Hlen.
    destruct (calculateCentroids rand (assignToClusters samples centroids)
                calls) as [newCentroids calls'].
    cbn [fst] in Hlen.
    destruct (checkConvergence centroids newCentroids convergenceThreshold).
    + exists newCentroids, (S iteration), calls'. repeat split; lia.
    + destruct (IH newCentroids (S iteration) calls')
        as (final & it & calls'' & E & Hl & Hit).
      exists final, it, calls''. split; [exact E|]. split; lia.
Qed.

Lemma clamp_is_byte (v : R) : is_byte (Rmax 0 (Rmin 255 (Js.round v))).
Proof.
  unfold Js.round. set (z := Zfloor (v + / 2)).
  exists (Z.max 0 (Z.min 255 z)). split; [|lia].
  destruct (Z_le_gt_dec z 255) as [H1 | H1].
  - rewrite Rmin_right by (apply IZR_le; exact H1).
    rewrite Z.min_r by lia.
    destruct (Z_le_gt_dec 0 z) as [H0 | H0].
    + rewrite Rmax_right by (apply IZR_le; exact H0).
      rewrite Z.max_r by lia. reflexivity.
    + rewrite Rmax_left by (apply IZR_le; lia).
      rewrite Z.max_l by lia. reflexivity.
  - rewrite Rmin_left by (apply IZR_le; lia).
    rewrite Z.min_l by lia. rewrite Rmax_right by lra.
    rewrite Z.max_r by lia. reflexivity.
Qed.

Lemma clampRgb_is_byte (c : color) : byte_color (clampRgb c).
Proof.
  unfold byte_color, clampRgb. cbn [r g b].
  repeat split; apply clamp_is_byte.
Qed.

(** The palette of [findDominantColors].  Without samples the promise is
    rejected; with at most [numColors] samples it resolves with the samples
    themselves; with more samples it resolves, after at most
    [maxIterations] rounds, with at least one and at most [numColors]
    colours (one colour when [numColors] is 0), each with integer channels
    between 0 and 255.  (In exact arithmetic the number of colours is
    [numColors]; the roulette of the initialisation, when rounding leaves
    it without a pick, adds no centroid.) *)
Theorem findDominantColors_palette (image : list rgba)
  (numColors maxIterations : nat) (sampleRate : R) (rand : oracle) :
  random_ok rand ->
  let samples := extractColorSamples image sampleRate in
  (samples = [] ->
   findDominantColors image numColors maxIterations sampleRate rand
   = Rejected)
  /\ (samples <> [] -> (length samples <= numColors)%nat ->
      findDominantColors image numColors maxIterations sampleRate rand
      = Resolved samples 0)
  /\ ((numColors < length samples)%nat ->
      exists colors iterations,
        findDominantColors image numColors maxIterations sampleRate rand
        = Resolved colors iterations
        /\ (1 <= length colors <= Nat.max 1 numColors)%nat
        /\ Forall byte_color colors
        /\ (iterations <= maxIterations)%nat).
Proof.
  intros Hrand samples. unfold findDominantColors. fold samples. cbv zeta.
  split; [|split].
  - intros ->. reflexivity.
  - intros Hne Hle.
    replace (Nat.eqb (length samples) 0) with false
      by (symmetry; apply Nat.eqb_neq; destruct samples;
          [contradiction | discriminate]).
    replace (Nat.leb (length samples) numColors) with true
      by (symmetry; apply Nat.leb_le; exact Hle).
    rewrite firstn_all2 by exact Hle. reflexivity.
  - intros Hlt.
    assert (Hne : samples <> []) by (destruct samples; [cbn in Hlt; lia
                                                       | discriminate]).
    replace (Nat.eqb (length samples) 0) with false
      by (symmetry; apply Nat.eqb_neq; lia).
    replace (Nat.leb (length samples) numColors) with false
      by (symmetry; apply Nat.leb_gt; exact Hlt).
    pose proof (kMeansPlusPlus_length samples numColors rand 0 Hrand Hne)
      as Hk.
    destruct (kMeansPlusPlus samples numColors rand 0) as [centroids calls].
    cbn [fst] in Hk.
    destruct (iterate_length rand samples maxIterations centroids 0 calls)
      as (final & it & calls' & E & Hl & Hit).
    rewrite E. exists (map clampRgb final), it. split; [reflexivity|].
    split; [rewrite length_map; lia|]. split; [|lia].
    apply Forall_forall. intros c Hc. apply in_map_iff in Hc.
    destruct Hc as (c' & <- & _). apply clampRgb_is_byte.
Qed.

Lemma findDominantColors_palette_witness :
  exists colors iterations,
    findDominantColors (repeat teal_pixel 3) 2 50 1 zero_oracle
    = Resolved colors iterations
    /\ (1 <= length colors <= Nat.max 1 2)%nat
    /\ Forall byte_color colors
    /\ (iterations <= 50)%nat.
Proof.
  apply (proj2 (proj2 (findDominantColors_palette (repeat teal_pixel 3) 2 50
                         1 zero_oracle zero_oracle_ok))).
  rewrite extract_teal, repeat_length. lia.
Defined.


(** ** Assignment to the nearest centroid *)

Lemma nearest_fold_min (sample : color) (l : list (nat * color)) :
  forall d0 i0,
    exists d i,
      fold_left (nearest_step sample) l (Some d0, i0) = (Some d, i)
      /\ d <= d0
      /\ (forall ic, In ic l -> d <= rgbDistance sample (snd ic))
      /\ ((d = d0 /\ i = i0)
          \/ exists c, In (i, c) l /\ d = rgbDistance sample c).
Proof.
  induction l as [|[j c] l IH]; intros d0 i0; cbn [fold_left].
  - exists d0, i0. split; [reflexivity|]. split; [lra|].
    split; [intros ic []|]. left. split; reflexivity.
  - unfold nearest_step at 2. cbn [fst snd Plane.below]. cbv zeta.
    destruct (Js.ltb (rgbDistance sample c) d0) eqn:E.
    + apply Js.ltb_spec in E.
      destruct (IH (rgbDistance sample c) j) as (d & i & Ef & Hle & Hall & Hw).
      exists d, i. split; [exact Ef|]. split; [lra|]. split.
      * intros ic [<- | Hin]; [exact Hle | apply Hall; exact Hin].
      * right. destruct Hw as [[-> ->] | (c' & Hin & Hd)].
        -- exists c. split; [left; reflexivity | reflexivity].
        -- exists c'. split; [right; exact Hin | exact Hd].
    + apply Js.ltb_false in E.
      destruct (IH d0 i0) as (d & i & Ef & Hle & Hall & Hw).
      exists d, i. split; [exact Ef|]. split; [exact Hle|]. split.
      * intros ic [<- | Hin]; [cbn [snd]; lra | apply Hall; exact Hin].
      * destruct Hw as [Hw | (c' & Hin & Hd)]; [left; exact Hw|].
        right. exists c'. split; [right; exact Hin | exact Hd].
Qed.

Lemma in_combine_seq (A : Type) (l : list A) :
  forall (a i : nat) (v : A),
    In (i, v) (combine (seq a (length l)) l) ->
    (a <= i)%nat /\ nth_error l (i - a) = Some v.
Proof.
  induction l as [|h l IH]; intros a i v H; cbn [length seq combine] in H;
    [contradiction|].
  destruct H as [H | H].
  - injection H as <- <-. rewrite Nat.sub_diag. split; [lia | reflexivity].
  - apply IH in H. destruct H as [Ha Hn]. split; [lia|].
    replace (i - a)%nat with (S (i - S a)) by lia. exact Hn.
Qed.

Lemma combine_seq_in (A : Type) (l : list A) :
  forall (a n : nat) (v : A),
    nth_error l n = Some v ->
    In ((a + n)%nat, v) (combine (seq a (length l)) l).
Proof.
  induction l as [|h l IH]; intros a n v H; [destruct n; discriminate|].
  cbn [length seq combine]. destruct n as [|n].
  - injection H as ->. left. f_equal. lia.
  - right. cbn [nth_error] in H. replace (a + S n)%nat with (S a + n)%nat
      by lia. apply IH. exact H.
Qed.

(** The index that the inner loop of [_assignToClusters] ends with is the
    index of a centroid to which no centroid is nearer. *)
Lemma nearestCluster_min (sample : color) (centroids : list color) :
  centroids <> [] ->
  (nearestCluster sample centroids < length centroids)%nat
  /\ forall c, In c centroids ->
       rgbDistance sample
         (nth (nearestCluster sample centroids) centroids black)
       <= rgbDistance sample c.
Proof.
  intros Hne. destruct centroids as [|c0 rest]; [contradiction|].
  destruct (nearest_fold_min sample (combine (seq 1 (length rest)) rest)
              (rgbDistance sample c0) 0)
    as (d & i & Ef & Hle & Hall & Hw).
  assert (E : nearestCluster sample (c0 :: rest) = i).
  { unfold nearestCluster. cbn [length seq combine fold_left].
    unfold nearest_step at 2. cbn [fst snd Plane.below]. cbv zeta.
    rewrite Ef. reflexivity. }
  rewrite E. cbn [length].
  assert (Hi : (i < S (length rest))%nat
               /\ d = rgbDistance sample (nth i (c0 :: rest) black)).
  { destruct Hw as [[-> ->] | (c & Hin & ->)].
    - split; [lia | reflexivity].
    - apply in_combine_seq in Hin. destruct Hin as [Ha Hn].
      assert (Hlt : (i - 1 < length rest)%nat)
        by (apply nth_error_Some; rewrite Hn; discriminate).
      split; [lia|].
      destruct i as [|i]; [lia|]. cbn [nth].
      replace (S i - 1)%nat with i in Hn by lia.
      rewrite (nth_error_nth _ _ black Hn). reflexivity. }
  destruct Hi as [Hi Hd]. split; [exact Hi|].
  rewrite <- Hd. intros c [<- | Hin]; [exact Hle|].
  apply In_nth_error in Hin. destruct Hin as (n & Hn).
  apply (Hall ((1 + n)%nat, c)). apply combine_seq_in. exact Hn.
Qed.

Lemma push_at_concat (i : nat) (sample : color) (clusters : list (list color)) :
  (i < length clusters)%nat ->
  Permutation (concat (push_at i sample clusters))
              (sample :: concat clusters).
Proof.
  intros Hi. unfold push_at.
  rewrite <- (firstn_skipn i clusters) at 3.
  destruct (skipn i clusters) as [|cl rest] eqn:E.
  - exfalso. apply (f_equal (@length _)) in E. rewrite length_skipn in E.
    cbn [length] in E. lia.
  - rewrite !concat_app. cbn [concat].
    symmetry.
    replace (concat (firstn i clusters) ++ (cl ++ [sample]) ++ concat rest)
      with ((concat (firstn i clusters) ++ cl) ++ sample :: concat rest)
      by (rewrite <- !app_assoc; reflexivity).
    apply Permutation_cons_app. rewrite <- app_assoc.
    apply Permutation_refl.
Qed.

Lemma push_at_nth (i j : nat) (sample : color) (clusters : list (list color)) :
  nth j (push_at i sample clusters) []
  = if Nat.eqb i j && Nat.ltb i (length clusters)
    then nth j clusters [] ++ [sample]
    else nth j clusters [].
Proof.
  unfold push_at. revert i j.
  induction clusters as [|cl clusters IH]; intros i j.
  - rewrite firstn_nil, skipn_nil. cbn [app length].
    replace (Nat.ltb i 0) with false by (symmetry; apply Nat.ltb_ge; lia).
    rewrite andb_false_r. reflexivity.
  - destruct i as [|i].
    + cbn [firstn skipn app length]. destruct j as [|j]; reflexivity.
    + cbn [firstn skipn app length]. destruct j as [|j].
      * reflexivity.
      * cbn [nth]. rewrite IH. reflexivity.
Qed.

(** The clusters while the samples are handed out: an entry of cluster [i]
    is a sample seen so far whose nearest centroid has index [i]. *)
Lemma assign_fold_members (centroids samples : list color) :
  forall clusters,
    let clusters' :=
      fold_left (fun clusters sample =>
                   push_at (nearestCluster sample centroids) sample clusters)
                samples clusters in
    forall i s,
      In s (nth i clusters' []) ->
      In s (nth i clusters [])
      \/ (In s samples /\ nearestCluster s centroids = i).
Proof.
  induction samples as [|s0 samples IH]; intros clusters; cbv zeta;
    cbn [fold_left]; intros i s H.
  - left. exact H.
  - apply IH in H. destruct H as [H | [H1 H2]].
    + rewrite push_at_nth in H.
      destruct (Nat.eqb (nearestCluster s0 centroids) i
                && Nat.ltb (nearestCluster s0 centroids) (length clusters))
        eqn:E.
      * apply andb_prop in E. destruct E as [E _]. apply Nat.eqb_eq in E.
        apply in_app_or in H. destruct H as [H | [<- | []]].
        -- left. exact H.
        -- right. split; [left; reflexivity | exact E].
      * left. exact H.
    + right. split; [right; exact H1 | exact H2].
Qed.

Lemma assign_fold_concat (centroids samples : list color) :
  centroids <> [] ->
  forall clusters,
    length clusters = length centroids ->
    Permutation
      (concat (fold_left (fun clusters sample =>
                            push_at (nearestCluster sample centroids) sample
                              clusters) samples clusters))
      (concat clusters ++ samples).
Proof.
  intros Hne. induction samples as [|s samples IH]; intros clusters Hlen;
    cbn [fold_left].
  - rewrite app_nil_r. apply Permutation_refl.
  - rewrite IH by (rewrite push_at_length; exact Hlen).
    etransitivity.
    + apply Permutation_app_tail. apply push_at_concat.
      rewrite Hlen. apply nearestCluster_min. exact Hne.
    + cbn [app]. apply Permutation_middle.
Qed.




(** ** Quantization against a palette *)

Lemma rgbDistance_zero (c1 c2 : color) : rgbDistance c1 c2 = 0 -> c1 = c2.
Proof.
  unfold rgbDistance. cbv zeta.
  destruct c1 as [r1 g1 b1], c2 as [r2 g2 b2]. cbn [r g b]. intros H.
  pose proof (Rle_0_sqr (r1 - r2)) as Hr.
  pose proof (Rle_0_sqr (g1 - g2)) as Hg.
  pose proof (Rle_0_sqr (b1 - b2)) as Hb.
  unfold Rsqr in Hr, Hg, Hb.
  apply sqrt_eq_0 in H; [|lra].
  assert (Er : (r1 - r2) * (r1 - r2) = 0) by lra.
  assert (Eg : (g1 - g2) * (g1 - g2) = 0) by lra.
  assert (Eb : (b1 - b2) * (b1 - b2) = 0) by lra.
  apply Rsqr_0_uniq in Er, Eg, Eb.
  f_equal; lra.
Qed.

Lemma nearest_color_fold (pixel : color) (l : list color) :
  forall d0 c0,
    exists d c,
      fold_left (nearest_color_step pixel) l (Some d0, Some c0)
      = (Some d, Some c)
      /\ d <= d0
      /\ (forall c', In c' l -> d <= rgbDistance pixel c')
      /\ ((d = d0 /\ c = c0) \/ (In c l /\ d = rgbDistance pixel c)).
Proof.
  induction l as [|c1 l IH]; intros d0 c0; cbn [fold_left].
  - exists d0, c0. split; [reflexivity|]. split; [lra|].
    split; [intros c' []|]. left. split; reflexivity.
  - unfold nearest_color_step at 2. cbn [fst Plane.below]. cbv zeta.
    destruct (Js.ltb (rgbDistance pixel c1) d0) eqn:E.
    + apply Js.ltb_spec in E.
      destruct (IH (rgbDistance pixel c1) c1)
        as (d & c & Ef & Hle & Hall & Hw).
      exists d, c. split; [exact Ef|]. split; [lra|]. split.
      * intros c' [<- | Hin]; [exact Hle | apply Hall; exact Hin].
      * right. destruct Hw as [[-> ->] | [Hin Hd]].
        -- split; [left; reflexivity | reflexivity].
        -- split; [right; exact Hin | exact Hd].
    + apply Js.ltb_false in E.
      destruct (IH d0 c0) as (d & c & Ef & Hle & Hall & Hw).
      exists d, c. split; [exact Ef|]. split; [exact Hle|]. split.
      * intros c' [<- | Hin]; [lra | apply Hall; exact Hin].
      * destruct Hw as [Hw | [Hin Hd]]; [left; exact Hw|].
        right. split; [right; exact Hin | exact Hd].
Qed.

(** [_findNearestColor] returns a colour of the palette to which no colour
    of the palette is nearer. *)
Lemma findNearestColor_min (pixel : color) (palette : list color) :
  palette <> [] ->
  exists c,
    findNearestColor pixel palette = Some c
    /\ In c palette
    /\ forall c', In c' palette -> rgbDistance pixel c <= rgbDistance pixel c'.
Proof.
  intros Hne. destruct palette as [|p0 rest]; [contradiction|].
  unfold findNearestColor. cbn [hd_error fold_left].
  unfold nearest_color_step at 2. cbn [fst Plane.below]. cbv zeta.
  destruct (nearest_color_fold pixel rest (rgbDistance pixel p0) p0)
    as (d & c & -> & Hle & Hall & Hw).
  exists c. cbn [snd]. split; [reflexivity|].
  assert (Hd : In c (p0 :: rest) /\ d = rgbDistance pixel c).
  { destruct Hw as [[-> ->] | [Hin Hd]].
    - split; [left; reflexivity | reflexivity].
    - split; [right; exact Hin | exact Hd]. }
  destruct Hd as [Hin Hd]. split; [exact Hin|].
  rewrite <- Hd. intros c' [<- | Hc']; [exact Hle | apply Hall; exact Hc'].
Qed.

Lemma findNearestColor_member (c : color) (palette : list color) :
  In c palette -> findNearestColor c palette = Some c.
Proof.
  intros Hin.
  destruct (findNearestColor_min c palette) as (c' & E & _ & Hmin).
  - intros ->. contradiction.
  - rewrite E. f_equal. symmetry. apply rgbDistance_zero.
    pose proof (Hmin c Hin) as H. rewrite rgbDistance_refl in H.
    pose proof (rgbDistance_nonneg c c'). lra.
Qed.

Lemma toUint8Clamp_byte (v : R) : is_byte v -> toUint8Clamp v = v.
Proof.
  intros (z & -> & Hz). unfold toUint8Clamp.
  destruct (Js.leb (IZR z) 0) eqn:E0.
  - apply Js.leb_spec in E0. apply le_IZR in E0.
    replace z with 0%Z by lia. reflexivity.
  - apply Js.leb_false in E0.
    destruct (Js.leb 255 (IZR z)) eqn:E1.
    + apply Js.leb_spec in E1. apply le_IZR in E1.
      replace z with 255%Z by lia. reflexivity.
    + cbv zeta. unfold Js.floor. rewrite ZfloorZ.
      replace (Js.ltb (IZR z + / 2) (IZR z)) with false
        by (symmetry; apply Js.ltb_false; lra).
      replace (Js.ltb (IZR z) (IZR z + / 2)) with true
        by (symmetry; apply Js.ltb_spec; lra).
      reflexivity.
Qed.

(** What one output pixel is to its input pixel. *)
Definition quantized (palette : list color) (p q : rgba) : Prop :=
  alpha q = alpha p
  /\ In (color_of q) palette
  /\ forall c, In c palette ->
       rgbDistance (color_of p) (color_of q) <= rgbDistance (color_of p) c.

Lemma quantize_pixel_spec (palette : list color) (p : rgba) :
  palette <> [] -> Forall byte_color palette -> is_byte (alpha p) ->
  exists q,
    quantize_pixel palette p = Some q
    /\ quantized palette p q
    /\ quantize_pixel palette q = Some q.
Proof.
  intros Hne Hbytes Ha. unfold quantize_pixel. cbv zeta.
  destruct (findNearestColor_min (mkColor (red p) (green p) (blue p)) palette
              Hne) as (c & E & Hin & Hmin).
  rewrite E.
  destruct (proj1 (Forall_forall _ _) Hbytes c Hin) as (Hr & Hg & Hb).
  rewrite !toUint8Clamp_byte by assumption.
  eexists. split; [reflexivity|]. split.
  - unfold quantized, color_of. cbn [red green blue alpha].
    destruct c as [cr cg cb]. cbn [r g b] in *.
    split; [reflexivity|]. split; [exact Hin | exact Hmin].
  - cbn [red green blue alpha].
    destruct c as [cr cg cb]. cbn [r g b] in *.
    rewrite (findNearestColor_member (mkColor cr cg cb) palette Hin).
    cbn [r g b]. rewrite !toUint8Clamp_byte by assumption. reflexivity.
Qed.

(** [quantizeImage] on an image of byte pixels.  With an empty palette the
    call throws unless the image has no pixel.  With a palette of byte
    colours it returns an image of the same size in which every pixel keeps
    its alpha and takes a palette colour to which no palette colour is
    nearer; quantizing the result again changes nothing. *)
Theorem quantizeImage_palette (image : list rgba) (palette : list color) :
  (palette = [] -> image <> [] -> quantizeImage image palette = None)
  /\ (palette <> [] -> Forall byte_color palette -> Forall byte_pixel image ->
      exists out,
        quantizeImage image palette = Some out
        /\ Forall2 (quantized palette) image out
        /\ quantizeImage out palette = Some out).
Proof.
  split.
  - intros -> Hne. destruct image as [|p rest]; [contradiction|].
    reflexivity.
  - intros Hne Hbytes Himg.
    induction Himg as [|p rest Hp _ IH].
    + exists []. repeat split; constructor.
    + destruct IH as (qs & E & HF & Eq).
      destruct (quantize_pixel_spec palette p Hne Hbytes)
        as (q & Ep & Hq & Eqq); [apply Hp|].
      exists (q :: qs). cbn [quantizeImage]. rewrite Ep, E.
      split; [reflexivity|]. split; [constructor; assumption|].
      rewrite Eqq, Eq. reflexivity.
Qed.

Lemma quantizeImage_palette_witness :
  exists out,
    quantizeImage [teal_pixel] [black; teal] = Some out
    /\ Forall2 (quantized [black; teal]) [teal_pixel] out
    /\ quantizeImage out [black; teal] = Some out.
Proof.
  apply (proj2 (quantizeImage_palette [teal_pixel] [black; teal])).
  - discriminate.
  - apply Forall_cons; [exact black_byte|].
    apply Forall_cons; [exact teal_byte | apply Forall_nil].
  - apply Forall_cons; [|apply Forall_nil].
    unfold byte_pixel, teal_pixel. cbn [red green blue alpha].
    split; [|split; [|split]];
      [exists 10%Z | exists 20%Z | exists 30%Z | exists 255%Z];
      (split; [reflexivity | lia]).
Defined.

End KMeansFacts.

(** ** Edge detector: thinning and hysteresis ([algorithms/edgeDetection.js]) *)

Module EdgeDetection.

(** [array[i] = v] on a typed array: a write outside the array is ignored. *)
Fixpoint set_nth {A : Type} (i : nat) (v : A) (l : list A) : list A :=
  match l, i with
  | [], _ => []
  | _ :: l', O => v :: l'
  | a :: l', S i' => a :: set_nth i' v l'
  end.

(** The pixels [(x, y)] that the loops
    [for (y = 1; y < height - 1; y++) for (x = 1; x < width - 1; x++)]
    visit, in the order of the visits. *)
Definition inner_pixels (width height : nat) : list (nat * nat) :=
  flat_map (fun y => map (fun x => (x, y)) (seq 1 (width - 1 - 1)))
           (seq 1 (height - 1 - 1)).

(** The body of the loops of [_nonMaximumSuppression]. *)
Definition suppress_at (magnitude direction : list R) (width : nat)
  (suppressed : list R) (xy : nat * nat) : list R :=
  let '(x, y) := xy in
  let idx := (y * width + x)%nat in
  let angle := nth idx direction 0 * (180 / PI) in
  let mag := nth idx magnitude 0 in
  let normalizedAngle := if Js.ltb angle 0 then angle + 180 else angle in
  let '(neighbor1, neighbor2) :=
    if (Js.geb normalizedAngle 0 && Js.ltb normalizedAngle (225 / 10))
       || (Js.geb normalizedAngle (1575 / 10) && Js.leb normalizedAngle 180)
    then (nth (idx - 1) magnitude 0, nth (idx + 1) magnitude 0)
    else if Js.geb normalizedAngle (225 / 10)
            && Js.ltb normalizedAngle (675 / 10)
    then (nth ((y - 1) * width + (x + 1)) magnitude 0,
          nth ((y + 1) * width + (x - 1)) magnitude 0)
    else if Js.geb normalizedAngle (675 / 10)
            && Js.ltb normalizedAngle (1125 / 10)
    then (nth ((y - 1) * width + x) magnitude 0,
          nth ((y + 1) * width + x) magnitude 0)
    else (nth ((y - 1) * width + (x - 1)) magnitude 0,
          nth ((y + 1) * width + (x + 1)) magnitude 0) in
  if Js.geb mag neighbor1 && Js.geb mag neighbor2
  then set_nth idx mag suppressed
  else set_nth idx 0 suppressed.

(** [_nonMaximumSuppression(magnitude, direction, width, height)]. *)
Definition nonMaximumSuppression (magnitude direction : list R)
  (width height : nat) : list R :=
  fold_left (suppress_at magnitude direction width)
            (inner_pixels width height) (repeat 0 (width * height)).

Definition STRONG : Z := 255%Z.
Definition WEAK : Z := 128%Z.

(** The double threshold, entry [i]. *)
Definition threshold_at (magnitude : list R) (lowThreshold highThreshold : R)
  (edges : list Z) (i : nat) : list Z :=
  if Js.geb (nth i magnitude 0) highThreshold then set_nth i STRONG edges
  else if Js.geb (nth i magnitude 0) lowThreshold then set_nth i WEAK edges
  else set_nth i 0%Z edges.

(** Edge tracking, pixel [(x, y)]: a weak pixel is promoted when one of its
    eight neighbours is strong at that moment. *)
Definition track_at (width : nat) (edges : list Z) (xy : nat * nat) : list Z :=
  let '(x, y) := xy in
  let idx := (y * width + x)%nat in
  let at_ (i : nat) := nth i edges 0%Z in
  if Z.eqb (at_ idx) WEAK then
    let hasStrongNeighbor :=
      Z.eqb (at_ ((y - 1) * width + (x - 1))%nat) STRONG
      || Z.eqb (at_ ((y - 1) * width + x)%nat) STRONG
      || Z.eqb (at_ ((y - 1) * width + (x + 1))%nat) STRONG
      || Z.eqb (at_ (y * width + (x - 1))%nat) STRONG
      || Z.eqb (at_ (y * width + (x + 1))%nat) STRONG
      || Z.eqb (at_ ((y + 1) * width + (x - 1))%nat) STRONG
      || Z.eqb (at_ ((y + 1) * width + x)%nat) STRONG
      || Z.eqb (at_ ((y + 1) * width + (x + 1))%nat) STRONG in
    set_nth idx (if hasStrongNeighbor then STRONG else 0%Z) edges
  else edges.

(** The last loop: weak pixels that were not promoted become 0. *)
Definition clear_weak (edges : list Z) : list Z :=
  map (fun v => if Z.eqb v WEAK then 0%Z else v) edges.

(** [_hysteresis(magnitude, width, height, lowThreshold, highThreshold)]. *)
Definition hysteresis (magnitude : list R) (width height : nat)
  (lowThreshold highThreshold : R) : list Z :=
  let edges0 := repeat 0%Z (width * height) in
  let edges1 :=
    fold_left (threshold_at magnitude lowThreshold highThreshold)
              (seq 0 (length magnitude)) edges0 in
  let edges2 := fold_left (track_at width) (inner_pixels width height) edges1 in
  clear_weak edges2.

(** Steps 4 and 5 of [detectEdges], from the gradient of step 3 on. *)
Definition edges_of_gradient (magnitude direction : list R)
  (width height : nat) (lowThreshold highThreshold : R) : list Z :=
  hysteresis (nonMaximumSuppression magnitude direction width height)
             width height lowThreshold highThreshold.

(** The pixel [(x, y)] lies in the first or last row or column. *)
Definition border (width height x y : nat) : Prop :=
  (x < width)%nat /\ (y < height)%nat
  /\ (x = 0 \/ y = 0 \/ x = width - 1 \/ y = height - 1)%nat.

End EdgeDetection.

Module EdgeDetectionFacts.
Import EdgeDetection.

Lemma set_nth_length {A : Type} (i : nat) (v : A) (l : list A) :
  length (set_nth i v l) = length l.
Proof.
  revert i. induction l as [| a l IH]; intros [| i]; simpl; auto.
Qed.

Lemma nth_set_nth_other {A : Type} (i j : nat) (v d : A) (l : list A) :
  i <> j -> nth j (set_nth i v l) d = nth j l d.
Proof.
  revert i j. induction l as [| a l IH]; intros [| i] [| j] H; simpl;
    try reflexivity; try lia.
  apply IH. lia.
Qed.

Lemma nth_set_nth_same {A : Type} (i : nat) (v d : A) (l : list A) :
  (i < length l)%nat -> nth i (set_nth i v l) d = v.
Proof.
  revert i. induction l as [| a l IH]; intros [| i] H; simpl in *;
    try reflexivity; try lia.
  apply IH. lia.
Qed.

(** A pixel of the border and a pixel of the inside have different
    indices. *)
Lemma in_inner_pixels (width height x y : nat) :
  In (x, y) (inner_pixels width height) ->
  (1 <= x < width - 1)%nat /\ (1 <= y < height - 1)%nat.
Proof.
  unfold inner_pixels. rewrite in_flat_map. intros (y' & Hy & H).
  apply in_map_iff in H. destruct H as (x' & E & Hx).
  injection E as -> ->. apply in_seq in Hx, Hy. lia.
Qed.

Lemma index_injective (width x y x' y' : nat) :
  (x < width)%nat -> (x' < width)%nat ->
  (y * width + x = y' * width + x')%nat -> x = x' /\ y = y'.
Proof.
  intros Hx Hx' E.
  assert (y = y') by nia. subst. lia.
Qed.

Lemma border_not_inner (width height x y x' y' : nat) :
  border width height x y -> In (x', y') (inner_pixels width height) ->
  (y' * width + x' <> y * width + x)%nat.
Proof.
  intros (Hx & Hy & Hb) Hin E. apply in_inner_pixels in Hin.
  apply index_injective in E; lia.
Qed.

(** *** The loops leave the border alone *)

Lemma suppress_at_write magnitude direction width suppressed x y :
  exists v,
    suppress_at magnitude direction width suppressed (x, y)
    = set_nth (y * width + x) v suppressed.
Proof.
  unfold suppress_at. cbv zeta.
  repeat match goal with
         | |- context [if ?c then _ else _] => destruct c
         end; eexists; reflexivity.
Qed.

Lemma suppress_at_other magnitude direction width suppressed x y j :
  (y * width + x <> j)%nat ->
  nth j (suppress_at magnitude direction width suppressed (x, y)) 0
  = nth j suppressed 0.
Proof.
  intros H.
  destruct (suppress_at_write magnitude direction width suppressed x y)
    as (v & ->).
  now apply nth_set_nth_other.
Qed.

Lemma suppress_fold_other magnitude direction width (l : list (nat * nat)) j :
  forall suppressed,
    (forall x y, In (x, y) l -> (y * width + x <> j)%nat) ->
    nth j (fold_left (suppress_at magnitude direction width) l suppressed) 0
    = nth j suppressed 0.
Proof.
  induction l as [| [x y] l IH]; intros suppressed H; cbn [fold_left];
    [reflexivity |].
  rewrite IH by (intros; apply H; now right).
  apply suppress_at_other. apply H. now left.
Qed.

Lemma suppress_fold_length magnitude direction width (l : list (nat * nat)) :
  forall suppressed,
    length (fold_left (suppress_at magnitude direction width) l suppressed)
    = length suppressed.
Proof.
  induction l as [| [x y] l IH]; intros suppressed; cbn [fold_left];
    [reflexivity |].
  rewrite IH.
  destruct (suppress_at_write magnitude direction width suppressed x y)
    as (v & ->).
  apply set_nth_length.
Qed.

Lemma nonMaximumSuppression_length magnitude direction width height :
  length (nonMaximumSuppression magnitude direction width height)
  = (width * height)%nat.
Proof.
  unfold nonMaximumSuppression. now rewrite suppress_fold_length, repeat_length.
Qed.

(** The thinned magnitude is 0 on the border. *)
Lemma nonMaximumSuppression_border magnitude direction width height x y :
  border width height x y ->
  nth (y * width + x) (nonMaximumSuppression magnitude direction width height) 0
  = 0.
Proof.
  intros Hb. unfold nonMaximumSuppression.
  rewrite suppress_fold_other.
  - apply nth_repeat.
  - intros x' y' Hin. now apply (border_not_inner width height x y).
Qed.

Lemma track_at_other width edges x y j :
  (y * width + x <> j)%nat ->
  nth j (track_at width edges (x, y)) 0%Z = nth j edges 0%Z.
Proof.
  intros H. unfold track_at.
  destruct (Z.eqb _ WEAK); [| reflexivity].
  now apply nth_set_nth_other.
Qed.

Lemma track_fold_other width (l : list (nat * nat)) j :
  forall edges,
    (forall x y, In (x, y) l -> (y * width + x <> j)%nat) ->
    nth j (fold_left (track_at width) l edges) 0%Z = nth j edges 0%Z.
Proof.
  induction l as [| [x y] l IH]; intros edges H; cbn [fold_left];
    [reflexivity |].
  rewrite IH by (intros; apply H; now right).
  apply track_at_other. apply H. now left.
Qed.

(** The double threshold writes each entry once. *)
Definition classify (v lowThreshold highThreshold : R) : Z :=
  if Js.geb v highThreshold then STRONG
  else if Js.geb v lowThreshold then WEAK else 0%Z.

Lemma threshold_at_spec magnitude lo hi edges i j :
  (i < length edges)%nat ->
  nth j (threshold_at magnitude lo hi edges i) 0%Z
  = if Nat.eqb i j then classify (nth i magnitude 0) lo hi
    else nth j edges 0%Z.
Proof.
  intros Hi. unfold threshold_at, classify.
  destruct (Nat.eqb i j) eqn:E.
  - apply Nat.eqb_eq in E. subst j.
    destruct (Js.geb _ hi); [| destruct (Js.geb _ lo)];
      now apply nth_set_nth_same.
  - apply Nat.eqb_neq in E.
    destruct (Js.geb _ hi); [| destruct (Js.geb _ lo)];
      now apply nth_set_nth_other.
Qed.

Lemma threshold_at_length magnitude lo hi edges i :
  length (threshold_at magnitude lo hi edges i) = length edges.
Proof.
  unfold threshold_at.
  destruct (Js.geb _ hi); [| destruct (Js.geb _ lo)]; apply set_nth_length.
Qed.

Lemma threshold_fold_spec magnitude lo hi (n : nat) :
  forall (a : nat) (edges : list Z) (j : nat),
    (a + n <= length edges)%nat ->
    nth j (fold_left (threshold_at magnitude lo hi) (seq a n) edges) 0%Z
    = if Nat.leb a j && Nat.ltb j (a + n)
      then classify (nth j magnitude 0) lo hi
      else nth j edges 0%Z.
Proof.
  induction n as [| n IH]; intros a edges j Hlen; cbn [seq fold_left].
  - replace (Nat.leb a j && Nat.ltb j (a + 0)) with false; [reflexivity |].
    symmetry. apply andb_false_iff.
    destruct (le_lt_dec a j); [right; apply Nat.ltb_ge; lia
                              | left; apply Nat.leb_gt; lia].
  - rewrite IH by (rewrite threshold_at_length; lia).
    rewrite threshold_at_spec by lia.
    destruct (Nat.eqb a j) eqn:E.
    + apply Nat.eqb_eq in E. subst j.
      replace (Nat.leb (S a) a) with false by (symmetry; apply Nat.leb_gt; lia).
      replace (Nat.leb a a) with true by (symmetry; apply Nat.leb_le; lia).
      replace (Nat.ltb a (a + S n)) with true
        by (symmetry; apply Nat.ltb_lt; lia).
      reflexivity.
    + apply Nat.eqb_neq in E.
      replace (a + S n)%nat with (S a + n)%nat by lia.
      destruct (Nat.leb (S a) j) eqn:E1, (Nat.leb a j) eqn:E2; try reflexivity.
      * apply Nat.leb_le in E1. apply Nat.leb_gt in E2. lia.
      * apply Nat.leb_gt in E1. apply Nat.leb_le in E2. lia.
Qed.

Lemma nth_clear_weak (edges : list Z) (j : nat) :
  nth j (clear_weak edges) 0%Z
  = if Z.eqb (nth j edges 0%Z) WEAK then 0%Z else nth j edges 0%Z.
Proof.
  unfold clear_weak.
  exact (map_nth (fun v => if Z.eqb v WEAK then 0%Z else v) edges 0%Z j).
Qed.

(** The value of the edge mask at a border pixel depends on the thresholds
    alone: the thinned magnitude there is 0. *)
Lemma edges_border_value magnitude direction width height lo hi x y :
  border width height x y ->
  nth (y * width + x)
      (edges_of_gradient magnitude direction width height lo hi) 0%Z
  = if Js.geb 0 hi then STRONG else 0%Z.
Proof.
  intros Hb. unfold edges_of_gradient, hysteresis.
  assert (Hidx : (y * width + x < width * height)%nat).
  { destruct Hb as (Hx & Hy & _). nia. }
  cbv zeta. rewrite nth_clear_weak.
  rewrite track_fold_other
    by (intros x' y' Hin; now apply (border_not_inner width height x y)).
  rewrite nonMaximumSuppression_length.
  rewrite threshold_fold_spec by (rewrite repeat_length; lia).
  replace (Nat.leb 0 (y * width + x) && Nat.ltb (y * width + x)
             (0 + width * height)) with true
    by (symmetry; apply andb_true_iff; split;
        [apply Nat.leb_le; lia | apply Nat.ltb_lt; lia]).
  rewrite nonMaximumSuppression_border by exact Hb.
  unfold classify.
  destruct (Js.geb 0 hi); [reflexivity |].
  destruct (Js.geb 0 lo); reflexivity.
Qed.

(** C9 (amended). For every gradient, every image size and every pair of
    thresholds of which the high one is positive, the edge mask is 0 at every
    border pixel. *)
Theorem border_never_edge magnitude direction width height lo hi x y :
  0 < hi ->
  border width height x y ->
  nth (y * width + x)
      (edges_of_gradient magnitude direction width height lo hi) 0%Z = 0%Z.
Proof.
  intros Hhi Hb. rewrite edges_border_value by exact Hb.
  replace (Js.geb 0 hi) with false by (symmetry; apply Js.leb_false; lra).
  reflexivity.
Qed.

Lemma border_never_edge_witness :
  nth (0 * 3 + 0)
      (edges_of_gradient (repeat 0 9) (repeat 0 9) 3 3 50 100) 0%Z = 0%Z.
Proof.
  apply (border_never_edge (repeat 0 9) (repeat 0 9) 3 3 50 100 0 0).
  - lra.
  - unfold border. lia.
Defined.

(** C9 (as stated) fails.  With both thresholds 0, which lies in [0, 255],
    the corner pixel of a 3 x 3 image without any gradient is classified as
    an edge: the double threshold marks every pixel whose magnitude is at
    least the high threshold, and the magnitude of a border pixel is 0. *)
Lemma border_edge_at_zero_threshold :
  border 3 3 0 0
  /\ nth (0 * 3 + 0)
       (edges_of_gradient (repeat 0 9) (repeat 0 9) 3 3 0 0) 0%Z = 255%Z.
Proof.
  assert (Hb : border 3 3 0 0) by (unfold border; lia).
  split; [exact Hb |].
  rewrite edges_border_value by exact Hb.
  replace (Js.geb 0 0) with true by (symmetry; apply Js.leb_spec; lra).
  reflexivity.
Qed.


(** ** The edge mask of the hysteresis step *)

(** The indices that the tracking loop reads around pixel [(x, y)]. *)
Definition around (width x y : nat) : list nat :=
  [((y - 1) * width + (x - 1))%nat; ((y - 1) * width + x)%nat;
   ((y - 1) * width + (x + 1))%nat; (y * width + (x - 1))%nat;
   (y * width + (x + 1))%nat; ((y + 1) * width + (x - 1))%nat;
   ((y + 1) * width + x)%nat; ((y + 1) * width + (x + 1))%nat].

Lemma track_at_cases (width : nat) (edges : list Z) (x y : nat) :
  track_at width edges (x, y) = edges
  \/ (nth (y * width + x) edges 0%Z = WEAK
      /\ (track_at width edges (x, y) = set_nth (y * width + x) 0%Z edges
          \/ (track_at width edges (x, y)
              = set_nth (y * width + x) STRONG edges
              /\ exists k, In k (around width x y)
                           /\ nth k edges 0%Z = STRONG))).
Proof.
  unfold track_at. cbv zeta.
  destruct (Z.eqb (nth (y * width + x) edges 0%Z) WEAK) eqn:Ew;
    [|left; reflexivity].
  right. apply Z.eqb_eq in Ew. split; [exact Ew|].
  match goal with
  | |- context [if ?b then STRONG else 0%Z] => destruct b eqn:Eb
  end; [|left; reflexivity].
  right. split; [reflexivity|].
  unfold around.
  repeat (apply orb_prop in Eb; destruct Eb as [Eb | Eb]);
    apply Z.eqb_eq in Eb; eexists; (split; [|exact Eb]); cbn [In]; tauto.
Qed.

(** What the tracking loop does to an edge array: strong and empty entries
    stay, a weak entry stays weak, is cleared, or is promoted next to an
    entry that is strong at the end. *)
Lemma track_fold_effect (width : nat) (l : list (nat * nat)) :
  forall edges : list Z,
    let edges' := fold_left (track_at width) l edges in
    length edges' = length edges
    /\ forall j,
        (nth j edges 0%Z <> WEAK -> nth j edges' 0%Z = nth j edges 0%Z)
        /\ (nth j edges 0%Z = WEAK ->
            nth j edges' 0%Z = WEAK \/ nth j edges' 0%Z = 0%Z
            \/ (nth j edges' 0%Z = STRONG
                /\ exists x y k,
                    In (x, y) l /\ j = (y * width + x)%nat
                    /\ In k (around width x y)
                    /\ nth k edges' 0%Z = STRONG)).
Proof.
  induction l as [|[x y] l IH]; intros edges; cbv zeta; cbn [fold_left].
  - split; [reflexivity|]. intros j. split; [reflexivity|]. intros H.
    left. exact H.
  - specialize (IH (track_at width edges (x, y))). cbv zeta in IH.
    destruct IH as [Hlen IH].
    destruct (track_at_cases width edges x y)
      as [E | [Hw [E | [E (k & Hk & Hs)]]]]; rewrite E in *.
    + split; [exact Hlen|]. intros j. destruct (IH j) as [I1 I2].
      split; [exact I1|]. intros H. destruct (I2 H) as [R | [R | R]].
      * left. exact R.
      * right. left. exact R.
      * right. right. destruct R as (R & x' & y' & k' & Hin & Hj & Hk' & Hs').
        split; [exact R|]. exists x', y', k'.
        split; [right; exact Hin|]. repeat split; assumption.
    + rewrite set_nth_length in Hlen. split; [exact Hlen|].
      assert (Hidx : (y * width + x < length edges)%nat).
      { destruct (lt_dec (y * width + x) (length edges)) as [H|H];
          [exact H|].
        rewrite nth_overflow in Hw by lia. discriminate. }
      intros j. destruct (IH j) as [I1 I2].
      destruct (Nat.eq_dec (y * width + x) j) as [<- | Hne].
      * rewrite nth_set_nth_same in I1 by exact Hidx.
        split; [intros H; contradiction|]. intros _.
        right. left. apply I1. discriminate.
      * rewrite nth_set_nth_other in I1, I2 by exact Hne.
        split; [exact I1|]. intros H. destruct (I2 H) as [R | [R | R]].
        -- left. exact R.
        -- right. left. exact R.
        -- right. right.
           destruct R as (R & x' & y' & k' & Hin & Hj & Hk' & Hs').
           split; [exact R|]. exists x', y', k'.
           split; [right; exact Hin|]. repeat split; assumption.
    + rewrite set_nth_length in Hlen. split; [exact Hlen|].
      assert (Hidx : (y * width + x < length edges)%nat).
      { destruct (lt_dec (y * width + x) (length edges)) as [H|H];
          [exact H|].
        rewrite nth_overflow in Hw by lia. discriminate. }
      assert (Hkne : (y * width + x)%nat <> k).
      { intros <-. rewrite Hw in Hs. discriminate. }
      intros j. destruct (IH j) as [I1 I2].
      destruct (Nat.eq_dec (y * width + x) j) as [<- | Hne].
      * rewrite nth_set_nth_same in I1 by exact Hidx.
        split; [intros H; contradiction|]. intros _.
        right. right. split; [apply I1; discriminate|].
        exists x, y, k. split; [left; reflexivity|].
        split; [reflexivity|]. split; [exact Hk|].
        destruct (IH k) as [K1 _].
        rewrite nth_set_nth_other in K1 by exact Hkne.
        rewrite K1; [exact Hs | rewrite Hs; discriminate].
      * rewrite nth_set_nth_other in I1, I2 by exact Hne.
        split; [exact I1|]. intros H. destruct (I2 H) as [R | [R | R]].
        -- left. exact R.
        -- right. left. exact R.
        -- right. right.
           destruct R as (R & x' & y' & k' & Hin & Hj & Hk' & Hs').
           split; [exact R|]. exists x', y', k'.
           split; [right; exact Hin|]. repeat split; assumption.
Qed.

Lemma threshold_fold_length magnitude lo hi (l : list nat) :
  forall edges : list Z,
    length (fold_left (threshold_at magnitude lo hi) l edges) = length edges.
Proof.
  induction l as [|i l IH]; intros edges; cbn [fold_left]; [reflexivity|].
  rewrite IH. apply threshold_at_length.
Qed.

(** The entries of the mask that [_hysteresis] returns. *)
Lemma hysteresis_entries (magnitude : list R) (width height : nat)
  (lowThreshold highThreshold : R) (j : nat) :
  length magnitude = (width * height)%nat ->
  (j < width * height)%nat ->
  let edges := hysteresis magnitude width height lowThreshold highThreshold in
  let mag := nth j magnitude 0 in
  length edges = (width * height)%nat
  /\ (nth j edges 0%Z = 0%Z \/ nth j edges 0%Z = 255%Z)
  /\ (highThreshold <= mag -> nth j edges 0%Z = 255%Z)
  /\ (mag < highThreshold -> mag < lowThreshold -> nth j edges 0%Z = 0%Z)
  /\ (mag < highThreshold -> nth j edges 0%Z = 255%Z ->
      lowThreshold <= mag
      /\ exists x y k,
          (1 <= x < width - 1)%nat /\ (1 <= y < height - 1)%nat
          /\ j = (y * width + x)%nat
          /\ In k (around width x y)
          /\ nth k edges 0%Z = 255%Z).
Proof.
  intros Hlen Hj. cbv zeta. unfold hysteresis. cbv zeta.
  set (edges1 := fold_left (threshold_at magnitude lowThreshold highThreshold)
                   (seq 0 (length magnitude)) (repeat 0%Z (width * height))).
  destruct (track_fold_effect width (inner_pixels width height) edges1)
    as [Hl2 Ht].
  set (edges2 := fold_left (track_at width) (inner_pixels width height)
                   edges1) in *.
  assert (Hl1 : length edges1 = (width * height)%nat).
  { unfold edges1. rewrite threshold_fold_length. apply repeat_length. }
  assert (H1 : nth j edges1 0%Z
               = classify (nth j magnitude 0) lowThreshold highThreshold).
  { unfold edges1. rewrite threshold_fold_spec
      by (rewrite repeat_length; lia).
    replace (Nat.leb 0 j && Nat.ltb j (0 + length magnitude)) with true
      by (symmetry; apply andb_true_iff; split;
          [apply Nat.leb_le; lia | apply Nat.ltb_lt; lia]).
    reflexivity. }
  assert (Hclear : forall k, nth k edges2 0%Z = STRONG ->
                             nth k (clear_weak edges2) 0%Z = 255%Z).
  { intros k Hk. rewrite nth_clear_weak, Hk. reflexivity. }
  split.
  { unfold clear_weak. rewrite length_map. lia. }
  destruct (Ht j) as [Hkeep Hweak]. rewrite H1 in Hkeep, Hweak.
  rewrite nth_clear_weak.
  unfold classify in Hkeep, Hweak.
  destruct (Js.geb (nth j magnitude 0) highThreshold) eqn:Ehi.
  - apply Js.leb_spec in Ehi.
    rewrite Hkeep by discriminate. cbn [Z.eqb STRONG WEAK Pos.eqb].
    split; [right; reflexivity|]. split; [reflexivity|].
    split; [intros; lra|]. intros; lra.
  - apply Js.leb_false in Ehi.
    destruct (Js.geb (nth j magnitude 0) lowThreshold) eqn:Elo.
    + apply Js.leb_spec in Elo.
      destruct (Hweak eq_refl) as [R | [R | R]].
      * rewrite R. cbn [Z.eqb WEAK Pos.eqb].
        split; [left; reflexivity|]. split; [intros; lra|].
        split; [reflexivity|]. intros _ H. discriminate.
      * rewrite R. cbn [Z.eqb WEAK].
        split; [left; reflexivity|]. split; [intros; lra|].
        split; [reflexivity|]. intros _ H. discriminate.
      * destruct R as (R & x & y & k & Hin & Ej & Hk & Hs).
        rewrite R. cbn [Z.eqb STRONG WEAK Pos.eqb].
        split; [right; reflexivity|]. split; [reflexivity|].
        split; [intros; lra|]. intros _ _. split; [exact Elo|].
        apply in_inner_pixels in Hin.
        exists x, y, k. split; [tauto|]. split; [tauto|].
        split; [exact Ej|]. split; [exact Hk|]. apply Hclear. exact Hs.
    + apply Js.leb_false in Elo.
      rewrite Hkeep by discriminate. cbn [Z.eqb WEAK].
      split; [left; reflexivity|]. split; [intros; lra|].
      split; [reflexivity|]. intros _ H. discriminate.
Qed.

(** [_hysteresis] returns a binary mask of the size of the image.  A pixel
    whose magnitude reaches the high threshold is always an edge (255); a
    pixel below both thresholds never is; any other edge pixel lies inside
    the image, has a magnitude of at least the low threshold, and touches a
    pixel that is an edge in the result. *)
Theorem hysteresis_mask (magnitude : list R) (width height : nat)
  (lowThreshold highThreshold : R) (j : nat) :
  length magnitude = (width * height)%nat ->
  (j < width * height)%nat ->
  let edges := hysteresis magnitude width height lowThreshold highThreshold in
  let mag := nth j magnitude 0 in
  length edges = (width * height)%nat
  /\ (nth j edges 0%Z = 0%Z \/ nth j edges 0%Z = 255%Z)
  /\ (highThreshold <= mag -> nth j edges 0%Z = 255%Z)
  /\ (mag < highThreshold -> mag < lowThreshold -> nth j edges 0%Z = 0%Z)
  /\ (mag < highThreshold -> nth j edges 0%Z = 255%Z ->
      lowThreshold <= mag
      /\ exists x y k,
          (1 <= x < width - 1)%nat /\ (1 <= y < height - 1)%nat
          /\ j = (y * width + x)%nat
          /\ In k (around width x y)
          /\ nth k edges 0%Z = 255%Z).
Proof.
  exact (hysteresis_entries magnitude width height lowThreshold
           highThreshold j).
Qed.

Lemma hysteresis_mask_witness :
  nth 4 (hysteresis [0; 0; 0; 0; 100; 0; 0; 0; 0] 3 3 50 100) 0%Z = 255%Z.
Proof.
  apply (hysteresis_mask [0; 0; 0; 0; 100; 0; 0; 0; 0] 3 3 50 100 4).
  - reflexivity.
  - cbn. lia.
  - cbn. lra.
Defined.


(** ** Thinning and the thresholds together *)

Lemma suppress_at_value magnitude direction width suppressed x y :
  exists v,
    suppress_at magnitude direction width suppressed (x, y)
    = set_nth (y * width + x) v suppressed
    /\ (v = 0 \/ v = nth (y * width + x) magnitude 0).
Proof.
  unfold suppress_at. cbv zeta.
  repeat match goal with
         | |- context [if ?c then _ else _] => destruct c
         end; eexists; (split; [reflexivity|]); auto.
Qed.

Lemma suppress_fold_value magnitude direction width (l : list (nat * nat)) :
  forall suppressed,
    (forall j, nth j suppressed 0 = 0
               \/ nth j suppressed 0 = nth j magnitude 0) ->
    forall j,
      nth j (fold_left (suppress_at magnitude direction width) l suppressed) 0
      = 0
      \/ nth j (fold_left (suppress_at magnitude direction width) l
                  suppressed) 0
         = nth j magnitude 0.
Proof.
  induction l as [| [x y] l IH]; intros suppressed H j; cbn [fold_left];
    [apply H |].
  apply IH. clear j. intros j.
  destruct (suppress_at_value magnitude direction width suppressed x y)
    as (v & -> & Hv).
  destruct (Nat.eq_dec (y * width + x) j) as [<- | Hne].
  - destruct (lt_dec (y * width + x) (length suppressed)) as [Hlt | Hge].
    + rewrite nth_set_nth_same by exact Hlt. exact Hv.
    + left. apply nth_overflow. rewrite set_nth_length. lia.
  - rewrite nth_set_nth_other by exact Hne. apply H.
Qed.

(** [_nonMaximumSuppression] only thins: the result has one entry per
    pixel, and each entry is 0 or the magnitude it was given for that
    pixel. *)
Theorem nonMaximumSuppression_thins (magnitude direction : list R)
  (width height j : nat) :
  length (nonMaximumSuppression magnitude direction width height)
  = (width * height)%nat
  /\ (nth j (nonMaximumSuppression magnitude direction width height) 0 = 0
      \/ nth j (nonMaximumSuppression magnitude direction width height) 0
         = nth j magnitude 0).
Proof.
  split; [apply nonMaximumSuppression_length|].
  unfold nonMaximumSuppression. apply suppress_fold_value.
  intros k. left. apply nth_repeat.
Qed.

(** From the gradient to the mask: with a positive low threshold that does
    not exceed the high one, a pixel is marked as an edge only if its
    gradient magnitude reaches the low threshold. *)
Theorem edges_need_gradient (magnitude direction : list R)
  (width height : nat) (lowThreshold highThreshold : R) (j : nat) :
  0 < lowThreshold -> lowThreshold <= highThreshold ->
  (j < width * height)%nat ->
  nth j (edges_of_gradient magnitude direction width height lowThreshold
           highThreshold) 0%Z = 255%Z ->
  lowThreshold <= nth j magnitude 0.
Proof.
  intros Hlo Hhi Hj H. unfold edges_of_gradient in H.
  set (thin := nonMaximumSuppression magnitude direction width height) in *.
  assert (Hlen : length thin = (width * height)%nat)
    by apply nonMaximumSuppression_length.
  destruct (hysteresis_entries thin width height lowThreshold highThreshold j
              Hlen Hj) as (_ & _ & _ & Hnone & Hweak).
  cbv zeta in Hnone, Hweak.
  assert (Hthin : lowThreshold <= nth j thin 0).
  { destruct (Rlt_le_dec (nth j thin 0) highThreshold) as [Hlt | Hge].
    - apply Hweak; assumption.
    - lra. }
  assert (Hv : nth j thin 0 = 0 \/ nth j thin 0 = nth j magnitude 0).
  { unfold thin, nonMaximumSuppression. apply suppress_fold_value.
    intros k. left. apply nth_repeat. }
  destruct Hv as [Hv | Hv]; [lra | rewrite <- Hv; exact Hthin].
Qed.


(** A 3 x 3 gradient with one peak in the centre: the peak survives the
    thinning and is marked. *)
Lemma centre_peak_thinned :
  nonMaximumSuppression [0; 0; 0; 0; 100; 0; 0; 0; 0] (repeat 0 9) 3 3
  = [0; 0; 0; 0; 100; 0; 0; 0; 0].
Proof.
  unfold nonMaximumSuppression.
  change (inner_pixels 3 3) with [(1%nat, 1%nat)].
  cbn [fold_left]. unfold suppress_at. cbv zeta.
  change (1 * 3 + 1)%nat with 4%nat.
  change (nth 4 (repeat 0 9) 0) with 0.
  change (nth 4 [0; 0; 0; 0; 100; 0; 0; 0; 0] 0) with 100.
  replace (0 * (180 / PI)) with 0 by (unfold Rdiv; ring).
  replace (Js.ltb 0 0) with false by (symmetry; apply Js.ltb_false; lra).
  unfold Js.geb at 1.
  replace (Js.leb 0 0) with true by (symmetry; apply Js.leb_spec; lra).
  replace (Js.ltb 0 (225 / 10)) with true
    by (symmetry; apply Js.ltb_spec; lra).
  cbn [andb orb].
  change (nth (4 - 1) [0; 0; 0; 0; 100; 0; 0; 0; 0] 0) with 0.
  change (nth (4 + 1) [0; 0; 0; 0; 100; 0; 0; 0; 0] 0) with 0.
  unfold Js.geb.
  replace (Js.leb 0 100) with true by (symmetry; apply Js.leb_spec; lra).
  reflexivity.
Qed.

Lemma edges_need_gradient_witness :
  nth 4 (edges_of_gradient [0; 0; 0; 0; 100; 0; 0; 0; 0] (repeat 0 9) 3 3
           50 100) 0%Z = 255%Z
  /\ 50 <= nth 4 [0; 0; 0; 0; 100; 0; 0; 0; 0] 0.
Proof.
  assert (H : nth 4 (edges_of_gradient [0; 0; 0; 0; 100; 0; 0; 0; 0]
                       (repeat 0 9) 3 3 50 100) 0%Z = 255%Z).
  { unfold edges_of_gradient. rewrite centre_peak_thinned.
    apply (hysteresis_entries [0; 0; 0; 0; 100; 0; 0; 0; 0] 3 3 50 100 4).
    - reflexivity.
    - cbn. lia.
    - cbn. lra. }
  split; [exact H|].
  apply (edges_need_gradient [0; 0; 0; 0; 100; 0; 0; 0; 0] (repeat 0 9) 3 3
           50 100 4).
  - lra.
  - lra.
  - cbn. lia.
  - exact H.
Defined.

End EdgeDetectionFacts.

(** ** G-code vocabulary ([gcode/gcodeBuilder.js]) *)

Module GcodeBuilder.

(** One line of the command stream.  The builder returns text; a line is
    kept here as the command it spells, with its numeric fields before
    formatting ([toFixed] for coordinates, [Math.round] for feed rates).
    The text of a comment does not reach the firmware and is kept without
    the numbers the source interpolates into it. *)
Inductive line : Type :=
| Blank
| Comment (text : String.string)
| Separator (label : String.string)
| CommentBlock (title : String.string)
| G0 (X Y Z : R) (feedRate : option R)
| G1 (X Y Z : R) (feedRate : option R)
| M3
| M5
| M6
| G4 (seconds : R)
| G28
| G21
| G90
| M84.

(** [paintDot(X, Y, Z, dwellTime, moveSpeed)]: rapid move, actuator on,
    dwell, actuator off. *)
Definition paintDot (X Y Z dwellTime moveSpeed : R) : list line :=
  [G0 X Y Z (Some moveSpeed); M3; G4 dwellTime; M5].

(** Recognisers of single commands, to count them in a stream. *)
Definition is_M3 (l : line) : bool :=
  match l with M3 => true | _ => false end.

Definition is_M5 (l : line) : bool :=
  match l with M5 => true | _ => false end.

Definition is_G28 (l : line) : bool :=
  match l with G28 => true | _ => false end.

(** The actuator commands of a stream, in order. *)
Definition actuator (l : line) : bool := is_M3 l || is_M5 l.

Definition count (p : line -> bool) (stream : list line) : nat :=
  length (filter p stream).

(** What the actuator sees of [n] dots: [n] times on and off. *)
Definition dot_pairs (n : nat) : list line := concat (repeat [M3; M5] n).

End GcodeBuilder.

(** ** Command stream generator ([gcode/gcodeGenerator.js]) *)

Module GCodeGenerator.
Import String List ListNotations.
Import Plane GcodeBuilder.

Inductive painting_mode : Type := Pointillism | Strokes | Spray.

Record pointillism_config : Type := mkPointillism {
  minDotSize : R;
  maxDotSize : R;
  dotDensity : R
}.

Record robot_config : Type := mkRobot {
  paintCapacity : R;
  moveSpeed : R;
  paintSpeed : R;
  refillPosition : pt
}.

(** The fields of the configuration object that the generator reads. *)
Record config : Type := mkConfig {
  canvas : CoordinateTransformer.canvasState;
  robot : robot_config;
  paintingMode : painting_mode;
  pointillism : pointillism_config
}.

(** A colour layer.  Its [imageData] enters the generator through its
    width, its height and [_extractPixelCoordinates(imageData)], the
    coordinates of its opaque pixels in row-major order; the layer carries
    that list. *)
Record layer : Type := mkLayer {
  color : ColorUtils.color;
  imageWidth : R;
  imageHeight : R;
  pixels : list pt
}.

(** What a run of the generator mutates: its own [_currentPosition] field
    ([None] is [null]), the refill tracker, and the number of
    [Math.random()] calls made so far. *)
Record state : Type := mkState {
  currentPosition : option pt;
  refillTracker : RefillTracker.tracker;
  randomCalls : nat
}.

(** [generateHeader(config)]. *)
Definition generateHeader (cfg : config) : list line :=
  [CommentBlock "MURALBOT G-CODE"%string;
   Blank;
   Separator "INITIALIZATION"%string;
   G21; G90; G28; M5;
   Comment "Ready to paint"%string].

(** [generateFooter()]. *)
Definition generateFooter : list line :=
  [Blank;
   Separator "END SEQUENCE"%string;
   M5; G28; M84;
   Comment "End of G-Code"%string].

(** [generateRefillSequence(currentPos, config, anchors)]. *)
Definition generateRefillSequence (currentPos : CoordinateTransformer.trilat)
  (cfg : config) (a : CoordinateTransformer.anchors) : list line :=
  let refillPosMm :=
    mkPt (x (refillPosition (robot cfg)) * 10)
         (y (refillPosition (robot cfg)) * 10) in
  let refillCoords :=
    CoordinateTransformer.cartesianToTrilateration
      (x refillPosMm) (y refillPosMm) a in
  [Separator "REFILL SEQUENCE"%string;
   Comment "Moving to refill position"%string;
   G0 (CoordinateTransformer.X refillCoords)
      (CoordinateTransformer.Y refillCoords)
      (CoordinateTransformer.Z refillCoords) (Some (moveSpeed (robot cfg)));
   Comment "Waiting for refill (30 seconds)"%string;
   G4 30;
   Comment "Returning to painting"%string;
   G0 (CoordinateTransformer.X currentPos)
      (CoordinateTransformer.Y currentPos)
      (CoordinateTransformer.Z currentPos) (Some (moveSpeed (robot cfg)))].

(** [generateColorChangeSequence(config, anchors)]. *)
Definition generateColorChangeSequence (cfg : config)
  (a : CoordinateTransformer.anchors) : list line :=
  let changePosMm :=
    mkPt (x (refillPosition (robot cfg)) * 10)
         (y (refillPosition (robot cfg)) * 10) in
  let changeCoords :=
    CoordinateTransformer.cartesianToTrilateration
      (x changePosMm) (y changePosMm) a in
  [Separator "COLOR CHANGE"%string;
   M6;
   Comment "Moving to change position"%string;
   G0 (CoordinateTransformer.X changeCoords)
      (CoordinateTransformer.Y changeCoords)
      (CoordinateTransformer.Z changeCoords) (Some (moveSpeed (robot cfg)));
   Comment "Waiting for can change (60 seconds)"%string;
   G4 60;
   Comment "Ready to continue"%string].

(** The [Map] of [_downsamplePixels]: grid cell to the first pixel seen in
    it, in insertion order. *)
Definition sample_grid : Type := list (SpatialIndex.cell * pt).

Definition sample_key (spacing : R) (pixel : pt) : SpatialIndex.cell :=
  (Zfloor (x pixel / spacing), Zfloor (y pixel / spacing)).

Definition grid_has (grid : sample_grid) (key : SpatialIndex.cell) : bool :=
  existsb (fun e => SpatialIndex.cell_eqb key (fst e)) grid.

Definition downsample_step (spacing : R) (grid : sample_grid) (pixel : pt)
  : sample_grid :=
  let key := sample_key spacing pixel in
  if grid_has grid key then grid else grid ++ [(key, pixel)].

(** The grid spacing for a density; the density is a positive number (the
    configuration keeps it between 1 and 100). *)
Definition spacing_of (density : R) : R :=
  Rmax 1 (Js.floor (sqrt (10000 / density))).

(** [_downsamplePixels(pixels, imageWidth, imageHeight, density)]. *)
Definition downsamplePixels (pixels : list pt) (imageWidth imageHeight : R)
  (density : R) : list pt :=
  let spacing := spacing_of density in
  map snd (fold_left (downsample_step spacing) pixels []).

Section Painting.

(** The [Math.random()] stream. *)
Variable rand : KMeans.oracle.

Variables (imageWidth imageHeight : R) (cfg : config)
  (anchors : CoordinateTransformer.anchors) (canvasWidthMm canvasHeightMm : R).

(** [_paintSingleDot(pixel, ..., lines)]: the lines it pushes and the state
    it leaves.  [None] is an exception: [pixel] is [undefined] (an entry of
    the tour that is not an index of the samples) and its [x] is read, or
    one of the calls throws. *)
Definition paintSingleDot (pixel : option pt) (st : state)
  : option (list line * state) :=
  match pixel with
  | None => None
  | Some pixel =>
      match CoordinateTransformer.scaleToPhysical (x pixel) (y pixel)
              imageWidth imageHeight canvasWidthMm canvasHeightMm with
      | None => None
      | Some physical =>
          let coords :=
            CoordinateTransformer.cartesianToTrilateration
              (CoordinateTransformer.px physical)
              (CoordinateTransformer.py physical) anchors in
          let dotSize :=
            minDotSize (pointillism cfg)
            + rand (randomCalls st)
              * (maxDotSize (pointillism cfg) - minDotSize (pointillism cfg)) in
          match RefillTracker.addDotUsage (refillTracker st) dotSize
                  RefillTracker.default_thickness with
          | None => None
          | Some (tracker, needsRefill) =>
              let dwellTime := / 10 in
              let dot :=
                paintDot (CoordinateTransformer.X coords)
                  (CoordinateTransformer.Y coords)
                  (CoordinateTransformer.Z coords) dwellTime
                  (moveSpeed (robot cfg)) in
              let st' tracker :=
                mkState (Some (mkPt (x pixel) (y pixel))) tracker
                  (S (randomCalls st)) in
              if needsRefill then
                Some (Comment "Paint low - refill needed"%string
                        :: generateRefillSequence coords cfg anchors ++ dot,
                      st' (RefillTracker.refill tracker))
              else Some (dot, st' tracker)
          end
      end
  end.

(** The two painting loops: the pixels of the sequence, one dot each. *)
Fixpoint paintDots (order : list (option pt)) (st : state)
  : option (list line * state) :=
  match order with
  | [] => Some ([], st)
  | pixel :: rest =>
      match paintSingleDot pixel st with
      | None => None
      | Some (dot, st1) =>
          match paintDots rest st1 with
          | None => None
          | Some (dots, st2) => Some (dot ++ dots, st2)
          end
      end
  end.

(** The search for the pixel closest to the current position; the state is
    ([minDist], [startIndex]). *)
Definition closest_step (pixels : list pt) (cur : pt) (st : option R * nat)
  (i : nat) : option R * nat :=
  let dx := x (TspSolver.at_index pixels i) - x cur in
  let dy := y (TspSolver.at_index pixels i) - y cur in
  let dist := sqrt (dx * dx + dy * dy) in
  if below dist (fst st) then (Some dist, i) else st.

(** The start of the tour: an index into [pixels], the list before
    downsampling. *)
Definition startIndexOf (position : option pt) (pixels : list pt) : nat :=
  match position with
  | Some cur =>
      if Nat.ltb 0 (length pixels)
      then snd (fold_left (closest_step pixels cur) (seq 0 (length pixels))
                  (None, 0%nat))
      else 0%nat
  | None => 0%nat
  end.

(** [generatePointillismGcode(pixels, imageWidth, imageHeight, config,
    anchors, canvasWidthMm, canvasHeightMm, refillTracker)]. *)
Definition generatePointillismGcode (pixels : list pt) (st : state)
  : option (list line * state) :=
  let sampledPixels :=
    downsamplePixels pixels imageWidth imageHeight
      (dotDensity (pointillism cfg)) in
  let lines := [Comment "Painting dots"%string] in
  if Z.ltb 10000 (Z.of_nat (length sampledPixels)) then
    match paintDots (map Some sampledPixels) st with
    | None => None
    | Some (dots, st') =>
        Some (lines
                ++ [Comment "Using grid order (too many dots for TSP optimization)"%string]
                ++ dots, st')
    end
  else
    let startIndex := startIndexOf (currentPosition st) pixels in
    match TspSolver.solveTSP sampledPixels startIndex
            (Nat.ltb (length sampledPixels) 500) 1000 with
    | None => None
    | Some tour =>
        match paintDots (map (nth_error sampledPixels) tour) st with
        | None => None
        | Some (dots, st') =>
            Some (lines
                    ++ [Comment "Optimizing dot order using TSP..."%string;
                        Comment "Tour optimized"%string]
                    ++ dots, st')
        end
    end.

End Painting.

Section Generator.

Variable rand : KMeans.oracle.

(** [generateStrokesGcode], the painter of the stroke mode, with the
    arguments it is called with (pixels, image size, configuration, anchors,
    canvas size) and the state it shares with the dot painter. *)
Variable generateStrokesGcode :
  list pt -> R -> R -> config -> CoordinateTransformer.anchors -> R -> R ->
  state -> option (list line * state).

(** [generateLayerGcode(layer, layerIndex, config, anchors, canvasWidthMm,
    canvasHeightMm, refillTracker)]. *)
Definition generateLayerGcode (l : layer) (layerIndex : nat) (cfg : config)
  (anchors : CoordinateTransformer.anchors) (canvasWidthMm canvasHeightMm : R)
  (st : state) : option (list line * state) :=
  let lines :=
    [Separator "COLOR LAYER"%string; Comment "Color"%string;
     Comment "Pixels"%string]
    ++ (if Nat.ltb 0 layerIndex
        then generateColorChangeSequence cfg anchors else []) in
  match paintingMode cfg with
  | Pointillism =>
      match generatePointillismGcode rand (imageWidth l) (imageHeight l) cfg
              anchors canvasWidthMm canvasHeightMm (pixels l) st with
      | None => None
      | Some (painting, st') => Some (lines ++ painting, st')
      end
  | Strokes =>
      match generateStrokesGcode (pixels l) (imageWidth l) (imageHeight l) cfg
              anchors canvasWidthMm canvasHeightMm st with
      | None => None
      | Some (painting, st') => Some (lines ++ painting, st')
      end
  | Spray => Some (lines, st)
  end.

(** [generateColorLayersGcode]: the layers from index [i] on. *)
Fixpoint generateColorLayersGcode_from (i : nat) (colorLayers : list layer)
  (cfg : config) (anchors : CoordinateTransformer.anchors)
  (canvasWidthMm canvasHeightMm : R) (st : state)
  : option (list line * state) :=
  match colorLayers with
  | [] => Some ([], st)
  | l :: rest =>
      match generateLayerGcode l i cfg anchors canvasWidthMm canvasHeightMm st
      with
      | None => None
      | Some (layerGcode, st1) =>
          match generateColorLayersGcode_from (S i) rest cfg anchors
                  canvasWidthMm canvasHeightMm st1 with
          | None => None
          | Some (lines, st2) => Some (layerGcode ++ [Blank] ++ lines, st2)
          end
      end
  end.

Definition generateColorLayersGcode := generateColorLayersGcode_from 0.

(** [generate(config, colorLayers)], a call without an edge map, on a
    generator whose [_currentPosition] is [position]: the lines that are
    joined into the stream, and the state the run ends in.  [None] is a
    rejected promise. *)
Definition generate (cfg : config) (colorLayers : list layer)
  (position : option pt) : option (list line * state) :=
  let lines := generateHeader cfg ++ [Blank] in
  match RefillTracker.reset RefillTracker.new (paintCapacity (robot cfg)) with
  | None => None
  | Some refillTracker =>
      let anchors := CoordinateTransformer.createAnchorConfig (canvas cfg) in
      let canvasWidthMm := CoordinateTransformer.width (canvas cfg) * 10 in
      let canvasHeightMm := CoordinateTransformer.height (canvas cfg) * 10 in
      if Nat.ltb 0 (length colorLayers) then
        match generateColorLayersGcode colorLayers cfg anchors canvasWidthMm
                canvasHeightMm (mkState position refillTracker 0) with
        | None => None
        | Some (layerGcode, st) =>
            Some (lines ++ layerGcode ++ [Blank] ++ generateFooter, st)
        end
      else None
  end.

End Generator.

(** The number of dots a layer is sampled down to. *)
Definition sample_count (cfg : config) (l : layer) : nat :=
  length (downsamplePixels (pixels l) (imageWidth l) (imageHeight l)
            (dotDensity (pointillism cfg))).

(** The sample counts for which the dots are ordered without the spatial
    index: up to 1000 the tour planner scans all points, above 10000 the
    generator paints in grid order. *)
Definition ordered_without_index (n : nat) : Prop :=
  (n <= 1000)%nat \/ (10000 < Z.of_nat n)%Z.

(** A configuration of the examples: a 200 cm x 150 cm canvas with the
    default anchors, dot mode at 100 percent density. *)
Definition dot_config : config :=
  mkConfig (CoordinateTransformer.mkCanvas None None None None 200 150)
           (mkRobot 50 3000 1500 (mkPt (-10) 75))
           Pointillism
           (mkPointillism 1 5 100).

(** A layer of the examples: a 1201 x 1201 image whose opaque pixels are
    those of [TspSolver.corner_and_block]. *)
Definition sparse_layer : layer :=
  mkLayer (ColorUtils.mkColor 10 20 30) 1201 1201 TspSolver.corner_and_block.

End GCodeGenerator.

Module GCodeGeneratorFacts.
Import String List ListNotations.
Import Plane GcodeBuilder GCodeGenerator.

Lemma dot_pairs_S (n : nat) : dot_pairs (S n) = M3 :: M5 :: dot_pairs n.
Proof. reflexivity. Qed.

Lemma dot_pairs_add (n m : nat) :
  dot_pairs (n + m) = dot_pairs n ++ dot_pairs m.
Proof.
  induction n as [|n IH]; [reflexivity|].
  cbn [Nat.add]. rewrite !dot_pairs_S, IH. reflexivity.
Qed.

Lemma dot_pairs_M3 (n : nat) : count is_M3 (dot_pairs n) = n.
Proof.
  unfold count. induction n as [|n IH]; [reflexivity|].
  rewrite dot_pairs_S. cbn [filter is_M3 length]. rewrite IH. reflexivity.
Qed.

Lemma dot_pairs_M5 (n : nat) : count is_M5 (dot_pairs n) = n.
Proof.
  unfold count. induction n as [|n IH]; [reflexivity|].
  rewrite dot_pairs_S. cbn [filter is_M5 length]. rewrite IH. reflexivity.
Qed.

(** Counting a command in a stream looks at the actuator commands only. *)
Lemma filter_M3_actuator (stream : list line) :
  filter is_M3 (filter actuator stream) = filter is_M3 stream.
Proof.
  induction stream as [|l stream IH]; [reflexivity|].
  destruct l; cbn; rewrite ?IH; reflexivity.
Qed.

Lemma filter_M5_actuator (stream : list line) :
  filter is_M5 (filter actuator stream) = filter is_M5 stream.
Proof.
  induction stream as [|l stream IH]; [reflexivity|].
  destruct l; cbn; rewrite ?IH; reflexivity.
Qed.

Section PaintingFacts.

Variable rand : KMeans.oracle.
Variables (imageWidth imageHeight : R) (cfg : config)
  (anchors : CoordinateTransformer.anchors) (canvasWidthMm canvasHeightMm : R).

Let paint := paintSingleDot rand imageWidth imageHeight cfg anchors
               canvasWidthMm canvasHeightMm.
Let paintAll := paintDots rand imageWidth imageHeight cfg anchors
                  canvasWidthMm canvasHeightMm.

(** A dot ends with the block rapid move, [M3], dwell, [M5]; nothing
    before the block touches the actuator or homes the robot. *)
Lemma paintSingleDot_stream (pixel : option pt) (st st' : state)
  (lines : list line) :
  paint pixel st = Some (lines, st') ->
  (exists before X Y Z,
      lines = before ++ paintDot X Y Z (/ 10) (moveSpeed (robot cfg))
      /\ filter actuator before = [] /\ filter is_G28 before = [])
  /\ exists p, pixel = Some p /\ currentPosition st' = Some p.
Proof.
  unfold paint, paintSingleDot. intros H.
  destruct pixel as [p|]; [|discriminate].
  destruct (CoordinateTransformer.scaleToPhysical _ _ _ _ _ _) as [ph|];
    [|discriminate].
  destruct (RefillTracker.addDotUsage _ _ _) as [[tr b]|]; [|discriminate].
  split.
  - destruct b; injection H as Hl _; subst lines.
    + match goal with
      | |- exists before X Y Z,
             ?l1 :: ?l2 :: ?l3 :: ?l4 :: ?l5 :: ?l6 :: ?l7 :: ?l8
               :: paintDot ?a ?b ?c _ _ = _ /\ _ =>
          exists [l1; l2; l3; l4; l5; l6; l7; l8], a, b, c
      end.
      split; [reflexivity|]. split; reflexivity.
    + match goal with
      | |- exists before X Y Z, paintDot ?a ?b ?c _ _ = _ /\ _ =>
          exists [], a, b, c
      end.
      split; [reflexivity|]. split; reflexivity.
  - exists p. split; [reflexivity|].
    destruct p; destruct b; injection H as _ Hs; subst st'; reflexivity.
Qed.

Lemma paintSingleDot_actuator (pixel : option pt) (st st' : state)
  (lines : list line) :
  paint pixel st = Some (lines, st') ->
  filter actuator lines = [M3; M5] /\ filter is_G28 lines = [].
Proof.
  intros H. apply paintSingleDot_stream in H.
  destruct H as [(before & X & Y & Z & -> & Ha & Hg) _].
  rewrite !filter_app, Ha, Hg. split; reflexivity.
Qed.

(** A painting loop emits one actuator pair per entry of its sequence. *)
Lemma paintDots_actuator (order : list (option pt)) :
  forall (st st' : state) (lines : list line),
    paintAll order st = Some (lines, st') ->
    filter actuator lines = dot_pairs (length order)
    /\ filter is_G28 lines = [].
Proof.
  unfold paintAll.
  induction order as [|pixel rest IH]; intros st st' lines H.
  - inversion H; subst. split; reflexivity.
  - cbn [paintDots] in H.
    destruct (paintSingleDot _ _ _ _ _ _ _ pixel st) as [[dot st1]|] eqn:E1;
      [|discriminate].
    destruct (paintDots _ _ _ _ _ _ _ rest st1) as [[dots st2]|] eqn:E2;
      [|discriminate].
    inversion H; subst; clear H.
    apply paintSingleDot_actuator in E1. destruct E1 as [Ha Hg].
    apply IH in E2. destruct E2 as [Ha' Hg'].
    rewrite !filter_app, Ha, Hg, Ha', Hg'. cbn [length].
    rewrite dot_pairs_S. split; reflexivity.
Qed.

(** Painting a pixel cannot fail once the image and the canvas have
    positive sizes. *)
Lemma paintSingleDot_some (p : pt) (st : state) :
  0 < imageWidth -> 0 < imageHeight ->
  0 < canvasWidthMm -> 0 < canvasHeightMm ->
  exists lines st', paint (Some p) st = Some (lines, st').
Proof.
  intros Hw Hh Hcw Hch. unfold paint, paintSingleDot.
  unfold CoordinateTransformer.scaleToPhysical.
  rewrite (proj2 (Js.leb_false imageWidth 0) Hw),
    (proj2 (Js.leb_false imageHeight 0) Hh),
    (proj2 (Js.leb_false canvasWidthMm 0) Hcw),
    (proj2 (Js.leb_false canvasHeightMm 0) Hch).
  cbn [orb].
  unfold RefillTracker.addDotUsage.
  match goal with
  | |- context [RefillTracker.addUsage ?t ?a ?th] =>
      destruct (RefillTrackerFacts.addUsage_some t a th) as (t' & b & E & _)
  end.
  - pose proof PI_RGT_0 as Hpi.
    match goal with
    | |- 0 <= PI * ?r * ?r => replace (PI * r * r) with (PI * (r * r)) by ring;
        apply Rmult_le_pos; [lra | apply Rle_0_sqr]
    end.
  - rewrite E. destruct b; eexists _, _; reflexivity.
Qed.

Lemma paintDots_some (order : list pt) :
  0 < imageWidth -> 0 < imageHeight ->
  0 < canvasWidthMm -> 0 < canvasHeightMm ->
  forall st, exists lines st', paintAll (map Some order) st = Some (lines, st').
Proof.
  intros Hw Hh Hcw Hch.
  induction order as [|p rest IH]; intros st.
  - exists [], st. reflexivity.
  - destruct (paintSingleDot_some p st Hw Hh Hcw Hch) as (dot & st1 & E1).
    destruct (IH st1) as (dots & st2 & E2).
    exists (dot ++ dots), st2. unfold paintAll in *. unfold paint in E1.
    cbn [map paintDots]. rewrite E1, E2. reflexivity.
Qed.

End PaintingFacts.

(** Up to 1000 points the planner returns a tour of all of them, or throws
    (for a start index that is not a point, when there are two points or
    more). *)
Lemma solveTSP_small_perm (points : list pt) (startIndex : nat)
  (optimize : bool) (maxIterations : nat) (tour : list nat) :
  (length points <= 1000)%nat ->
  TspSolver.solveTSP points startIndex optimize maxIterations = Some tour ->
  Permutation tour (seq 0 (length points)).
Proof.
  intros Hn H.
  destruct (lt_dec startIndex (length points)) as [Hs|Hs].
  - destruct (TspSolverFacts.solveTSP_small points startIndex optimize
                maxIterations Hn Hs) as (tour' & E & P).
    rewrite E in H. injection H as <-. exact P.
  - unfold TspSolver.solveTSP in H.
    destruct (TspSolver.nearestNeighbor points startIndex) as [t|] eqn:E;
      [|discriminate].
    assert (Ht : Permutation t (seq 0 (length points))).
    { unfold TspSolver.nearestNeighbor in E.
      destruct points as [|p [|q rest]].
      - injection E as <-. constructor.
      - injection E as <-. apply Permutation_refl.
      - exfalso. remember (p :: q :: rest) as points eqn:Ep.
        assert (Hlen : length points = S (S (length rest)))
          by (subst points; reflexivity).
        rewrite Hlen in E.
        replace (Nat.ltb 1000 (S (S (length rest)))) with false in E
          by (symmetry; apply Nat.ltb_ge; lia).
        cbn [TspSolver.construct] in E.
        replace (Nat.ltb (length (TspSolver.visited_add startIndex []))
                   (length points)) with true in E
          by (symmetry; apply Nat.ltb_lt; cbn; lia).
        replace (nth_error points startIndex) with (@None pt) in E
          by (symmetry; apply nth_error_None; lia).
        discriminate. }
    destruct (optimize && Nat.leb 4 (length t))%bool; injection H as <-.
    + etransitivity; [apply TspSolverFacts.twoOpt_perm | exact Ht].
    + exact Ht.
Qed.

Section PointillismFacts.

Variable rand : KMeans.oracle.
Variables (imageWidth imageHeight : R) (cfg : config)
  (anchors : CoordinateTransformer.anchors) (canvasWidthMm canvasHeightMm : R).

(** The dot painter of one layer emits one actuator pair per entry of the
    order it paints in, and never homes the robot.  The order is the sample
    list itself or the planner's tour; without the spatial index it has as
    many entries as there are samples. *)
Lemma generatePointillismGcode_stream (pixels : list pt) (st st' : state)
  (lines : list line) :
  generatePointillismGcode rand imageWidth imageHeight cfg anchors
    canvasWidthMm canvasHeightMm pixels st = Some (lines, st') ->
  filter is_G28 lines = []
  /\ exists n,
      filter actuator lines = dot_pairs n
      /\ (ordered_without_index
            (length (downsamplePixels pixels imageWidth imageHeight
                       (dotDensity (pointillism cfg)))) ->
          n = length (downsamplePixels pixels imageWidth imageHeight
                        (dotDensity (pointillism cfg)))).
Proof.
  unfold generatePointillismGcode.
  set (sampled := downsamplePixels pixels imageWidth imageHeight
                    (dotDensity (pointillism cfg))).
  intros H.
  destruct (Z.ltb 10000 (Z.of_nat (length sampled))) eqn:Hbig.
  - destruct (paintDots _ _ _ _ _ _ _ (map Some sampled) st)
      as [[dots st1]|] eqn:E; [|discriminate].
    injection H as <- _.
    apply paintDots_actuator in E. destruct E as [Ha Hg].
    rewrite length_map in Ha.
    cbn [app filter is_G28 actuator is_M3 is_M5 orb].
    rewrite Hg, Ha. split; [reflexivity|].
    exists (length sampled). split; [reflexivity|]. reflexivity.
  - destruct (TspSolver.solveTSP sampled _ _ _) as [tour|] eqn:Et;
      [|discriminate].
    destruct (paintDots _ _ _ _ _ _ _ (map (nth_error sampled) tour) st)
      as [[dots st1]|] eqn:E; [|discriminate].
    injection H as <- _.
    apply paintDots_actuator in E. destruct E as [Ha Hg].
    rewrite length_map in Ha.
    cbn [app filter is_G28 actuator is_M3 is_M5 orb].
    rewrite Hg, Ha. split; [reflexivity|].
    exists (length tour). split; [reflexivity|].
    intros [Hsmall|Hhuge].
    + apply solveTSP_small_perm in Et; [|exact Hsmall].
      apply Permutation_length in Et. rewrite length_seq in Et. exact Et.
    + apply Z.ltb_ge in Hbig. lia.
Qed.

End PointillismFacts.

Section GeneratorFacts.

Variable rand : KMeans.oracle.
Variable generateStrokesGcode :
  list pt -> R -> R -> config -> CoordinateTransformer.anchors -> R -> R ->
  state -> option (list line * state).
Variable cfg : config.
Hypothesis dot_mode : paintingMode cfg = Pointillism.

(** The dots of a list of layers. *)
Definition total_samples (colorLayers : list layer) : nat :=
  list_sum (map (sample_count cfg) colorLayers).

Lemma colorChange_actuator (anchors : CoordinateTransformer.anchors) :
  filter actuator (generateColorChangeSequence cfg anchors) = []
  /\ filter is_G28 (generateColorChangeSequence cfg anchors) = [].
Proof. split; reflexivity. Qed.

Lemma generateLayerGcode_stream (l : layer) (layerIndex : nat)
  (anchors : CoordinateTransformer.anchors) (canvasWidthMm canvasHeightMm : R)
  (st st' : state) (lines : list line) :
  generateLayerGcode rand generateStrokesGcode l layerIndex cfg anchors
    canvasWidthMm canvasHeightMm st = Some (lines, st') ->
  filter is_G28 lines = []
  /\ exists n,
      filter actuator lines = dot_pairs n
      /\ (ordered_without_index (sample_count cfg l) -> n = sample_count cfg l).
Proof.
  unfold generateLayerGcode. rewrite dot_mode. intros H.
  destruct (generatePointillismGcode _ _ _ _ _ _ _ _ _)
    as [[painting st1]|] eqn:E; [|discriminate].
  apply generatePointillismGcode_stream in E.
  destruct E as (Hg & n & Ha & Hn).
  destruct (colorChange_actuator anchors) as [Ca Cg].
  assert (Hl : lines =
               ([Separator "COLOR LAYER"%string; Comment "Color"%string;
                 Comment "Pixels"%string]
                ++ (if Nat.ltb 0 layerIndex
                    then generateColorChangeSequence cfg anchors else []))
               ++ painting)
    by (injection H as H _; rewrite <- H; reflexivity).
  clear H. subst lines.
  rewrite !filter_app, Hg, Ha.
  destruct (Nat.ltb 0 layerIndex).
  - rewrite Ca, Cg. split; [reflexivity|]. exists n. split; [reflexivity|].
    exact Hn.
  - split; [reflexivity|]. exists n. split; [reflexivity|]. exact Hn.
Qed.

Lemma generateColorLayersGcode_stream (colorLayers : list layer)
  (anchors : CoordinateTransformer.anchors) (canvasWidthMm canvasHeightMm : R) :
  forall (i : nat) (st st' : state) (lines : list line),
    generateColorLayersGcode_from rand generateStrokesGcode i colorLayers cfg
      anchors canvasWidthMm canvasHeightMm st = Some (lines, st') ->
    filter is_G28 lines = []
    /\ exists n,
        filter actuator lines = dot_pairs n
        /\ (Forall (fun l => ordered_without_index (sample_count cfg l))
              colorLayers ->
            n = total_samples colorLayers).
Proof.
  induction colorLayers as [|l rest IH]; intros i st st' lines H.
  - injection H as <- _. split; [reflexivity|].
    exists 0%nat. split; [reflexivity|]. reflexivity.
  - cbn [generateColorLayersGcode_from] in H.
    destruct (generateLayerGcode _ _ l i cfg anchors _ _ st)
      as [[layerGcode st1]|] eqn:E1; [|discriminate].
    destruct (generateColorLayersGcode_from _ _ (S i) rest cfg anchors _ _ st1)
      as [[more st2]|] eqn:E2; [|discriminate].
    assert (Hl : lines = layerGcode ++ [Blank] ++ more)
      by (injection H as H _; rewrite <- H; reflexivity).
    clear H. subst lines.
    apply generateLayerGcode_stream in E1.
    destruct E1 as (Hg1 & n1 & Ha1 & Hn1).
    apply IH in E2. destruct E2 as (Hg2 & n2 & Ha2 & Hn2).
    rewrite !filter_app, Hg1, Hg2, Ha1, Ha2. split; [reflexivity|].
    exists (n1 + n2)%nat. split.
    + rewrite dot_pairs_add. reflexivity.
    + intros HF. inversion HF as [|? ? Hl Hrest]; subst.
      unfold total_samples. cbn [map list_sum].
      rewrite (Hn1 Hl), (Hn2 Hrest). reflexivity.
Qed.

(** The shape of a generated stream in dot mode: the actuator is switched
    off once in the preamble and once in the end sequence, and in between
    it is switched on and off once per painted dot; the robot is homed
    twice. *)
Lemma generate_stream (colorLayers : list layer) (position : option pt)
  (stream : list line) (st : state) :
  generate rand generateStrokesGcode cfg colorLayers position
    = Some (stream, st) ->
  count is_G28 stream = 2%nat
  /\ exists n,
      filter actuator stream = M5 :: dot_pairs n ++ [M5]
      /\ (Forall (fun l => ordered_without_index (sample_count cfg l))
            colorLayers ->
          n = total_samples colorLayers).
Proof.
  unfold generate. intros H.
  destruct (RefillTracker.reset _ _) as [tracker|]; [|discriminate].
  destruct (Nat.ltb 0 (length colorLayers)); [|discriminate].
  unfold generateColorLayersGcode in H.
  destruct (generateColorLayersGcode_from _ _ 0 colorLayers cfg _ _ _ _)
    as [[layerGcode st1]|] eqn:E; [|discriminate].
  assert (Hl : stream = (generateHeader cfg ++ [Blank]) ++ layerGcode
                          ++ [Blank] ++ generateFooter)
    by (injection H as H _; rewrite <- H; reflexivity).
  clear H. subst stream.
  apply generateColorLayersGcode_stream in E.
  destruct E as (Hg & n & Ha & Hn).
  unfold count. rewrite !filter_app, Hg, Ha. split; [reflexivity|].
  exists n. split; [reflexivity|]. exact Hn.
Qed.

End GeneratorFacts.

(** *** Downsampling *)

Lemma grid_has_false (grid : sample_grid) (key : SpatialIndex.cell) :
  ~ In key (map fst grid) -> grid_has grid key = false.
Proof.
  unfold grid_has. induction grid as [|[k p] grid IH]; intros H.
  - reflexivity.
  - cbn [existsb fst]. rewrite IH by (intros Hin; apply H; right; exact Hin).
    rewrite orb_false_r. unfold SpatialIndex.cell_eqb.
    destruct key as [kx ky], k as [gx gy]. cbn [fst snd].
    destruct (Z.eqb_spec kx gx) as [->|]; [|reflexivity].
    destruct (Z.eqb_spec ky gy) as [->|]; [|reflexivity].
    exfalso. apply H. left. reflexivity.
Qed.

(** Pixels that fall into cells of their own all survive, in order. *)
Lemma downsample_fold (spacing : R) (pixels : list pt) :
  forall grid : sample_grid,
    NoDup (map fst grid ++ map (sample_key spacing) pixels) ->
    fold_left (downsample_step spacing) pixels grid
    = grid ++ map (fun p => (sample_key spacing p, p)) pixels.
Proof.
  induction pixels as [|p rest IH]; intros grid H.
  - cbn [fold_left map]. rewrite app_nil_r. reflexivity.
  - cbn [fold_left map] in *. unfold downsample_step at 2.
    rewrite grid_has_false.
    + rewrite IH.
      * rewrite <- app_assoc. reflexivity.
      * rewrite map_app, <- app_assoc. exact H.
    + apply NoDup_remove_2 in H. intros Hin. apply H.
      apply in_or_app. left. exact Hin.
Qed.

Lemma downsamplePixels_distinct (pixels : list pt)
  (imageWidth imageHeight density : R) :
  NoDup (map (sample_key (spacing_of density)) pixels) ->
  downsamplePixels pixels imageWidth imageHeight density = pixels.
Proof.
  intros H. unfold downsamplePixels.
  rewrite downsample_fold by exact H.
  cbn [app]. rewrite map_map. cbn [snd]. apply map_id.
Qed.

(** At 100 percent density the grid cells are 10 pixels wide. *)
Lemma spacing_of_100 : spacing_of 100 = 10.
Proof.
  unfold spacing_of, Js.floor.
  replace (10000 / 100) with (10 * 10) by field.
  rewrite sqrt_square by lra.
  rewrite ZfloorZ. apply Rmax_right. lra.
Qed.

Lemma sample_key_block_point (k : nat) :
  sample_key 10 (TspSolver.block_point k)
  = ((89 + Z.of_nat (k mod 32))%Z, (89 + Z.of_nat (k / 32))%Z).
Proof.
  unfold sample_key, TspSolver.block_point. cbn [x y].
  replace (IZR (890 + 10 * Z.of_nat (k mod 32)) / 10)
    with (IZR (89 + Z.of_nat (k mod 32)))
    by (rewrite !plus_IZR, !mult_IZR; field).
  replace (IZR (890 + 10 * Z.of_nat (k / 32)) / 10)
    with (IZR (89 + Z.of_nat (k / 32)))
    by (rewrite !plus_IZR, !mult_IZR; field).
  rewrite !ZfloorZ. reflexivity.
Qed.

Lemma sample_key_origin : sample_key 10 (mkPt 0 0) = (0%Z, 0%Z).
Proof.
  unfold sample_key. cbn [x y].
  replace (0 / 10) with (IZR 0) by field.
  rewrite ZfloorZ. reflexivity.
Qed.

(** In [corner_and_block] no two pixels share a cell. *)
Lemma corner_and_block_cells :
  NoDup (map (sample_key 10) TspSolver.corner_and_block).
Proof.
  unfold TspSolver.corner_and_block.
  rewrite map_cons, map_map, sample_key_origin.
  constructor.
  - intros Hin. apply in_map_iff in Hin. destruct Hin as (k & E & _).
    rewrite sample_key_block_point in E.
    apply (f_equal fst) in E. cbn [fst] in E. lia.
  - apply NoDup_map_NoDup_ForallPairs; [|apply seq_NoDup].
    intros a b _ _ E. rewrite !sample_key_block_point in E.
    pose proof (f_equal fst E) as Em. pose proof (f_equal snd E) as Ed.
    cbn [fst snd] in Em, Ed.
    pose proof (Nat.div_mod_eq a 32). pose proof (Nat.div_mod_eq b 32).
    lia.
Qed.

Lemma downsamplePixels_corner_and_block (imageWidth imageHeight : R) :
  downsamplePixels TspSolver.corner_and_block imageWidth imageHeight 100
  = TspSolver.corner_and_block.
Proof.
  apply downsamplePixels_distinct. rewrite spacing_of_100.
  exact corner_and_block_cells.
Qed.

(** *** The stream of a run *)


(** A tour of valid indices is painted to the end. *)
Lemma paintDots_tour_some (rand : KMeans.oracle) (imageWidth imageHeight : R)
  (cfg : config) (anchors : CoordinateTransformer.anchors)
  (canvasWidthMm canvasHeightMm : R) (sampled : list pt) (tour : list nat) :
  0 < imageWidth -> 0 < imageHeight ->
  0 < canvasWidthMm -> 0 < canvasHeightMm ->
  (forall i, In i tour -> (i < length sampled)%nat) ->
  forall st, exists lines st',
    paintDots rand imageWidth imageHeight cfg anchors canvasWidthMm
      canvasHeightMm (map (nth_error sampled) tour) st = Some (lines, st').
Proof.
  intros Hw Hh Hcw Hch Hin st.
  rewrite (map_ext_in (nth_error sampled)
             (fun i => Some (nth i sampled origin))).
  - rewrite <- (map_map (fun i => nth i sampled origin) Some).
    apply paintDots_some; assumption.
  - intros i Hi. apply nth_error_nth'. apply Hin. exact Hi.
Qed.

(** A run over one layer of at most 1000 samples, on a fresh generator,
    returns a stream. *)
Lemma generate_single_layer_returns (rand : KMeans.oracle)
  (generateStrokesGcode :
     list pt -> R -> R -> config -> CoordinateTransformer.anchors -> R -> R ->
     state -> option (list line * state))
  (cfg : config) (l : layer) :
  paintingMode cfg = Pointillism ->
  0 < paintCapacity (robot cfg) ->
  0 < CoordinateTransformer.width (canvas cfg) ->
  0 < CoordinateTransformer.height (canvas cfg) ->
  0 < imageWidth l -> 0 < imageHeight l ->
  (sample_count cfg l <= 1000)%nat ->
  exists stream st,
    generate rand generateStrokesGcode cfg [l] None = Some (stream, st).
Proof.
  intros Hmode Hcap Hcw Hch Hw Hh Hn.
  unfold generate, RefillTracker.reset.
  rewrite (proj2 (Js.leb_false (paintCapacity (robot cfg)) 0) Hcap).
  cbn [length Nat.ltb Nat.leb].
  unfold generateColorLayersGcode.
  cbn [generateColorLayersGcode_from].
  unfold generateLayerGcode. rewrite Hmode.
  unfold generatePointillismGcode. unfold sample_count in Hn.
  set (sampled := downsamplePixels (pixels l) (imageWidth l) (imageHeight l)
                    (dotDensity (pointillism cfg))) in *.
  replace (Z.ltb 10000 (Z.of_nat (length sampled))) with false
    by (symmetry; apply Z.ltb_ge; lia).
  cbn [currentPosition startIndexOf].
  assert (Ht : exists tour,
             TspSolver.solveTSP sampled 0
               (Nat.ltb (length sampled) 500) 1000 = Some tour
             /\ forall i, In i tour -> (i < length sampled)%nat).
  { destruct sampled as [|p rest] eqn:Es.
    - exists []. split; [reflexivity|]. intros i [].
    - rewrite <- Es in *.
      assert (H0 : (0 < length sampled)%nat) by (rewrite Es; cbn; lia).
      destruct (TspSolverFacts.solveTSP_small sampled 0
                  (Nat.ltb (length sampled) 500) 1000 Hn H0)
        as (tour & E & P).
      exists tour. split; [exact E|].
      intros i Hi. apply (Permutation_in _ P) in Hi.
      apply in_seq in Hi. lia. }
  destruct Ht as (tour & Et & Hin). rewrite Et.
  destruct (paintDots_tour_some rand (imageWidth l) (imageHeight l) cfg
              (CoordinateTransformer.createAnchorConfig (canvas cfg))
              (CoordinateTransformer.width (canvas cfg) * 10)
              (CoordinateTransformer.height (canvas cfg) * 10)
              sampled tour Hw Hh ltac:(lra) ltac:(lra) Hin
              (mkState None
                 (RefillTracker.mkTracker (paintCapacity (robot cfg))
                    (paintCapacity (robot cfg)) 0 0 []) 0))
    as (dots & st' & Ed).
  rewrite Ed. eexists _, _. reflexivity.
Qed.

(** *** A layer the spatial index is used for *)

(** The default anchors of the 200 cm x 150 cm canvas form a proper
    triangle. *)
Lemma dot_config_anchors :
  CoordinateTransformer.createAnchorConfig (canvas dot_config)
  = CoordinateTransformer.mkAnchors
      (CoordinateTransformer.mkPoint 0 0)
      (CoordinateTransformer.mkPoint 2000 0)
      (CoordinateTransformer.mkPoint 1000 1500)
  /\ CoordinateTransformer.non_degenerate
       (CoordinateTransformer.createAnchorConfig (canvas dot_config)).
Proof.
  assert (E : CoordinateTransformer.createAnchorConfig (canvas dot_config)
              = CoordinateTransformer.mkAnchors
                  (CoordinateTransformer.mkPoint 0 0)
                  (CoordinateTransformer.mkPoint 2000 0)
                  (CoordinateTransformer.mkPoint 1000 1500)).
  { unfold CoordinateTransformer.createAnchorConfig, dot_config.
    cbn [canvas CoordinateTransformer.or_else
         CoordinateTransformer.anchorTopLeft
         CoordinateTransformer.anchorTopRight
         CoordinateTransformer.anchorBottomLeft
         CoordinateTransformer.anchorBottomRight
         CoordinateTransformer.width CoordinateTransformer.height
         CoordinateTransformer.px CoordinateTransformer.py].
    f_equal; f_equal; lra. }
  split; [exact E|]. rewrite E.
  unfold CoordinateTransformer.non_degenerate.
  cbn [CoordinateTransformer.topLeft CoordinateTransformer.topRight
       CoordinateTransformer.bottomCenter
       CoordinateTransformer.px CoordinateTransformer.py].
  lra.
Qed.

(** On the pixels of [corner_and_block], at 100 percent density, the dot
    painter keeps all 1001 samples, receives the one-entry tour of the
    planner, and paints that one dot. *)
Lemma generatePointillismGcode_corner_and_block (rand : KMeans.oracle)
  (anchors : CoordinateTransformer.anchors) (canvasWidthMm canvasHeightMm : R)
  (st : state) :
  0 < canvasWidthMm -> 0 < canvasHeightMm ->
  currentPosition st = None ->
  exists dot st',
    paintSingleDot rand 1201 1201 dot_config anchors canvasWidthMm
      canvasHeightMm (Some (mkPt 0 0)) st = Some (dot, st')
    /\ generatePointillismGcode rand 1201 1201 dot_config anchors
         canvasWidthMm canvasHeightMm TspSolver.corner_and_block st
       = Some ([Comment "Painting dots";
                Comment "Optimizing dot order using TSP...";
                Comment "Tour optimized"]%string ++ dot, st').
Proof.
  intros Hcw Hch Hpos.
  destruct (paintSingleDot_some rand 1201 1201 dot_config anchors
              canvasWidthMm canvasHeightMm (mkPt 0 0) st
              ltac:(lra) ltac:(lra) Hcw Hch) as (dot & st' & E).
  exists dot, st'. split; [exact E|].
  unfold generatePointillismGcode.
  change (dotDensity (pointillism dot_config)) with 100.
  rewrite downsamplePixels_corner_and_block.
  rewrite TspSolverFacts.corner_and_block_length.
  change (Z.ltb 10000 (Z.of_nat 1001)) with false.
  change (Nat.ltb 1001 500) with false.
  rewrite Hpos. cbn [startIndexOf].
  unfold TspSolver.solveTSP.
  rewrite TspSolverFacts.nearestNeighbor_corner_and_block.
  cbn [andb map].
  change (nth_error TspSolver.corner_and_block 0) with (Some (mkPt 0 0)).
  cbn [paintDots]. rewrite E. rewrite app_nil_r. reflexivity.
Qed.

(** C8 (failing input).  In dot mode over a proper anchor triangle the
    stream need not hold one [M3]/[M5] pair per surviving sample point.  For
    the layer [sparse_layer] at 100 percent density all 1001 pixels survive
    the downsampling, yet the generated stream switches the actuator on
    once: its actuator commands are the [M5] of the preamble, one [M3]/[M5]
    pair, and the [M5] of the end sequence.  The run itself succeeds,
    whatever the random dot sizes, and [G28] does appear exactly twice. *)
Theorem dot_stream_skips_samples (rand : KMeans.oracle)
  (generateStrokesGcode :
     list pt -> R -> R -> config -> CoordinateTransformer.anchors -> R -> R ->
     state -> option (list line * state)) :
  paintingMode dot_config = Pointillism
  /\ CoordinateTransformer.non_degenerate
       (CoordinateTransformer.createAnchorConfig (canvas dot_config))
  /\ sample_count dot_config sparse_layer = 1001%nat
  /\ exists stream st,
      generate rand generateStrokesGcode dot_config [sparse_layer] None
        = Some (stream, st)
      /\ filter actuator stream = [M5; M3; M5; M5]
      /\ count is_M3 stream = 1%nat
      /\ count is_G28 stream = 2%nat.
Proof.
  split; [reflexivity|].
  split; [exact (proj2 dot_config_anchors)|].
  split.
  { unfold sample_count.
    change (pixels sparse_layer) with TspSolver.corner_and_block.
    change (dotDensity (pointillism dot_config)) with 100.
    rewrite downsamplePixels_corner_and_block.
    exact TspSolverFacts.corner_and_block_length. }
  set (anchors := CoordinateTransformer.createAnchorConfig (canvas dot_config)).
  set (tracker := RefillTracker.mkTracker 50 50 0 0 []).
  destruct (generatePointillismGcode_corner_and_block rand anchors
              (200 * 10) (150 * 10) (mkState None tracker 0)
              ltac:(lra) ltac:(lra) eq_refl) as (dot & st' & Edot & E).
  apply paintSingleDot_actuator in Edot. destruct Edot as [Ha Hg].
  assert (Hrun :
    generate rand generateStrokesGcode dot_config [sparse_layer] None
    = Some ((generateHeader dot_config ++ [Blank])
            ++ (([Separator "COLOR LAYER"; Comment "Color";
                  Comment "Pixels"]%string
                 ++ [Comment "Painting dots";
                     Comment "Optimizing dot order using TSP...";
                     Comment "Tour optimized"]%string ++ dot)
                ++ [Blank])
            ++ [Blank] ++ generateFooter, st')).
  { unfold generate, RefillTracker.reset.
    change (paintCapacity (robot dot_config)) with 50.
    rewrite (proj2 (Js.leb_false 50 0)) by lra.
    cbn [length Nat.ltb Nat.leb].
    unfold generateColorLayersGcode.
    cbn [generateColorLayersGcode_from].
    unfold generateLayerGcode.
    change (paintingMode dot_config) with Pointillism.
    change (imageWidth sparse_layer) with 1201.
    change (imageHeight sparse_layer) with 1201.
    change (pixels sparse_layer) with TspSolver.corner_and_block.
    change (CoordinateTransformer.width (canvas dot_config)) with 200.
    change (CoordinateTransformer.height (canvas dot_config)) with 150.
    fold anchors. fold tracker. rewrite E.
    cbn [Nat.ltb Nat.leb]. rewrite !app_nil_r. reflexivity. }
  eexists _, st'. split; [exact Hrun|].
  unfold count.
  rewrite <- (filter_M3_actuator (_ ++ _)).
  rewrite !filter_app, Ha, Hg.
  repeat split; reflexivity.
Qed.


(** Two pixels of a 100 x 100 image, in cells of their own at 100 percent
    density. *)
Lemma two_pixels_sampled :
  sample_count dot_config
    (mkLayer (ColorUtils.mkColor 10 20 30) 100 100 [mkPt 0 0; mkPt 50 50])
  = 2%nat.
Proof.
  unfold sample_count.
  cbn [pixels imageWidth imageHeight].
  change (dotDensity (pointillism dot_config)) with 100.
  rewrite downsamplePixels_distinct; [reflexivity|].
  rewrite spacing_of_100. cbn [map].
  rewrite sample_key_origin.
  assert (E : sample_key 10 (mkPt 50 50) = (5%Z, 5%Z)).
  { unfold sample_key. cbn [x y].
    replace (50 / 10) with (IZR 5) by field.
    rewrite ZfloorZ. reflexivity. }
  rewrite E.
  repeat constructor; cbn [In]; intros H;
    repeat (destruct H as [H | H]; [discriminate|]); contradiction.
Qed.



(** *** What the downsampling keeps *)

Lemma grid_has_true (grid : sample_grid) (key : SpatialIndex.cell) :
  grid_has grid key = true -> In key (map fst grid).
Proof.
  unfold grid_has. intros H. apply existsb_exists in H.
  destruct H as (e & Hin & He). apply TspSolverFacts.cell_eqb_eq in He.
  subst key. apply in_map. exact Hin.
Qed.

(** The grid after a prefix of the pixels: its entries are pixels of the
    prefix under their own keys, in the order of the prefix, one per key,
    every key of the prefix is there, and the pixel under a key is the
    first one of the prefix with that key. *)
Record sampled_grid (spacing : R) (prefix : list pt) (grid : sample_grid)
  : Prop := mkSampled {
  sg_order : EdgeTracerFacts.subsequence (map snd grid) prefix;
  sg_keys : NoDup (map fst grid);
  sg_key : forall k p, In (k, p) grid -> k = sample_key spacing p;
  sg_all : forall p, In p prefix -> In (sample_key spacing p) (map fst grid);
  sg_first : forall k q, In (k, q) grid ->
      exists before after,
        prefix = before ++ q :: after
        /\ forall p, In p before -> sample_key spacing p <> k
}.

Lemma downsample_step_sampled (spacing : R) (prefix : list pt)
  (grid : sample_grid) (pixel : pt) :
  sampled_grid spacing prefix grid ->
  sampled_grid spacing (prefix ++ [pixel]) (downsample_step spacing grid pixel).
Proof.
  intros [Ho Hk Hkey Hall Hfirst]. unfold downsample_step. cbv zeta.
  destruct (grid_has grid (sample_key spacing pixel)) eqn:E.
  - apply grid_has_true in E. constructor.
    + rewrite <- (app_nil_r (map snd grid)).
      apply EdgeTracerFacts.subsequence_app; [exact Ho | constructor].
    + exact Hk.
    + exact Hkey.
    + intros p Hp. apply in_app_or in Hp. destruct Hp as [Hp | [<- | []]].
      * apply Hall. exact Hp.
      * exact E.
    + intros k q Hq. destruct (Hfirst k q Hq) as (b & a & -> & Hb).
      exists b, (a ++ [pixel]). split; [|exact Hb].
      rewrite <- app_assoc. reflexivity.
  - assert (Hout : ~ In (sample_key spacing pixel) (map fst grid)).
    { intros Hin. apply in_map_iff in Hin.
      destruct Hin as ([k p] & Ek & Hin). cbn [fst] in Ek. subst k.
      unfold grid_has in E.
      assert (Ht : existsb
                     (fun e => SpatialIndex.cell_eqb
                                 (sample_key spacing pixel) (fst e)) grid
                   = true).
      { apply existsb_exists. exists (sample_key spacing pixel, p).
        split; [exact Hin|]. cbn [fst].
        apply TspSolverFacts.cell_eqb_eq. reflexivity. }
      rewrite Ht in E. discriminate. }
    constructor.
    + rewrite map_app. cbn [map snd].
      apply EdgeTracerFacts.subsequence_app;
        [exact Ho | apply EdgeTracerFacts.subsequence_refl].
    + rewrite map_app. cbn [map fst].
      apply NoDup_app; [exact Hk | repeat constructor; intros [] |].
      intros a Ha [<- | []]. exact (Hout Ha).
    + intros k p Hp. apply in_app_or in Hp. destruct Hp as [Hp | [Hp | []]].
      * apply Hkey. exact Hp.
      * injection Hp as <- <-. reflexivity.
    + intros p Hp. rewrite map_app. apply in_or_app.
      apply in_app_or in Hp. destruct Hp as [Hp | [<- | []]].
      * left. apply Hall. exact Hp.
      * right. left. reflexivity.
    + intros k q Hq. apply in_app_or in Hq. destruct Hq as [Hq | [Hq | []]].
      * destruct (Hfirst k q Hq) as (b & a & -> & Hb).
        exists b, (a ++ [pixel]). split; [|exact Hb].
        rewrite <- app_assoc. reflexivity.
      * injection Hq as <- <-. exists prefix, []. split; [reflexivity|].
        intros p Hp Ep. apply Hout. rewrite <- Ep. apply Hall. exact Hp.
Qed.

Lemma downsample_sampled (spacing : R) (pixels : list pt) :
  sampled_grid spacing pixels (fold_left (downsample_step spacing) pixels []).
Proof.
  induction pixels as [|p pixels IH] using rev_ind.
  - constructor; cbn; try constructor; try contradiction.
  - rewrite fold_left_app. cbn [fold_left].
    apply downsample_step_sampled. exact IH.
Qed.

(** [_downsamplePixels] keeps, for every grid cell that holds a pixel, the
    first pixel of the list in that cell and no other: the result is a
    subsequence of the input, no two kept pixels share a cell, every input
    pixel has a kept pixel in its cell, and no pixel before a kept one lies
    in its cell. *)
Theorem downsamplePixels_first_per_cell (pixels : list pt)
  (imageWidth imageHeight density : R) :
  let key := sample_key (spacing_of density) in
  let kept := downsamplePixels pixels imageWidth imageHeight density in
  EdgeTracerFacts.subsequence kept pixels
  /\ NoDup (map key kept)
  /\ (forall p, In p pixels -> exists q, In q kept /\ key q = key p)
  /\ (forall q, In q kept ->
        exists before after,
          pixels = before ++ q :: after
          /\ forall p, In p before -> key p <> key q).
Proof.
  cbv zeta. unfold downsamplePixels. cbv zeta.
  destruct (downsample_sampled (spacing_of density) pixels)
    as [Ho Hk Hkey Hall Hfirst].
  set (grid := fold_left (downsample_step (spacing_of density)) pixels [])
    in *.
  assert (Hmap : map (sample_key (spacing_of density)) (map snd grid)
                 = map fst grid).
  { rewrite map_map. apply map_ext_in. intros [k p] Hin. cbn [fst snd].
    symmetry. apply Hkey. exact Hin. }
  split; [exact Ho|]. split; [rewrite Hmap; exact Hk|]. split.
  - intros p Hp. apply Hall in Hp. apply in_map_iff in Hp.
    destruct Hp as ([k q] & Ek & Hin). cbn [fst] in Ek. subst k.
    exists q. split.
    + apply in_map_iff. exists (sample_key (spacing_of density) p, q).
      split; [reflexivity | exact Hin].
    + symmetry. apply (Hkey _ _ Hin).
  - intros q Hq. apply in_map_iff in Hq.
    destruct Hq as ([k q'] & Eq & Hin). cbn [snd] in Eq. subst q'.
    destruct (Hfirst k q Hin) as (b & a & E & Hb).
    exists b, a. split; [exact E|].
    rewrite <- (Hkey k q Hin). exact Hb.
Qed.


(** *** The painter and the refill tracker *)

(** The line that opens a refill sequence. *)
Definition is_refill_start (l : line) : bool :=
  match l with
  | Separator label => String.eqb label "REFILL SEQUENCE"
  | _ => false
  end.

(** What a piece of the stream does to the tracker: the capacity stays,
    every refill sequence is counted, every dot is recorded, and a can that
    was above the refill threshold is above it again afterwards. *)
Definition tracked (st st' : state) (lines : list line) : Prop :=
  RefillTracker.paintCapacity (refillTracker st')
  = RefillTracker.paintCapacity (refillTracker st)
  /\ RefillTracker.refillCount (refillTracker st')
     = (RefillTracker.refillCount (refillTracker st)
        + count is_refill_start lines)%nat
  /\ length (RefillTracker.usageHistory (refillTracker st'))
     = (length (RefillTracker.usageHistory (refillTracker st))
        + count is_M3 lines)%nat
  /\ (0 < RefillTracker.paintCapacity (refillTracker st) ->
      RefillTracker.paintCapacity (refillTracker st) * / 10
        < RefillTracker.remainingCapacity (refillTracker st) ->
      RefillTracker.paintCapacity (refillTracker st) * / 10
        < RefillTracker.remainingCapacity (refillTracker st')).

(** Lines that neither open a refill sequence nor switch the actuator
    on. *)
Definition untracked (lines : list line) : Prop :=
  count is_refill_start lines = 0%nat /\ count is_M3 lines = 0%nat.

Lemma count_app (p : line -> bool) (l r : list line) :
  count p (l ++ r) = (count p l + count p r)%nat.
Proof. unfold count. rewrite filter_app, length_app. reflexivity. Qed.

Lemma tracked_refl (st : state) : tracked st st [].
Proof.
  unfold tracked, count. cbn [filter length].
  repeat split; try lia. intros _ H. exact H.
Qed.

Lemma tracked_app (st st1 st2 : state) (l1 l2 : list line) :
  tracked st st1 l1 -> tracked st1 st2 l2 -> tracked st st2 (l1 ++ l2).
Proof.
  intros (C1 & R1 & H1 & T1) (C2 & R2 & H2 & T2).
  unfold tracked. rewrite !count_app. repeat split; try lia.
  - congruence.
  - intros Hc Hr. rewrite <- C1. apply T2.
    + rewrite C1. exact Hc.
    + rewrite C1. apply T1; assumption.
Qed.

Lemma tracked_frame (st st' : state) (pre lines post : list line) :
  untracked pre -> untracked post -> tracked st st' lines ->
  tracked st st' (pre ++ lines ++ post).
Proof.
  intros [P1 P2] [Q1 Q2] (C & Rc & H & T).
  unfold tracked. rewrite !count_app. repeat split; try lia; assumption.
Qed.

Lemma tracked_pre (st st' : state) (pre lines : list line) :
  untracked pre -> tracked st st' lines -> tracked st st' (pre ++ lines).
Proof.
  intros Hp H. rewrite <- (app_nil_r lines).
  apply tracked_frame; [exact Hp | split; reflexivity | exact H].
Qed.

Section TrackedPainting.

Variable rand : KMeans.oracle.
Variables (imageWidth imageHeight : R) (cfg : config)
  (anchors : CoordinateTransformer.anchors) (canvasWidthMm canvasHeightMm : R).

Lemma paintSingleDot_tracked (pixel : option pt) (st st' : state)
  (lines : list line) :
  paintSingleDot rand imageWidth imageHeight cfg anchors canvasWidthMm
    canvasHeightMm pixel st = Some (lines, st') ->
  tracked st st' lines.
Proof.
  unfold paintSingleDot. intros H.
  destruct pixel as [p|]; [|discriminate].
  destruct (CoordinateTransformer.scaleToPhysical _ _ _ _ _ _) as [ph|];
    [|discriminate].
  destruct (RefillTracker.addDotUsage _ _ _) as [[tr b]|] eqn:E;
    [|discriminate].
  unfold RefillTracker.addDotUsage in E. cbv zeta in E.
  apply RefillTrackerFacts.addUsage_signal in E. destruct E as [Et Eb].
  unfold RefillTracker.default_threshold in Eb.
  destruct b.
  - assert (Hs : refillTracker st' = RefillTracker.refill tr)
      by (injection H as _ <-; reflexivity).
    assert (Hl : count is_refill_start lines = 1%nat
                 /\ count is_M3 lines = 1%nat)
      by (injection H as <- _; split; reflexivity).
    destruct Hl as [Hl1 Hl2]. unfold tracked. rewrite Hs, Hl1, Hl2, Et.
    cbn [RefillTracker.refill RefillTrackerFacts.used
         RefillTracker.paintCapacity RefillTracker.refillCount
         RefillTracker.usageHistory RefillTracker.remainingCapacity].
    rewrite length_app. cbn [length].
    repeat split; try lia. intros Hc _. lra.
  - assert (Hs : refillTracker st' = tr)
      by (injection H as _ <-; reflexivity).
    assert (Hl : count is_refill_start lines = 0%nat
                 /\ count is_M3 lines = 1%nat)
      by (injection H as <- _; split; reflexivity).
    destruct Hl as [Hl1 Hl2]. unfold tracked. rewrite Hs, Hl1, Hl2.
    symmetry in Eb. apply Js.leb_false in Eb. rewrite Et in *.
    cbn [RefillTrackerFacts.used
         RefillTracker.paintCapacity RefillTracker.refillCount
         RefillTracker.usageHistory RefillTracker.remainingCapacity] in *.
    rewrite length_app. cbn [length].
    repeat split; try lia. intros _ _. exact Eb.
Qed.

Lemma paintDots_tracked (order : list (option pt)) :
  forall (st st' : state) (lines : list line),
    paintDots rand imageWidth imageHeight cfg anchors canvasWidthMm
      canvasHeightMm order st = Some (lines, st') ->
    tracked st st' lines.
Proof.
  induction order as [|pixel rest IH]; intros st st' lines H.
  - injection H as <- <-. apply tracked_refl.
  - cbn [paintDots] in H.
    destruct (paintSingleDot _ _ _ _ _ _ _ pixel st) as [[dot st1]|] eqn:E1;
      [|discriminate].
    destruct (paintDots _ _ _ _ _ _ _ rest st1) as [[dots st2]|] eqn:E2;
      [|discriminate].
    injection H as <- <-.
    apply (tracked_app st st1 st2).
    + apply paintSingleDot_tracked with (pixel := pixel). exact E1.
    + apply IH. exact E2.
Qed.

Lemma generatePointillismGcode_tracked (pixels : list pt) (st st' : state)
  (lines : list line) :
  generatePointillismGcode rand imageWidth imageHeight cfg anchors
    canvasWidthMm canvasHeightMm pixels st = Some (lines, st') ->
  tracked st st' lines.
Proof.
  unfold generatePointillismGcode. intros H.
  destruct (Z.ltb 10000 _).
  - destruct (paintDots _ _ _ _ _ _ _ _ st) as [[dots st1]|] eqn:E;
      [|discriminate].
    injection H as <- <-. apply paintDots_tracked in E.
    apply (tracked_pre st st1 [_; _] dots); [split; reflexivity | exact E].
  - destruct (TspSolver.solveTSP _ _ _ _) as [tour|]; [|discriminate].
    destruct (paintDots _ _ _ _ _ _ _ _ st) as [[dots st1]|] eqn:E;
      [|discriminate].
    injection H as <- <-. apply paintDots_tracked in E.
    apply (tracked_pre st st1 [_; _; _] dots); [split; reflexivity | exact E].
Qed.

End TrackedPainting.

Section TrackedRun.

Variable rand : KMeans.oracle.
Variable generateStrokesGcode :
  list pt -> R -> R -> config -> CoordinateTransformer.anchors -> R -> R ->
  state -> option (list line * state).
Variable cfg : config.
Hypothesis dot_mode : paintingMode cfg = Pointillism.

Lemma generateLayerGcode_tracked (l : layer) (layerIndex : nat)
  (anchors : CoordinateTransformer.anchors) (canvasWidthMm canvasHeightMm : R)
  (st st' : state) (lines : list line) :
  generateLayerGcode rand generateStrokesGcode l layerIndex cfg anchors
    canvasWidthMm canvasHeightMm st = Some (lines, st') ->
  tracked st st' lines.
Proof.
  unfold generateLayerGcode. rewrite dot_mode. intros H.
  destruct (generatePointillismGcode _ _ _ _ _ _ _ _ _)
    as [[painting st1]|] eqn:E; [|discriminate].
  apply generatePointillismGcode_tracked in E.
  assert (Hs : st' = st1) by (injection H as _ <-; reflexivity).
  assert (Hl : lines =
               ([Separator "COLOR LAYER"%string; Comment "Color"%string;
                 Comment "Pixels"%string]
                ++ (if Nat.ltb 0 layerIndex
                    then generateColorChangeSequence cfg anchors else []))
               ++ painting ++ [])
    by (injection H as H _; rewrite <- H, app_nil_r; reflexivity).
  subst st' lines.
  apply tracked_frame; [| split; reflexivity | exact E].
  destruct (Nat.ltb 0 layerIndex); split; reflexivity.
Qed.

Lemma generateColorLayersGcode_tracked (colorLayers : list layer)
  (anchors : CoordinateTransformer.anchors) (canvasWidthMm canvasHeightMm : R) :
  forall (i : nat) (st st' : state) (lines : list line),
    generateColorLayersGcode_from rand generateStrokesGcode i colorLayers cfg
      anchors canvasWidthMm canvasHeightMm st = Some (lines, st') ->
    tracked st st' lines.
Proof.
  induction colorLayers as [|l rest IH]; intros i st st' lines H.
  - injection H as <- <-. apply tracked_refl.
  - cbn [generateColorLayersGcode_from] in H.
    destruct (generateLayerGcode _ _ l i cfg anchors _ _ st)
      as [[layerGcode st1]|] eqn:E1; [|discriminate].
    destruct (generateColorLayersGcode_from _ _ (S i) rest cfg anchors _ _ st1)
      as [[more st2]|] eqn:E2; [|discriminate].
    assert (Hs : st' = st2) by (injection H as _ <-; reflexivity).
    assert (Hl : lines = layerGcode ++ [Blank] ++ more)
      by (injection H as H _; rewrite <- H; reflexivity).
    subst st' lines.
    apply (tracked_app st st1 st2).
    + apply generateLayerGcode_tracked in E1. exact E1.
    + apply IH in E2.
      apply (tracked_frame st1 st2 [Blank] more []) in E2;
        [| split; reflexivity | split; reflexivity].
      rewrite app_nil_r in E2. exact E2.
Qed.

End TrackedRun.

(** In dot mode the stream and the refill tracker of a run agree: the
    tracker has the configured capacity, it counted as many refills as the
    stream holds refill sequences, its history has one entry per [M3] of
    the stream, and at the end of the run it does not ask for a refill (more
    than a tenth of the capacity is left). *)
Theorem generate_tracks_paint (rand : KMeans.oracle)
  (generateStrokesGcode :
     list pt -> R -> R -> config -> CoordinateTransformer.anchors -> R -> R ->
     state -> option (list line * state))
  (cfg : config) (colorLayers : list layer) (position : option pt)
  (stream : list line) (st : state) :
  paintingMode cfg = Pointillism ->
  generate rand generateStrokesGcode cfg colorLayers position
    = Some (stream, st) ->
  RefillTracker.getPaintCapacity (refillTracker st) = paintCapacity (robot cfg)
  /\ RefillTracker.getRefillCount (refillTracker st)
     = count is_refill_start stream
  /\ length (RefillTracker.usageHistory (refillTracker st))
     = count is_M3 stream
  /\ RefillTracker.needsRefill (refillTracker st)
       RefillTracker.default_threshold = Some false.
Proof.
  intros Hmode H. unfold generate in H.
  unfold RefillTracker.reset in H.
  destruct (Js.leb (paintCapacity (robot cfg)) 0) eqn:Hcap; [discriminate|].
  apply Js.leb_false in Hcap.
  destruct (Nat.ltb 0 (length colorLayers)); [|discriminate].
  unfold generateColorLayersGcode in H.
  destruct (generateColorLayersGcode_from _ _ 0 colorLayers cfg _ _ _ _)
    as [[layerGcode st1]|] eqn:E; [|discriminate].
  assert (Hs : st = st1) by (injection H as _ <-; reflexivity).
  assert (Hl : stream = (generateHeader cfg ++ [Blank]) ++ layerGcode
                          ++ [Blank] ++ generateFooter)
    by (injection H as H _; rewrite <- H; reflexivity).
  clear H. subst st stream.
  apply (generateColorLayersGcode_tracked rand generateStrokesGcode cfg Hmode)
    in E.
  apply (tracked_frame _ _ (generateHeader cfg ++ [Blank]) layerGcode
           ([Blank] ++ generateFooter)) in E;
    [| split; reflexivity | split; reflexivity].
  destruct E as (C & Rc & Hh & T).
  cbn [refillTracker RefillTracker.paintCapacity RefillTracker.refillCount
       RefillTracker.usageHistory RefillTracker.remainingCapacity length
       Nat.add] in C, Rc, Hh, T.
  unfold RefillTracker.getPaintCapacity, RefillTracker.getRefillCount.
  split; [exact C|]. split; [exact Rc|]. split; [exact Hh|].
  rewrite RefillTrackerFacts.needsRefill_default. f_equal.
  apply Js.leb_false. rewrite C.
  unfold RefillTracker.default_threshold. apply T; lra.
Qed.

Lemma generate_tracks_paint_witness :
  exists stream st,
    generate (fun _ => 0) (fun _ _ _ _ _ _ _ _ => None) dot_config
      [mkLayer (ColorUtils.mkColor 10 20 30) 100 100 [mkPt 0 0; mkPt 50 50]]
      None = Some (stream, st)
    /\ RefillTracker.getPaintCapacity (refillTracker st) = 50
    /\ RefillTracker.needsRefill (refillTracker st)
         RefillTracker.default_threshold = Some false.
Proof.
  destruct (generate_single_layer_returns (fun _ => 0)
              (fun _ _ _ _ _ _ _ _ => None) dot_config
              (mkLayer (ColorUtils.mkColor 10 20 30) 100 100
                 [mkPt 0 0; mkPt 50 50]))
    as (stream & st & E).
  - reflexivity.
  - cbn. lra.
  - cbn. lra.
  - cbn. lra.
  - cbn. lra.
  - cbn. lra.
  - rewrite two_pixels_sampled. lia.
  - exists stream, st. split; [exact E|].
    destruct (generate_tracks_paint (fun _ => 0)
                (fun _ _ _ _ _ _ _ _ => None) dot_config _ None stream st
                eq_refl E) as (C & _ & _ & N).
    split; [exact C | exact N].
Defined.


(** *** The start of the tour of a later layer *)

Lemma closest_fold (pixels : list pt) (cur : pt) (l : list nat) :
  forall d0 i0,
    exists d i,
      fold_left (closest_step pixels cur) l (Some d0, i0) = (Some d, i)
      /\ d <= d0
      /\ (forall j, In j l -> d <= distance (TspSolver.at_index pixels j) cur)
      /\ ((d = d0 /\ i = i0)
          \/ (In i l /\ d = distance (TspSolver.at_index pixels i) cur)).
Proof.
  induction l as [|j l IH]; intros d0 i0; cbn [fold_left].
  - exists d0, i0. split; [reflexivity|]. split; [lra|].
    split; [intros j []|]. left. split; reflexivity.
  - unfold closest_step at 2. cbn [fst below]. cbv zeta.
    change (sqrt ((x (TspSolver.at_index pixels j) - x cur)
                  * (x (TspSolver.at_index pixels j) - x cur)
                  + (y (TspSolver.at_index pixels j) - y cur)
                    * (y (TspSolver.at_index pixels j) - y cur)))
      with (distance (TspSolver.at_index pixels j) cur).
    destruct (Js.ltb (distance (TspSolver.at_index pixels j) cur) d0) eqn:E.
    + apply Js.ltb_spec in E.
      destruct (IH (distance (TspSolver.at_index pixels j) cur) j)
        as (d & i & Ef & Hle & Hall & Hw).
      exists d, i. split; [exact Ef|]. split; [lra|]. split.
      * intros k [<- | Hk]; [exact Hle | apply Hall; exact Hk].
      * right. destruct Hw as [[-> ->] | [Hin Hd]].
        -- split; [left; reflexivity | reflexivity].
        -- split; [right; exact Hin | exact Hd].
    + apply Js.ltb_false in E.
      destruct (IH d0 i0) as (d & i & Ef & Hle & Hall & Hw).
      exists d, i. split; [exact Ef|]. split; [exact Hle|]. split.
      * intros k [<- | Hk]; [lra | apply Hall; exact Hk].
      * destruct Hw as [Hw | [Hin Hd]]; [left; exact Hw|].
        right. split; [right; exact Hin | exact Hd].
Qed.

(** With a current position, the start index is the index, in the list the
    painter was given, of a pixel nearest to that position. *)
Lemma startIndexOf_nearest (cur : pt) (pixels : list pt) :
  pixels <> [] ->
  (startIndexOf (Some cur) pixels < length pixels)%nat
  /\ forall j, (j < length pixels)%nat ->
       distance (TspSolver.at_index pixels (startIndexOf (Some cur) pixels))
         cur
       <= distance (TspSolver.at_index pixels j) cur.
Proof.
  intros Hne.
  destruct pixels as [|p0 rest]; [contradiction|].
  remember (p0 :: rest) as pixels eqn:Ep.
  assert (Hlen : length pixels = S (length rest)) by (subst; reflexivity).
  destruct (closest_fold pixels cur (seq 1 (length rest))
              (distance (TspSolver.at_index pixels 0) cur) 0)
    as (d & i & Ef & Hle & Hall & Hw).
  assert (E : startIndexOf (Some cur) pixels = i).
  { unfold startIndexOf. rewrite Hlen.
    cbn [Nat.ltb Nat.leb seq fold_left].
    unfold closest_step at 2. cbn [fst below]. cbv zeta.
    change (sqrt ((x (TspSolver.at_index pixels 0) - x cur)
                  * (x (TspSolver.at_index pixels 0) - x cur)
                  + (y (TspSolver.at_index pixels 0) - y cur)
                    * (y (TspSolver.at_index pixels 0) - y cur)))
      with (distance (TspSolver.at_index pixels 0) cur).
    rewrite Ef. reflexivity. }
  rewrite E, Hlen.
  assert (Hi : (i < S (length rest))%nat
               /\ d = distance (TspSolver.at_index pixels i) cur).
  { destruct Hw as [[-> ->] | [Hin Hd]].
    - split; [lia | reflexivity].
    - apply in_seq in Hin. split; [lia | exact Hd]. }
  destruct Hi as [Hi Hd]. split; [exact Hi|]. rewrite <- Hd.
  intros j Hj. destruct j as [|j]; [exact Hle|].
  apply Hall. apply in_seq. lia.
Qed.



(** Three pixels of which the last two share a cell at 100 percent
    density: two remain. *)
Lemma three_pixels_sampled (imageWidth imageHeight : R) :
  downsamplePixels [mkPt 0 0; mkPt 50 50; mkPt 55 55] imageWidth imageHeight
    100
  = [mkPt 0 0; mkPt 50 50].
Proof.
  unfold downsamplePixels. cbv zeta. rewrite spacing_of_100.
  assert (E1 : sample_key 10 (mkPt 50 50) = (5%Z, 5%Z)).
  { unfold sample_key. cbn [x y].
    replace (50 / 10) with (IZR 5) by field.
    rewrite ZfloorZ. reflexivity. }
  assert (E2 : sample_key 10 (mkPt 55 55) = (5%Z, 5%Z)).
  { unfold sample_key. cbn [x y].
    assert (Zfloor (55 / 10) = 5%Z) as -> by (apply Zfloor_eq; lra).
    reflexivity. }
  cbn [fold_left]. unfold downsample_step. cbv zeta.
  rewrite sample_key_origin, E1, E2. reflexivity.
Qed.

(** The pixel at index 2 is where the painter stands: it is the start. *)
Lemma three_pixels_start :
  startIndexOf (Some (mkPt 55 55)) [mkPt 0 0; mkPt 50 50; mkPt 55 55]
  = 2%nat.
Proof.
  destruct (startIndexOf_nearest (mkPt 55 55)
              [mkPt 0 0; mkPt 50 50; mkPt 55 55]) as [Hlt Hmin];
    [discriminate|].
  specialize (Hmin 2%nat ltac:(cbn; lia)).
  change (TspSolver.at_index [mkPt 0 0; mkPt 50 50; mkPt 55 55] 2)
    with (mkPt 55 55) in Hmin.
  rewrite EdgeTracerFacts.distance_refl in Hmin.
  set (i := startIndexOf (Some (mkPt 55 55))
              [mkPt 0 0; mkPt 50 50; mkPt 55 55]) in *.
  cbn [length] in Hlt.
  destruct i as [|[|[|i]]]; [| |reflexivity|lia]; exfalso.
  - change (TspSolver.at_index [mkPt 0 0; mkPt 50 50; mkPt 55 55] 0)
      with (mkPt 0 0) in Hmin.
    unfold distance in Hmin. cbn [x y] in Hmin.
    assert (H : 0 < sqrt ((0 - 55) * (0 - 55) + (0 - 55) * (0 - 55)))
      by (apply sqrt_lt_R0; lra).
    lra.
  - change (TspSolver.at_index [mkPt 0 0; mkPt 50 50; mkPt 55 55] 1)
      with (mkPt 50 50) in Hmin.
    unfold distance in Hmin. cbn [x y] in Hmin.
    assert (H : 0 < sqrt ((50 - 55) * (50 - 55) + (50 - 55) * (50 - 55)))
      by (apply sqrt_lt_R0; lra).
    lra.
Qed.



(** *** Density and grid spacing *)

Lemma Zfloor_mono (a b : R) : a <= b -> (Zfloor a <= Zfloor b)%Z.
Proof.
  intros H. pose proof (Zfloor_bound a) as Ha.
  pose proof (Zfloor_bound b) as Hb.
  apply Z.lt_succ_r. apply lt_IZR. rewrite succ_IZR. lra.
Qed.

Lemma spacing_of_mono (d1 d2 : R) :
  0 < d1 -> d1 <= d2 -> spacing_of d2 <= spacing_of d1.
Proof.
  intros H1 H2. unfold spacing_of, Js.floor.
  assert (Hq : 10000 / d2 <= 10000 / d1).
  { unfold Rdiv. apply Rmult_le_compat_l; [lra|].
    apply Rinv_le_contravar; assumption. }
  apply sqrt_le_1_alt in Hq. apply Zfloor_mono in Hq. apply IZR_le in Hq.
  apply Rmax_lub; [apply Rmax_l|].
  etransitivity; [exact Hq | apply Rmax_r].
Qed.



End GCodeGeneratorFacts.


(** ** Scanline planner ([algorithms/scanlinePlanner.js]) *)

Module ScanlinePlanner.
Import Plane.

(** [matchesColor(imageData, x, y, width, targetColor, tolerance)] on the
    flat array of the image; [targetColor] is given by its three channels.
    An entry outside the array is [undefined]: the comparison of an
    [undefined] alpha with 128 is false, and a distance computed from an
    [undefined] channel is [NaN], which is not below any tolerance. *)
Definition matchesColor (imageData : list R) (x y width : nat)
  (targetColor : R * R * R) (tolerance : R) : bool :=
  let index := ((y * width + x) * 4)%nat in
  let r := nth_error imageData index in
  let g := nth_error imageData (index + 1) in
  let b := nth_error imageData (index + 2) in
  let a := nth_error imageData (index + 3) in
  let transparent :=
    match a with Some a => Js.ltb a 128 | None => false end in
  if transparent then false
  else
    match r, g, b with
    | Some r, Some g, Some b =>
        let dr := r - fst (fst targetColor) in
        let dg := g - snd (fst targetColor) in
        let db := b - snd targetColor in
        let colorDistance := sqrt (dr * dr + dg * dg + db * db) in
        Js.leb colorDistance tolerance
    | _, _, _ => false
    end.

(** A line segment [{startX, startY, endX, endY, length}]; [reversed] is
    [None] where the object has no such field. *)
Record segment : Type := mkSegment {
  startX : nat;
  startY : nat;
  endX : nat;
  endY : nat;
  segLength : nat;
  reversed : option bool
}.

(** The body of [for (let x = 0; x < width; x++)] in row [y]: the state is
    [segmentStart] ([None] is [null]) and the segments pushed so far. *)
Definition row_step (matches : nat -> bool) (y : nat)
  (st : option nat * list segment) (x : nat) : option nat * list segment :=
  match matches x, fst st with
  | true, None => (Some x, snd st)
  | false, Some segmentStart =>
      (None,
       snd st ++ [mkSegment segmentStart y (x - 1) y (x - segmentStart) None])
  | _, _ => st
  end.

(** Close segment at end of row if needed. *)
Definition close_row (width y : nat) (st : option nat * list segment)
  : list segment :=
  match fst st with
  | Some segmentStart =>
      snd st
      ++ [mkSegment segmentStart y (width - 1) y (width - segmentStart) None]
  | None => snd st
  end.

(** [planHorizontalScanlines(imageData, targetColor, tolerance)]. *)
Definition planHorizontalScanlines (data : list R) (width height : nat)
  (targetColor : R * R * R) (tolerance : R) : list segment :=
  fold_left
    (fun segments y =>
       close_row width y
         (fold_left
            (row_step (fun x => matchesColor data x y width targetColor
                                  tolerance) y)
            (seq 0 width) (None, segments)))
    (seq 0 height) [].

(** [Math.abs(a - b)] on loop indices. *)
Definition abs_diff (a b : nat) : nat := Z.to_nat (Z.abs (Z.of_nat a - Z.of_nat b)).

(** The body of the row loop of [planBidirectionalScanlines] in the
    horizontal direction. *)
Definition bidirectional_step (matches : nat -> bool) (y : nat)
  (leftToRight : bool) (st : option nat * list segment) (x : nat)
  : option nat * list segment :=
  match matches x, fst st with
  | true, None => (Some x, snd st)
  | false, Some segmentStart =>
      (None,
       snd st
       ++ [mkSegment (if leftToRight then segmentStart else x + 1) y
             (if leftToRight then x - 1 else segmentStart) y
             (abs_diff x segmentStart) (Some (negb leftToRight))])
  | _, _ => st
  end.

Definition bidirectional_close (width y : nat) (leftToRight : bool)
  (st : option nat * list segment) : list segment :=
  match fst st with
  | Some segmentStart =>
      snd st
      ++ [mkSegment (if leftToRight then segmentStart else 0) y
            (if leftToRight then width - 1 else segmentStart) y
            (abs_diff (if leftToRight then width else 0) segmentStart)
            (Some (negb leftToRight))]
  | None => snd st
  end.

(** [planBidirectionalScanlines(imageData, targetColor, tolerance,
    'horizontal')]: the row is scanned from [xStart] to [xEnd], to the
    right in even rows and to the left in odd rows. *)
Definition planBidirectionalScanlines (data : list R) (width height : nat)
  (targetColor : R * R * R) (tolerance : R) : list segment :=
  fold_left
    (fun segments y =>
       let leftToRight := Nat.eqb (y mod 2) 0 in
       let xs := if leftToRight then seq 0 width else rev (seq 0 width) in
       bidirectional_close width y leftToRight
         (fold_left
            (bidirectional_step
               (fun x => matchesColor data x y width targetColor tolerance)
               y leftToRight)
            xs (None, segments)))
    (seq 0 height) [].

(** The best candidate of one round of [optimizeScanlineOrder]. *)
Record choice : Type := mkChoice {
  bestIndex : nat;
  bestDistance : R;
  bestReversed : bool;
  bestEndPos : pt
}.

Definition start_of (s : segment) : pt :=
  mkPt (INR (startX s)) (INR (startY s)).

Definition end_of (s : segment) : pt :=
  mkPt (INR (endX s)) (INR (endY s)).

Definition no_segment : segment := mkSegment 0 0 0 0 0 None.

(** The body of [for (const index of remaining)]; the candidate is [None]
    while [bestIndex] is -1. *)
Definition consider (segments : list segment) (currentPos : pt)
  (best : option choice) (index : nat) : option choice :=
  let segment := nth index segments no_segment in
  let distToStart := distance currentPos (start_of segment) in
  let distToEnd := distance currentPos (end_of segment) in
  let best1 :=
    if below distToStart (option_map bestDistance best)
    then Some (mkChoice index distToStart false (end_of segment)) else best in
  if below distToEnd (option_map bestDistance best1)
  then Some (mkChoice index distToEnd true (start_of segment)) else best1.

(** [{...selectedSegment, reversed: bestReversed}]. *)
Definition with_reversed (s : segment) (flag : option bool) : segment :=
  mkSegment (startX s) (startY s) (endX s) (endY s) (segLength s) flag.

(** [while (remaining.size > 0)]: one segment leaves [remaining] in every
    round, so a fuel of [remaining.size] rounds is never used up.  A round
    without a candidate ([None]) does not occur: the first distance of a
    round is below [Infinity]. *)
Fixpoint order_rounds (fuel : nat) (segments : list segment)
  (remaining : list nat) (orderedSegments : list segment) (currentPos : pt)
  : option (list segment) :=
  match fuel, remaining with
  | _, [] => Some orderedSegments
  | O, _ => Some orderedSegments
  | S fuel', _ =>
      match fold_left (consider segments currentPos) remaining None with
      | None => None
      | Some best =>
          let selectedSegment := nth (bestIndex best) segments no_segment in
          order_rounds fuel' segments
            (remove Nat.eq_dec (bestIndex best) remaining)
            (orderedSegments
             ++ [with_reversed selectedSegment (Some (bestReversed best))])
            (bestEndPos best)
      end
  end.

(** [optimizeScanlineOrder(segments, startPos)]. *)
Definition optimizeScanlineOrder (segments : list segment) (startPos : pt)
  : option (list segment) :=
  match segments with
  | [] => Some []
  | [segment] => Some [with_reversed segment (Some false)]
  | _ =>
      order_rounds (length segments) segments (seq 0 (length segments)) []
        startPos
  end.

(** The pixels that a segment runs over, from its start to its end. *)
Definition pixels_of (s : segment) : list (nat * nat) :=
  map (fun x => (x, startY s)) (seq (startX s) (endX s + 1 - startX s)).

(** The pixels of an image, row by row. *)
Definition all_pixels (width height : nat) : list (nat * nat) :=
  flat_map (fun y => map (fun x => (x, y)) (seq 0 width)) (seq 0 height).

End ScanlinePlanner.


Module ScanlinePlannerFacts.
Import Plane ScanlinePlanner.

(** *** One row, scanned to the right *)

(** The row loop with the flag that its segments carry: [None] in
    [planHorizontalScanlines], [Some false] in the even rows of
    [planBidirectionalScanlines]. *)
Definition forward_step (flag : option bool) (matches : nat -> bool) (y : nat)
  (st : option nat * list segment) (x : nat) : option nat * list segment :=
  match matches x, fst st with
  | true, None => (Some x, snd st)
  | false, Some segmentStart =>
      (None,
       snd st ++ [mkSegment segmentStart y (x - 1) y (x - segmentStart) flag])
  | _, _ => st
  end.

Definition forward_close (flag : option bool) (width y : nat)
  (st : option nat * list segment) : list segment :=
  match fst st with
  | Some segmentStart =>
      snd st
      ++ [mkSegment segmentStart y (width - 1) y (width - segmentStart) flag]
  | None => snd st
  end.

(** A segment of row [y] that is a run of matching pixels, closed on both
    sides inside the first [k] columns or by the border at column
    [width]. *)
Definition run (flag : option bool) (matches : nat -> bool) (y width : nat)
  (s : segment) : Prop :=
  startY s = y /\ endY s = y
  /\ (startX s <= endX s < width)%nat
  /\ segLength s = (endX s + 1 - startX s)%nat
  /\ reversed s = flag
  /\ (startX s = 0%nat \/ matches (startX s - 1)%nat = false)
  /\ ((endX s + 1)%nat = width \/ matches (endX s + 1)%nat = false).

Definition on_row (y : nat) (xs : list nat) : list (nat * nat) :=
  map (fun x => (x, y)) xs.

(** The state of the row loop after the columns below [k]. *)
Record forward_inv (flag : option bool) (matches : nat -> bool)
  (y width k : nat) (st : option nat) (new : list segment) : Prop :=
  mkForwardInv {
  fi_cover :
    flat_map pixels_of new
    ++ on_row y (match st with Some s => seq s (k - s) | None => [] end)
    = on_row y (filter matches (seq 0 k));
  fi_open :
    match st with
    | Some s => (s < k)%nat /\ (s = 0%nat \/ matches (s - 1)%nat = false)
    | None => k = 0%nat \/ matches (k - 1)%nat = false
    end;
  fi_runs :
    Forall (fun s => run flag matches y width s /\ (endX s + 1 < k)%nat) new
}.

Lemma pixels_of_mk (a y e f l : nat) (flag : option bool) :
  pixels_of (mkSegment a y e f l flag) = on_row y (seq a (e + 1 - a)).
Proof. reflexivity. Qed.

Lemma filter_seq_S (matches : nat -> bool) (k : nat) :
  filter matches (seq 0 (S k))
  = filter matches (seq 0 k) ++ (if matches k then [k] else []).
Proof.
  rewrite seq_S, filter_app. cbn [Nat.add filter].
  destruct (matches k); reflexivity.
Qed.

Lemma forward_prefix (flag : option bool) (matches : nat -> bool)
  (y width : nat) (segs : list segment) (k : nat) :
  (k <= width)%nat ->
  exists st new,
    fold_left (forward_step flag matches y) (seq 0 k) (None, segs)
    = (st, segs ++ new)
    /\ forward_inv flag matches y width k st new.
Proof.
  induction k as [|k IH]; intros Hk.
  - exists None, []. split; [cbn; rewrite app_nil_r; reflexivity|].
    constructor; [reflexivity | left; reflexivity | constructor].
  - destruct IH as (st & new & E & [Hc Ho Hr]); [lia|].
    rewrite seq_S, fold_left_app, E. cbn [Nat.add fold_left].
    unfold forward_step. cbn [fst snd].
    assert (Hmono : Forall (fun s => run flag matches y width s
                                     /\ (endX s + 1 < S k)%nat) new).
    { eapply Forall_impl; [|exact Hr]. intros s [H1 H2]. split; [exact H1|].
      lia. }
    destruct (matches k) eqn:Em; destruct st as [s|].
    + exists (Some s), new. split; [reflexivity|]. destruct Ho as [Hs Hl].
      constructor; [| split; [lia | exact Hl] | exact Hmono].
      rewrite filter_seq_S, Em.
      unfold on_row in *. rewrite map_app, <- Hc, <- app_assoc.
      f_equal. replace (S k - s)%nat with (S (k - s)) by lia.
      rewrite seq_S, map_app. cbn [map]. repeat f_equal. lia.
    + exists (Some k), new. split; [reflexivity|].
      constructor; [| split; [lia|] | exact Hmono].
      * rewrite filter_seq_S, Em.
        unfold on_row in *. rewrite map_app, <- Hc.
        replace (S k - k)%nat with 1%nat by lia.
        cbn [map seq]. rewrite app_nil_r. reflexivity.
      * destruct Ho as [-> | Ho]; [left; reflexivity | right; exact Ho].
    + exists None, (new ++ [mkSegment s y (k - 1) y (k - s) flag]).
      split; [rewrite app_assoc; reflexivity|]. destruct Ho as [Hs Hl].
      constructor.
      * rewrite filter_seq_S, Em.
        rewrite flat_map_app. cbn [flat_map]. rewrite pixels_of_mk.
        unfold on_row in *. cbn [map]. rewrite !app_nil_r, <- Hc.
        replace (k - 1 + 1 - s)%nat with (k - s)%nat by lia. reflexivity.
      * right. replace (S k - 1)%nat with k by lia. exact Em.
      * apply Forall_app. split; [exact Hmono|].
        constructor; [|constructor].
        unfold run. cbn [startX startY endX endY segLength reversed].
        replace (k - 1 + 1)%nat with k by lia.
        repeat split; try lia; try assumption. right. exact Em.
    + exists None, new. split; [reflexivity|].
      constructor; [| right; replace (S k - 1)%nat with k by lia; exact Em
                    | exact Hmono].
      rewrite filter_seq_S, Em.
      unfold on_row in *. cbn [map] in *. rewrite !app_nil_r in *. exact Hc.
Qed.

(** A whole row, scanned to the right: the new segments are the runs of
    matching pixels, from left to right. *)
Lemma forward_row (flag : option bool) (matches : nat -> bool)
  (y width : nat) (segs : list segment) :
  exists new,
    forward_close flag width y
      (fold_left (forward_step flag matches y) (seq 0 width) (None, segs))
    = segs ++ new
    /\ flat_map pixels_of new = on_row y (filter matches (seq 0 width))
    /\ Forall (run flag matches y width) new.
Proof.
  destruct (forward_prefix flag matches y width segs width (le_n _))
    as (st & new & E & [Hc Ho Hr]).
  rewrite E. unfold forward_close. cbn [fst snd].
  assert (Hruns : Forall (run flag matches y width) new).
  { eapply Forall_impl; [|exact Hr]. intros s [H _]. exact H. }
  destruct st as [s|].
  - exists (new ++ [mkSegment s y (width - 1) y (width - s) flag]).
    destruct Ho as [Hs Hl].
    split; [rewrite app_assoc; reflexivity|]. split.
    + rewrite flat_map_app. cbn [flat_map]. rewrite pixels_of_mk, app_nil_r.
      replace (width - 1 + 1 - s)%nat with (width - s)%nat by lia.
      exact Hc.
    + apply Forall_app. split; [exact Hruns|].
      constructor; [|constructor].
      unfold run. cbn [startX startY endX endY segLength reversed].
      repeat split; try lia; try assumption.
  - exists new. split; [reflexivity|]. split; [|exact Hruns].
    unfold on_row in Hc. cbn [map] in Hc. rewrite app_nil_r in Hc. exact Hc.
Qed.

(** *** The rows together *)

Lemma filter_on_row (P : nat * nat -> bool) (y : nat) (xs : list nat) :
  filter P (on_row y xs) = on_row y (filter (fun x => P (x, y)) xs).
Proof.
  unfold on_row. induction xs as [|x xs IH]; [reflexivity|].
  cbn [map filter]. destruct (P (x, y)); cbn [map]; rewrite IH; reflexivity.
Qed.

Lemma filter_flat_map (A B : Type) (P : B -> bool) (f : A -> list B)
  (l : list A) :
  filter P (flat_map f l) = flat_map (fun a => filter P (f a)) l.
Proof.
  induction l as [|a l IH]; [reflexivity|].
  cbn [flat_map]. rewrite filter_app, IH. reflexivity.
Qed.

Lemma filter_all_pixels (matches : nat -> nat -> bool) (width height : nat) :
  filter (fun p => matches (fst p) (snd p)) (all_pixels width height)
  = flat_map (fun y => on_row y (filter (fun x => matches x y) (seq 0 width)))
      (seq 0 height).
Proof.
  unfold all_pixels. rewrite filter_flat_map.
  apply flat_map_ext. intros y.
  exact (filter_on_row (fun p => matches (fst p) (snd p)) y (seq 0 width)).
Qed.

(** A segment of an image that is a maximal run of matching pixels of one
    row: it lies inside the image, its [length] is the number of its
    pixels, and the pixels next to its two ends, where the image has any,
    do not match. *)
Definition maximal_run (matches : nat -> nat -> bool) (width height : nat)
  (s : segment) : Prop :=
  startY s = endY s /\ (startY s < height)%nat
  /\ (startX s <= endX s < width)%nat
  /\ segLength s = length (pixels_of s)
  /\ (startX s = 0%nat \/ matches (startX s - 1)%nat (startY s) = false)
  /\ ((endX s + 1)%nat = width
      \/ matches (endX s + 1)%nat (startY s) = false).

Lemma run_maximal (flag : option bool) (matches : nat -> nat -> bool)
  (width height y : nat) (s : segment) :
  (y < height)%nat ->
  run flag (fun x => matches x y) y width s ->
  maximal_run matches width height s.
Proof.
  intros Hy (H1 & H2 & H3 & H4 & _ & H6 & H7). unfold maximal_run.
  rewrite H1, H2. repeat split; try lia; try assumption.
  unfold pixels_of. rewrite length_map, length_seq. exact H4.
Qed.

(** [planHorizontalScanlines] returns the runs of matching pixels: read
    segment after segment, from each start to its end, the segments list
    every matching pixel of the image once, in reading order, and every
    segment is a maximal run whose [length] counts its pixels. *)
Theorem planHorizontalScanlines_runs (data : list R) (width height : nat)
  (targetColor : R * R * R) (tolerance : R) :
  let matches x y := matchesColor data x y width targetColor tolerance in
  let segments :=
    planHorizontalScanlines data width height targetColor tolerance in
  flat_map pixels_of segments
  = filter (fun p => matches (fst p) (snd p)) (all_pixels width height)
  /\ Forall (maximal_run matches width height) segments.
Proof.
  cbv zeta. rewrite filter_all_pixels. unfold planHorizontalScanlines.
  set (matches := fun x y => matchesColor data x y width targetColor
                               tolerance).
  assert (H : forall n, (n <= height)%nat ->
    let segments :=
      fold_left (fun segments y =>
                   close_row width y
                     (fold_left (row_step (fun x => matches x y) y)
                        (seq 0 width) (None, segments)))
        (seq 0 n) [] in
    flat_map pixels_of segments
    = flat_map (fun y => on_row y (filter (fun x => matches x y)
                                      (seq 0 width))) (seq 0 n)
    /\ Forall (maximal_run matches width height) segments).
  { induction n as [|n IH]; intros Hn; cbv zeta.
    - split; [reflexivity | constructor].
    - destruct IH as [Hc Hr]; [lia|].
      rewrite seq_S, fold_left_app. cbn [Nat.add fold_left].
      match goal with
      | |- context [close_row width n (fold_left _ _ (None, ?s))] =>
          set (segs := s) in *
      end.
      destruct (forward_row None (fun x => matches x n) n width segs)
        as (new & E & Hn1 & Hn2).
      change (close_row width n
                (fold_left (row_step (fun x => matches x n) n) (seq 0 width)
                   (None, segs)))
        with (forward_close None width n
                (fold_left (forward_step None (fun x => matches x n) n)
                   (seq 0 width) (None, segs))).
      rewrite E. split.
      + rewrite !flat_map_app, Hc. cbn [flat_map]. rewrite app_nil_r, Hn1.
        reflexivity.
      + apply Forall_app. split; [exact Hr|].
        eapply Forall_impl; [|exact Hn2].
        intros s Hs. apply (run_maximal None matches width height n);
          [lia | exact Hs]. }
  exact (H height (le_n _)).
Qed.


(** *** Alternating rows *)

(** In a row scanned to the right the bidirectional loop does what the
    plain row loop does, with the flag [reversed: false]. *)
Lemma bidirectional_forward (matches : nat -> bool) (y width : nat)
  (segs : list segment) (k : nat) :
  (k <= width)%nat ->
  fold_left (bidirectional_step matches y true) (seq 0 k) (None, segs)
  = fold_left (forward_step (Some false) matches y) (seq 0 k) (None, segs).
Proof.
  induction k as [|k IH]; intros Hk; [reflexivity|].
  rewrite seq_S, !fold_left_app, IH by lia. cbn [Nat.add fold_left].
  destruct (forward_prefix (Some false) matches y width segs k)
    as (st & new & E & [_ Ho _]); [lia|].
  rewrite E. unfold bidirectional_step, forward_step. cbn [fst snd negb].
  destruct (matches k); destruct st as [s|]; try reflexivity.
  destruct Ho as [Hs _]. repeat f_equal. unfold abs_diff. lia.
Qed.

Lemma bidirectional_forward_row (matches : nat -> bool) (y width : nat)
  (segs : list segment) :
  exists new,
    bidirectional_close width y true
      (fold_left (bidirectional_step matches y true) (seq 0 width)
         (None, segs))
    = segs ++ new
    /\ flat_map pixels_of new = on_row y (filter matches (seq 0 width))
    /\ Forall (run (Some false) matches y width) new.
Proof.
  rewrite (bidirectional_forward matches y width segs width (le_n _)).
  destruct (forward_row (Some false) matches y width segs)
    as (new & E & Hc & Hr).
  exists new. split; [|split; assumption]. rewrite <- E.
  destruct (forward_prefix (Some false) matches y width segs width (le_n _))
    as (st & new' & E' & [_ Ho _]).
  rewrite E'. unfold bidirectional_close, forward_close. cbn [fst snd negb].
  destruct st as [s|]; [|reflexivity].
  destruct Ho as [Hs _]. repeat f_equal. unfold abs_diff. lia.
Qed.

(** A segment of a row scanned to the left: its [length] counts its pixels
    unless it touches the left border, where the count is one short. *)
Definition leftward_run (y width : nat) (s : segment) : Prop :=
  startY s = y /\ endY s = y
  /\ (startX s <= endX s < width)%nat
  /\ reversed s = Some true
  /\ segLength s
     = (if Nat.eqb (startX s) 0 then endX s else endX s + 1 - startX s)%nat.

(** The state of the row loop on its way to the left, after the [k]
    columns from the right border. *)
Record reverse_inv (matches : nat -> bool) (y width k : nat)
  (st : option nat) (new : list segment) : Prop := mkReverseInv {
  ri_cover :
    Permutation
      (flat_map pixels_of new
       ++ on_row y (match st with
                    | Some s => seq (width - k) (s + 1 - (width - k))
                    | None => []
                    end))
      (on_row y (filter matches (seq (width - k) k)));
  ri_open :
    match st with
    | Some s => (width - k <= s < width)%nat
    | None => True
    end;
  ri_runs :
    Forall (fun s => leftward_run y width s /\ (width - k < startX s)%nat) new
}.

Lemma reverse_prefix (matches : nat -> bool) (y width : nat)
  (segs : list segment) (k : nat) :
  (k <= width)%nat ->
  exists st new,
    fold_left (bidirectional_step matches y false) (rev (seq (width - k) k))
      (None, segs)
    = (st, segs ++ new)
    /\ reverse_inv matches y width k st new.
Proof.
  induction k as [|k IH]; intros Hk.
  - exists None, []. split; [cbn; rewrite app_nil_r; reflexivity|].
    constructor; [apply Permutation_refl | exact I | constructor].
  - destruct IH as (st & new & E & [Hc Ho Hr]); [lia|].
    assert (Hlo : (width - k = S (width - S k))%nat) by lia.
    rewrite Hlo in *. clear Hlo.
    cut (exists st' new',
           fold_left (bidirectional_step matches y false)
             (rev (seq (width - S k) (S k))) (None, segs)
           = (st', segs ++ new')
           /\ Permutation
                (flat_map pixels_of new'
                 ++ on_row y (match st' with
                              | Some s => seq (width - S k)
                                            (s + 1 - (width - S k))
                              | None => []
                              end))
                (on_row y (filter matches (seq (width - S k) (S k))))
           /\ match st' with
              | Some s => (width - S k <= s < width)%nat
              | None => True
              end
           /\ Forall (fun s => leftward_run y width s
                               /\ (width - S k < startX s)%nat) new').
    { intros (st' & new' & E' & H1 & H2 & H3). exists st', new'.
      split; [exact E' | constructor; assumption]. }
    assert (Hw : (width - S k < width)%nat) by lia.
    generalize dependent (width - S k)%nat. intros lo. intros.
    cbn [seq rev filter]. rewrite fold_left_app, E. cbn [fold_left].
    unfold bidirectional_step. cbn [fst snd negb].
    assert (Hmono : Forall (fun s => leftward_run y width s
                                     /\ (lo < startX s)%nat) new).
    { eapply Forall_impl; [|exact Hr]. intros s [H1 H2]. split; [exact H1|].
      lia. }
    unfold on_row in *.
    destruct (matches lo) eqn:Em; destruct st as [s|].
    + exists (Some s), new. split; [reflexivity|].
      split; [| split; [lia | exact Hmono]].
      replace (s + 1 - lo)%nat with (S (s + 1 - S lo)) by lia.
      cbn [seq map].
      symmetry. apply Permutation_cons_app. symmetry. exact Hc.
    + exists (Some lo), new. split; [reflexivity|].
      split; [| split; [lia | exact Hmono]].
      replace (lo + 1 - lo)%nat with 1%nat by lia.
      cbn [seq map] in *.
      symmetry. apply Permutation_cons_app. symmetry. exact Hc.
    + exists None,
        (new ++ [mkSegment (lo + 1) y s y (abs_diff lo s) (Some true)]).
      split; [rewrite app_assoc; reflexivity|].
      split; [| split; [exact I |]].
      * rewrite flat_map_app. cbn [flat_map]. rewrite pixels_of_mk.
        unfold on_row. cbn [map]. rewrite !app_nil_r.
        replace (lo + 1)%nat with (S lo) by lia. exact Hc.
      * apply Forall_app. split; [exact Hmono|].
        constructor; [|constructor].
        unfold leftward_run.
        cbn [startX startY endX endY segLength reversed].
        replace (Nat.eqb (lo + 1) 0) with false
          by (symmetry; apply Nat.eqb_neq; lia).
        unfold abs_diff. repeat split; lia.
    + exists None, new. split; [reflexivity|].
      split; [exact Hc | split; [exact I | exact Hmono]].
Qed.

Lemma reverse_row (matches : nat -> bool) (y width : nat)
  (segs : list segment) :
  exists new,
    bidirectional_close width y false
      (fold_left (bidirectional_step matches y false) (rev (seq 0 width))
         (None, segs))
    = segs ++ new
    /\ Permutation (flat_map pixels_of new)
         (on_row y (filter matches (seq 0 width)))
    /\ Forall (leftward_run y width) new.
Proof.
  destruct (reverse_prefix matches y width segs width (le_n _))
    as (st & new & E & [Hc Ho Hr]).
  rewrite Nat.sub_diag in *. rewrite E.
  unfold bidirectional_close. cbn [fst snd negb].
  assert (Hruns : Forall (leftward_run y width) new).
  { eapply Forall_impl; [|exact Hr]. intros s [H _]. exact H. }
  destruct st as [s|].
  - exists (new ++ [mkSegment 0 y s y (abs_diff 0 s) (Some true)]).
    split; [rewrite app_assoc; reflexivity|]. split.
    + rewrite flat_map_app. cbn [flat_map]. rewrite pixels_of_mk, app_nil_r.
      exact Hc.
    + apply Forall_app. split; [exact Hruns|].
      constructor; [|constructor].
      unfold leftward_run.
      cbn [startX startY endX endY segLength reversed Nat.eqb].
      unfold abs_diff. repeat split; lia.
  - exists new. split; [reflexivity|]. split; [|exact Hruns].
    unfold on_row in Hc. cbn [map] in Hc. rewrite app_nil_r in Hc. exact Hc.
Qed.

(** A segment of [planBidirectionalScanlines]: it lies in one row of the
    image, it is flagged as reversed in the odd rows, and its [length] is
    the number of its pixels, except that in an odd row a segment that
    starts at the left border is one pixel short. *)
Definition alternating_run (width height : nat) (s : segment) : Prop :=
  startY s = endY s /\ (startY s < height)%nat
  /\ (startX s <= endX s < width)%nat
  /\ reversed s = Some (negb (Nat.eqb (startY s mod 2) 0))
  /\ segLength s
     = (length (pixels_of s)
        - (if negb (Nat.eqb (startY s mod 2) 0) && Nat.eqb (startX s) 0
           then 1 else 0))%nat.

Lemma pixels_of_length (s : segment) :
  length (pixels_of s) = (endX s + 1 - startX s)%nat.
Proof. unfold pixels_of. rewrite length_map, length_seq. reflexivity. Qed.

(** [planBidirectionalScanlines] in the horizontal direction covers every
    matching pixel of the image by exactly one segment and no other pixel;
    the segments of odd rows are flagged as reversed, and the [length] of a
    segment is the number of its pixels except for the segments of odd rows
    that start at the left border, whose [length] is one less. *)
Theorem planBidirectionalScanlines_runs (data : list R) (width height : nat)
  (targetColor : R * R * R) (tolerance : R) :
  let matches x y := matchesColor data x y width targetColor tolerance in
  let segments :=
    planBidirectionalScanlines data width height targetColor tolerance in
  Permutation (flat_map pixels_of segments)
    (filter (fun p => matches (fst p) (snd p)) (all_pixels width height))
  /\ Forall (alternating_run width height) segments.
Proof.
  cbv zeta. rewrite filter_all_pixels. unfold planBidirectionalScanlines.
  set (matches := fun x y => matchesColor data x y width targetColor
                               tolerance).
  set (row := fun segments y =>
         let leftToRight := Nat.eqb (y mod 2) 0 in
         let xs := if leftToRight then seq 0 width else rev (seq 0 width) in
         bidirectional_close width y leftToRight
           (fold_left (bidirectional_step (fun x => matches x y) y
                         leftToRight) xs (None, segments))).
  assert (H : forall n, (n <= height)%nat ->
    Permutation (flat_map pixels_of (fold_left row (seq 0 n) []))
      (flat_map (fun y => on_row y (filter (fun x => matches x y)
                                       (seq 0 width))) (seq 0 n))
    /\ Forall (alternating_run width height) (fold_left row (seq 0 n) [])).
  { induction n as [|n IH]; intros Hn.
    - split; [apply Permutation_refl | constructor].
    - destruct IH as [Hc Hr]; [lia|].
      rewrite seq_S, fold_left_app. cbn [Nat.add fold_left].
      set (segs := fold_left row (seq 0 n) []) in *.
      rewrite flat_map_app. cbn [flat_map]. rewrite app_nil_r.
      unfold row. cbv zeta.
      destruct (Nat.eqb (n mod 2) 0) eqn:Ep.
      + destruct (bidirectional_forward_row (fun x => matches x n) n width
                    segs) as (new & -> & Hn1 & Hn2).
        split.
        * rewrite flat_map_app, Hn1. apply Permutation_app_tail. exact Hc.
        * apply Forall_app. split; [exact Hr|].
          eapply Forall_impl; [|exact Hn2].
          intros s (H1 & H2 & H3 & H4 & H5 & _).
          unfold alternating_run. rewrite pixels_of_length, H1, H2, Ep.
          cbn [negb andb]. repeat split; try lia. exact H5.
      + destruct (reverse_row (fun x => matches x n) n width segs)
          as (new & -> & Hn1 & Hn2).
        split.
        * rewrite flat_map_app. apply Permutation_app; assumption.
        * apply Forall_app. split; [exact Hr|].
          eapply Forall_impl; [|exact Hn2].
          intros s (H1 & H2 & H3 & H4 & H5).
          unfold alternating_run. rewrite pixels_of_length, H1, H2, Ep.
          cbn [negb andb]. repeat split; try lia; [exact H4|].
          rewrite H5. destruct (Nat.eqb (startX s) 0) eqn:E0.
          -- apply Nat.eqb_eq in E0. lia.
          -- lia. }
  exact (H height (le_n _)).
Qed.


(** *** The order of the strokes *)

(** A candidate of a round: it enters its segment at one end, at the
    recorded distance from the current position, and leaves it at the
    other end. *)
Definition candidate (segments : list segment) (cur : pt) (c : choice)
  : Prop :=
  let segment := nth (bestIndex c) segments no_segment in
  (bestReversed c = false
   /\ bestDistance c = distance cur (start_of segment)
   /\ bestEndPos c = end_of segment)
  \/ (bestReversed c = true
      /\ bestDistance c = distance cur (end_of segment)
      /\ bestEndPos c = start_of segment).

Lemma consider_step (segments : list segment) (cur : pt)
  (best : option choice) (i : nat) :
  (forall c0, best = Some c0 -> candidate segments cur c0) ->
  exists c,
    consider segments cur best i = Some c
    /\ candidate segments cur c
    /\ (bestIndex c = i \/ best = Some c)
    /\ bestDistance c <= distance cur (start_of (nth i segments no_segment))
    /\ bestDistance c <= distance cur (end_of (nth i segments no_segment))
    /\ (forall c0, best = Some c0 -> bestDistance c <= bestDistance c0).
Proof.
  intros Hb. unfold consider. cbv zeta.
  set (seg := nth i segments no_segment).
  set (dS := distance cur (start_of seg)).
  set (dE := distance cur (end_of seg)).
  assert (CS : candidate segments cur (mkChoice i dS false (end_of seg))).
  { left. cbn [bestIndex bestReversed bestDistance bestEndPos].
    repeat split; reflexivity. }
  assert (CE : candidate segments cur (mkChoice i dE true (start_of seg))).
  { right. cbn [bestIndex bestReversed bestDistance bestEndPos].
    repeat split; reflexivity. }
  destruct best as [c0|].
  - specialize (Hb c0 eq_refl). cbn [option_map below].
    destruct (Js.ltb dS (bestDistance c0)) eqn:E1.
    + apply Js.ltb_spec in E1. cbn [option_map below bestDistance].
      destruct (Js.ltb dE dS) eqn:E2.
      * apply Js.ltb_spec in E2. eexists. split; [reflexivity|].
        cbn [bestIndex bestDistance]. split; [exact CE|].
        split; [left; reflexivity|]. split; [lra|]. split; [lra|].
        intros c1 [= <-]. lra.
      * apply Js.ltb_false in E2. eexists. split; [reflexivity|].
        cbn [bestIndex bestDistance]. split; [exact CS|].
        split; [left; reflexivity|]. split; [lra|]. split; [lra|].
        intros c1 [= <-]. lra.
    + apply Js.ltb_false in E1. cbn [option_map below].
      destruct (Js.ltb dE (bestDistance c0)) eqn:E2.
      * apply Js.ltb_spec in E2. eexists. split; [reflexivity|].
        cbn [bestIndex bestDistance]. split; [exact CE|].
        split; [left; reflexivity|]. split; [lra|]. split; [lra|].
        intros c1 [= <-]. lra.
      * apply Js.ltb_false in E2. exists c0. split; [reflexivity|].
        split; [exact Hb|]. split; [right; reflexivity|].
        split; [lra|]. split; [lra|]. intros c1 [= <-]. lra.
  - cbn [option_map below bestDistance].
    destruct (Js.ltb dE dS) eqn:E2.
    + apply Js.ltb_spec in E2. eexists. split; [reflexivity|].
      cbn [bestIndex bestDistance]. split; [exact CE|].
      split; [left; reflexivity|]. split; [lra|]. split; [lra|].
      intros c1 H. discriminate.
    + apply Js.ltb_false in E2. eexists. split; [reflexivity|].
      cbn [bestIndex bestDistance]. split; [exact CS|].
      split; [left; reflexivity|]. split; [lra|]. split; [lra|].
      intros c1 H. discriminate.
Qed.

(** A round ends with a candidate among its indices to which no end of a
    segment of the round is nearer. *)
Lemma nearest_end_fold (segments : list segment) (cur : pt) (L l : list nat) :
  (forall i, In i l -> In i L) ->
  forall best : option choice,
    (forall c0, best = Some c0 ->
                candidate segments cur c0 /\ In (bestIndex c0) L) ->
    l <> [] \/ best <> None ->
    exists c,
      fold_left (consider segments cur) l best = Some c
      /\ candidate segments cur c
      /\ In (bestIndex c) L
      /\ (forall c0, best = Some c0 -> bestDistance c <= bestDistance c0)
      /\ forall i, In i l ->
           bestDistance c
           <= distance cur (start_of (nth i segments no_segment))
           /\ bestDistance c
              <= distance cur (end_of (nth i segments no_segment)).
Proof.
  induction l as [|i l IH]; intros HL best Hb Hne; cbn [fold_left].
  - destruct Hne as [Hne | Hne]; [contradiction|].
    destruct best as [c|]; [|contradiction].
    exists c. split; [reflexivity|]. destruct (Hb c eq_refl) as [H1 H2].
    split; [exact H1|]. split; [exact H2|].
    split; [intros c0 [= <-]; lra | intros j []].
  - destruct (consider_step segments cur best i)
      as (c1 & E1 & C1 & Hi1 & HS1 & HE1 & Hle1).
    { intros c0 H0. apply (Hb c0 H0). }
    rewrite E1.
    destruct (IH (fun j Hj => HL j (or_intror Hj)) (Some c1))
      as (c & E & C & Hin & Hle & Hall).
    + intros c0 [= <-]. split; [exact C1|].
      destruct Hi1 as [-> | ->];
        [apply HL; left; reflexivity | apply (Hb c1 eq_refl)].
    + right. discriminate.
    + exists c. split; [exact E|]. split; [exact C|]. split; [exact Hin|].
      pose proof (Hle c1 eq_refl) as Hc1. split.
      * intros c0 H0. pose proof (Hle1 c0 H0). lra.
      * intros j [<- | Hj]; [split; lra | apply Hall; exact Hj].
Qed.

(** The segment as it was planned, without a direction. *)
Definition planned (s : segment) : segment := with_reversed s None.

Lemma stroke_rounds_round (fuel : nat) (segments : list segment)
  (remaining : list nat) (ordered : list segment) (cur : pt) :
  remaining <> [] ->
  order_rounds (S fuel) segments remaining ordered cur
  = match fold_left (consider segments cur) remaining None with
    | None => None
    | Some best =>
        order_rounds fuel segments
          (remove Nat.eq_dec (bestIndex best) remaining)
          (ordered
           ++ [with_reversed (nth (bestIndex best) segments no_segment)
                 (Some (bestReversed best))])
          (bestEndPos best)
    end.
Proof.
  intros Hne. destruct remaining; [contradiction | reflexivity].
Qed.

Lemma stroke_rounds_perm (segments : list segment) :
  forall (fuel : nat) (remaining : list nat) (ordered : list segment)
         (cur : pt),
    NoDup remaining ->
    (length remaining <= fuel)%nat ->
    exists out,
      order_rounds fuel segments remaining ordered cur = Some (ordered ++ out)
      /\ Permutation (map planned out)
           (map (fun i => planned (nth i segments no_segment)) remaining)
      /\ Forall (fun s => reversed s <> None) out.
Proof.
  induction fuel as [|fuel IH]; intros remaining ordered cur Hnd Hlen.
  - destruct remaining; [|cbn in Hlen; lia].
    exists []. split; [cbn; now rewrite app_nil_r|].
    split; constructor.
  - destruct remaining as [|i0 rem0] eqn:Hrem.
    { exists []. split; [cbn; now rewrite app_nil_r|]. split; constructor. }
    rewrite <- Hrem in *.
    rewrite stroke_rounds_round by (rewrite Hrem; discriminate).
    destruct (nearest_end_fold segments cur remaining remaining (fun i H => H)
                None) as (c & E & _ & Hin & _).
    + intros c0 H0. discriminate.
    + left. rewrite Hrem. discriminate.
    + rewrite E.
      destruct (IH (remove Nat.eq_dec (bestIndex c) remaining)
                  (ordered
                   ++ [with_reversed (nth (bestIndex c) segments no_segment)
                         (Some (bestReversed c))])
                  (bestEndPos c))
        as (out & Eo & Po & Fo).
      * apply EdgeTracerFacts.remove_NoDup. exact Hnd.
      * pose proof (remove_length_lt Nat.eq_dec remaining (bestIndex c) Hin).
        lia.
      * eexists (_ :: out). split; [|split].
        -- rewrite Eo, <- app_assoc. reflexivity.
        -- cbn [map].
           apply perm_trans
             with (map (fun i => planned (nth i segments no_segment))
                     (bestIndex c
                      :: remove Nat.eq_dec (bestIndex c) remaining)).
           ++ cbn [map]. apply perm_skip. exact Po.
           ++ apply Permutation_map. apply Permutation_sym.
              apply EdgeTracerFacts.remove_perm; assumption.
        -- constructor; [cbn [with_reversed reversed]; discriminate
                        | exact Fo].
Qed.

(** The end at which a directed segment is entered. *)
Definition entry_of (s : segment) : pt :=
  match reversed s with
  | Some true => end_of s
  | _ => start_of s
  end.


End ScanlinePlannerFacts.

(** ** JavaScript numerics in binary64 *)

Module Binary64.
Import Floats.

Local Open Scope float_scope.

(** [Math.max(a, b)] and [Math.min(a, b)]: [NaN] if an argument is [NaN];
    +0 counts as larger than -0. *)
Definition max (a b : float) : float :=
  if is_nan a || is_nan b then nan
  else if a <? b then b
  else if b <? a then a
  else if get_sign a then b else a.

Definition min (a b : float) : float :=
  if is_nan a || is_nan b then nan
  else if a <? b then a
  else if b <? a then b
  else if get_sign a then a else b.

(** *** The order of the format *)

Lemma SFcompare_refl (x : spec_float) :
  x <> S754_nan -> SFcompare x x = Some Eq.
Proof.
  destruct x as [s | s | | s m e]; intros H; try congruence; simpl.
  - reflexivity.
  - destruct s; reflexivity.
  - rewrite Z.compare_refl.
    change (PosDef.Pos.compare_cont Eq m m) with (Pos.compare m m).
    rewrite Pos.compare_refl. destruct s; reflexivity.
Qed.

Ltac order_cases :=
  repeat match goal with
  | H : context [(?a ?= ?b)%Z] |- _ =>
      destruct (Z.compare_spec a b); try discriminate
  | |- context [(?a ?= ?b)%Z] =>
      destruct (Z.compare_spec a b); try discriminate
  | H : context [PosDef.Pos.compare_cont Eq ?a ?b] |- _ =>
      change (PosDef.Pos.compare_cont Eq a b) with (Pos.compare a b) in H;
      destruct (Pos.compare_spec a b); try discriminate
  | |- context [PosDef.Pos.compare_cont Eq ?a ?b] =>
      change (PosDef.Pos.compare_cont Eq a b) with (Pos.compare a b);
      destruct (Pos.compare_spec a b); try discriminate
  end.

(** Less-than and equal compose, as in a total preorder. *)
Lemma SFcompare_trans (a b c : spec_float) (c1 c2 : comparison) :
  SFcompare a b = Some c1 -> SFcompare b c = Some c2 ->
  c1 <> Gt -> c2 <> Gt ->
  SFcompare a c
  = Some (match c1, c2 with Eq, Eq => Eq | _, _ => Lt end).
Proof.
  intros H1 H2 N1 N2.
  destruct a as [sa | sa | | sa ma ea], b as [sb | sb | | sb mb eb],
    c as [sc | sc | | sc mc ec]; simpl in *; try discriminate;
    try destruct sa; try destruct sb; try destruct sc; simpl in *;
    try (injection H1 as <-); try (injection H2 as <-);
    try congruence;
    order_cases; simpl in *; subst;
    try (injection H1 as <-); try (injection H2 as <-);
    try congruence; try lia.
Qed.

Lemma SFcompare_swap (a b : spec_float) :
  SFcompare b a = option_map CompOpp (SFcompare a b).
Proof.
  destruct a as [sa | sa | | sa ma ea], b as [sb | sb | | sb mb eb];
    simpl; try reflexivity;
    try destruct sa; try destruct sb; simpl; try reflexivity;
    order_cases; subst; simpl; try reflexivity; try lia;
    try (exfalso; lia).
Qed.

Lemma SFcompare_none (a b : spec_float) :
  SFcompare a b = None <-> a = S754_nan \/ b = S754_nan.
Proof.
  destruct a, b; simpl; split; intros H; try discriminate; auto;
    destruct H; discriminate.
Qed.

(** *** The comparisons of primitive floats *)

Lemma is_nan_spec (a : float) : is_nan a = true <-> Prim2SF a = S754_nan.
Proof.
  unfold is_nan. rewrite eqb_spec. unfold SFeqb. split.
  - intros H. destruct (Prim2SF a) eqn:E; try reflexivity;
      rewrite SFcompare_refl in H by discriminate; discriminate.
  - intros ->. reflexivity.
Qed.

Lemma is_nan_false (a : float) : is_nan a = false <-> Prim2SF a <> S754_nan.
Proof.
  rewrite <- is_nan_spec. destruct (is_nan a); split; congruence.
Qed.

Lemma ltb_iff (a b : float) :
  (a <? b) = true <-> SFcompare (Prim2SF a) (Prim2SF b) = Some Lt.
Proof.
  rewrite ltb_spec. unfold SFltb.
  destruct (SFcompare _ _) as [[| |] |]; split; congruence.
Qed.

Lemma leb_iff (a b : float) :
  (a <=? b) = true
  <-> SFcompare (Prim2SF a) (Prim2SF b) = Some Lt
      \/ SFcompare (Prim2SF a) (Prim2SF b) = Some Eq.
Proof.
  rewrite leb_spec. unfold SFleb.
  destruct (SFcompare _ _) as [[| |] |]; split; intros H; auto;
    try discriminate; destruct H; discriminate.
Qed.

Lemma ltb_not_nan (a b : float) :
  (a <? b) = true -> is_nan a = false /\ is_nan b = false.
Proof.
  rewrite ltb_iff, !is_nan_false. intros H.
  split; intros E; rewrite E in H; simpl in H;
    [| destruct (Prim2SF a)]; discriminate.
Qed.

Lemma leb_not_nan (a b : float) :
  (a <=? b) = true -> is_nan a = false /\ is_nan b = false.
Proof.
  rewrite leb_iff, !is_nan_false. intros H.
  split; intros E; rewrite E in H; simpl in H;
    [| destruct (Prim2SF a)]; destruct H; discriminate.
Qed.

Lemma ltb_irrefl (a : float) : (a <? a) = false.
Proof.
  destruct (a <? a) eqn:E; [| reflexivity].
  pose proof (ltb_not_nan _ _ E) as [H _]. apply is_nan_false in H.
  apply ltb_iff in E. rewrite SFcompare_refl in E by exact H. discriminate.
Qed.

Lemma ltb_trans (a b c : float) :
  (a <? b) = true -> (b <? c) = true -> (a <? c) = true.
Proof.
  rewrite !ltb_iff. intros H1 H2.
  now rewrite (SFcompare_trans _ _ _ _ _ H1 H2).
Qed.

Lemma ltb_leb_trans (a b c : float) :
  (a <? b) = true -> (b <=? c) = true -> (a <? c) = true.
Proof.
  rewrite !ltb_iff, leb_iff. intros H1 [H2 | H2];
    now rewrite (SFcompare_trans _ _ _ _ _ H1 H2).
Qed.

Lemma leb_ltb_trans (a b c : float) :
  (a <=? b) = true -> (b <? c) = true -> (a <? c) = true.
Proof.
  rewrite !ltb_iff, leb_iff. intros [H1 | H1] H2;
    now rewrite (SFcompare_trans _ _ _ _ _ H1 H2).
Qed.

Lemma leb_trans (a b c : float) :
  (a <=? b) = true -> (b <=? c) = true -> (a <=? c) = true.
Proof.
  rewrite !leb_iff. intros [H1 | H1] [H2 | H2];
    rewrite (SFcompare_trans _ _ _ _ _ H1 H2) by discriminate; auto.
Qed.

Lemma ltb_leb (a b : float) : (a <? b) = true -> (a <=? b) = true.
Proof. rewrite ltb_iff, leb_iff. auto. Qed.

Lemma ltb_asym (a b : float) : (a <? b) = true -> (b <? a) = false.
Proof.
  intros H. destruct (b <? a) eqn:E; [| reflexivity].
  pose proof (ltb_trans _ _ _ H E) as F. now rewrite ltb_irrefl in F.
Qed.

Lemma leb_ltb_false (a b : float) : (a <=? b) = true -> (b <? a) = false.
Proof.
  intros H. destruct (b <? a) eqn:E; [| reflexivity].
  pose proof (leb_ltb_trans _ _ _ H E) as F. now rewrite ltb_irrefl in F.
Qed.

(** Two numbers that are not [NaN] are comparable. *)
Lemma ltb_false_leb (a b : float) :
  is_nan a = false -> is_nan b = false ->
  (a <? b) = false -> (b <=? a) = true.
Proof.
  rewrite !is_nan_false. intros Ha Hb H.
  apply leb_iff. rewrite SFcompare_swap.
  destruct (SFcompare (Prim2SF a) (Prim2SF b)) as [[| |] |] eqn:E; simpl; auto.
  - apply ltb_iff in E. congruence.
  - apply SFcompare_none in E. tauto.
Qed.

Lemma leb_false_ltb (a b : float) :
  is_nan a = false -> is_nan b = false ->
  (a <=? b) = false -> (b <? a) = true.
Proof.
  rewrite !is_nan_false. intros Ha Hb H.
  apply ltb_iff. rewrite SFcompare_swap.
  destruct (SFcompare (Prim2SF a) (Prim2SF b)) as [[| |] |] eqn:E; simpl; auto.
  - assert (F : (a <=? b) = true) by (apply leb_iff; auto). congruence.
  - assert (F : (a <=? b) = true) by (apply leb_iff; auto). congruence.
  - apply SFcompare_none in E. tauto.
Qed.

(** *** [Math.max] *)

Lemma max_nan (a b : float) :
  is_nan (max a b) = true <-> is_nan a = true \/ is_nan b = true.
Proof.
  unfold max. destruct (is_nan a) eqn:Ha, (is_nan b) eqn:Hb; simpl;
    try (split; [auto | reflexivity]).
  destruct (a <? b), (b <? a), (get_sign a); rewrite ?Ha, ?Hb;
    split; intros H; try discriminate; destruct H; discriminate.
Qed.

Lemma max_lower (a b : float) :
  is_nan a = false -> is_nan b = false -> (a <=? max a b) = true.
Proof.
  intros Ha Hb. unfold max. rewrite Ha, Hb. simpl.
  assert (Hrefl : (a <=? a) = true).
  { apply ltb_false_leb; try assumption. apply ltb_irrefl. }
  destruct (a <? b) eqn:E1; [now apply ltb_leb |].
  destruct (b <? a) eqn:E2; [exact Hrefl |].
  destruct (get_sign a); [| exact Hrefl].
  now apply ltb_false_leb.
Qed.

Lemma max_clamps (a b : float) :
  (b <? a) = true -> max a b = a.
Proof.
  intros H. unfold max.
  destruct (ltb_not_nan _ _ H) as [Hb Ha]. rewrite Ha, Hb. simpl.
  now rewrite (ltb_asym _ _ H), H.
Qed.

End Binary64.

(** ** Refill tracker in binary64 ([gcode/refillTracker.js]) *)

Module RefillTracker64.
Import Floats.
Import Binary64.

#[local] Set Warnings "-inexact-float".
Local Open Scope float_scope.

(** One entry of [_usageHistory] (the wall-clock timestamp is left out). *)
Record usage_event : Type := mkUsage {
  area : float;
  thickness : float;
  volume : float;
  remainingAfter : float
}.

(** The fields of a [RefillTracker] instance. *)
Record tracker : Type := mkTracker {
  paintCapacity : float;
  remainingCapacity : float;
  consumedPaint : float;
  refillCount : nat;
  usageHistory : list usage_event
}.

(** [new RefillTracker()]. *)
Definition new : tracker := mkTracker 0 0 0 0 [].

(** [reset(paintCapacity)]; [None] is the thrown
    "Paint capacity must be a positive number".  The guard
    [paintCapacity <= 0] is false for [NaN], which is therefore accepted. *)
Definition reset (t : tracker) (capacity : float) : option tracker :=
  if capacity <=? 0 then None
  else Some (mkTracker capacity capacity 0 0 []).

(** Default values of the optional parameters. *)
Definition default_thickness : float := 0.1.
Definition default_threshold : float := 0.1.

(** [needsRefill(threshold)]; [None] is the thrown
    "Threshold must be between 0 and 1". *)
Definition needsRefill (t : tracker) (threshold : float) : option bool :=
  if (threshold <? 0) || (1 <? threshold) then None
  else
    let thresholdCapacity := paintCapacity t * threshold in
    Some (remainingCapacity t <=? thresholdCapacity).

(** [addUsage(area, thickness)]: the updated tracker and the returned
    refill signal; [None] is the thrown "Area must be a non-negative
    number".  The guard [area < 0] is false for [NaN] and for [Infinity]. *)
Definition addUsage (t : tracker) (a th : float) : option (tracker * bool) :=
  if a <? 0 then None
  else
    let volumeMm3 := a * th in
    let volumeMl := volumeMm3 / 1000 in
    let remaining := remainingCapacity t - volumeMl in
    let t' := mkTracker (paintCapacity t) remaining
                (consumedPaint t + volumeMl) (refillCount t)
                (usageHistory t ++ [mkUsage a th volumeMl remaining]) in
    match needsRefill t' default_threshold with
    | Some b => Some (t', b)
    | None => None
    end.

(** [addLineUsage(length, width, thickness)]. *)
Definition addLineUsage (t : tracker) (len width th : float)
  : option (tracker * bool) :=
  let a := len * width in
  addUsage t a th.

(** [Math.PI]. *)
Definition PI : float := 3.141592653589793.

(** [addDotUsage(diameter, thickness)]. *)
Definition addDotUsage (t : tracker) (diameter th : float)
  : option (tracker * bool) :=
  let radius := diameter / 2 in
  let a := PI * radius * radius in
  addUsage t a th.

(** [refill()]. *)
Definition refill (t : tracker) : tracker :=
  mkTracker (paintCapacity t) (paintCapacity t) (consumedPaint t)
    (S (refillCount t)) (usageHistory t).

(** [getRemainingCapacity()]. *)
Definition getRemainingCapacity (t : tracker) : float :=
  max 0 (remainingCapacity t).

(** [getRefillCount()], [getPaintCapacity()]. *)
Definition getRefillCount (t : tracker) : nat := refillCount t.
Definition getPaintCapacity (t : tracker) : float := paintCapacity t.

(** The mutating operations of the public interface, as commands. *)
Inductive op : Type :=
| Reset (capacity : float)
| AddUsage (a th : float)
| AddLineUsage (len width th : float)
| AddDotUsage (diameter th : float)
| Refill.

(** One call on the tracker; [None] when the call throws. *)
Definition apply_op (t : tracker) (o : op) : option tracker :=
  match o with
  | Reset c => reset t c
  | AddUsage a th => option_map fst (addUsage t a th)
  | AddLineUsage l w th => option_map fst (addLineUsage t l w th)
  | AddDotUsage d th => option_map fst (addDotUsage t d th)
  | Refill => Some (refill t)
  end.

(** A call that throws does so before it assigns any field, so the object
    is left as it was and the caller may go on using it. *)
Definition step (t : tracker) (o : op) : tracker :=
  match apply_op t o with
  | Some t' => t'
  | None => t
  end.

Definition run (t : tracker) (ops : list op) : tracker :=
  fold_left step ops t.

Definition is_refill (o : op) : bool :=
  match o with Refill => true | _ => false end.

Definition is_reset (o : op) : bool :=
  match o with Reset _ => true | _ => false end.

End RefillTracker64.

Module RefillTracker64Facts.
Import Floats.
Import Binary64 RefillTracker64.

#[local] Set Warnings "-inexact-float".
Local Open Scope float_scope.

(** C10 (amended).  After any sequence of [reset], [addUsage],
    [addLineUsage], [addDotUsage] and [refill] calls, with any numbers as
    arguments, [getRemainingCapacity()] is never below zero: it is at least
    0 when the [_remainingCapacity] field is a number and [NaN] when the
    field is [NaN].  The clamp is in the getter only: when the field is
    negative the getter answers 0, and usage beyond the capacity does
    leave the field negative. *)
Theorem getRemainingCapacity_not_negative :
  (forall (t0 : tracker) (ops : list op),
      let t := run t0 ops in
      (getRemainingCapacity t <? 0) = false
      /\ (is_nan (remainingCapacity t) = false ->
          (0 <=? getRemainingCapacity t) = true)
      /\ (is_nan (remainingCapacity t) = true ->
          is_nan (getRemainingCapacity t) = true)
      /\ ((remainingCapacity t <? 0) = true -> getRemainingCapacity t = 0))
  /\ (let t := run new [Reset 50; AddUsage 600000 0.1] in
      (remainingCapacity t <? 0) = true /\ getRemainingCapacity t = 0).
Proof.
  split.
  - intros t0 ops. cbv zeta. unfold getRemainingCapacity.
    generalize (remainingCapacity (run t0 ops)). intros r.
    assert (H1 : is_nan r = false -> (0 <=? max 0 r) = true).
    { intros Hr. apply max_lower; [reflexivity | exact Hr]. }
    assert (H2 : is_nan r = true -> is_nan (max 0 r) = true).
    { intros Hr. apply max_nan. now right. }
    split; [| split; [exact H1 | split; [exact H2 |]]].
    + destruct (is_nan r) eqn:Hr.
      * destruct (max 0 r <? 0) eqn:E; [| reflexivity].
        apply ltb_not_nan in E. destruct E as [E _].
        rewrite (H2 eq_refl) in E. discriminate.
      * apply leb_ltb_false. now apply H1.
    + intros Hr. now apply max_clamps.
  - vm_compute. split; reflexivity.
Qed.

(** C10 (as stated) fails: the guard of [addUsage] lets an area through that
    is not finite, and [addLineUsage(1e200, 1e200, 0)] makes the consumed
    volume [Infinity * 0], which is [NaN]; from then on the getter returns
    [NaN], which is not a non-negative value. *)
Lemma getRemainingCapacity_not_a_number :
  let t := run new [Reset 50; AddLineUsage 1e200 1e200 0] in
  is_nan (getRemainingCapacity t) = true
  /\ (0 <=? getRemainingCapacity t) = false.
Proof. vm_compute. split; reflexivity. Qed.

Lemma step_keeps_capacity (t : tracker) (o : op) :
  is_reset o = false ->
  paintCapacity (step t o) = paintCapacity t
  /\ refillCount (step t o)
     = (refillCount t + if is_refill o then 1 else 0)%nat.
Proof.
  intros Hr. unfold step.
  destruct o as [c | a th | len w th | d th |]; try discriminate;
    cbn [apply_op is_refill];
    unfold addLineUsage, addDotUsage, addUsage;
    try match goal with
      | |- context [if ?c then None else _] => destruct c
      end;
    cbn; split; lia || reflexivity.
Qed.

(** Between two resets the capacity stays what [reset] made it and
    [getRefillCount()] counts the [refill()] calls, whatever numbers the
    usage calls are given and whether or not they throw. *)
Theorem tracker_capacity_and_refills (t0 : tracker) (C : float)
  (ops : list op) :
  (C <=? 0) = false ->
  forallb (fun o => negb (is_reset o)) ops = true ->
  let t := run t0 (Reset C :: ops) in
  getPaintCapacity t = C
  /\ getRefillCount t = length (filter is_refill ops).
Proof.
  intros HC Hops t. subst t. unfold run. cbn [fold_left].
  assert (E : step t0 (Reset C) = mkTracker C C 0 0 [])
    by (unfold step, apply_op, reset; now rewrite HC).
  rewrite E. clear E.
  assert (G : forall ops t,
             forallb (fun o => negb (is_reset o)) ops = true ->
             paintCapacity (fold_left step ops t) = paintCapacity t
             /\ refillCount (fold_left step ops t)
                = (refillCount t + length (filter is_refill ops))%nat).
  { clear. induction ops as [| o ops IH]; intros t H; cbn [fold_left].
    - simpl. split; [reflexivity | lia].
    - cbn [forallb] in H. apply andb_true_iff in H. destruct H as [Ho H].
      apply negb_true_iff in Ho.
      destruct (step_keeps_capacity t o Ho) as [H1 H2].
      destruct (IH (step t o) H) as [H3 H4].
      split; [congruence |]. rewrite H4, H2. cbn [filter].
      destruct (is_refill o); cbn [length]; lia. }
  destruct (G ops (mkTracker C C 0 0 []) Hops) as [H1 H2].
  split; [exact H1 | exact H2].
Qed.

Lemma tracker_capacity_and_refills_witness :
  let t := run new [Reset 50; AddUsage 600000 0.1; Refill;
                    AddLineUsage 1e200 1e200 0; AddUsage (-3) 0.1; Refill] in
  getPaintCapacity t = 50
  /\ getRefillCount t
     = length (filter is_refill
                 [AddUsage 600000 0.1; Refill; AddLineUsage 1e200 1e200 0;
                  AddUsage (-3) 0.1; Refill]).
Proof.
  apply (tracker_capacity_and_refills new 50
           [AddUsage 600000 0.1; Refill; AddLineUsage 1e200 1e200 0;
            AddUsage (-3) 0.1; Refill]).
  - reflexivity.
  - reflexivity.
Defined.

End RefillTracker64Facts.

(** ** Tour planner in binary64 ([algorithms/tspSolver.js]) *)

Module Plane64.
Import Floats.

Local Open Scope float_scope.

(** A point [{x, y}] of the planners. *)
Record pt : Type := mkPt { x : float; y : float }.

Definition origin : pt := mkPt 0 0.

(** [distance(p1, p2)] of [tspSolver.js]. *)
Definition distance (p1 p2 : pt) : float :=
  let dx := x p1 - x p2 in
  let dy := y p1 - y p2 in
  sqrt (dx * dx + dy * dy).

End Plane64.

Module TspSolver64.
Import Floats.
Import Plane64.

Local Open Scope float_scope.

(** [calculateTourLength(tour, points)]: the loop adds the leg from each
    entry to the next one to [totalLength]; [None] is the [TypeError] of an
    entry that is not an index of [points]. *)
Fixpoint add_legs (points : list pt) (tour : list nat) (totalLength : float)
  : option float :=
  match tour with
  | a :: (b :: _) as rest =>
      match nth_error points a, nth_error points b with
      | Some p1, Some p2 => add_legs points rest (totalLength + distance p1 p2)
      | _, _ => None
      end
  | _ => Some totalLength
  end.

Definition calculateTourLength (tour : list nat) (points : list pt)
  : option float :=
  if Nat.ltb (length tour) 2 then Some 0 else add_legs points tour 0.

(** The [visited] set: insertion keeps one copy of each index. *)
Definition visited_add (i : nat) (v : list nat) : list nat :=
  if existsb (Nat.eqb i) v then v else v ++ [i].

Definition visited_has (v : list nat) (i : nat) : bool := existsb (Nat.eqb i) v.

(** The pair ([nearestIndex], [nearestDistance]), initially
    (-1, [Infinity]); [None] is the index -1. *)
Definition nearest : Type := (option nat * float)%type.

(** Brute-force scan: [for (let i = 0; i < points.length; i++)]. *)
Definition scan_step (points : list pt) (visited : list nat) (cur : pt)
  (best : nearest) (i : nat) : nearest :=
  if visited_has visited i then best
  else
    let dist := distance cur (nth i points origin) in
    if dist <? snd best then (Some i, dist) else best.

Definition scan (points : list pt) (visited : list nat) (cur : pt) : nearest :=
  fold_left (scan_step points visited cur) (seq 0 (length points))
    (None, infinity).

(** The index pairs [(i, j)] of one sweep of 2-opt, in loop order. *)
Definition swap_pairs (len : nat) : list (nat * nat) :=
  flat_map (fun i => map (pair i) (seq (S i) (len - 1 - S i)))
           (seq 1 (len - 2 - 1)).

(** [[...t.slice(0, i), ...t.slice(i, j + 1).reverse(), ...t.slice(j + 1)]]. *)
Definition reverse_segment (t : list nat) (i j : nat) : list nat :=
  firstn i t ++ rev (firstn (S j - i) (skipn i t)) ++ skipn (S j) t.

(** The body of the inner loop: the state is ([bestTour], [improved]).  The
    entries of [bestTour] are indices of [points] here: [twoOpt] has
    computed the length of the tour before the first sweep. *)
Definition try_swap (points : list pt) (st : list nat * bool) (ij : nat * nat)
  : list nat * bool :=
  let '(bestTour, improved) := st in
  let '(i, j) := ij in
  let A := nth (nth (i - 1) bestTour 0%nat) points origin in
  let B := nth (nth i bestTour 0%nat) points origin in
  let C := nth (nth j bestTour 0%nat) points origin in
  let D := nth (nth (S j) bestTour 0%nat) points origin in
  let currentDist := distance A B + distance C D in
  let newDist := distance A C + distance B D in
  if newDist <? currentDist then (reverse_segment bestTour i j, true)
  else (bestTour, improved).

Definition sweep (points : list pt) (len : nat) (bestTour : list nat)
  : list nat * bool :=
  fold_left (try_swap points) (swap_pairs len) (bestTour, false).

(** [while (improved && iterations < maxIterations)]: at most
    [maxIterations] sweeps. *)
Fixpoint improve (maxIterations : nat) (points : list pt) (len : nat)
  (bestTour : list nat) : list nat :=
  match maxIterations with
  | O => bestTour
  | S k =>
      let '(t, improved) := sweep points len bestTour in
      if improved then improve k points len t else t
  end.

(** [twoOpt(tour, points, maxIterations)]; [None] is the [TypeError] that
    the first [calculateTourLength(bestTour, points)] throws for a tour with
    an entry outside [points]. *)
Definition twoOpt (tour : list nat) (points : list pt) (maxIterations : nat)
  : option (list nat) :=
  if Nat.ltb (length tour) 4 then Some tour
  else
    match calculateTourLength tour points with
    | None => None
    | Some _ => Some (improve maxIterations points (length tour) tour)
    end.

Section Planner.

(** The search through the spatial index, which [nearestNeighbor] uses for
    more than 1000 points, is a parameter here: from the points, the visited
    set and the current index to [nearestIndex] ([None] for -1), or to
    [None] if it throws. *)
Variable spatial_search : list pt -> list nat -> nat -> option (option nat).

(** The greedy loop [while (visited.size < points.length)]; it adds one
    index per round, so [points.length] rounds are enough.  [None] is the
    [TypeError] of a current index outside [points]. *)
Fixpoint construct (fuel : nat) (points : list pt) (useSpatialIndex : bool)
  (visited tour : list nat) (currentIndex : nat) : option (list nat) :=
  match fuel with
  | O => Some tour
  | S fuel' =>
      if Nat.ltb (length visited) (length points) then
        let found :=
          if useSpatialIndex then spatial_search points visited currentIndex
          else
            match nth_error points currentIndex with
            | Some currentPoint => Some (fst (scan points visited currentPoint))
            | None => None
            end in
        match found with
        | None => None
        | Some None => Some tour
        | Some (Some nearestIndex) =>
            construct fuel' points useSpatialIndex
              (visited_add nearestIndex visited) (tour ++ [nearestIndex])
              nearestIndex
        end
      else Some tour
  end.

(** [nearestNeighbor(points, startIndex)]. *)
Definition nearestNeighbor (points : list pt) (startIndex : nat)
  : option (list nat) :=
  match length points with
  | 0 => Some []
  | 1 => Some [0%nat]
  | n =>
      let useSpatialIndex := Nat.ltb 1000 n in
      construct n points useSpatialIndex (visited_add startIndex [])
        [startIndex] startIndex
  end.

(** [solveTSP(points, {startIndex, optimize, maxIterations})]. *)
Definition solveTSP (points : list pt) (startIndex : nat) (optimize : bool)
  (maxIterations : nat) : option (list nat) :=
  match nearestNeighbor points startIndex with
  | None => None
  | Some tour =>
      if optimize && Nat.leb 4 (length tour)
      then twoOpt tour points maxIterations
      else Some tour
  end.

End Planner.

(** Four points on the diagonal. *)
Definition diagonal_points : list pt :=
  [mkPt 7 7; mkPt 0 0; mkPt 14 14; mkPt 5 5].

End TspSolver64.

Module TspSolver64Facts.
Import Floats.
Import Plane64 TspSolver64.

Local Open Scope float_scope.


End TspSolver64Facts.

(** ** Polyline simplification in binary64 ([algorithms/edgeTracer.js]) *)

Module EdgeTracer64.
Import Floats.
Import Binary64 Plane64.

#[local] Set Warnings "-inexact-float".
Local Open Scope float_scope.

(** [perpendicularDistance(point, lineStart, lineEnd)]: the distance to the
    segment, not to the unbounded line. *)
Definition perpendicularDistance (point lineStart lineEnd : pt) : float :=
  let dx := x lineEnd - x lineStart in
  let dy := y lineEnd - y lineStart in
  let lenSquared := dx * dx + dy * dy in
  if lenSquared =? 0 then distance point lineStart
  else
    let t := max 0 (min 1
               (((x point - x lineStart) * dx + (y point - y lineStart) * dy)
                / lenSquared)) in
    let projection := mkPt (x lineStart + t * dx) (y lineStart + t * dy) in
    distance point projection.

(** The loop [for (let i = 1; i < end; i++)] over the state
    ([maxDistance], [maxIndex]). *)
Definition farthest_step (points : list pt) (st : float * nat) (i : nat)
  : float * nat :=
  let e := (length points - 1)%nat in
  let dist := perpendicularDistance (nth i points origin) (nth 0 points origin)
                (nth e points origin) in
  if fst st <? dist then (dist, i) else st.

Definition farthest (points : list pt) : float * nat :=
  fold_left (farthest_step points) (seq 1 (length points - 1 - 1)) (0, 0%nat).

(** [simplifyPolyline(points, tolerance)], with the depth of the recursion
    bounded by [fuel] (one unit per call on the stack); [None] is the
    [RangeError] of a recursion that does not end. *)
Fixpoint simplify (fuel : nat) (points : list pt) (tolerance : float)
  : option (list pt) :=
  match fuel with
  | O => None
  | S fuel' =>
      if Nat.leb (length points) 2 then Some points
      else
        let '(maxDistance, maxIndex) := farthest points in
        let e := (length points - 1)%nat in
        if tolerance <? maxDistance then
          match simplify fuel' (firstn (S maxIndex) points) tolerance,
                simplify fuel' (skipn maxIndex points) tolerance with
          | Some left', Some right' => Some (removelast left' ++ right')
          | _, _ => None
          end
        else Some [nth 0 points origin; nth e points origin]
  end.

(** Every level of the recursion works on a shorter slice as long as the
    split index is not 0, so [points.length + 1] levels are enough; a split
    at index 0, which a negative tolerance allows, recurses on the same slice
    for ever. *)
Definition simplifyPolyline (points : list pt) (tolerance : float)
  : option (list pt) :=
  simplify (S (length points)) points tolerance.

(** The default [tolerance = 2]. *)
Definition default_tolerance : float := 2.

(** As the code computes it, no point of the polyline is at distance 0 from
    the segment that joins an earlier and a later point of it. *)
Definition off_every_chord (points : list pt) : Prop :=
  forall i j k, (i < j < k)%nat -> (k < length points)%nat ->
    (0 <? perpendicularDistance (nth j points origin) (nth i points origin)
            (nth k points origin)) = true.

(** As the code computes it, no inner point of the polyline is farther than
    [tolerance] from the segment between the first and the last point. *)
Definition within_of_chord (tolerance : float) (points : list pt) : Prop :=
  forall i, (1 <= i < length points - 1)%nat ->
    (tolerance <? perpendicularDistance (nth i points origin)
                    (nth 0 points origin)
                    (nth (length points - 1) points origin)) = false.

End EdgeTracer64.

Module EdgeTracer64Facts.
Import Floats.
Import Binary64 Plane64 EdgeTracer64.

#[local] Set Warnings "-inexact-float".
Local Open Scope float_scope.

(** *** The farthest interior point *)

Section Farthest64.

Variable points : list pt.

Let d (i : nat) : float :=
  perpendicularDistance (nth i points origin) (nth 0 points origin)
    (nth (length points - 1) points origin).

(** What the loop does on the indices [a .. a+n-1] from the state
    [(v, k)]: either nothing, because no distance exceeds [v], or it ends
    on the first index that reaches the largest distance. *)
Lemma running_maximum (n : nat) :
  forall (a : nat) (v : float) (k : nat),
    let r := fold_left (farthest_step points) (seq a n) (v, k) in
    (r = (v, k) /\ forall i, (a <= i < a + n)%nat -> (v <? d i) = false)
    \/ ((a <= snd r < a + n)%nat /\ fst r = d (snd r)
        /\ (v <? fst r) = true
        /\ (forall i, (a <= i < snd r)%nat -> (fst r <=? d i) = false)
        /\ (forall i, (snd r < i < a + n)%nat -> (fst r <? d i) = false)).
Proof.
  induction n as [| n IH]; intros a v k; cbv zeta.
  - left. split; [reflexivity | intros i Hi; lia].
  - assert (Hstep : farthest_step points (v, k) a
                    = if v <? d a then (d a, a) else (v, k))
      by reflexivity.
    simpl seq. simpl fold_left. rewrite Hstep. clear Hstep.
    destruct (v <? d a) eqn:E.
    + right. specialize (IH (S a) (d a) a). cbv zeta in IH.
      destruct IH as [[-> Hno] | (Hk & Hd & Hlt & Hbefore & Hafter)].
      * simpl. repeat split; try lia; try assumption; try reflexivity.
        intros i Hi. apply Hno. lia.
      * repeat split; try lia; try assumption.
        -- now apply (ltb_trans v (d a)).
        -- intros i Hi. destruct (Nat.eq_dec i a) as [-> | Hne].
           ++ destruct (_ <=? d a) eqn:F; [| reflexivity].
              pose proof (ltb_leb_trans _ _ _ Hlt F) as G.
              now rewrite ltb_irrefl in G.
           ++ apply Hbefore. lia.
        -- intros i Hi. apply Hafter. lia.
    + specialize (IH (S a) v k). cbv zeta in IH.
      destruct IH as [[-> Hno] | (Hk & Hd & Hlt & Hbefore & Hafter)].
      * left. split; [reflexivity |]. intros i Hi.
        destruct (Nat.eq_dec i a) as [-> | Hne]; [exact E | apply Hno; lia].
      * right. repeat split; try lia; try assumption.
        -- intros i Hi. destruct (Nat.eq_dec i a) as [-> | Hne].
           ++ destruct (_ <=? d a) eqn:F; [| reflexivity].
              pose proof (ltb_leb_trans _ _ _ Hlt F) as G. congruence.
           ++ apply Hbefore. lia.
        -- intros i Hi. apply Hafter. lia.
Qed.

(** What the loop leaves in ([maxDistance], [maxIndex]). *)
Lemma farthest_computed :
  let e := (length points - 1)%nat in
  let r := farthest points in
  (r = (0, 0%nat) /\ forall i, (1 <= i < e)%nat -> (0 <? d i) = false)
  \/ ((1 <= snd r < e)%nat /\ fst r = d (snd r)
      /\ (0 <? fst r) = true
      /\ (forall i, (1 <= i < snd r)%nat -> (fst r <=? d i) = false)
      /\ (forall i, (snd r < i < e)%nat -> (fst r <? d i) = false)).
Proof.
  cbv zeta. unfold farthest.
  pose proof (running_maximum (length points - 1 - 1) 1 0 0%nat) as H.
  cbv zeta in H.
  destruct H as [[H1 H2] | (Hk & Hd & Hlt & Hbefore & Hafter)].
  - left. split; [exact H1 |]. intros i Hi. apply H2. lia.
  - right. repeat split; try lia; try assumption.
    intros i Hi. apply Hafter. lia.
Qed.

(** The loop result is determined by that description. *)
Lemma farthest_determined (m : nat) (v : float) :
  (1 <= m < length points - 1)%nat ->
  d m = v -> (0 <? v) = true ->
  (forall i, (1 <= i < m)%nat -> (v <=? d i) = false) ->
  (forall i, (m < i < length points - 1)%nat -> (v <? d i) = false) ->
  farthest points = (v, m).
Proof.
  intros Hm Hdm Hv Hbefore Hafter.
  pose proof farthest_computed as H. cbv zeta in H.
  destruct H as [[_ Hno] | (Hk & Hd & Hpos & Hfirst & Hlast)].
  - specialize (Hno m Hm). rewrite Hdm in Hno. congruence.
  - destruct (farthest points) as [w k]. simpl in *.
    destruct (ltb_not_nan _ _ Hv) as [_ Nv].
    destruct (ltb_not_nan _ _ Hpos) as [_ Nw].
    assert (Hk' : k = m).
    { destruct (lt_eq_lt_dec k m) as [[Hlt | Heq] | Hgt]; [| exact Heq |].
      - specialize (Hbefore k ltac:(lia)). rewrite <- Hd in Hbefore.
        specialize (Hlast m ltac:(lia)). rewrite Hdm in Hlast.
        pose proof (ltb_false_leb _ _ Nw Nv Hlast). congruence.
      - specialize (Hfirst m ltac:(lia)). rewrite Hdm in Hfirst.
        specialize (Hafter k ltac:(lia)). rewrite <- Hd in Hafter.
        pose proof (ltb_false_leb _ _ Nv Nw Hafter). congruence. }
    subst k. now rewrite Hd, Hdm.
Qed.

End Farthest64.

Lemma farthest_splits_inside (points : list pt) (tol md : float) (mi : nat) :
  (tol <? 0) = false -> farthest points = (md, mi) -> (tol <? md) = true ->
  (1 <= mi < length points - 1)%nat.
Proof.
  intros Htol Hf Hgt.
  pose proof (farthest_computed points) as H. cbv zeta in H. rewrite Hf in H.
  simpl in H. destruct H as [[E _] | (Hk & _)]; [| exact Hk].
  injection E as -> ->. congruence.
Qed.

(** *** The recursion ends *)

Lemma simplify_fuel (tol : float) :
  (tol <? 0) = false ->
  forall (f1 f2 : nat) (points : list pt),
    (length points < f1)%nat -> (length points < f2)%nat ->
    simplify f1 points tol = simplify f2 points tol.
Proof.
  intros Htol. induction f1 as [| f1 IH]; intros f2 points H1 H2; [lia |].
  destruct f2 as [| f2]; [lia |]. cbn [simplify].
  destruct (Nat.leb (length points) 2) eqn:Hlen; [reflexivity |].
  destruct (farthest points) as [md mi] eqn:Hf.
  destruct (tol <? md) eqn:Hgt; [| reflexivity].
  pose proof (farthest_splits_inside points tol md mi Htol Hf Hgt) as Hmi.
  rewrite (IH f2 (firstn (S mi) points)), (IH f2 (skipn mi points));
    try reflexivity;
    rewrite ?length_firstn, ?length_skipn; lia.
Qed.

(** The body of [simplifyPolyline], with the recursive calls as calls of
    [simplifyPolyline]. *)
Definition simplify_once (points : list pt) (tol : float)
  : option (list pt) :=
  if Nat.leb (length points) 2 then Some points
  else
    let '(maxDistance, maxIndex) := farthest points in
    if tol <? maxDistance then
      match simplifyPolyline (firstn (S maxIndex) points) tol,
            simplifyPolyline (skipn maxIndex points) tol with
      | Some l, Some r => Some (removelast l ++ r)
      | _, _ => None
      end
    else Some [nth 0 points origin; nth (length points - 1) points origin].

(** For a tolerance that is not negative, [simplifyPolyline] satisfies the
    recursive equation of the source. *)
Lemma simplifyPolyline_equation (points : list pt) (tol : float) :
  (tol <? 0) = false -> simplifyPolyline points tol = simplify_once points tol.
Proof.
  intros Htol. unfold simplifyPolyline at 1, simplify_once. cbn [simplify].
  destruct (Nat.leb (length points) 2) eqn:Hlen; [reflexivity |].
  destruct (farthest points) as [md mi] eqn:Hf.
  destruct (tol <? md) eqn:Hgt; [| reflexivity].
  pose proof (farthest_splits_inside points tol md mi Htol Hf Hgt) as Hmi.
  unfold simplifyPolyline.
  rewrite (simplify_fuel tol Htol (length points)
             (S (length (firstn (S mi) points))) (firstn (S mi) points)),
          (simplify_fuel tol Htol (length points)
             (S (length (skipn mi points))) (skipn mi points));
    try reflexivity;
    rewrite ?length_firstn, ?length_skipn; lia.
Qed.

(** *** Shape of the result *)

(** [q] is one of the points strictly between the first and the last. *)
Definition inner_point (points : list pt) (q : pt) : Prop :=
  exists i, (1 <= i < length points - 1)%nat /\ nth i points origin = q.

Lemma removelast_snoc {A : Type} (u : list A) (m : A) (v : list A) :
  removelast (u ++ [m]) ++ v = u ++ v.
Proof. now rewrite removelast_last. Qed.

Lemma simplifyPolyline_ends (tol : float) :
  (tol <? 0) = false ->
  forall (n : nat) (points : list pt),
    (length points <= n)%nat ->
    ((length points < 2)%nat -> simplifyPolyline points tol = Some points)
    /\ ((2 <= length points)%nat ->
        exists mid,
          simplifyPolyline points tol
          = Some (nth 0 points origin :: mid
                  ++ [nth (length points - 1) points origin])
          /\ forall q, In q mid -> inner_point points q).
Proof.
  intros Htol. induction n as [| n IH]; intros points Hn.
  - destruct points; [| simpl in Hn; lia]. split; [reflexivity | simpl; lia].
  - rewrite simplifyPolyline_equation by exact Htol. unfold simplify_once.
    destruct (Nat.leb (length points) 2) eqn:Hlen.
    + apply Nat.leb_le in Hlen. split; [reflexivity |]. intros H2.
      destruct points as [| a [| b [| c points]]]; simpl in *; try lia.
      exists []. split; [reflexivity | intros q []].
    + apply Nat.leb_gt in Hlen. split; [lia |]. intros _.
      destruct (farthest points) as [md mi] eqn:Hf.
      destruct (tol <? md) eqn:Hgt.
      2:{ exists []. split; [reflexivity | intros q []]. }
      pose proof (farthest_splits_inside points tol md mi Htol Hf Hgt) as Hmi.
      assert (HlenL : length (firstn (S mi) points) = S mi)
        by (rewrite length_firstn; lia).
      assert (HlenR : length (skipn mi points) = (length points - mi)%nat)
        by apply length_skipn.
      destruct (IH (firstn (S mi) points) ltac:(lia)) as [_ HL].
      destruct (IH (skipn mi points) ltac:(lia)) as [_ HR].
      destruct (HL ltac:(lia)) as (Lmid & EL & HLmid).
      destruct (HR ltac:(lia)) as (Rmid & ER & HRmid).
      rewrite EL, ER. rewrite HlenL, HlenR.
      rewrite !nth_firstn, !nth_skipn.
      replace (Nat.ltb 0 (S mi)) with true by reflexivity.
      replace (Nat.ltb (S mi - 1) (S mi)) with true
        by (symmetry; apply Nat.ltb_lt; lia).
      replace (S mi - 1)%nat with mi by lia.
      replace (mi + 0)%nat with mi by lia.
      replace (mi + (length points - mi - 1))%nat with (length points - 1)%nat
        by lia.
      exists (Lmid ++ nth mi points origin :: Rmid). split.
      * f_equal.
        change (nth 0 points origin :: Lmid ++ [nth mi points origin])
          with ((nth 0 points origin :: Lmid) ++ [nth mi points origin]).
        rewrite removelast_snoc. simpl. now rewrite <- app_assoc.
      * intros q Hq. apply in_app_or in Hq.
        destruct Hq as [Hq | [<- | Hq]].
        -- destruct (HLmid q Hq) as (i & Hi & E).
           rewrite HlenL in Hi. rewrite nth_firstn in E.
           replace (Nat.ltb i (S mi)) with true in E
             by (symmetry; apply Nat.ltb_lt; lia).
           exists i. split; [lia | exact E].
        -- exists mi. split; [lia | reflexivity].
        -- destruct (HRmid q Hq) as (i & Hi & E).
           rewrite HlenR in Hi. rewrite nth_skipn in E.
           exists (mi + i)%nat. split; [lia | exact E].
Qed.

Lemma simplifyPolyline_returns (points : list pt) (tol : float) :
  (tol <? 0) = false -> exists r, simplifyPolyline points tol = Some r.
Proof.
  intros Htol.
  destruct (simplifyPolyline_ends tol Htol _ points (le_n _)) as [H1 H2].
  destruct (le_lt_dec 2 (length points)) as [H | H].
  - destruct (H2 H) as (mid & E & _). eauto.
  - eauto.
Qed.

Lemma nth_between (a b : pt) (mid : list pt) (i : nat) :
  (1 <= i <= length mid)%nat ->
  nth i (a :: mid ++ [b]) origin = nth (i - 1) mid origin.
Proof.
  intros Hi. destruct i as [| i]; [lia |]. simpl.
  rewrite app_nth1 by lia. f_equal. lia.
Qed.

Lemma nth_at_end (a b : pt) (mid : list pt) :
  nth (length (a :: mid ++ [b]) - 1) (a :: mid ++ [b]) origin = b.
Proof.
  simpl. rewrite Nat.sub_0_r, length_app. simpl.
  replace (length mid + 1)%nat with (S (length mid)) by lia. simpl.
  now rewrite nth_middle.
Qed.

Lemma firstn_all_app {A : Type} (l r : list A) :
  firstn (length l) (l ++ r) = l.
Proof.
  rewrite <- (Nat.add_0_r (length l)), firstn_app_2. simpl.
  apply app_nil_r.
Qed.

Lemma skipn_all_app {A : Type} (l r : list A) :
  skipn (length l) (l ++ r) = r.
Proof.
  rewrite skipn_app, skipn_all, Nat.sub_diag. reflexivity.
Qed.

(** *** Simplifying twice *)

(** The split index of the first pass is found again in the second: the
    points kept before it were strictly nearer to the chord, those kept
    after it not farther. *)
Lemma simplifyPolyline_twice (tol : float) :
  (tol <? 0) = false ->
  forall (n : nat) (points r : list pt),
    (length points <= n)%nat ->
    simplifyPolyline points tol = Some r ->
    simplifyPolyline r tol = Some r.
Proof.
  intros Htol. induction n as [| n IH]; intros points r Hn Hr.
  - destruct points; [| simpl in Hn; lia].
    injection Hr as <-. reflexivity.
  - pose proof Hr as Hr0.
    rewrite simplifyPolyline_equation in Hr by exact Htol.
    unfold simplify_once in Hr.
    destruct (Nat.leb (length points) 2) eqn:Hlen.
    { injection Hr as <-. exact Hr0. }
    apply Nat.leb_gt in Hlen.
    destruct (farthest points) as [md mi] eqn:Hf.
    destruct (tol <? md) eqn:Hgt.
    2:{ injection Hr as <-. reflexivity. }
    pose proof (farthest_splits_inside points tol md mi Htol Hf Hgt) as Hmi.
    assert (HlenL : length (firstn (S mi) points) = S mi)
      by (rewrite length_firstn; lia).
    assert (HlenR : length (skipn mi points) = (length points - mi)%nat)
      by apply length_skipn.
    destruct (simplifyPolyline_ends tol Htol _ (firstn (S mi) points)
                (le_n _)) as [_ HL].
    destruct (simplifyPolyline_ends tol Htol _ (skipn mi points)
                (le_n _)) as [_ HR].
    destruct (HL ltac:(lia)) as (Lmid & EL & HLmid).
    destruct (HR ltac:(lia)) as (Rmid & ER & HRmid).
    rewrite HlenL, nth_firstn in EL. rewrite nth_firstn in EL.
    replace (Nat.ltb 0 (S mi)) with true in EL by reflexivity.
    replace (Nat.ltb (S mi - 1) (S mi)) with true in EL
      by (symmetry; apply Nat.ltb_lt; lia).
    replace (S mi - 1)%nat with mi in EL by lia.
    rewrite HlenR, !nth_skipn in ER.
    replace (mi + 0)%nat with mi in ER by lia.
    replace (mi + (length points - mi - 1))%nat with (length points - 1)%nat
      in ER by lia.
    set (a := nth 0 points origin) in *.
    set (m := nth mi points origin) in *.
    set (b := nth (length points - 1) points origin) in *.
    pose proof (IH (firstn (S mi) points) _ ltac:(lia) EL) as IL.
    pose proof (IH (skipn mi points) _ ltac:(lia) ER) as IR.
    rewrite EL, ER in Hr.
    change (a :: Lmid ++ [m]) with ((a :: Lmid) ++ [m]) in Hr.
    rewrite removelast_snoc in Hr. injection Hr as Hr. simpl in Hr.
    pose proof (farthest_computed points) as Hs. cbv zeta in Hs.
    rewrite Hf in Hs. simpl in Hs.
    destruct Hs as [[E _] | (_ & Hdm & Hpos & Hbefore & Hafter)].
    { injection E as -> ->. lia. }
    fold a b m in Hdm, Hbefore, Hafter.
    assert (Hr' : r = a :: (Lmid ++ m :: Rmid) ++ [b])
      by (rewrite <- Hr; simpl; now rewrite <- app_assoc).
    clear Hr Hr0. subst r.
    set (r := a :: (Lmid ++ m :: Rmid) ++ [b]).
    assert (Hlast : nth (length r - 1) r origin = b) by apply nth_at_end.
    assert (Hlenr : length r = S (S (S (length Lmid + length Rmid))))
      by (unfold r; simpl; rewrite !length_app; simpl; lia).
    assert (Hinner : forall i, (1 <= i < length r - 1)%nat ->
              nth i r origin = nth (i - 1) (Lmid ++ m :: Rmid) origin).
    { intros i Hi. unfold r. apply nth_between.
      rewrite length_app. simpl. lia. }
    assert (Hfr : farthest r = (md, S (length Lmid))).
    { apply farthest_determined.
      - lia.
      - rewrite Hlast, Hinner by lia. change (nth 0 r origin) with a.
        replace (S (length Lmid) - 1)%nat with (length Lmid) by lia.
        rewrite nth_middle. now symmetry.
      - exact Hpos.
      - intros i Hi. rewrite Hlast, Hinner by lia.
        change (nth 0 r origin) with a.
        rewrite app_nth1 by lia.
        destruct (HLmid (nth (i - 1) Lmid origin)) as (j & Hj & Ej).
        { apply nth_In. lia. }
        rewrite HlenL in Hj. rewrite nth_firstn in Ej.
        replace (Nat.ltb j (S mi)) with true in Ej
          by (symmetry; apply Nat.ltb_lt; lia).
        rewrite <- Ej. apply Hbefore. lia.
      - intros i Hi. rewrite Hlast, Hinner by lia.
        change (nth 0 r origin) with a.
        rewrite app_nth2 by lia.
        replace (i - 1 - length Lmid)%nat with (S (i - 2 - length Lmid))
          by lia.
        cbn [nth].
        destruct (HRmid (nth (i - 2 - length Lmid) Rmid origin))
          as (j & Hj & Ej).
        { apply nth_In. lia. }
        rewrite HlenR in Hj. rewrite nth_skipn in Ej.
        rewrite <- Ej. apply Hafter. lia. }
    rewrite simplifyPolyline_equation by exact Htol. unfold simplify_once.
    rewrite Hfr, Hgt.
    replace (Nat.leb (length r) 2) with false
      by (symmetry; apply Nat.leb_gt; lia).
    assert (Hr1 : r = (a :: Lmid ++ [m]) ++ (Rmid ++ [b]))
      by (unfold r; simpl; now rewrite <- !app_assoc).
    assert (Hr2 : r = (a :: Lmid) ++ (m :: Rmid ++ [b]))
      by (unfold r; simpl; now rewrite <- !app_assoc).
    replace (firstn (S (S (length Lmid))) r) with (a :: Lmid ++ [m]).
    2:{ rewrite Hr1.
        replace (S (S (length Lmid))) with (length (a :: Lmid ++ [m]))
          by (simpl; rewrite length_app; simpl; lia).
        now rewrite firstn_all_app. }
    replace (skipn (S (length Lmid)) r) with (m :: Rmid ++ [b]).
    2:{ rewrite Hr2.
        replace (S (length Lmid)) with (length (a :: Lmid)) by reflexivity.
        now rewrite skipn_all_app. }
    rewrite IL, IR. f_equal.
    change (a :: Lmid ++ [m]) with ((a :: Lmid) ++ [m]).
    rewrite removelast_snoc. now rewrite Hr2.
Qed.

(** *** Tolerance 0 *)

Lemma off_every_chord_firstn (points : list pt) (n : nat) :
  off_every_chord points -> off_every_chord (firstn n points).
Proof.
  intros H i j k Hijk Hk. rewrite length_firstn in Hk.
  rewrite !nth_firstn.
  replace (Nat.ltb i n) with true by (symmetry; apply Nat.ltb_lt; lia).
  replace (Nat.ltb j n) with true by (symmetry; apply Nat.ltb_lt; lia).
  replace (Nat.ltb k n) with true by (symmetry; apply Nat.ltb_lt; lia).
  apply H; lia.
Qed.

Lemma off_every_chord_skipn (points : list pt) (n : nat) :
  off_every_chord points -> off_every_chord (skipn n points).
Proof.
  intros H i j k Hijk Hk. rewrite length_skipn in Hk.
  rewrite !nth_skipn. apply H; lia.
Qed.

Lemma simplifyPolyline_keeps_all :
  forall (n : nat) (points : list pt),
    (length points <= n)%nat -> off_every_chord points ->
    simplifyPolyline points 0 = Some points.
Proof.
  induction n as [| n IH]; intros points Hn Hgen.
  - destruct points; [reflexivity | simpl in Hn; lia].
  - rewrite simplifyPolyline_equation by reflexivity. unfold simplify_once.
    destruct (Nat.leb (length points) 2) eqn:Hlen; [reflexivity |].
    apply Nat.leb_gt in Hlen.
    destruct (farthest points) as [md mi] eqn:Hf.
    pose proof (farthest_computed points) as Hs. cbv zeta in Hs.
    rewrite Hf in Hs. simpl in Hs.
    pose proof (Hgen 0%nat 1%nat (length points - 1)%nat ltac:(lia) ltac:(lia))
      as Hpos.
    destruct Hs as [[_ Hno] | (Hmi & _ & Hgt & _)].
    { specialize (Hno 1%nat ltac:(lia)). congruence. }
    rewrite Hgt.
    rewrite (IH (firstn (S mi) points)), (IH (skipn mi points)).
    + rewrite removelast_firstn by lia. now rewrite firstn_skipn.
    + rewrite length_skipn. lia.
    + now apply off_every_chord_skipn.
    + rewrite length_firstn. lia.
    + now apply off_every_chord_firstn.
Qed.

(** *** Inner points within the tolerance *)

Lemma simplifyPolyline_collapses (points : list pt) (tol : float) :
  (tol <? 0) = false -> (2 <= length points)%nat ->
  within_of_chord tol points ->
  simplifyPolyline points tol
  = Some [nth 0 points origin; nth (length points - 1) points origin].
Proof.
  intros Htol Hlen Hin. rewrite simplifyPolyline_equation by exact Htol.
  unfold simplify_once.
  destruct (Nat.leb (length points) 2) eqn:E.
  - apply Nat.leb_le in E.
    destruct points as [| a [| b [| c points]]]; simpl in *; try lia.
    reflexivity.
  - destruct (farthest points) as [md mi] eqn:Hf.
    pose proof (farthest_computed points) as Hs. cbv zeta in Hs.
    rewrite Hf in Hs. simpl in Hs.
    destruct Hs as [[F _] | (Hmi & Hd & _)].
    + injection F as -> ->. now rewrite Htol.
    + rewrite Hd, (Hin mi Hmi). reflexivity.
Qed.




End EdgeTracer64Facts.
